(** * EoN simulation engines: a shallow embedding of [EoN/simulation.py]

    The development follows the layout of the Python module:

    - [Py]: the fragment of Python the module relies on (exceptions, numbers
      with [float('Inf')], list indexing, truthiness);
    - [myQueue]: the priority queue of pending events;
    - [ListDict]: the list-plus-dict set [_ListDict_] with O(1) removal;
    - [Gillespie]: [_Gillespie_initialize_*], [_Gillespie_infect_],
      [_Gillespie_recover_*], [Gillespie_SIR], [Gillespie_SIS];
    - [EventDriven]: [_process_trans_SIR_], [_process_rec_SIR_],
      [fast_nonMarkov_SIR] and the SIS handlers with [fast_SIS] and
      [fast_nonMarkov_SIS].

    The embedding is followed by the predicates of the specification, the
    proofs about the engines, and the properties themselves, one theorem
    for each.

    Modelling conventions.

    - Floating point numbers are rationals extended with [+oo] ([number]);
      rounding, [-oo] and NaN are not modelled.
    - Every call of the [random] module (and of a user supplied delay
      function, which may be random) reads its outcome from an explicit
      draw that the caller passes in; a run is driven by a list of draws,
      one per loop iteration.
    - Mutable objects that the Python code threads through its handlers
      (the lists [times], [S], [I], [R], the dicts [status], [rec_time], ...)
      are the fields of one store record that each handler transforms.
    - A raised exception is the value [Raise e]. *)

From Stdlib Require Import QArith Qround Lqa ZArith Lia Sorting.Sorted.
From stdpp Require Import base option list gmap.

(** ** The Python fragment *)

Module Py.

Inductive exn :=
| IndexError | KeyError | NameError | ZeroDivisionError | ValueError
| TypeError | AssertionError | NetworkXError | EoNError.

(** The outcome of a call. [BadDraw] is not a Python outcome: it says that
    the draws handed to the call do not describe a run, because a draw lies
    outside the range of the random function that reads it, or because the
    list of draws ended before the loop did. *)
Inductive result (A : Type) :=
| Ok (a : A)
| Raise (e : exn)
| BadDraw.
Arguments Ok {A} a.
Arguments Raise {A} e.
Arguments BadDraw {A}.

#[export] Instance result_ret : MRet result := @Ok.
#[export] Instance result_bind : MBind result := λ A B f m,
  match m with
  | Ok a => f a
  | Raise e => Raise e
  | BadDraw => BadDraw
  end.

Definition py_assert (b : bool) : result unit :=
  if b then Ok tt else Raise AssertionError.

(** [l[-1]] *)
Definition py_last {A} (l : list A) : result A :=
  match last l with
  | Some x => Ok x
  | None => Raise IndexError
  end.

(** [l.pop()]: the list without its last element, and that element. *)
Definition py_pop {A} (l : list A) : result (list A * A) :=
  match last l with
  | Some x => Ok (removelast l, x)
  | None => Raise IndexError
  end.

(** [l[i]] and [l[i] = x] for a non-negative index. *)
Definition py_get {A} (l : list A) (i : nat) : result A :=
  match l !! i with
  | Some x => Ok x
  | None => Raise IndexError
  end.

Definition py_set {A} (l : list A) (i : nat) (x : A) : result (list A) :=
  if decide (i < length l) then Ok (<[i := x]> l) else Raise IndexError.

(** [l[k:]] *)
Definition py_slice_from {A} (k : nat) (l : list A) : list A := drop k l.

(** Numbers: a float is a rational or [float('Inf')]. *)
Inductive number :=
| Fin (q : Q)
| Inf.

Definition tadd (a b : number) : number :=
  match a, b with
  | Fin x, Fin y => Fin (x + y)
  | _, _ => Inf
  end.

Definition tlt (a b : number) : bool :=
  match a, b with
  | Fin x, Fin y => QMicromega.Qlt_bool x y
  | Fin _, Inf => true
  | Inf, _ => false
  end.

Definition tle (a b : number) : bool :=
  match a, b with
  | Fin x, Fin y => Qle_bool x y
  | _, Inf => true
  | Inf, Fin _ => false
  end.

(** [t - 1] *)
Definition tpred (a : number) : number :=
  match a with
  | Fin x => Fin (x - 1)
  | Inf => Inf
  end.

Definition teq (a b : number) : bool :=
  match a, b with
  | Fin x, Fin y => Qeq_bool x y
  | Inf, Inf => true
  | _, _ => false
  end.

(** [random.choice(seq)] with the draw [k]: [seq[_randbelow(len(seq))]]. *)
Definition random_choice {A} (l : list A) (k : nat) : result A :=
  match l with
  | [] => Raise IndexError
  | _ => py_get l (k mod length l)
  end.

(** [random.randint(a, b)] with the draw [k]. *)
Definition random_randint (a b : Z) (k : nat) : result Z :=
  if decide (b < a)%Z then Raise ValueError
  else Ok (a + Z.of_nat k mod (b - a + 1))%Z.

(** [random.random()] with the draw [u], a number of [[0, 1)]. *)
Definition random_random (u : Q) : result Q :=
  if Qle_bool 0 u && QMicromega.Qlt_bool u 1 then Ok u else BadDraw.

(** [random.expovariate(lambd)] with the draw [x]: the result is
    [-log(1 - random()) / lambd], so the division fails when the rate is
    zero, and the result has the sign of the rate. *)
Definition random_expovariate (lambd : Q) (x : Q) : result number :=
  if Qeq_bool lambd 0 then Raise ZeroDivisionError
  else if QMicromega.Qlt_bool 0 lambd then
    if Qle_bool 0 x then Ok (Fin x) else BadDraw
  else
    if Qle_bool x 0 then Ok (Fin x) else BadDraw.

(** [random.sample(population, k)] with the draw [smp]. *)
Definition random_sample (population : list nat) (k : Z) (smp : list nat)
  : result (list nat) :=
  if decide (k < 0 ∨ Z.of_nat (length population) < k)%Z then Raise ValueError
  else if decide (Z.of_nat (length smp) = k ∧ NoDup smp ∧ smp ⊆ population)
  then Ok smp else BadDraw.

(** [int(round(x))]: Python 3 rounds a tie to the even neighbour. *)
Definition py_round (x : Q) : Z :=
  let f := Qfloor x in
  let d := (x - inject_Z f)%Q in
  if QMicromega.Qlt_bool d (1 # 2) then f
  else if QMicromega.Qlt_bool (1 # 2) d then (f + 1)%Z
  else if Z.even f then f else (f + 1)%Z.

(** [for x in l: body], threading the store. *)
Fixpoint py_for {A St} (l : list A) (body : A → St → result St) (s : St)
  : result St :=
  match l with
  | [] => Ok s
  | x :: l' => s' ← body x s; py_for l' body s'
  end.

End Py.
Export Py.

Notation "t1 +ₜ t2" := (tadd t1 t2) (at level 50, left associativity).
Notation "t1 <ₜ t2" := (tlt t1 t2 = true) (at level 70).
Notation "t1 ≤ₜ t2" := (tle t1 t2 = true) (at level 70).

(** ** [class myQueue] *)

Module myQueue.
Section Queue.
(** [F] stands for the pair (function, function_arguments) of an event. *)
Context {F : Type}.

Record event := Event {
  ev_time : number;
  ev_counter : nat;
  ev_call : F
}.

(** [_Q_] is the heap. [heapq] keeps a binary heap in a list; it is
    modelled by what [heappush] and [heappop] guarantee: the list is kept
    ordered by the tuple order, and [heappop] takes the least tuple. *)
Record t := Build {
  _Q_ : list event;
  tmax : number;
  counter : nat
}.

(** [myQueue(tmax)] *)
Definition init (tmax : number) : t :=
  {| _Q_ := []; tmax := tmax; counter := 0 |}.

(** Tuples compare on the time, then on the counter. *)
Definition tuple_lt (a b : event) : bool :=
  tlt (ev_time a) (ev_time b)
  || (teq (ev_time a) (ev_time b) && (ev_counter a <? ev_counter b)).

Fixpoint heappush (h : list event) (e : event) : list event :=
  match h with
  | [] => [e]
  | x :: h' => if tuple_lt e x then e :: x :: h' else x :: heappush h' e
  end.

Definition heappop (h : list event) : result (event * list event) :=
  match h with
  | [] => Raise IndexError
  | x :: h' => Ok (x, h')
  end.

Definition add (time : number) (call : F) (q : t) : t :=
  if tlt time (tmax q) then
    {| _Q_ := heappush (_Q_ q) (Event time (counter q) call);
       tmax := tmax q;
       counter := counter q + 1 |}
  else q.

(** [pop_and_run]: [run t call q'] stands for [function(t, *args)],
    executed on the queue [q'] that no longer holds the event. *)
Definition pop_and_run {B} (run : number → F → t → result B) (q : t)
  : result B :=
  '(e, h) ← heappop (_Q_ q);
  run (ev_time e) (ev_call e)
      {| _Q_ := h; tmax := tmax q; counter := counter q |}.

Definition len (q : t) : nat := length (_Q_ q).

(** For the statements about all the events enqueued so far: a history of
    calls on one queue ([OpPop] stands for the [heappop] of
    [pop_and_run]), and the log of the events that [add] has pushed. *)
Inductive op :=
| OpAdd (time : number) (call : F)
| OpPop.

Definition pushed (time : number) (call : F) (q : t) : list event :=
  if tlt time (tmax q) then [Event time (counter q) call] else [].

Fixpoint replay (ops : list op) (q : t) (log : list event)
  : t * list event :=
  match ops with
  | [] => (q, log)
  | OpAdd time call :: ops' =>
      replay ops' (add time call q) (log ++ pushed time call q)
  | OpPop :: ops' =>
      match heappop (_Q_ q) with
      | Ok (_, h) =>
          replay ops' {| _Q_ := h; tmax := tmax q; counter := counter q |} log
      | _ => replay ops' q log
      end
  end.
End Queue.
Arguments event : clear implicits.
Arguments t : clear implicits.
End myQueue.

(** ** [class _ListDict_] *)

Module ListDict.
Section ListDict.
Context {K : Type} `{Countable K}.

Record t := Build {
  item_to_position : gmap K nat;
  items : list K
}.

Definition init : t := {| item_to_position := ∅; items := [] |}.

Definition len (d : t) : nat := length (items d).

Definition add (item : K) (d : t) : t :=
  if decide (is_Some (item_to_position d !! item)) then d
  else
    let items' := items d ++ [item] in
    {| items := items';
       item_to_position :=
         <[item := length items' - 1]> (item_to_position d) |}.

Definition remove (item : K) (d : t) : result t :=
  match item_to_position d !! item with
  | None => Raise KeyError
  | Some position =>
      let i2p := delete item (item_to_position d) in
      '(items', last_item) ← py_pop (items d);
      if decide (position ≠ length items') then
        items'' ← py_set items' position last_item;
        Ok {| items := items'';
              item_to_position := <[last_item := position]> i2p |}
      else Ok {| items := items'; item_to_position := i2p |}
  end.

Definition choose_random (d : t) (k : nat) : result K :=
  random_choice (items d) k.

(** The representation invariant: the dict maps each item to its index. *)
Definition wf (d : t) : Prop :=
  ∀ x p, item_to_position d !! x = Some p ↔ items d !! p = Some x.
End ListDict.
Arguments t K {_ _}.
End ListDict.

(** ** Graphs and node status *)

(** A networkx graph is its adjacency dict: every node maps to the list of
    its neighbours, in the order [G.neighbors] yields them. *)
Abbreviation Node := nat.
Abbreviation Graph := (gmap nat (list nat)).

Module Net.

Definition order (G : Graph) : Z := Z.of_nat (size G).

Definition nodes (G : Graph) : list Node := (map_to_list G).*1.

Definition has_node (G : Graph) (n : Node) : bool :=
  bool_decide (is_Some (G !! n)).

Definition neighbors (G : Graph) (n : Node) : result (list Node) :=
  match G !! n with
  | Some ns => Ok ns
  | None => Raise NetworkXError
  end.

(** The neighbours as a total function, for statements. *)
Definition nbrs (G : Graph) (n : Node) : list Node := default [] (G !! n).

(** An undirected graph without parallel edges: adjacency is symmetric and
    no neighbour is listed twice. *)
Definition undirected (G : Graph) : Prop :=
  map_Forall (λ u ns, NoDup ns ∧ Forall (λ v, u ∈ nbrs G v) ns) G.

#[export] Instance undirected_dec G : Decision (undirected G).
Proof. unfold undirected. apply _. Defined.

Inductive Status := Susceptible | Infected | Recovered.

#[export] Instance Status_eq_dec : EqDecision Status.
Proof. solve_decision. Defined.

(** [status = defaultdict(lambda: 'S')] *)
Definition status_of (status : gmap Node Status) (n : Node) : Status :=
  default Susceptible (status !! n).

(** [initial_infecteds]: a node, or an iterable of nodes. *)
Inductive init_arg :=
| OneNode (n : Node)
| Nodes (l : list Node).

(** The lines shared by the entry points:
[[
    if initial_infecteds is None:
        if rho is None: initial_number = 1
        else: initial_number = int(round(G.order()*rho))
        initial_infecteds = random.sample(G.nodes(), initial_number)
    elif G.has_node(initial_infecteds):
        initial_infecteds = [initial_infecteds]
]]
    A node that is not in the graph is then used as a list, which fails. *)
Definition resolve_initial (G : Graph) (initial_infecteds : option init_arg)
    (rho : option Q) (smp : list Node) : result (list Node) :=
  match initial_infecteds with
  | None =>
      let initial_number :=
        match rho with
        | None => 1%Z
        | Some rho => py_round (inject_Z (order G) * rho)
        end in
      random_sample (nodes G) initial_number smp
  | Some (OneNode n) => if has_node G n then Ok [n] else Raise TypeError
  | Some (Nodes l) => Ok l
  end.

(** The number of nodes of [G] with status [x]. *)
Definition count_status (G : Graph) (status : gmap Node Status) (x : Status)
  : Z :=
  Z.of_nat (length (filter (λ n, status_of status n = x) (nodes G))).

(** The number of infected neighbours of [v]. *)
Definition infected_neighbors (G : Graph) (status : gmap Node Status)
    (v : Node) : Z :=
  Z.of_nat (length (filter (λ u, status_of status u = Infected) (nbrs G v))).

End Net.
Export Net.

(** ** The Gillespie engines *)

Module Gillespie.

(** The objects built by [_Gillespie_initialize_*] and mutated by the
    handlers. [risk_group] is a [defaultdict] whose keys are iterated, so it
    is an association list in insertion order. [R_] is unused by the SIS
    engine, which passes a fresh [[]] to [_Gillespie_infect_]. *)
Record state := State {
  times : list number;
  S_ : list Z;
  I_ : list Z;
  R_ : list Z;
  status : gmap Node Status;
  infected : list Node;
  infected_neighbor_count : gmap Node Z;
  risk_group : list (Z * ListDict.t Node);
  infection_times : gmap Node (list number);
  recovery_times : gmap Node (list number)
}.

(** [infected_neighbor_count = defaultdict(lambda: 0)] *)
Definition count_of (c : gmap Node Z) (n : Node) : Z := default 0%Z (c !! n).

(** [risk_group[k]], and the assignment of a bucket to a key: a key that is
    read for the first time is appended with an empty [_ListDict_]. *)
Fixpoint rg_get (rg : list (Z * ListDict.t Node)) (k : Z) : ListDict.t Node :=
  match rg with
  | [] => ListDict.init
  | (k', d) :: rg' => if decide (k = k') then d else rg_get rg' k
  end.

Fixpoint rg_set (rg : list (Z * ListDict.t Node)) (k : Z) (d : ListDict.t Node)
  : list (Z * ListDict.t Node) :=
  match rg with
  | [] => [(k, d)]
  | (k', d') :: rg' =>
      if decide (k = k') then (k, d) :: rg' else (k', d') :: rg_set rg' k d
  end.

Definition rg_keys (rg : list (Z * ListDict.t Node)) : list Z := rg.*1.

(** [risk_group[k].add(x)] and [risk_group[k].remove(x)] *)
Definition rg_add (k : Z) (x : Node) (rg : list (Z * ListDict.t Node))
  : list (Z * ListDict.t Node) :=
  rg_set rg k (ListDict.add x (rg_get rg k)).

Definition rg_remove (k : Z) (x : Node) (rg : list (Z * ListDict.t Node))
  : result (list (Z * ListDict.t Node)) :=
  d ← ListDict.remove x (rg_get rg k);
  Ok (rg_set rg k d).

(** [sum(n*len(risk_group[n]) for n in risk_group.keys())] *)
Definition weighted_size (rg : list (Z * ListDict.t Node)) : Z :=
  foldr (λ n acc, n * Z.of_nat (ListDict.len (rg_get rg n)) + acc)%Z 0%Z
        (rg_keys rg).

(** Setters for the fields that the neighbour loops update. *)
Definition set_risk (c : gmap Node Z) (rg : list (Z * ListDict.t Node))
    (s : state) : state :=
  {| times := times s; S_ := S_ s; I_ := I_ s; R_ := R_ s;
     status := status s; infected := infected s;
     infected_neighbor_count := c; risk_group := rg;
     infection_times := infection_times s;
     recovery_times := recovery_times s |}.

(** The body of the neighbour loop of [_Gillespie_initialize_*]:
[[
    if status[neighbor]=='S':
        infected_neighbor_count[neighbor] += 1
        if infected_neighbor_count[neighbor]>1:
            risk_group[infected_neighbor_count[neighbor]-1].remove(neighbor)
        risk_group[infected_neighbor_count[neighbor]].add(neighbor)
]] *)
Definition initialize_neighbor (neighbor : Node) (s : state) : result state :=
  if decide (status_of (status s) neighbor = Susceptible) then
    let c := (count_of (infected_neighbor_count s) neighbor + 1)%Z in
    let cnt := <[neighbor := c]> (infected_neighbor_count s) in
    rg ← (if decide (c > 1)%Z
          then rg_remove (c - 1) neighbor (risk_group s)
          else Ok (risk_group s));
    Ok (set_risk cnt (rg_add c neighbor rg) s)
  else Ok s.

Definition initialize_risk (G : Graph) (initial_infecteds : list Node)
    (s : state) : result state :=
  py_for initial_infecteds
    (λ node s, ns ← neighbors G node; py_for ns initialize_neighbor s) s.

Definition set_all {A} (l : list Node) (x : A) (m : gmap Node A)
  : gmap Node A :=
  foldl (λ m n, <[n := x]> m) m l.

Definition _Gillespie_initialize_SIR_ (G : Graph)
    (initial_infecteds : list Node) (initial_recovereds : option (list Node))
    (tmin : number) (return_full_data : bool) : result state :=
  let status := set_all initial_infecteds Infected ∅ in
  let status :=
    match initial_recovereds with
    | Some l => set_all l Recovered status
    | None => status
    end in
  let recovery_times :=
    match initial_recovereds with
    | Some l => if return_full_data then set_all l [tpred tmin] ∅ else ∅
    | None => ∅
    end in
  s ← initialize_risk G initial_infecteds
    {| times := [tmin];
       S_ := [order G - Z.of_nat (length initial_infecteds)]%Z;
       I_ := [Z.of_nat (length initial_infecteds)];
       R_ := [0%Z];
       status := status;
       infected := initial_infecteds;
       infected_neighbor_count := ∅;
       risk_group := [];
       infection_times := ∅;
       recovery_times := recovery_times |};
  Ok {| times := times s; S_ := S_ s; I_ := I_ s; R_ := R_ s;
        status := Gillespie.status s; infected := infected s;
        infected_neighbor_count := infected_neighbor_count s;
        risk_group := risk_group s;
        infection_times :=
          if return_full_data then set_all initial_infecteds [tmin] ∅ else ∅;
        recovery_times := Gillespie.recovery_times s |}.

Definition _Gillespie_initialize_SIS_ (G : Graph)
    (initial_infecteds : list Node) (tmin : number) (return_full_data : bool)
  : result state :=
  s ← initialize_risk G initial_infecteds
    {| times := [tmin];
       S_ := [order G - Z.of_nat (length initial_infecteds)]%Z;
       I_ := [Z.of_nat (length initial_infecteds)];
       R_ := [];
       status := set_all initial_infecteds Infected ∅;
       infected := initial_infecteds;
       infected_neighbor_count := ∅;
       risk_group := [];
       infection_times := ∅;
       recovery_times := ∅ |};
  Ok {| times := times s; S_ := S_ s; I_ := I_ s; R_ := R_ s;
        status := status s; infected := infected s;
        infected_neighbor_count := infected_neighbor_count s;
        risk_group := risk_group s;
        infection_times :=
          if return_full_data then set_all initial_infecteds [tmin] ∅ else ∅;
        recovery_times := recovery_times s |}.

(** The weighted scan of [_Gillespie_infect_]:
[[
    for n in risk_group.keys():
        r -= n*len(risk_group[n])
        if r<0: break
]]
    [scan] returns the value of [n] after the loop, [None] while [n] is
    still unbound. *)
Fixpoint scan (rg : list (Z * ListDict.t Node)) (keys : list Z) (r : Q)
    (n : option Z) : option Z :=
  match keys with
  | [] => n
  | k :: keys' =>
      let r' := (r - inject_Z (k * Z.of_nat (ListDict.len (rg_get rg k))))%Q in
      if QMicromega.Qlt_bool r' 0 then Some k else scan rg keys' r' (Some k)
  end.

(** The choice of the recipient: the bucket, then the node in it. *)
Definition choose_recipient (rg : list (Z * ListDict.t Node)) (u : Q) (k : nat)
  : result (Z * Node) :=
  u ← random_random u;
  let r := (u * inject_Z (weighted_size rg))%Q in
  n ← match scan rg (rg_keys rg) r None with
      | Some n => Ok n
      | None => Raise NameError
      end;
  recipient ← ListDict.choose_random (rg_get rg n) k;
  Ok (n, recipient).

(** The body of the neighbour loop of [_Gillespie_infect_]. *)
Definition infect_neighbor (neighbor : Node) (s : state) : result state :=
  if decide (status_of (status s) neighbor = Susceptible) then
    let c := count_of (infected_neighbor_count s) neighbor in
    rg ← (if decide (c > 0)%Z
          then rg_remove c neighbor (risk_group s)
          else Ok (risk_group s));
    let cnt := <[neighbor := (c + 1)%Z]> (infected_neighbor_count s) in
    Ok (set_risk cnt (rg_add (c + 1) neighbor rg) s)
  else Ok s.

Definition _Gillespie_infect_ (G : Graph) (SIR : bool) (current_time : number)
    (u : Q) (k : nat) (s : state) : result state :=
  '(n, recipient) ← choose_recipient (risk_group s) u k;
  _ ← py_assert (bool_decide (status_of (status s) recipient = Susceptible));
  rg ← rg_remove n recipient (risk_group s);
  s_last ← py_last (S_ s);
  i_last ← py_last (I_ s);
  R' ← (if SIR then r_last ← py_last (R_ s); Ok (R_ s ++ [r_last])
        else Ok (R_ s));
  ns ← neighbors G recipient;
  py_for ns infect_neighbor
    {| times := times s ++ [current_time];
       S_ := S_ s ++ [s_last - 1]%Z;
       I_ := I_ s ++ [i_last + 1]%Z;
       R_ := R';
       status := <[recipient := Infected]> (status s);
       infected := infected s ++ [recipient];
       infected_neighbor_count := infected_neighbor_count s;
       risk_group := rg;
       infection_times :=
         <[recipient :=
             default [] (infection_times s !! recipient) ++ [current_time]]>
           (infection_times s);
       recovery_times := recovery_times s |}.

(** [index = random.randint(0, I[-1]-1)], the swap with the last entry
    and [infected.pop()]. *)
Definition pop_random_infected (s : state) (k : nat)
  : result (list Node * Node) :=
  i_last ← py_last (I_ s);
  index ← random_randint 0 (i_last - 1) k;
  let index := Z.to_nat index in
  a ← py_last (infected s);
  b ← py_get (infected s) index;
  l1 ← py_set (infected s) index a;
  l2 ← py_set l1 (length l1 - 1) b;
  py_pop l2.

(** The body of the neighbour loop of [_Gillespie_recover_SIR_]. *)
Definition recover_neighbor_SIR (neighbor : Node) (s : state) : result state :=
  if decide (status_of (status s) neighbor = Susceptible) then
    let c := count_of (infected_neighbor_count s) neighbor in
    rg ← rg_remove c neighbor (risk_group s);
    let cnt := <[neighbor := (c - 1)%Z]> (infected_neighbor_count s) in
    Ok (set_risk cnt
          (if decide (c - 1 > 0)%Z then rg_add (c - 1) neighbor rg else rg) s)
  else Ok s.

Definition append_time (m : gmap Node (list number)) (n : Node) (t : number)
  : gmap Node (list number) :=
  <[n := default [] (m !! n) ++ [t]]> m.

Definition _Gillespie_recover_SIR_ (G : Graph) (return_full_data : bool)
    (current_time : number) (k : nat) (s : state) : result state :=
  '(infected', recovering_node) ← pop_random_infected s k;
  i_last ← py_last (I_ s);
  s_last ← py_last (S_ s);
  r_last ← py_last (R_ s);
  ns ← neighbors G recovering_node;
  s' ← py_for ns recover_neighbor_SIR
    {| times := times s ++ [current_time];
       S_ := S_ s ++ [s_last];
       I_ := I_ s ++ [i_last - 1]%Z;
       R_ := R_ s ++ [r_last + 1]%Z;
       status := <[recovering_node := Recovered]> (status s);
       infected := infected';
       infected_neighbor_count := infected_neighbor_count s;
       risk_group := risk_group s;
       infection_times := infection_times s;
       recovery_times := recovery_times s |};
  Ok {| times := times s'; S_ := S_ s'; I_ := I_ s'; R_ := R_ s';
        status := status s'; infected := infected s';
        infected_neighbor_count := infected_neighbor_count s';
        risk_group := risk_group s';
        infection_times := infection_times s';
        recovery_times :=
          if return_full_data
          then append_time (recovery_times s') recovering_node current_time
          else recovery_times s' |}.

(** The body of the neighbour loop of [_Gillespie_recover_SIS_]:
[[
    if neighbor == recovering_node: continue
    if status[neighbor] == 'I':
        infected_neighbor_count[recovering_node] += 1
    else:
        risk_group[infected_neighbor_count[neighbor]].remove(neighbor)
        infected_neighbor_count[neighbor] -= 1
        if infected_neighbor_count[neighbor]>0:
            risk_group[infected_neighbor_count[neighbor]].add(neighbor)
]] *)
Definition recover_neighbor_SIS (recovering_node neighbor : Node) (s : state)
  : result state :=
  if decide (neighbor = recovering_node) then Ok s
  else if decide (status_of (status s) neighbor = Infected) then
    let c := count_of (infected_neighbor_count s) recovering_node in
    Ok (set_risk (<[recovering_node := (c + 1)%Z]> (infected_neighbor_count s))
                 (risk_group s) s)
  else
    let c := count_of (infected_neighbor_count s) neighbor in
    rg ← rg_remove c neighbor (risk_group s);
    let cnt := <[neighbor := (c - 1)%Z]> (infected_neighbor_count s) in
    Ok (set_risk cnt
          (if decide (c - 1 > 0)%Z then rg_add (c - 1) neighbor rg else rg) s).

Definition _Gillespie_recover_SIS_ (G : Graph) (return_full_data : bool)
    (current_time : number) (k : nat) (s : state) : result state :=
  i_last ← py_last (I_ s);
  _ ← py_assert (bool_decide (i_last = Z.of_nat (length (infected s))));
  '(infected', recovering_node) ← pop_random_infected s k;
  s_last ← py_last (S_ s);
  ns ← neighbors G recovering_node;
  s' ← py_for ns (recover_neighbor_SIS recovering_node)
    {| times := times s ++ [current_time];
       S_ := S_ s ++ [s_last + 1]%Z;
       I_ := I_ s ++ [i_last - 1]%Z;
       R_ := R_ s;
       status := <[recovering_node := Susceptible]> (status s);
       infected := infected';
       infected_neighbor_count :=
         <[recovering_node := 0%Z]> (infected_neighbor_count s);
       risk_group := risk_group s;
       infection_times := infection_times s;
       recovery_times := recovery_times s |};
  let c := count_of (infected_neighbor_count s') recovering_node in
  Ok {| times := times s'; S_ := S_ s'; I_ := I_ s'; R_ := R_ s';
        status := status s'; infected := infected s';
        infected_neighbor_count := infected_neighbor_count s';
        risk_group :=
          if decide (c > 0)%Z
          then rg_add c recovering_node (risk_group s')
          else risk_group s';
        infection_times := infection_times s';
        recovery_times :=
          if return_full_data
          then append_time (recovery_times s') recovering_node current_time
          else recovery_times s' |}.

(** The local variables of the main loops. *)
Record loop := Loop {
  st : state;
  total_rec_rate : Q;
  total_rate : Q;
  next_time : number
}.

(** The draws read by one iteration: [random.random()] for the kind of
    event, the index for [randint] or [choice], [random.random()] for the
    weighted scan, and the outcome of [random.expovariate]. *)
Record draw := Draw {
  d_event : Q;
  d_index : nat;
  d_scan : Q;
  d_delay : Q
}.

Definition total_trans_rate (tau : Q) (s : state) : Q :=
  (tau * inject_Z (weighted_size (risk_group s)))%Q.

(** [while next_time<tmax and infected:] *)
Definition loop_test (tmax : number) (l : loop) : bool :=
  tlt (next_time l) tmax && bool_decide (infected (st l) ≠ []).

(** One iteration of the loop of [Gillespie_SIR]. *)
Definition SIR_iteration (G : Graph) (tau gamma : Q) (return_full_data : bool)
    (d : draw) (l : loop) : result loop :=
  u ← random_random (d_event d);
  let r := (u * total_rate l)%Q in
  '(s, total_rec_rate) ←
    (if QMicromega.Qlt_bool r (total_rec_rate l) then
       s ← _Gillespie_recover_SIR_ G return_full_data (next_time l)
             (d_index d) (st l);
       i_last ← py_last (I_ s);
       Ok (s, (gamma * inject_Z i_last)%Q)
     else
       s ← _Gillespie_infect_ G true (next_time l) (d_scan d) (d_index d)
             (st l);
       Ok (s, total_rec_rate l));
  let total_rate := (total_rec_rate + total_trans_rate tau s)%Q in
  next_time ←
    (if QMicromega.Qlt_bool 0 total_rate then
       dt ← random_expovariate total_rate (d_delay d);
       Ok (next_time l +ₜ dt)
     else Ok (next_time l));
  Ok {| st := s; total_rec_rate := total_rec_rate;
        total_rate := total_rate; next_time := next_time |}.

(** One iteration of the loop of [Gillespie_SIS]; it differs in the
    recovery handler and in the [else] branch that ends the run. *)
Definition SIS_iteration (G : Graph) (tau gamma : Q) (return_full_data : bool)
    (d : draw) (l : loop) : result loop :=
  u ← random_random (d_event d);
  let r := (u * total_rate l)%Q in
  '(s, total_rec_rate) ←
    (if QMicromega.Qlt_bool r (total_rec_rate l) then
       s ← _Gillespie_recover_SIS_ G return_full_data (next_time l)
             (d_index d) (st l);
       i_last ← py_last (I_ s);
       Ok (s, (gamma * inject_Z i_last)%Q)
     else
       s ← _Gillespie_infect_ G false (next_time l) (d_scan d) (d_index d)
             (st l);
       Ok (s, total_rec_rate l));
  let total_rate := (total_rec_rate + total_trans_rate tau s)%Q in
  next_time ←
    (if QMicromega.Qlt_bool 0 total_rate then
       dt ← random_expovariate total_rate (d_delay d);
       Ok (next_time l +ₜ dt)
     else Ok Inf);
  Ok {| st := s; total_rec_rate := total_rec_rate;
        total_rate := total_rate; next_time := next_time |}.

(** The [while] loop, one draw per iteration. *)
Fixpoint run_loop (iteration : draw → loop → result loop) (tmax : number)
    (ds : list draw) (l : loop) : result loop :=
  if loop_test tmax l then
    match ds with
    | [] => BadDraw
    | d :: ds' => l' ← iteration d l; run_loop iteration tmax ds' l'
    end
  else Ok l.

(** The lines between the initialisation and the loop. *)
Definition enter_loop (tau gamma : Q) (x : Q) (s : state) : result loop :=
  let total_rec_rate := (gamma * inject_Z (Z.of_nat (length (infected s))))%Q in
  let total_rate := (total_rec_rate + total_trans_rate tau s)%Q in
  t_last ← py_last (times s);
  dt ← random_expovariate total_rate x;
  Ok {| st := s; total_rec_rate := total_rec_rate;
        total_rate := total_rate; next_time := t_last +ₜ dt |}.

(** The state in which the loop of [Gillespie_SIR] is entered. *)
Definition SIR_start (G : Graph) (tau gamma : Q)
    (initial_infecteds : option init_arg)
    (initial_recovereds : option (list Node)) (rho : option Q)
    (tmin : number) (return_full_data : bool)
    (smp : list Node) (x : Q) : result loop :=
  _ ← (if bool_decide (is_Some rho) && bool_decide (is_Some initial_infecteds)
       then Raise EoNError else Ok tt);
  initial_infecteds ← resolve_initial G initial_infecteds rho smp;
  s ← _Gillespie_initialize_SIR_ G initial_infecteds initial_recovereds tmin
        return_full_data;
  enter_loop tau gamma x s.

Definition SIS_start (G : Graph) (tau gamma : Q)
    (initial_infecteds : option init_arg) (rho : option Q)
    (tmin : number) (return_full_data : bool)
    (smp : list Node) (x : Q) : result loop :=
  _ ← (if bool_decide (is_Some rho) && bool_decide (is_Some initial_infecteds)
       then Raise EoNError else Ok tt);
  initial_infecteds ← resolve_initial G initial_infecteds rho smp;
  s ← _Gillespie_initialize_SIS_ G initial_infecteds tmin return_full_data;
  enter_loop tau gamma x s.

(** [Gillespie_SIR] up to the end of its loop: the final store. The draws
    are [smp] for [random.sample], [x] for the first [expovariate] and
    [ds] for the iterations. *)
Definition SIR_run (G : Graph) (tau gamma : Q)
    (initial_infecteds : option init_arg)
    (initial_recovereds : option (list Node)) (rho : option Q)
    (tmin tmax : number) (return_full_data : bool)
    (smp : list Node) (x : Q) (ds : list draw) : result loop :=
  l ← SIR_start G tau gamma initial_infecteds initial_recovereds rho tmin
        return_full_data smp x;
  run_loop (SIR_iteration G tau gamma return_full_data) tmax ds l.

Definition SIS_run (G : Graph) (tau gamma : Q)
    (initial_infecteds : option init_arg) (rho : option Q)
    (tmin tmax : number) (return_full_data : bool)
    (smp : list Node) (x : Q) (ds : list draw) : result loop :=
  l ← SIS_start G tau gamma initial_infecteds rho tmin return_full_data smp x;
  run_loop (SIS_iteration G tau gamma return_full_data) tmax ds l.

(** The arrays returned: [times, S, I, R] and [times, S, I]. The optional
    [node_history] is derived from [infection_times] and [recovery_times]
    of the final store and is not modelled further. *)
Definition Gillespie_SIR (G : Graph) (tau gamma : Q)
    (initial_infecteds : option init_arg)
    (initial_recovereds : option (list Node)) (rho : option Q)
    (tmin tmax : number) (return_full_data : bool)
    (smp : list Node) (x : Q) (ds : list draw)
  : result (list number * list Z * list Z * list Z) :=
  l ← SIR_run G tau gamma initial_infecteds initial_recovereds rho tmin tmax
        return_full_data smp x ds;
  Ok (times (st l), S_ (st l), I_ (st l), R_ (st l)).

Definition Gillespie_SIS (G : Graph) (tau gamma : Q)
    (initial_infecteds : option init_arg) (rho : option Q)
    (tmin tmax : number) (return_full_data : bool)
    (smp : list Node) (x : Q) (ds : list draw)
  : result (list number * list Z * list Z) :=
  l ← SIS_run G tau gamma initial_infecteds rho tmin tmax return_full_data
        smp x ds;
  Ok (times (st l), S_ (st l), I_ (st l)).

End Gillespie.

(** ** The event-driven engines *)

Module EventDriven.

(** A user supplied delay function may be random: the model gives it the
    draw of the event as a first argument, the seed.

    [trans_and_rec_time_fxn] of the SIR engine returns a dict of delays
    (here the list of its items, in iteration order) and a recovery delay;
    the one of the SIS engine returns a dict of lists of delays. *)
Abbreviation joint_SIR := (nat → Node → list Node → list (Node * number) * number).
Abbreviation joint_SIS := (nat → Node → list Node → gmap nat (list number) * number).

(** The pair (function, function_arguments) of an event. The arguments that
    are shared mutable objects ([times], [S], [I], [R], [Q], [status],
    [rec_time], ...) are the store; the others are carried by the event.
    The source ['initial_condition'] of the Markovian SIS engine is [None]. *)
Inductive call :=
| trans_SIR (G : Graph) (node : Node) (fxn : joint_SIR)
| rec_SIR (node : Node)
| trans_SIS_Markov (G : Graph) (source : option Node) (target : Node)
    (trans_rate_fxn : Node → Node → Q) (rec_rate_fxn : Node → Q)
| trans_SIS_nonMarkov (G : Graph) (target : Node)
    (future_transmissions : list number) (fxn : joint_SIS)
| rec_SIS (node : Node).

(** The shared objects. [rec_default] is the value [tmin-1] of the default
    factory of [rec_time]; [pred_inf_time] defaults to [float('Inf')]. *)
Record store := Store {
  times : list number;
  S_ : list Z;
  I_ : list Z;
  R_ : list Z;
  status : gmap Node Status;
  rec_default : number;
  rec_time : gmap Node number;
  pred_inf_time : gmap Node number;
  infection_times : gmap Node (list number);
  recovery_times : gmap Node (list number);
  Q_ : myQueue.t call
}.

Definition rec_time_of (s : store) (n : Node) : number :=
  default (rec_default s) (rec_time s !! n).

Definition pred_inf_time_of (s : store) (n : Node) : number :=
  default Inf (pred_inf_time s !! n).

Definition set_Q (q : myQueue.t call) (s : store) : store :=
  {| times := times s; S_ := S_ s; I_ := I_ s; R_ := R_ s;
     status := status s; rec_default := rec_default s;
     rec_time := rec_time s; pred_inf_time := pred_inf_time s;
     infection_times := infection_times s;
     recovery_times := recovery_times s; Q_ := q |}.

Definition set_pred_inf_time (p : gmap Node number) (s : store) : store :=
  {| times := times s; S_ := S_ s; I_ := I_ s; R_ := R_ s;
     status := status s; rec_default := rec_default s;
     rec_time := rec_time s; pred_inf_time := p;
     infection_times := infection_times s;
     recovery_times := recovery_times s; Q_ := Q_ s |}.

Definition set_rec_time (r : gmap Node number) (s : store) : store :=
  {| times := times s; S_ := S_ s; I_ := I_ s; R_ := R_ s;
     status := status s; rec_default := rec_default s;
     rec_time := r; pred_inf_time := pred_inf_time s;
     infection_times := infection_times s;
     recovery_times := recovery_times s; Q_ := Q_ s |}.

(** [times.append(time)] with the new counts and the new status of [n]. *)
Definition record (time : number) (s_new i_new : Z) (R' : list Z) (n : Node)
    (x : Status) (s : store) : store :=
  {| times := times s ++ [time]; S_ := S_ s ++ [s_new]; I_ := I_ s ++ [i_new];
     R_ := R'; status := <[n := x]> (status s);
     rec_default := rec_default s;
     rec_time := rec_time s; pred_inf_time := pred_inf_time s;
     infection_times := infection_times s;
     recovery_times := recovery_times s; Q_ := Q_ s |}.

Definition Q_add (time : number) (c : call) (s : store) : store :=
  set_Q (myQueue.add time c (Q_ s)) s.

(** *** SIR *)

Definition _find_trans_and_rec_delays_SIR_
    (trans_time_fxn : nat → Node → Node → number)
    (rec_time_fxn : nat → Node → number) : joint_SIR :=
  λ seed node sus_neighbors,
    let rec_delay := rec_time_fxn seed node in
    let trans_delay :=
      (λ target, (target, trans_time_fxn seed node target)) <$> sus_neighbors in
    (trans_delay, rec_delay).

(** The body of the loop [for v in trans_delay:] of [_process_trans_SIR_]:
[[
    inf_time = time + trans_delay[v]
    if inf_time<= rec_time[node] and inf_time < pred_inf_time[v] \
            and inf_time<=Q.tmax:
        Q.add(inf_time, _process_trans_SIR_, args = (G, v, ...))
        pred_inf_time[v] = inf_time
]] *)
Definition schedule_trans_SIR (G : Graph) (fxn : joint_SIR) (time : number)
    (node : Node) (vd : Node * number) (s : store) : store :=
  let v := vd.1 in
  let inf_time := time +ₜ vd.2 in
  if tle inf_time (rec_time_of s node)
     && tlt inf_time (pred_inf_time_of s v)
     && tle inf_time (myQueue.tmax (Q_ s))
  then
    set_pred_inf_time (<[v := inf_time]> (pred_inf_time s))
      (Q_add inf_time (trans_SIR G v fxn) s)
  else s.

Definition _process_trans_SIR_ (seed : nat) (time : number) (G : Graph)
    (node : Node) (fxn : joint_SIR) (s : store) : result store :=
  if decide (status_of (status s) node = Susceptible) then
    s_last ← py_last (S_ s);
    i_last ← py_last (I_ s);
    r_last ← py_last (R_ s);
    let s := record time (s_last - 1) (i_last + 1) (R_ s ++ [r_last])
               node Infected s in
    ns ← neighbors G node;
    let suscep_neighbors :=
      filter (λ v, status_of (status s) v = Susceptible) ns in
    let '(trans_delay, rec_delay) := fxn seed node suscep_neighbors in
    let s := set_rec_time (<[node := time +ₜ rec_delay]> (rec_time s)) s in
    let s :=
      if tle (rec_time_of s node) (myQueue.tmax (Q_ s))
      then Q_add (rec_time_of s node) (rec_SIR node) s else s in
    Ok (foldl (λ s vd, schedule_trans_SIR G fxn time node vd s) s trans_delay)
  else Ok s.

Definition _process_rec_SIR_ (time : number) (node : Node) (s : store)
  : result store :=
  s_last ← py_last (S_ s);
  i_last ← py_last (I_ s);
  r_last ← py_last (R_ s);
  Ok (record time s_last (i_last - 1) (R_ s ++ [r_last + 1]%Z)
        node Recovered s).

(** *** SIS *)

Definition _find_trans_and_rec_delays_SIS_
    (trans_time_fxn : nat → Node → Node → number → list number)
    (rec_time_fxn : nat → Node → number) : joint_SIS :=
  λ seed node neighbors,
    let rec_delay := rec_time_fxn seed node in
    let trans_delays :=
      foldl (λ m target,
               <[target := trans_time_fxn seed node target rec_delay]> m)
            ∅ neighbors in
    (trans_delays, rec_delay).

(** The draws of a Markovian SIS event: the recovery delay, and for every
    pair (source, target) the two transmission delays that
    [_find_next_trans_SIS_Markov] may read. *)
Record draws := Draws {
  seed : nat;
  d_rec : Q;
  d_trans : Node → Node → Q * Q
}.

Definition _find_next_trans_SIS_Markov (d : draws) (time : number) (tau : Q)
    (source target : Node) (c : call) (s : store) : result store :=
  if tlt (rec_time_of s target) (rec_time_of s source) then
    delay ← random_expovariate tau (d_trans d source target).1;
    let transmission_time := time +ₜ delay in
    transmission_time ←
      (if tlt transmission_time (rec_time_of s target) then
         delay ← random_expovariate tau (d_trans d source target).2;
         Ok (rec_time_of s target +ₜ delay)
       else Ok transmission_time);
    if tlt transmission_time (rec_time_of s source)
       && tlt transmission_time (myQueue.tmax (Q_ s))
    then Ok (Q_add transmission_time c s)
    else Ok s
  else Ok s.

Definition append_time (m : gmap Node (list number)) (n : Node) (t : number)
  : gmap Node (list number) :=
  <[n := default [] (m !! n) ++ [t]]> m.

Definition set_infection_times (m : gmap Node (list number)) (s : store)
  : store :=
  {| times := times s; S_ := S_ s; I_ := I_ s; R_ := R_ s;
     status := status s; rec_default := rec_default s;
     rec_time := rec_time s; pred_inf_time := pred_inf_time s;
     infection_times := m;
     recovery_times := recovery_times s; Q_ := Q_ s |}.

Definition set_recovery_times (m : gmap Node (list number)) (s : store)
  : store :=
  {| times := times s; S_ := S_ s; I_ := I_ s; R_ := R_ s;
     status := status s; rec_default := rec_default s;
     rec_time := rec_time s; pred_inf_time := pred_inf_time s;
     infection_times := infection_times s;
     recovery_times := m; Q_ := Q_ s |}.

Definition _process_trans_SIS_Markov (d : draws) (time : number) (G : Graph)
    (source : option Node) (target : Node)
    (trans_rate_fxn : Node → Node → Q) (rec_rate_fxn : Node → Q) (s : store)
  : result store :=
  s ← (if decide (status_of (status s) target = Susceptible) then
         i_last ← py_last (I_ s);
         s_last ← py_last (S_ s);
         let s := record time (s_last - 1) (i_last + 1) (R_ s)
                    target Infected s in
         delay ← random_expovariate (rec_rate_fxn target) (d_rec d);
         let s := set_rec_time (<[target := time +ₜ delay]> (rec_time s)) s in
         let s :=
           if tlt (rec_time_of s target) (myQueue.tmax (Q_ s))
           then Q_add (rec_time_of s target) (rec_SIS target) s else s in
         ns ← neighbors G target;
         s ← py_for ns
               (λ v s,
                  _find_next_trans_SIS_Markov d time (trans_rate_fxn target v)
                    target v
                    (trans_SIS_Markov G (Some target) v
                       trans_rate_fxn rec_rate_fxn) s) s;
         Ok (set_infection_times
               (append_time (infection_times s) target time) s)
       else Ok s);
  match source with
  | Some source =>
      _find_next_trans_SIS_Markov d time (trans_rate_fxn source target)
        source target
        (trans_SIS_Markov G (Some source) target trans_rate_fxn rec_rate_fxn) s
  | None => Ok s
  end.

(** The body of the loop [for v in G.neighbors(target):] of
    [_process_trans_SIS_nonMarkov_]. *)
Definition schedule_trans_SIS (G : Graph) (fxn : joint_SIS) (time : number)
    (trans_delays : gmap Node (list number)) (v : Node) (s : store)
  : result store :=
  match trans_delays !! v with
  | None => Raise KeyError
  | Some [] => Ok s
  | Some tds =>
      let trans_times := (λ td, time +ₜ td) <$> tds in
      let trans_times :=
        if decide (status_of (status s) v = Infected)
        then filter (λ t, tlt (rec_time_of s v) t = true) trans_times
        else trans_times in
      match trans_times with
      | [] => Ok s
      | t0 :: following_transmissions =>
          Ok (Q_add t0 (trans_SIS_nonMarkov G v following_transmissions fxn) s)
      end
  end.

Definition _process_trans_SIS_nonMarkov_ (seed : nat) (time : number)
    (G : Graph) (target : Node) (future_transmissions : list number)
    (fxn : joint_SIS) (s : store) : result store :=
  s ← (if decide (status_of (status s) target = Susceptible) then
         i_last ← py_last (I_ s);
         s_last ← py_last (S_ s);
         let s := record time (s_last - 1) (i_last + 1) (R_ s)
                    target Infected s in
         let s := set_infection_times
                    (append_time (infection_times s) target time) s in
         ns ← neighbors G target;
         let '(trans_delays, rec_delay) := fxn seed target ns in
         let s := set_rec_time (<[target := time +ₜ rec_delay]> (rec_time s)) s
         in
         let s :=
           if tlt (rec_time_of s target) (myQueue.tmax (Q_ s))
           then Q_add (rec_time_of s target) (rec_SIS target) s else s in
         py_for ns (schedule_trans_SIS G fxn time trans_delays) s
       else Ok s);
  let trans_times :=
    filter (λ t, tlt (rec_time_of s target) t = true) future_transmissions in
  match trans_times with
  | [] => Ok s
  | t0 :: following_transmissions =>
      Ok (Q_add t0 (trans_SIS_nonMarkov G target following_transmissions fxn) s)
  end.

Definition _process_rec_SIS_ (time : number) (node : Node) (s : store)
  : result store :=
  s_last ← py_last (S_ s);
  i_last ← py_last (I_ s);
  let s := set_recovery_times
             (append_time (recovery_times s) node time) s in
  Ok (record time (s_last + 1) (i_last - 1) (R_ s) node Susceptible s).

(** *** The drain loop *)

(** [function(t, *args)] *)
Definition run_call (d : draws) (time : number) (c : call) (s : store)
  : result store :=
  match c with
  | trans_SIR G node fxn => _process_trans_SIR_ (seed d) time G node fxn s
  | rec_SIR node => _process_rec_SIR_ time node s
  | trans_SIS_Markov G source target trans_rate_fxn rec_rate_fxn =>
      _process_trans_SIS_Markov d time G source target
        trans_rate_fxn rec_rate_fxn s
  | trans_SIS_nonMarkov G target future_transmissions fxn =>
      _process_trans_SIS_nonMarkov_ (seed d) time G target
        future_transmissions fxn s
  | rec_SIS node => _process_rec_SIS_ time node s
  end.

Definition pop_and_run (d : draws) (s : store) : result store :=
  myQueue.pop_and_run (λ t c q, run_call d t c (set_Q q s)) (Q_ s).

(** [while Q: Q.pop_and_run()], one draw per event. *)
Fixpoint drain (ds : list draws) (s : store) : result store :=
  match myQueue.len (Q_ s) with
  | 0 => Ok s
  | _ =>
      match ds with
      | [] => BadDraw
      | d :: ds' => s' ← pop_and_run d s; drain ds' s'
      end
  end.

(** *** Entry points *)

(** Truth values of the arguments tested by [if rho and initial_infecteds]. *)
Definition truthy_number (x : option Q) : bool :=
  match x with
  | Some q => negb (Qeq_bool q 0)
  | None => false
  end.

Definition truthy_init (x : option init_arg) : bool :=
  match x with
  | Some (OneNode n) => negb (n =? 0)
  | Some (Nodes l) => negb (bool_decide (l = []))
  | None => false
  end.

Definition truthy_list {A} (x : option (list A)) : bool :=
  match x with
  | Some [] | None => false
  | Some _ => true
  end.

Definition is_given {A} (x : option A) : bool :=
  match x with
  | Some _ => true
  | None => false
  end.

Definition initial_store (N : Z) (tmin tmax : number) (R0 : list Z) : store :=
  {| times := [tmin]; S_ := [N]; I_ := [0%Z]; R_ := R0;
     status := ∅; rec_default := tpred tmin; rec_time := ∅;
     pred_inf_time := ∅; infection_times := ∅; recovery_times := ∅;
     Q_ := myQueue.init tmax |}.

Definition set_status (st : gmap Node Status) (s : store) : store :=
  {| times := times s; S_ := S_ s; I_ := I_ s; R_ := R_ s;
     status := st; rec_default := rec_default s;
     rec_time := rec_time s; pred_inf_time := pred_inf_time s;
     infection_times := infection_times s;
     recovery_times := recovery_times s; Q_ := Q_ s |}.

(** [fast_nonMarkov_SIR] up to the loop: the configuration checks and the
    store in which the queue is drained, with the resolved
    [initial_infecteds]. *)
Definition SIR_start (G : Graph)
    (trans_time_fxn : option (nat → Node → Node → number))
    (rec_time_fxn : option (nat → Node → number))
    (trans_and_rec_time_fxn : option joint_SIR)
    (initial_infecteds : option init_arg)
    (initial_recovereds : option (list Node)) (rho : option Q)
    (tmin tmax : number) (Q : option (myQueue.t call)) (smp : list Node)
  : result (store * list Node) :=
  _ ← (if truthy_number rho && truthy_init initial_infecteds
       then Raise EoNError else Ok tt);
  _ ← (if truthy_number rho && truthy_list initial_recovereds
       then Raise EoNError else Ok tt);
  _ ← (if (is_given trans_time_fxn && negb (is_given rec_time_fxn))
          || (is_given rec_time_fxn && negb (is_given trans_time_fxn))
       then Raise EoNError
       else if is_given trans_and_rec_time_fxn && is_given trans_time_fxn
       then Raise EoNError
       else if negb (is_given trans_and_rec_time_fxn)
               && negb (is_given trans_time_fxn)
       then Raise EoNError
       else Ok tt);
  fxn ← match trans_and_rec_time_fxn, trans_time_fxn, rec_time_fxn with
        | Some f, _, _ => Ok f
        | None, Some f, Some g => Ok (_find_trans_and_rec_delays_SIR_ f g)
        | None, _, _ => Raise TypeError
        end;
  let s := initial_store (order G) tmin tmax [0%Z] in
  let s :=
    match initial_recovereds with
    | Some l =>
        foldl (λ s node,
                 set_rec_time (<[node := tpred tmin]> (rec_time s))
                   (set_status (<[node := Recovered]> (status s)) s)) s l
    | None => s
    end in
  match Q with
  | Some _ => Raise EoNError
  | None =>
      initial_infecteds ← resolve_initial G initial_infecteds rho smp;
      Ok (foldl (λ s u,
                   Q_add tmin (trans_SIR G u fxn)
                     (set_pred_inf_time (<[u := tmin]> (pred_inf_time s)) s))
                s initial_infecteds,
          initial_infecteds)
  end.

(** The arrays returned by the SIR engine, cut by [len(initial_infecteds)];
    the optional [node_history] is not modelled. *)
Definition returned_SIR (s : store) (initial_infecteds : list Node)
  : list number * list Z * list Z * list Z :=
  let k := length initial_infecteds in
  (py_slice_from k (times s), py_slice_from k (S_ s),
   py_slice_from k (I_ s), py_slice_from k (R_ s)).

Definition returned_SIS (s : store) (initial_infecteds : list Node)
  : list number * list Z * list Z :=
  let k := length initial_infecteds in
  (py_slice_from k (times s), py_slice_from k (S_ s), py_slice_from k (I_ s)).

Definition fast_nonMarkov_SIR (G : Graph)
    (trans_time_fxn : option (nat → Node → Node → number))
    (rec_time_fxn : option (nat → Node → number))
    (trans_and_rec_time_fxn : option joint_SIR)
    (initial_infecteds : option init_arg)
    (initial_recovereds : option (list Node)) (rho : option Q)
    (tmin tmax : number) (Q : option (myQueue.t call)) (smp : list Node)
    (ds : list draws) : result (list number * list Z * list Z * list Z) :=
  '(s, initial_infecteds) ←
    SIR_start G trans_time_fxn rec_time_fxn trans_and_rec_time_fxn
      initial_infecteds initial_recovereds rho tmin tmax Q smp;
  s ← drain ds s;
  Ok (returned_SIR s initial_infecteds).

(** [fast_SIR] has no test of its own: it builds delay functions from
    [tau], [gamma] and the weights and calls [fast_nonMarkov_SIR], with
    [trans_time_fxn] and [rec_time_fxn] when [transmission_weight] is given
    and with the joint function [_trans_and_rec_time_Markovian_const_trans_]
    otherwise. These functions draw from [random] and [scipy.random];
    [split_fxns] and [joint_fxn] stand for them, with the seed for their
    draws. *)
Definition fast_SIR (G : Graph) (transmission_weight : bool)
    (split_fxns : (nat → Node → Node → number) * (nat → Node → number))
    (joint_fxn : joint_SIR)
    (initial_infecteds : option init_arg)
    (initial_recovereds : option (list Node)) (rho : option Q)
    (tmin tmax : number) (smp : list Node) (ds : list draws)
  : result (list number * list Z * list Z * list Z) :=
  if transmission_weight then
    fast_nonMarkov_SIR G (Some split_fxns.1) (Some split_fxns.2) None
      initial_infecteds initial_recovereds rho tmin tmax None smp ds
  else
    fast_nonMarkov_SIR G None None (Some joint_fxn)
      initial_infecteds initial_recovereds rho tmin tmax None smp ds.

(** [fast_SIS] up to the loop. [rates] stands for the pair of functions
    returned by [EoN._get_rate_functions_(G, tau, gamma,
    transmission_weight, recovery_weight)], which is defined outside this
    module. *)
Definition SIS_Markov_start (G : Graph)
    (rates : (Node → Node → Q) * (Node → Q))
    (initial_infecteds : option init_arg) (rho : option Q)
    (tmin tmax : number) (smp : list Node) : result (store * list Node) :=
  _ ← (if is_given rho && is_given initial_infecteds
       then Raise EoNError else Ok tt);
  let '(trans_rate_fxn, rec_rate_fxn) := rates in
  initial_infecteds ← resolve_initial G initial_infecteds rho smp;
  let s := initial_store (order G) tmin tmax [] in
  Ok (foldl (λ s u,
               Q_add tmin
                 (trans_SIS_Markov G None u trans_rate_fxn rec_rate_fxn) s)
            s initial_infecteds,
      initial_infecteds).

Definition fast_SIS (G : Graph) (rates : (Node → Node → Q) * (Node → Q))
    (initial_infecteds : option init_arg) (rho : option Q)
    (tmin tmax : number) (smp : list Node) (ds : list draws)
  : result (list number * list Z * list Z) :=
  '(s, initial_infecteds) ←
    SIS_Markov_start G rates initial_infecteds rho tmin tmax smp;
  s ← drain ds s;
  Ok (returned_SIS s initial_infecteds).

Definition SIS_nonMarkov_start (G : Graph)
    (trans_time_fxn : option (nat → Node → Node → number → list number))
    (rec_time_fxn : option (nat → Node → number))
    (trans_and_rec_time_fxn : option joint_SIS)
    (initial_infecteds : option init_arg) (rho : option Q)
    (tmin tmax : number) (smp : list Node) : result (store * list Node) :=
  _ ← (if truthy_number rho && truthy_init initial_infecteds
       then Raise EoNError else Ok tt);
  _ ← (if (is_given trans_time_fxn && negb (is_given rec_time_fxn))
          || (is_given rec_time_fxn && negb (is_given trans_time_fxn))
       then Raise EoNError else Ok tt);
  _ ← (if is_given trans_and_rec_time_fxn && is_given trans_time_fxn
       then Raise EoNError
       else if negb (is_given trans_and_rec_time_fxn)
               && negb (is_given trans_time_fxn)
       then Raise EoNError
       else Ok tt);
  fxn ← match trans_and_rec_time_fxn, trans_time_fxn, rec_time_fxn with
        | Some f, _, _ => Ok f
        | None, Some f, Some g => Ok (_find_trans_and_rec_delays_SIS_ f g)
        | None, _, _ => Raise TypeError
        end;
  initial_infecteds ← resolve_initial G initial_infecteds rho smp;
  let s := initial_store (order G) tmin tmax [] in
  Ok (foldl (λ s u, Q_add tmin (trans_SIS_nonMarkov G u [] fxn) s)
            s initial_infecteds,
      initial_infecteds).

Definition fast_nonMarkov_SIS (G : Graph)
    (trans_time_fxn : option (nat → Node → Node → number → list number))
    (rec_time_fxn : option (nat → Node → number))
    (trans_and_rec_time_fxn : option joint_SIS)
    (initial_infecteds : option init_arg) (rho : option Q)
    (tmin tmax : number) (smp : list Node) (ds : list draws)
  : result (list number * list Z * list Z) :=
  '(s, initial_infecteds) ←
    SIS_nonMarkov_start G trans_time_fxn rec_time_fxn trans_and_rec_time_fxn
      initial_infecteds rho tmin tmax smp;
  s ← drain ds s;
  Ok (returned_SIS s initial_infecteds).

End EventDriven.

(** ** Auxiliary functions *)

Module Auxiliary.

(** An entry of [node_history]: the tuple of the list of the times at
    which the status of the node changes and the list of its statuses. *)
Abbreviation history := (list number * list Status)%type.

(** [node_history = defaultdict(lambda : ([tmin], ['S']))] *)
Definition history_of (tmin : number) (node_history : gmap Node history)
    (node : Node) : history :=
  default ([tmin], [Susceptible]) (node_history !! node).

(** [node_history[node][0].append(time)] and
    [node_history[node][1].append(x)] *)
Definition log_append (tmin : number) (x : Status) (node : Node)
    (time : number) (node_history : gmap Node history) : gmap Node history :=
  let h := history_of tmin node_history node in
  <[node := (h.1 ++ [time], h.2 ++ [x])]> node_history.

(** The same after
[[
    if time == tmin:
        node_history[node] = ([], [])
]] *)
Definition log_change (tmin : number) (x : Status) (node : Node)
    (time : number) (node_history : gmap Node history) : gmap Node history :=
  log_append tmin x node time
    (if teq time tmin then <[node := ([], [])]> node_history
     else node_history).

(** [_transform_to_node_history_(infection_times, recovery_times, tmin,
    SIR = True)]; the two dicts map a node to a time and are the lists of
    their items. *)
Definition _transform_to_node_history_SIR
    (infection_times recovery_times : list (Node * number)) (tmin : number)
  : gmap Node history :=
  let node_history :=
    foldl (λ nh nt, log_change tmin Infected nt.1 nt.2 nh) ∅ infection_times in
  foldl (λ nh nt, log_change tmin Recovered nt.1 nt.2 nh) node_history
    recovery_times.

(** The loop of the SIS case for one node:
[[
    while Itimes:
        time = Itimes.pop(0)
        if time == tmin:
            node_history[node] = ([], [])
        node_history[node][0].append(time)
        node_history[node][1].append('I')
        if Rtimes:
            time = Rtimes.pop(0)
            node_history[node][0].append(time)
            node_history[node][1].append('S')
]] *)
Fixpoint log_cycles (tmin : number) (node : Node) (Itimes Rtimes : list number)
    (node_history : gmap Node history) : gmap Node history :=
  match Itimes with
  | [] => node_history
  | time :: Itimes =>
      let node_history := log_change tmin Infected node time node_history in
      match Rtimes with
      | [] => log_cycles tmin node Itimes [] node_history
      | time :: Rtimes =>
          log_cycles tmin node Itimes Rtimes
            (log_append tmin Susceptible node time node_history)
      end
  end.

(** [_transform_to_node_history_(infection_times, recovery_times, tmin,
    SIR = False)]; [infection_times] maps a node to the list of its
    infection times and is the list of its items, [recovery_times] is the
    [defaultdict(lambda: [])] of the engines. *)
Definition _transform_to_node_history_SIS
    (infection_times : list (Node * list number))
    (recovery_times : gmap Node (list number)) (tmin : number)
  : gmap Node history :=
  foldl (λ nh nI,
           let Rtimes := default [] (recovery_times !! nI.1) in
           log_cycles tmin nI.1 nI.2 Rtimes nh)
        ∅ infection_times.

End Auxiliary.

(** ** The discrete-time simulations *)

Module Discrete.
Import Auxiliary.

(** The state of the random generator: the outcomes of the coming calls of
    [random.random()]. A function that may call it takes the state and
    returns what is left of it. *)
Abbreviation rng := (list Q).

(** [test_transmission(u, v, *args)] *)
Abbreviation test_fxn := (Node → Node → rng → result (bool * rng)).

(** [_simple_test_transmission_(u, v, p)]: [return random.random()<p] *)
Definition _simple_test_transmission_ (p : Q) : test_fxn :=
  λ u v g,
    match g with
    | [] => BadDraw
    | x :: g => x ← random_random x; Ok (QMicromega.Qlt_bool x p, g)
    end.

(** The objects of [discrete_SIR]. [susceptible] is a
    [defaultdict(lambda: True)]. *)
Record state := State {
  t : list number;
  S_ : list Z;
  I_ : list Z;
  R_ : list Z;
  susceptible : gmap Node bool;
  infecteds : list Node;
  node_history : gmap Node history
}.

Definition susceptible_of (susceptible : gmap Node bool) (v : Node) : bool :=
  default true (susceptible !! v).

(** The body of the loop over the neighbours:
[[
    if susceptible[v] and test_transmission(u, v, *args):
        new_infecteds.append(v)
        susceptible[v] = False
]] *)
Definition test_neighbor (test_transmission : test_fxn) (u v : Node)
    (acc : gmap Node bool * list Node * rng)
  : result (gmap Node bool * list Node * rng) :=
  let '(susceptible, new_infecteds, g) := acc in
  if susceptible_of susceptible v then
    '(b, g) ← test_transmission u v g;
    if b : bool then Ok (<[v := false]> susceptible, new_infecteds ++ [v], g)
    else Ok (susceptible, new_infecteds, g)
  else Ok acc.

(** [for u in infecteds: for v in G.neighbors(u): ...] *)
Definition spread (G : Graph) (test_transmission : test_fxn)
    (infecteds : list Node) (susceptible : gmap Node bool) (g : rng)
  : result (gmap Node bool * list Node * rng) :=
  py_for infecteds
    (λ u acc, ns ← neighbors G u;
              py_for ns (test_neighbor test_transmission u) acc)
    (susceptible, [], g).

(** One iteration of the loop of [discrete_SIR]; [g] holds the outcomes of
    the calls of [random.random()] of the iteration. *)
Definition iteration (G : Graph) (test_transmission : test_fxn)
    (tmin tmax : number) (return_full_data : bool) (g : rng) (s : state)
  : result state :=
  '(susceptible, new_infecteds, _) ←
    spread G test_transmission (infecteds s) (susceptible s) g;
  node_history ←
    (if return_full_data then
       t_last ← py_last (t s);
       let next_time := t_last +ₜ Fin 1 in
       if tle next_time tmax then
         Ok (foldl (λ nh v, log_append tmin Infected v next_time nh)
               (foldl (λ nh u, log_append tmin Recovered u next_time nh)
                  (node_history s) (infecteds s))
               new_infecteds)
       else Ok (node_history s)
     else Ok (node_history s));
  r_last ← py_last (R_ s);
  i_last ← py_last (I_ s);
  let i_new := Z.of_nat (length new_infecteds) in
  s_last ← py_last (S_ s);
  t_last ← py_last (t s);
  Ok {| t := t s ++ [t_last +ₜ Fin 1];
        S_ := S_ s ++ [s_last - i_new]%Z;
        I_ := I_ s ++ [i_new];
        R_ := R_ s ++ [r_last + i_last]%Z;
        susceptible := susceptible;
        infecteds := new_infecteds;
        node_history := node_history |}.

(** [while infecteds and t[-1]<tmax:] *)
Definition loop_test (tmax : number) (s : state) : result bool :=
  match infecteds s with
  | [] => Ok false
  | _ => t_last ← py_last (t s); Ok (tlt t_last tmax)
  end.

(** The loop, one state of the generator for each iteration. *)
Fixpoint loop (G : Graph) (test_transmission : test_fxn) (tmin tmax : number)
    (return_full_data : bool) (ds : list rng) (s : state) : result state :=
  b ← loop_test tmax s;
  if b : bool then
    match ds with
    | [] => BadDraw
    | g :: ds =>
        s ← iteration G test_transmission tmin tmax return_full_data g s;
        loop G test_transmission tmin tmax return_full_data ds s
    end
  else Ok s.

(** The lines of [discrete_SIR] before the loop. With [return_full_data]
    and [initial_recovereds], the entry that is set to [([tmin], ['R'])] is
    the one of [node], the variable of the loop that has just ended. *)
Definition start (G : Graph) (initial_infecteds : option init_arg)
    (initial_recovereds : option (list Node)) (rho : option Q)
    (tmin : number) (return_full_data : bool) (smp : list Node)
  : result state :=
  _ ← (if bool_decide (is_Some rho) && bool_decide (is_Some initial_infecteds)
       then Raise EoNError else Ok tt);
  initial_infecteds ← resolve_initial G initial_infecteds rho smp;
  node_history ←
    (if return_full_data then
       let node_history :=
         foldl (λ nh node, <[node := ([tmin], [Infected])]> nh) ∅
           initial_infecteds in
       match initial_recovereds with
       | Some _ =>
           match last initial_infecteds with
           | Some node => Ok (<[node := ([tmin], [Recovered])]> node_history)
           | None => Raise NameError
           end
       | None => Ok node_history
       end
     else Ok ∅);
  let N := order G in
  let susceptible := Gillespie.set_all initial_infecteds false ∅ in
  let susceptible :=
    match initial_recovereds with
    | Some l => Gillespie.set_all l false susceptible
    | None => susceptible
    end in
  Ok {| t := [tmin];
        S_ := [N - Z.of_nat (length initial_infecteds)]%Z;
        I_ := [Z.of_nat (length initial_infecteds)];
        R_ := [0%Z];
        susceptible := susceptible;
        infecteds := initial_infecteds;
        node_history := node_history |}.

(** [discrete_SIR(G, test_transmission, args, initial_infecteds,
    initial_recovereds, rho, tmin, tmax, return_full_data)]; [args] is part
    of [test_transmission]. The result is [t, S, I, R] and, with
    [return_full_data], [node_history]. *)
Definition discrete_SIR (G : Graph) (test_transmission : test_fxn)
    (initial_infecteds : option init_arg)
    (initial_recovereds : option (list Node)) (rho : option Q)
    (tmin tmax : number) (return_full_data : bool) (smp : list Node)
    (ds : list rng)
  : result (list number * list Z * list Z * list Z
            * option (gmap Node history)) :=
  s ← start G initial_infecteds initial_recovereds rho tmin return_full_data
        smp;
  s ← loop G test_transmission tmin tmax return_full_data ds s;
  Ok (t s, S_ s, I_ s, R_ s,
      if return_full_data then Some (node_history s) else None).

(** [basic_discrete_SIR(G, p, ...)]:
    [return discrete_SIR(G, _simple_test_transmission_, (p,), ...)] *)
Definition basic_discrete_SIR (G : Graph) (p : Q)
    (initial_infecteds : option init_arg)
    (initial_recovereds : option (list Node)) (rho : option Q)
    (tmin tmax : number) (return_full_data : bool) (smp : list Node)
    (ds : list rng) :=
  discrete_SIR G (_simple_test_transmission_ p) initial_infecteds
    initial_recovereds rho tmin tmax return_full_data smp ds.

(** *** [basic_discrete_SIS] *)

(** The objects of [basic_discrete_SIS]; [infecteds] is a set. *)
Record state_SIS := State_SIS {
  t' : list number;
  S' : list Z;
  I' : list Z;
  infecteds' : gset Node;
  node_history' : gmap Node history
}.

(** The set comprehension
    [{v for v in G.neighbors(u) if random.random()<p and v not in infecteds}] *)
Definition new_from (G : Graph) (p : Q) (infecteds : gset Node) (u : Node)
    (g : rng) : result (gset Node * rng) :=
  ns ← neighbors G u;
  py_for ns
    (λ v acc,
       match acc.2 with
       | [] => BadDraw
       | x :: g =>
           x ← random_random x;
           if QMicromega.Qlt_bool x p && bool_decide (v ∉ infecteds)
           then Ok ({[v]} ∪ acc.1, g) else Ok (acc.1, g)
       end)
    (∅, g).

(** One iteration of the loop of [basic_discrete_SIS]:
[[
    next_infecteds = set()
    for u in infecteds:
        next_infecteds.union({v for v in G.neighbors(u) if ...})
]]
    [set.union] returns a new set, which the loop drops; [next_infecteds]
    is not updated. *)
Definition iteration_SIS (G : Graph) (p : Q) (N : Z) (tmin tmax : number)
    (return_full_data : bool) (g : rng) (s : state_SIS) : result state_SIS :=
  let next_infecteds : gset Node := ∅ in
  _ ← py_for (elements (infecteds' s))
        (λ u g,
           '(new, g) ← new_from G p (infecteds' s) u g;
           let _ := next_infecteds ∪ new in
           Ok g) g;
  node_history ←
    (if return_full_data then
       t_last ← py_last (t' s);
       let next_time := t_last +ₜ Fin 1 in
       if tle next_time tmax then
         Ok (foldl (λ nh v, log_append tmin Infected v next_time nh)
               (foldl (λ nh u, log_append tmin Susceptible u next_time nh)
                  (node_history' s) (elements (infecteds' s)))
               (elements next_infecteds))
       else Ok (node_history' s)
     else Ok (node_history' s));
  t_last ← py_last (t' s);
  let i_new := Z.of_nat (size next_infecteds) in
  Ok {| t' := t' s ++ [t_last +ₜ Fin 1];
        S' := S' s ++ [N - i_new]%Z;
        I' := I' s ++ [i_new];
        infecteds' := next_infecteds;
        node_history' := node_history |}.

Definition loop_test_SIS (tmax : number) (s : state_SIS) : result bool :=
  if decide (infecteds' s = ∅) then Ok false
  else t_last ← py_last (t' s); Ok (tlt t_last tmax).

Fixpoint loop_SIS (G : Graph) (p : Q) (N : Z) (tmin tmax : number)
    (return_full_data : bool) (ds : list rng) (s : state_SIS)
  : result state_SIS :=
  b ← loop_test_SIS tmax s;
  if b : bool then
    match ds with
    | [] => BadDraw
    | g :: ds =>
        s ← iteration_SIS G p N tmin tmax return_full_data g s;
        loop_SIS G p N tmin tmax return_full_data ds s
    end
  else Ok s.

(** [basic_discrete_SIS(G, p, initial_infecteds, rho, tmin, tmax,
    return_full_data)] *)
Definition basic_discrete_SIS (G : Graph) (p : Q)
    (initial_infecteds : option init_arg) (rho : option Q)
    (tmin tmax : number) (return_full_data : bool) (smp : list Node)
    (ds : list rng)
  : result (list number * list Z * list Z * option (gmap Node history)) :=
  _ ← (if bool_decide (is_Some rho) && bool_decide (is_Some initial_infecteds)
       then Raise EoNError else Ok tt);
  initial_infecteds ← resolve_initial G initial_infecteds rho smp;
  let node_history : gmap Node history :=
    if return_full_data
    then foldl (λ nh u, <[u := ([tmin], [Infected])]> nh) ∅ initial_infecteds
    else ∅ in
  let N := order G in
  s ← loop_SIS G p N tmin tmax return_full_data ds
        {| t' := [tmin];
           S' := [N - Z.of_nat (length initial_infecteds)]%Z;
           I' := [Z.of_nat (length initial_infecteds)];
           infecteds' := list_to_set initial_infecteds;
           node_history' := node_history |};
  Ok (t' s, S' s, I' s,
      if return_full_data then Some (node_history' s) else None).

End Discrete.

(** ** Percolation *)

Module Percolation.

(** [H.has_edge(u, v)] *)
Definition has_edge (H : Graph) (u v : Node) : bool :=
  bool_decide (v ∈ nbrs H u).

(** [_edge_exists_(u, v, H)]: [return H.has_edge(u,v)] *)
Definition _edge_exists_ (u v : Node) (H : Graph) : bool := has_edge H u v.

(** [H.add_nodes_from(nodes)]: a node that is new gets an empty adjacency. *)
Definition add_nodes_from (ns : list Node) (H : Graph) : Graph :=
  foldl (λ H n, if decide (is_Some (H !! n)) then H else <[n := []]> H) H ns.

(** [G.edges()]: the nodes in turn, in the order of [nodes G], and for
    each one the edges to its neighbours that have not had their turn, so
    that an edge is reported once. *)
Definition edges_from (seen : gset Node) (n : Node) (ns : list Node)
  : list (Node * Node) :=
  (λ nbr, (n, nbr)) <$> filter (λ nbr, nbr ∉ seen) ns.

Fixpoint edges_of (adj : list (Node * list Node)) (seen : gset Node)
  : list (Node * Node) :=
  match adj with
  | [] => []
  | (n, ns) :: adj => edges_from seen n ns ++ edges_of adj ({[n]} ∪ seen)
  end.

Definition edges (G : Graph) : list (Node * Node) :=
  edges_of (map_to_list G) ∅.

(** [H.add_edge(u, v)]: both nodes are added when they are new, and each
    one becomes a neighbour of the other unless it is one already. *)
Definition add_neighbor (u v : Node) (H : Graph) : Graph :=
  <[u := if decide (v ∈ nbrs H u) then nbrs H u else nbrs H u ++ [v]]> H.

Definition add_edge (u v : Node) (H : Graph) : Graph :=
  add_neighbor v u (add_neighbor u v H).

(** The body of the loop of [percolate_network]: when
    [random.random()<p], [H.add_edge] is called on the two ends of the
    edge. *)
Definition keep_edge (p : Q) (edge : Node * Node)
    (acc : Graph * Discrete.rng) : result (Graph * Discrete.rng) :=
  match acc.2 with
  | [] => BadDraw
  | x :: g =>
      x ← random_random x;
      Ok (if QMicromega.Qlt_bool x p then add_edge edge.1 edge.2 acc.1
          else acc.1, g)
  end.

(** [percolate_network(G, p)]; [g] holds the outcomes of the calls of
    [random.random()]. *)
Definition percolate_network (G : Graph) (p : Q) (g : Discrete.rng)
  : result Graph :=
  let H := add_nodes_from (nodes G) ∅ in
  '(H, _) ← py_for (edges G) (keep_edge p) (H, g);
  Ok H.

(** [H.has_edge] as the [test_transmission] of [discrete_SIR]; it calls no
    random function. *)
Definition edge_test (H : Graph) : Discrete.test_fxn :=
  λ u v g, Ok (has_edge H u v, g).

(** [percolation_based_discrete_SIR(G, p, initial_infecteds,
    initial_recovereds, rho, tmin, tmax, return_full_data)]:
[[
    H = percolate_network(G, p)
    return discrete_SIR(H, test_transmission=H.has_edge, ...)
]] *)
Definition percolation_based_discrete_SIR (G : Graph) (p : Q)
    (initial_infecteds : option init_arg)
    (initial_recovereds : option (list Node)) (rho : option Q)
    (tmin tmax : number) (return_full_data : bool) (smp : list Node)
    (g : Discrete.rng) (ds : list Discrete.rng) :=
  H ← percolate_network G p g;
  Discrete.discrete_SIR H (edge_test H) initial_infecteds initial_recovereds
    rho tmin tmax return_full_data smp ds.

End Percolation.

(** ** [return_full_data] in [Gillespie_SIR] *)

Module FullData.

(** [Gillespie_SIR] calls [_transform_to_node_history_] with the dicts
    [infection_times] and [recovery_times] of the handlers, whose values are
    lists of times, and not with the dicts [infection_time] and
    [recovery_time] that it computes before. What the function appends to
    a list of times is then a time or a list of times. *)
Inductive time_entry :=
| a_time (t : number)
| a_list (l : list number).

(** [time == tmin]; a list is not equal to a number. *)
Definition eq_tmin (time : time_entry) (tmin : number) : bool :=
  match time with
  | a_time t => teq t tmin
  | a_list _ => false
  end.

Abbreviation entry := (list time_entry * list Status)%type.

(** [node_history = defaultdict(lambda : ([tmin], ['S']))] *)
Definition entry_of (tmin : number) (node_history : gmap Node entry)
    (node : Node) : entry :=
  default ([a_time tmin], [Susceptible]) (node_history !! node).

(** The body of the two loops of the SIR case:
[[
    if time == tmin:
        node_history[node] = ([], [])
    node_history[node][0].append(time)
    node_history[node][1].append(x)
]] *)
Definition log (tmin : number) (x : Status) (node : Node) (time : time_entry)
    (node_history : gmap Node entry) : gmap Node entry :=
  let node_history :=
    if eq_tmin time tmin then <[node := ([], [])]> node_history
    else node_history in
  let h := entry_of tmin node_history node in
  <[node := (h.1 ++ [time], h.2 ++ [x])]> node_history.

(** [_transform_to_node_history_(infection_times, recovery_times, tmin,
    SIR = True)] on dicts with any values; the dicts are the lists of their
    items. *)
Definition _transform_to_node_history_
    (infection_times recovery_times : list (Node * time_entry))
    (tmin : number) : gmap Node entry :=
  let node_history :=
    foldl (λ nh nt, log tmin Infected nt.1 nt.2 nh) ∅ infection_times in
  foldl (λ nh nt, log tmin Recovered nt.1 nt.2 nh) node_history
    recovery_times.

(** [{node: L[0] for node, L in times.items()}] *)
Definition first_times (times : gmap Node (list number))
  : result (gmap Node number) :=
  py_for (map_to_list times)
    (λ nL acc, t ← py_get nL.2 0; Ok (<[nL.1 := t]> acc)) ∅.

(** The items of a dict of lists. *)
Definition items (times : gmap Node (list number))
  : list (Node * time_entry) :=
  (λ nL, (nL.1, a_list nL.2)) <$> map_to_list times.

(** [Gillespie_SIR(..., return_full_data = True)]: after the loop,
[[
    infection_time = {node: L[0] for node, L in infection_times.items()}
    recovery_time = {node: L[0] for node, L in recovery_times.items()}
    node_history = _transform_to_node_history_(infection_times,
                                    recovery_times, tmin, SIR = True)
    return scipy.array(times), scipy.array(S), scipy.array(I), \
            scipy.array(R), node_history
]] *)
Definition Gillespie_SIR_full_data (G : Graph) (tau gamma : Q)
    (initial_infecteds : option init_arg)
    (initial_recovereds : option (list Node)) (rho : option Q)
    (tmin tmax : number) (smp : list Node) (x : Q)
    (ds : list Gillespie.draw)
  : result (list number * list Z * list Z * list Z * gmap Node entry) :=
  l ← Gillespie.SIR_run G tau gamma initial_infecteds initial_recovereds rho
        tmin tmax true smp x ds;
  let s := Gillespie.st l in
  infection_time ← first_times (Gillespie.infection_times s);
  recovery_time ← first_times (Gillespie.recovery_times s);
  let node_history :=
    _transform_to_node_history_ (items (Gillespie.infection_times s))
      (items (Gillespie.recovery_times s)) tmin in
  Ok (Gillespie.times s, Gillespie.S_ s, Gillespie.I_ s, Gillespie.R_ s,
      node_history).

End FullData.

(** * Specification *)

(** ** The returned series *)

(** One event of an SIR run moves one node: from S to I, or from I to R. *)
Definition SIR_move (a b : Z * Z * Z) : Prop :=
  let '(s1, i1, r1) := a in
  let '(s2, i2, r2) := b in
  (s2 = s1 - 1 ∧ i2 = i1 + 1 ∧ r2 = r1)%Z ∨ (s2 = s1 ∧ i2 = i1 - 1 ∧ r2 = r1 + 1)%Z.

(** One event of an SIS run moves one node: from S to I, or from I to S. *)
Definition SIS_move (a b : Z * Z) : Prop :=
  let '(s1, i1) := a in
  let '(s2, i2) := b in
  (s2 = s1 - 1 ∧ i2 = i1 + 1)%Z ∨ (s2 = s1 + 1 ∧ i2 = i1 - 1)%Z.

(** [x] is the entry of index [k] of the three count sequences. *)
Definition entry_SIR (S I R : list Z) (k : nat) (x : Z * Z * Z) : Prop :=
  S !! k = Some x.1.1 ∧ I !! k = Some x.1.2 ∧ R !! k = Some x.2.

(** [x] is the entry of index [k] of the two count sequences. *)
Definition entry_SIS (S I : list Z) (k : nat) (x : Z * Z) : Prop :=
  S !! k = Some x.1 ∧ I !! k = Some x.2.

(** The count sequences of an SIR run on [N] nodes: they have the same
    length, every entry sums to [N], and consecutive entries differ by one
    move. *)
Definition counts_SIR (N : Z) (S I R : list Z) : Prop :=
  length S = length I ∧ length I = length R
  ∧ (∀ k x, entry_SIR S I R k x → (x.1.1 + x.1.2 + x.2 = N)%Z)
  ∧ (∀ k x y, entry_SIR S I R k x → entry_SIR S I R (k + 1) y → SIR_move x y).

(** The count sequences of an SIS run on [N] nodes. *)
Definition counts_SIS (N : Z) (S I : list Z) : Prop :=
  length S = length I
  ∧ (∀ k x, entry_SIS S I k x → (x.1 + x.2 = N)%Z)
  ∧ (∀ k x y, entry_SIS S I k x → entry_SIS S I (k + 1) y → SIS_move x y).

(** ** The event times *)

(** The sequence of event times never goes back. *)
Definition nondecreasing (ts : list number) : Prop :=
  ∀ i a b, ts !! i = Some a → ts !! (i + 1) = Some b → a ≤ₜ b.

(** The time sequence starts at [tmin], never goes back and stays within
    [tmax]. *)
Definition times_ok (tmin tmax : number) (ts : list number) : Prop :=
  head ts = Some tmin ∧ nondecreasing ts ∧ ∀ a, a ∈ ts → a ≤ₜ tmax.

(** A delay that is not negative. *)
Definition nonneg (d : number) : Prop := Fin 0 ≤ₜ d.

(** ** The queue *)

(** The order that the heap keeps is the order of the event times. *)
Definition time_le {F} (a b : myQueue.event F) : Prop :=
  myQueue.ev_time a ≤ₜ myQueue.ev_time b.

(** [q'] is [q] with one more event, [c] at [time]. *)
Definition enqueued {F} (q q' : myQueue.t F) (time : number) (c : F) : Prop :=
  myQueue._Q_ q' ≡ₚ myQueue.Event time (myQueue.counter q) c :: myQueue._Q_ q.

(** ** The Gillespie engines *)

Module GillespieSpec.
Import Gillespie.

(** [v] is in the risk group of key [k]. *)
Definition in_bucket (s : state) (k : Z) (v : Node) : Prop :=
  v ∈ ListDict.items (rg_get (risk_group s) k).

(** The risk groups hold the susceptible nodes that have an infected
    neighbour, each one in the group of its number of infected neighbours
    and in no other. *)
Definition buckets_exact (G : Graph) (s : state) : Prop :=
  ∀ v, status_of (status s) v = Susceptible →
    ((0 < infected_neighbors G (status s) v)%Z →
       ∀ k, in_bucket s k v ↔ k = infected_neighbors G (status s) v)
    ∧ (infected_neighbors G (status s) v = 0%Z → ∀ k, ¬ in_bucket s k v).

(** The same in terms of [infected_neighbor_count], for the nodes outside
    [hold]; every risk group is a well-formed [_ListDict_]. *)
Definition buckets_ok (hold : list Node) (s : state) : Prop :=
  (∀ k, ListDict.wf (rg_get (risk_group s) k)) ∧
  (∀ k v, v ∈ ListDict.items (rg_get (risk_group s) k) ↔
     (v ∉ hold) ∧ status_of (status s) v = Susceptible
     ∧ count_of (infected_neighbor_count s) v = k ∧ (0 < k)%Z).

(** [infected_neighbor_count] of a susceptible node is [base]. *)
Definition counts_are (base : Node → Z) (s : state) : Prop :=
  ∀ v, status_of (status s) v = Susceptible →
       count_of (infected_neighbor_count s) v = base v.

(** [s'] differs from [s] in [infected_neighbor_count] and [risk_group]
    only. *)
Definition same_but_risk (s s' : state) : Prop :=
  s' = set_risk (infected_neighbor_count s') (risk_group s') s.

(** The full invariant of the Gillespie store. *)
Definition ginv (G : Graph) (s : state) : Prop :=
  buckets_ok [] s
  ∧ counts_are (infected_neighbors G (status s)) s
  ∧ NoDup (infected s)
  ∧ (∀ v, v ∈ infected s ↔ status_of (status s) v = Infected).

(** In an SIS run no node is recovered. *)
Definition ginv_SIS (G : Graph) (s : state) : Prop :=
  ginv G s ∧ ∀ v, status_of (status s) v ≠ Recovered.

(** The loop states that a run goes through: the state in which the loop
    is entered, and the state after an iteration whose loop test holds. *)
Inductive reachable (iteration : draw → loop → result loop) (tmax : number)
    (l0 : loop) : loop → Prop :=
| reach_start : reachable iteration tmax l0 l0
| reach_step l d l' :
    reachable iteration tmax l0 l → loop_test tmax l = true →
    iteration d l = Ok l' → reachable iteration tmax l0 l'.

(** [sum(n*len(risk_group[n]) for n in keys)] *)
Definition weight (rg : list (Z * ListDict.t Node)) (keys : list Z) : Z :=
  foldr (λ n acc, n * Z.of_nat (ListDict.len (rg_get rg n)) + acc)%Z 0%Z keys.

(** Keys of risk buckets are positive after the initialisation, so the
    initial total rate is not negative. *)
Definition keys_pos (s : state) : Prop :=
  (∀ v, 0 ≤ count_of (infected_neighbor_count s) v)%Z
  ∧ Forall (λ kd, 0 < kd.1)%Z (risk_group s).

(** The time sequence of a loop state; [next_time] is not before its last
    entry. *)
Definition loop_times_ok (tmin tmax : number) (l : loop) : Prop :=
  times_ok tmin tmax (times (st l))
  ∧ ∃ a, last (times (st l)) = Some a ∧ a ≤ₜ next_time l.

(** The state in which the loop of [Gillespie_SIR] ([SIR = true]) or of
    [Gillespie_SIS] is entered. *)
Definition Gillespie_start (SIR : bool) (G : Graph) (tau gamma : Q)
    (initial_infecteds : option init_arg)
    (initial_recovereds : option (list Node)) (rho : option Q)
    (tmin : number) (return_full_data : bool) (smp : list Node) (x : Q)
  : result loop :=
  if SIR
  then SIR_start G tau gamma initial_infecteds initial_recovereds rho tmin
         return_full_data smp x
  else SIS_start G tau gamma initial_infecteds rho tmin return_full_data smp x.

(** One iteration of the loop of either engine. *)
Definition Gillespie_iteration (SIR : bool) (G : Graph) (tau gamma : Q)
    (return_full_data : bool) : draw → loop → result loop :=
  if SIR then SIR_iteration G tau gamma return_full_data
  else SIS_iteration G tau gamma return_full_data.

(** The initial infecteds are distinct, and none of them is among the
    initial recovereds, which only the SIR engine takes. *)
Definition distinct_seeds (SIR : bool) (ii : list Node)
    (ir : option (list Node)) : Prop :=
  NoDup ii ∧ (SIR = true → ∀ lr, ir = Some lr → ∀ v, v ∈ ii → v ∉ lr).

(** The count sequences are not empty: [S[-1]], [I[-1]] and [R[-1]] are
    defined. *)
Definition series_nonempty (SIR : bool) (s : state) : Prop :=
  S_ s ≠ [] ∧ I_ s ≠ [] ∧ (SIR = true → R_ s ≠ []).

(** The last entries of the series are the numbers of nodes of each
    status. *)
Definition counted (SIR : bool) (G : Graph) (s : state) : Prop :=
  last (S_ s) = Some (count_status G (status s) Susceptible)
  ∧ last (I_ s) = Some (count_status G (status s) Infected)
  ∧ (SIR = true → last (R_ s) = Some (count_status G (status s) Recovered)).

(** What an event of the Gillespie engines appends to the series. *)
Definition appended (t : number) (ds di : Z) (dr : option Z)
    (s s' : state) : Prop :=
  times s' = times s ++ [t]
  ∧ (∃ sl, last (S_ s) = Some sl
           ∧ S_ s' = S_ s ++ [sl + ds]%Z)
  ∧ (∃ il, last (I_ s) = Some il
           ∧ I_ s' = I_ s ++ [il + di]%Z)
  ∧ match dr with
    | Some dr => ∃ rl, last (R_ s) = Some rl
                       ∧ R_ s' = R_ s ++ [rl + dr]%Z
    | None => R_ s' = R_ s
    end.

End GillespieSpec.

(** ** The event-driven engines *)

Module EventSpec.
Import EventDriven.

(** The joint delay function returns non-negative delays. *)
Definition nonneg_joint_SIR (fxn : joint_SIR) : Prop :=
  ∀ seed n ns, nonneg (fxn seed n ns).2
               ∧ Forall (λ vd, nonneg vd.2) (fxn seed n ns).1.

(** The joint delay function returns non-negative delays. *)
Definition nonneg_joint_SIS (fxn : joint_SIS) : Prop :=
  ∀ seed n ns, nonneg (fxn seed n ns).2
               ∧ map_Forall (λ _ tds, Forall nonneg tds) (fxn seed n ns).1.

(** The event-driven engines: [fast_nonMarkov_SIR] (and [fast_SIR], which
    calls it), [fast_SIS] and [fast_nonMarkov_SIS]. *)
Inductive engine := E_SIR | E_SIS_Markov | E_SIS_nonMarkov.

(** The rate functions are not negative. *)
Definition nonneg_rates (trf : Node → Node → Q) (rrf : Node → Q) : Prop :=
  (∀ u v, 0 <= trf u v)%Q ∧ (∀ u, 0 <= rrf u)%Q.

(** The calls that an engine puts in its queue. With [W] the delay
    functions they carry are required to return non-negative delays. *)
Definition call_ok (W : Prop) (e : engine) (c : call) : Prop :=
  match e, c with
  | E_SIR, trans_SIR _ _ fxn => W → nonneg_joint_SIR fxn
  | E_SIR, rec_SIR _ => True
  | E_SIS_Markov, trans_SIS_Markov _ _ _ trf rrf => W → nonneg_rates trf rrf
  | E_SIS_Markov, rec_SIS _ => True
  | E_SIS_nonMarkov, trans_SIS_nonMarkov _ _ _ fxn => W → nonneg_joint_SIS fxn
  | E_SIS_nonMarkov, rec_SIS _ => True
  | _, _ => False
  end.

(** [adds P W t q q']: the queue [q'] is [q] after some calls of [add],
    with calls that satisfy [P] and, under [W], times not before [t]. *)
Inductive adds (P : call → Prop) (W : Prop) (t : number) (q : myQueue.t call)
  : myQueue.t call → Prop :=
| adds_refl : adds P W t q q
| adds_step q' time c :
    adds P W t q q' → (W → t ≤ₜ time) → P c →
    adds P W t q (myQueue.add time c q').

(** [s'] differs from [s] in the queue only. *)
Definition same_but_Q (s s' : store) : Prop := s' = set_Q (Q_ s') s.

(** The handler has appended nothing. *)
Definition unrecorded (s s' : store) : Prop :=
  times s' = times s ∧ S_ s' = S_ s ∧ I_ s' = I_ s ∧ R_ s' = R_ s
  ∧ status s' = status s.

(** The handler has appended the time [t] and the last counts moved by
    [ds] and [di], and has set the status of [n] to [x]. *)
Definition recorded (t : number) (n : Node) (x : Status) (ds di : Z)
    (s s' : store) : Prop :=
  times s' = times s ++ [t] ∧ status s' = <[n := x]> (status s)
  ∧ ∃ sl il, last (S_ s) = Some sl ∧ last (I_ s) = Some il
             ∧ S_ s' = S_ s ++ [sl + ds]%Z ∧ I_ s' = I_ s ++ [il + di]%Z.

(** [R.append(R[-1] + dr)] *)
Definition R_appended (dr : Z) (s s' : store) : Prop :=
  ∃ rl, last (R_ s) = Some rl ∧ R_ s' = R_ s ++ [rl + dr]%Z.

(** The count sequences of the store of an engine. *)
Definition counts_of (e : engine) (N : Z) (s : store) : Prop :=
  match e with
  | E_SIR => counts_SIR N (S_ s) (I_ s) (R_ s)
  | _ => counts_SIS N (S_ s) (I_ s)
  end.

(** What the handler of a call records: the pair of counts that changes
    matches the action. *)
Definition call_effect (t : number) (c : call) (s s' : store) : Prop :=
  match c with
  | trans_SIR _ n _ =>
      if decide (status_of (status s) n = Susceptible)
      then recorded t n Infected (-1) 1 s s' ∧ R_appended 0 s s'
      else unrecorded s s'
  | trans_SIS_Markov _ _ n _ _ | trans_SIS_nonMarkov _ n _ _ =>
      if decide (status_of (status s) n = Susceptible)
      then recorded t n Infected (-1) 1 s s' ∧ R_ s' = R_ s
      else unrecorded s s'
  | rec_SIR n => recorded t n Recovered 0 (-1) s s' ∧ R_appended 1 s s'
  | rec_SIS n => recorded t n Susceptible 1 (-1) s s' ∧ R_ s' = R_ s
  end.

(** In an SIS run no node is recovered, and the recovery of an infected
    node is an event of the queue unless its time is beyond the horizon. *)
Definition recovery_pending (s : store) : Prop :=
  (∀ n, status_of (status s) n ≠ Recovered)
  ∧ ∀ n, status_of (status s) n = Infected →
         myQueue.tmax (Q_ s) ≤ₜ rec_time_of s n
         ∨ ∃ c, myQueue.Event (rec_time_of s n) c (rec_SIS n)
                ∈ myQueue._Q_ (Q_ s).

(** The invariant behind the count sequences. *)
Definition kinv (e : engine) (N : Z) (s : store) : Prop :=
  (∀ ev, ev ∈ myQueue._Q_ (Q_ s) → call_ok False e (myQueue.ev_call ev))
  ∧ counts_of e N s.

(** The invariant behind the time sequence. *)
Definition tinv (e : engine) (tmax : number) (s : store) : Prop :=
  myQueue.tmax (Q_ s) = tmax
  ∧ StronglySorted time_le (myQueue._Q_ (Q_ s))
  ∧ (∀ ev, ev ∈ myQueue._Q_ (Q_ s) →
       call_ok True e (myQueue.ev_call ev)
       ∧ myQueue.ev_time ev <ₜ tmax
       ∧ ∀ a, last (times s) = Some a → a ≤ₜ myQueue.ev_time ev)
  ∧ nondecreasing (times s)
  ∧ (∀ a, a ∈ times s → a ≤ₜ tmax)
  ∧ (e = E_SIS_nonMarkov → recovery_pending s).

(** [s'] is reached from [s] by popping and running events. *)
Inductive drains : store → store → Prop :=
| drains_refl s : drains s s
| drains_step s d s' s'' :
    drains s s' → pop_and_run d s' = Ok s'' → drains s s''.

(** The events of the initial infecteds [l], with the counters from [j]
    on. *)
Fixpoint seed_events (tmin : number) (c_of : Node → call) (j : nat)
    (l : list Node) : list (myQueue.event call) :=
  match l with
  | [] => []
  | u :: l' => myQueue.Event tmin j (c_of u) :: seed_events tmin c_of (S j) l'
  end.

(** The node that a transmission event infects. *)
Definition trans_target (c : call) : option Node :=
  match c with
  | trans_SIR _ n _ | trans_SIS_Markov _ _ n _ _
  | trans_SIS_nonMarkov _ n _ _ => Some n
  | rec_SIR _ | rec_SIS _ => None
  end.

(** While the initial events are processed: each one done has appended
    [tmin], those to do are at the head of the queue, and their nodes are
    susceptible. *)
Definition seeds_inv (tmin : number) (c_of : Node → call) (ii : list Node)
    (s : store) : Prop :=
  ∃ done todo rest more,
    ii = done ++ todo
    ∧ myQueue._Q_ (Q_ s) = seed_events tmin c_of (length done) todo ++ rest
    ∧ times s = replicate (length done + 1) tmin ++ more
    ∧ (todo ≠ [] → more = [])
    ∧ (∀ u, u ∈ todo → status_of (status s) u = Susceptible)
    ∧ NoDup todo
    ∧ length ii ≤ myQueue.counter (Q_ s).

(** The body of the loop over [initial_infecteds] of an engine; [g] is
    what the SIR engine does to [pred_inf_time]. *)
Definition seed_step (tmin : number) (c_of : Node → call)
    (g : Node → store → store) (s : store) (u : Node) : store :=
  Q_add tmin (c_of u) (g u s).

(** The store [s] after the loop over [initial_infecteds] that starts in
    [s0]. *)
Definition seeded (tmin : number) (c_of : Node → call) (ii : list Node)
    (s0 s : store) : Prop :=
  times s = times s0 ∧ S_ s = S_ s0 ∧ I_ s = I_ s0 ∧ R_ s = R_ s0
  ∧ status s = status s0 ∧ rec_default s = rec_default s0
  ∧ rec_time s = rec_time s0
  ∧ myQueue.tmax (Q_ s) = myQueue.tmax (Q_ s0)
  ∧ if tlt tmin (myQueue.tmax (Q_ s0))
    then myQueue._Q_ (Q_ s) = seed_events tmin c_of 0 ii
         ∧ myQueue.counter (Q_ s) = length ii
    else myQueue._Q_ (Q_ s) = [].

(** The delay functions given to [fast_nonMarkov_SIR] return
    non-negative delays. *)
Definition nonneg_delays_SIR
    (trans_time_fxn : option (nat → Node → Node → number))
    (rec_time_fxn : option (nat → Node → number))
    (trans_and_rec_time_fxn : option joint_SIR) : Prop :=
  match trans_and_rec_time_fxn, trans_time_fxn, rec_time_fxn with
  | Some f, _, _ => nonneg_joint_SIR f
  | None, Some f, Some g =>
      (∀ seed u v, nonneg (f seed u v)) ∧ (∀ seed u, nonneg (g seed u))
  | None, _, _ => True
  end.

(** The delay functions given to [fast_nonMarkov_SIS] return
    non-negative delays. *)
Definition nonneg_delays_SIS
    (trans_time_fxn : option (nat → Node → Node → number → list number))
    (rec_time_fxn : option (nat → Node → number))
    (trans_and_rec_time_fxn : option joint_SIS) : Prop :=
  match trans_and_rec_time_fxn, trans_time_fxn, rec_time_fxn with
  | Some f, _, _ => nonneg_joint_SIS f
  | None, Some f, Some g =>
      (∀ seed u v d, Forall nonneg (f seed u v d)) ∧ (∀ seed u, nonneg (g seed u))
  | None, _, _ => True
  end.

(** The initial infecteds are distinct and none of them is initially
    recovered. *)
Definition fresh_seeds (ii : list Node) (ir : option (list Node)) : Prop :=
  NoDup ii ∧ ∀ u, u ∈ ii → u ∉ default [] ir.

(** The returned time sequence of an event-driven run. *)
Definition event_times_ok (tmin tmax : number) (ii : list Node)
    (ir : option (list Node)) (ts : list number) : Prop :=
  nondecreasing ts ∧ (∀ a, a ∈ ts → a ≤ₜ tmax)
  ∧ (tmin <ₜ tmax → fresh_seeds ii ir → head ts = Some tmin).

(** The first two conditions of the schedule test of [_process_trans_SIR_]. *)
Definition may_transmit (s : store) (node v : Node) (inf_time : number) : Prop :=
  inf_time ≤ₜ rec_time_of s node ∧ inf_time <ₜ pred_inf_time_of s v.

(** The node of a recovery event. *)
Definition rec_node (c : call) : option Node :=
  match c with
  | rec_SIR n | rec_SIS n => Some n
  | _ => None
  end.

(** The graph of a transmission event. *)
Definition call_graph (c : call) : option Graph :=
  match c with
  | trans_SIR G _ _ | trans_SIS_Markov G _ _ _ _
  | trans_SIS_nonMarkov G _ _ _ => Some G
  | rec_SIR _ | rec_SIS _ => None
  end.

(** The nodes whose recovery is pending in the queue. *)
Definition rec_nodes (q : myQueue.t call) : list Node :=
  omap (λ ev, rec_node (myQueue.ev_call ev)) (myQueue._Q_ q).

(** The last entries of the series are the numbers of nodes of each
    status. *)
Definition counted_store (e : engine) (G : Graph) (s : store) : Prop :=
  last (S_ s) = Some (count_status G (status s) Susceptible)
  ∧ last (I_ s) = Some (count_status G (status s) Infected)
  ∧ (e = E_SIR → last (R_ s) = Some (count_status G (status s) Recovered)).

(** A call of the engine [e] on the graph [G]. *)
Definition call_of (e : engine) (G : Graph) (c : call) : Prop :=
  call_ok False e c ∧ ∀ G', call_graph c = Some G' → G' = G.

(** A transmission call of the engine [e] on the graph [G]. *)
Definition trans_of (e : engine) (G : Graph) (c : call) : Prop :=
  call_of e G c ∧ rec_node c = None.

(** The invariant behind the status counts: the queue holds calls of the
    engine, at most one recovery for a node, which is then infected. *)
Definition cinv (e : engine) (G : Graph) (s : store) : Prop :=
  (∀ ev, ev ∈ myQueue._Q_ (Q_ s) → call_of e G (myQueue.ev_call ev))
  ∧ NoDup (rec_nodes (Q_ s))
  ∧ (∀ n, n ∈ rec_nodes (Q_ s) →
          status_of (status s) n = Infected ∧ n ∈ nodes G)
  ∧ counted_store e G s.

(** What a handler does to the queue: at most one recovery, of [n], then
    transmissions. *)
Definition queue_step (e : engine) (G : Graph) (t : number) (n : Node)
    (c_rec : call) (q q' : myQueue.t call) : Prop :=
  ∃ q1, (q1 = q ∨ ∃ time, q1 = myQueue.add time c_rec q)
        ∧ adds (trans_of e G) False t q1 q'.

End EventSpec.

(** ** Inputs of the examples *)

(** The path graph on two nodes, and the same with an isolated third node. *)
Definition G01 : Graph := list_to_map [(0, [1]); (1, [0])].
Definition G012 : Graph := list_to_map [(0, [1]); (1, [0]); (2, [])].

(** Draws of a Gillespie iteration: the first one makes it an infection
    when the transmission rate is positive, the second one a recovery. *)
Definition draw_infect : Gillespie.draw := Gillespie.Draw (1 # 2) 0 (1 # 2) 1.
Definition draw_recover : Gillespie.draw := Gillespie.Draw 0 0 (1 # 2) 1.

(** Delay functions: every transmission takes one unit of time, every
    recovery two. *)
Definition unit_delays_SIR : EventDriven.joint_SIR :=
  λ _ _ ns, ((λ v, (v, Fin 1)) <$> ns, Fin 2).
Definition unit_delays_SIS : EventDriven.joint_SIS :=
  λ _ _ ns, (list_to_map ((λ v, (v, [Fin 1])) <$> ns), Fin 2).
Definition unit_draws : EventDriven.draws :=
  EventDriven.Draws 0 1%Q (λ _ _, (1%Q, 1%Q)).

(** ** Further definitions *)

(** The changes of status of a node of an SIS run, from the list of its
    infection times and the list of its recovery times. *)
Fixpoint cycles (Itimes Rtimes : list number) : list (number * Status) :=
  match Itimes with
  | [] => []
  | ti :: Itimes =>
      match Rtimes with
      | [] => (ti, Infected) :: cycles Itimes []
      | tr :: Rtimes => (ti, Infected) :: (tr, Susceptible) :: cycles Itimes Rtimes
      end
  end.

(** The two lists of an entry of [node_history], from the list of the
    changes. *)
Definition unzip_history (l : list (number * Status)) : Auxiliary.history :=
  (l.*1, l.*2).

(** One step of a discrete SIR run: the nodes that were infected recover,
    and [i2 >= 0] susceptible nodes are infected. *)
Definition generation_move (a b : Z * Z * Z) : Prop :=
  let '(s1, i1, r1) := a in
  let '(s2, i2, r2) := b in
  (r2 = r1 + i1 ∧ s2 = s1 - i2 ∧ 0 ≤ i2)%Z.

(** The count sequences of a discrete SIR run on [N] nodes. *)
Definition generations (N : Z) (S I R : list Z) : Prop :=
  length S = length I ∧ length I = length R
  ∧ (∀ k x, entry_SIR S I R k x → (x.1.1 + x.1.2 + x.2 = N)%Z)
  ∧ (∀ k x y, entry_SIR S I R k x → entry_SIR S I R (k + 1) y →
              generation_move x y).

(** Consecutive times differ by one. *)
Definition unit_steps (ts : list number) : Prop :=
  ∀ k a b, ts !! k = Some a → ts !! (k + 1) = Some b → b = a +ₜ Fin 1.

(** Every time but the last one is before [tmax]. *)
Definition before_horizon (tmax : number) (ts : list number) : Prop :=
  ∀ k a, ts !! k = Some a → k + 1 < length ts → a <ₜ tmax.

(** Every neighbour is a node of the graph. *)
Definition closed (G : Graph) : Prop :=
  map_Forall (λ _ ns, Forall (λ v, is_Some (G !! v)) ns) G.

(** The number of nodes of [G] that [susceptible] holds as susceptible. *)
Definition sus_count (G : Graph) (susceptible : gmap Node bool) : Z :=
  Z.of_nat (length (filter (λ v, Discrete.susceptible_of susceptible v = true)
                      (nodes G))).

(** What holds of the series in every state of the loop of
    [discrete_SIR]. *)
Definition series_inv (N : Z) (tmin tmax : number) (k0 : Z)
    (s : Discrete.state) : Prop :=
  length (Discrete.t s) = length (Discrete.I_ s)
  ∧ head (Discrete.t s) = Some tmin
  ∧ unit_steps (Discrete.t s)
  ∧ before_horizon tmax (Discrete.t s)
  ∧ generations N (Discrete.S_ s) (Discrete.I_ s) (Discrete.R_ s)
  ∧ head (Discrete.I_ s) = Some k0
  ∧ head (Discrete.R_ s) = Some 0%Z
  ∧ last (Discrete.I_ s)
    = Some (Z.of_nat (length (Discrete.infecteds s))).

(** The susceptible nodes are counted by [S], and the run is not longer
    than the number of recovered nodes. *)
Definition population_inv (G : Graph) (s : Discrete.state) : Prop :=
  Forall (λ x, sus_count G (Discrete.susceptible s) ≤ x)%Z (Discrete.S_ s)
  ∧ ∃ r, last (Discrete.R_ s) = Some r
         ∧ (Z.of_nat (length (Discrete.t s)) - 1 ≤ r)%Z.

(** What the loops of an iteration keep: the new infecteds are distinct
    nodes of the graph that were susceptible, and they are the nodes whose
    flag has changed. *)
Definition spread_rel (G : Graph) (sus0 : gmap Node bool)
    (acc : gmap Node bool * list Node * Discrete.rng) : Prop :=
  NoDup acc.1.2
  ∧ (∀ v, v ∈ acc.1.2 → Discrete.susceptible_of sus0 v = true ∧ v ∈ nodes G)
  ∧ ∀ v, Discrete.susceptible_of acc.1.1 v
         = if decide (v ∈ acc.1.2) then false else Discrete.susceptible_of sus0 v.

(** A path of four nodes. *)
Definition P4 : Graph :=
  list_to_map [(0, [1]); (1, [0; 2]); (2, [1; 3]); (3, [2])].

(** The order of the statuses of an SIR run. *)
Definition rank (x : Status) : nat :=
  match x with
  | Susceptible => 0
  | Infected => 1
  | Recovered => 2
  end.

(** No node has gone back to an earlier status. *)
Definition status_forward (st st' : gmap Node Status) : Prop :=
  ∀ n, rank (status_of st n) ≤ rank (status_of st' n).

(** [I[-1] == len(infected)], which [_Gillespie_recover_SIS_] asserts. *)
Definition ilen (s : Gillespie.state) : Prop :=
  last (Gillespie.I_ s)
  = Some (Z.of_nat (length (Gillespie.infected s))).

(** The draws of an iteration are outcomes of the random functions that
    read them. *)
Definition valid_draw (d : Gillespie.draw) : Prop :=
  (0 <= Gillespie.d_event d)%Q ∧ (Gillespie.d_event d < 1)%Q
  ∧ (0 <= Gillespie.d_scan d)%Q ∧ (Gillespie.d_scan d < 1)%Q
  ∧ (0 <= Gillespie.d_delay d)%Q.

(** What holds of the local variables of the loop of a Gillespie engine:
    the infected nodes are nodes of the graph, [I[-1]] is their number,
    [total_rate] is the sum of the two rates, and the recovery rate is
    positive while a node is infected. *)
Definition live (G : Graph) (tau : Q) (l : Gillespie.loop) : Prop :=
  ilen (Gillespie.st l)
  ∧ (∀ v, v ∈ Gillespie.infected (Gillespie.st l) → v ∈ nodes G)
  ∧ (Gillespie.total_rate l
     == Gillespie.total_rec_rate l
        + Gillespie.total_trans_rate tau (Gillespie.st l))%Q
  ∧ (Gillespie.infected (Gillespie.st l) ≠ [] →
     (0 < Gillespie.total_rec_rate l)%Q).

(** [v] is a node that a path of [H] links to one of the nodes [l]. *)
Definition connected_to (H : Graph) (l : list Node) (v : Node) : Prop :=
  ∃ u, u ∈ l ∧ rtc (λ a b, b ∈ nbrs H a) u v.

(** The transmission test never fails along an edge. *)
Definition certain (H : Graph) (test : Discrete.test_fxn) : Prop :=
  ∀ u v g, v ∈ nbrs H u → test u v g = Ok (true, g).

(** What holds of every state of the loop of [discrete_SIR] started from
    the initial infecteds [l], without initially recovered nodes: the nodes
    that are no longer susceptible are connected to [l], and [S[-1]] counts
    the others. When transmission is certain ([C]), the neighbours of the
    nodes that have recovered are no longer susceptible. *)
Definition bfs_inv (C : Prop) (H : Graph) (l : list Node)
    (s : Discrete.state) : Prop :=
  NoDup (Discrete.infecteds s)
  ∧ (∀ v, v ∈ Discrete.infecteds s →
          Discrete.susceptible_of (Discrete.susceptible s) v = false
          ∧ v ∈ nodes H)
  ∧ (∀ v, Discrete.susceptible_of (Discrete.susceptible s) v = false →
          connected_to H l v)
  ∧ (∀ v, v ∈ l → Discrete.susceptible_of (Discrete.susceptible s) v = false)
  ∧ (C → ∀ u v, Discrete.susceptible_of (Discrete.susceptible s) u = false →
                u ∉ Discrete.infecteds s → v ∈ nbrs H u →
                Discrete.susceptible_of (Discrete.susceptible s) v = false)
  ∧ ∃ sl il rl,
      last (Discrete.S_ s) = Some sl ∧ last (Discrete.I_ s) = Some il
      ∧ last (Discrete.R_ s) = Some rl
      ∧ sl = sus_count H (Discrete.susceptible s)
      ∧ il = Z.of_nat (length (Discrete.infecteds s))
      ∧ (sl + il + rl = order H)%Z.

(** The nodes of [G] that are no longer susceptible. *)
Definition reached (G : Graph) (s : Discrete.state) : list Node :=
  filter (λ v, ¬ Discrete.susceptible_of (Discrete.susceptible s) v = true)
    (nodes G).

(** What holds of the graph [H] that [percolate_network] builds from [G]:
    [H] is symmetric without parallel edges, its edges are edges of [G],
    every neighbour is a node, and the nodes of [G] are nodes of [H]. *)
Definition percolated (G H : Graph) : Prop :=
  (∀ u v, v ∈ nbrs H u → u ∈ nbrs H v)
  ∧ (∀ u, NoDup (nbrs H u))
  ∧ (∀ u v, v ∈ nbrs H u → v ∈ nbrs G u ∨ u ∈ nbrs G v)
  ∧ (∀ u v, v ∈ nbrs H u → is_Some (H !! u) ∧ is_Some (H !! v))
  ∧ (∀ n, is_Some (G !! n) → is_Some (H !! n))
  ∧ (closed G → ∀ n, is_Some (H !! n) → is_Some (G !! n)).

(** Outcomes of [random.random()]. *)
Definition unit_draw (x : Q) : Prop := (0 <= x)%Q ∧ (x < 1)%Q.

(** The entry that the documentation of [Gillespie_SIR] describes: times
    and statuses of the same length, every time a number. *)
Definition flat_entry (h : FullData.entry) : Prop :=
  length h.1 = length h.2 ∧ ∀ e, e ∈ h.1 → ∃ t, e = FullData.a_time t.


(** * Proofs *)

(** ** The Python fragment, the set and the queue *)

Lemma bind_Ok {A B} (m : result A) (f : A → result B) (b : B) :
  m ≫= f = Ok b → ∃ a, m = Ok a ∧ f a = Ok b.
Proof. destruct m; simpl; try discriminate. eauto. Qed.

Tactic Notation "bind_ok" hyp(H) :=
  let a := fresh "a" in
  let E := fresh "E" in
  apply bind_Ok in H as (a & E & H).

Tactic Notation "bind_ok" hyp(H) "as" simple_intropattern(a) ident(E) :=
  apply bind_Ok in H as (a & E & H).

Lemma py_last_Some {A} (l : list A) x : py_last l = Ok x → last l = Some x.
Proof. unfold py_last. destruct (last l); [|discriminate]. by intros [= ->]. Qed.

Lemma status_of_insert st v x w :
  status_of (<[v := x]> st) w = if decide (w = v) then x else status_of st w.
Proof.
  unfold status_of. destruct (decide (w = v)) as [->|Hne].
  - by rewrite lookup_insert_eq.
  - by rewrite lookup_insert_ne.
Qed.

Lemma Qlt_bool_true x y : QMicromega.Qlt_bool x y = true ↔ (x < y)%Q.
Proof. apply QMicromega.Qlt_bool_iff. Qed.

Lemma Qlt_bool_false x y : QMicromega.Qlt_bool x y = false ↔ (y <= x)%Q.
Proof.
  split.
  - intros H. apply Qnot_lt_le. intros Hlt. apply Qlt_bool_true in Hlt. congruence.
  - intros H. destruct (QMicromega.Qlt_bool x y) eqn:E; [|done].
    apply Qlt_bool_true in E. lra.
Qed.

Section ListDict_facts.
Context {K : Type} `{Countable K}.
Implicit Types (d : ListDict.t K) (x y : K).

Lemma ListDict_wf_init : ListDict.wf (ListDict.init (K:=K)).
Proof. intros x p. simpl. rewrite lookup_empty, lookup_nil. split; discriminate. Qed.

Lemma ListDict_wf_NoDup d : ListDict.wf d → NoDup (ListDict.items d).
Proof.
  intros Hwf. apply NoDup_alt. intros i j x Hi Hj.
  apply Hwf in Hi, Hj. congruence.
Qed.

Lemma ListDict_wf_elem d x :
  ListDict.wf d → x ∈ ListDict.items d ↔ is_Some (ListDict.item_to_position d !! x).
Proof.
  intros Hwf. rewrite list_elem_of_lookup. split.
  - intros [p Hp]. exists p. by apply Hwf.
  - intros [p Hp]. exists p. by apply Hwf.
Qed.

Lemma ListDict_add_spec d x :
  ListDict.wf d →
  ListDict.wf (ListDict.add x d) ∧
  ∀ y, y ∈ ListDict.items (ListDict.add x d) ↔ y = x ∨ y ∈ ListDict.items d.
Proof.
  intros Hwf. unfold ListDict.add.
  destruct (decide (is_Some (ListDict.item_to_position d !! x))) as [Hin|Hnin].
  - split; [done|]. intros y. split; [by right|].
    intros [->|?]; [|done]. by apply ListDict_wf_elem.
  - split.
    + intros y p. simpl. rewrite length_app. simpl.
      replace (length (ListDict.items d) + 1 - 1) with (length (ListDict.items d)) by lia.
      destruct (decide (x = y)) as [->|Hne].
      * rewrite lookup_insert_eq. split.
        -- intros [= <-]. by rewrite lookup_app_r, Nat.sub_diag.
        -- intros Hp. f_equal.
           destruct (decide (p < length (ListDict.items d))) as [Hlt|Hge].
           ++ rewrite lookup_app_l in Hp by done. apply Hwf in Hp.
              exfalso. apply Hnin. by exists p.
           ++ rewrite lookup_app_r in Hp by lia.
              destruct (p - length (ListDict.items d)) eqn:E; [lia|].
              by destruct n.
      * rewrite lookup_insert_ne by done. rewrite (Hwf y p). split.
        -- intros Hp. rewrite lookup_app_l; [done|]. by eapply lookup_lt_Some.
        -- intros Hp.
           destruct (decide (p < length (ListDict.items d))) as [Hlt|Hge].
           ++ by rewrite lookup_app_l in Hp.
           ++ rewrite lookup_app_r in Hp by lia.
              destruct (p - length (ListDict.items d)) as [|n]; simpl in Hp;
                [congruence|by destruct n].
    + intros y. simpl. rewrite elem_of_app, list_elem_of_singleton. tauto.
Qed.

Lemma py_pop_snoc {A} (l : list A) (x : A) : py_pop (l ++ [x]) = Ok (l, x).
Proof. unfold py_pop. by rewrite last_snoc, removelast_last. Qed.

Lemma ListDict_remove_spec d x :
  ListDict.wf d → x ∈ ListDict.items d →
  ∃ d', ListDict.remove x d = Ok d' ∧ ListDict.wf d' ∧
        ∀ y, y ∈ ListDict.items d' ↔ y ∈ ListDict.items d ∧ y ≠ x.
Proof.
  intros Hwf Hx. pose proof (ListDict_wf_NoDup d Hwf) as Hnd.
  pose proof (proj1 (ListDict_wf_elem d x Hwf) Hx) as [p Hp].
  destruct d as [i2p items]. simpl in *.
  unfold ListDict.remove. simpl. rewrite Hp.
  destruct (decide (items = [])) as [->|Hne]; [by apply elem_of_nil in Hx|].
  destruct (exists_last Hne) as (items' & lst & ->).
  rewrite py_pop_snoc. simpl.
  assert (Hpx : (items' ++ [lst]) !! p = Some x) by by apply Hwf.
  apply NoDup_app in Hnd as (Hnd' & Hdisj & _).
  assert (Hlst : lst ∉ items').
  { intros Hin. eapply Hdisj; [done|]. by apply list_elem_of_singleton. }
  destruct (decide (p ≠ length items')) as [Hpne|Hpeq].
  - assert (Hplt : p < length items').
    { apply lookup_lt_Some in Hpx. rewrite length_app in Hpx. simpl in Hpx. lia. }
    rewrite lookup_app_l in Hpx by done.
    assert (Hxl : x ≠ lst).
    { intros ->. apply Hlst. by eapply list_elem_of_lookup_2. }
    unfold py_set. rewrite decide_True by done. simpl.
    eexists. split; [done|]. split.
    + intros y q. simpl.
      destruct (decide (lst = y)) as [->|Hny].
      * rewrite lookup_insert_eq. split.
        -- intros [= <-]. by rewrite list_lookup_insert_eq.
        -- intros Hq. f_equal.
           destruct (decide (p = q)) as [|Hpq]; [done|].
           rewrite list_lookup_insert_ne in Hq by done.
           exfalso. apply Hlst. by eapply list_elem_of_lookup_2.
      * rewrite lookup_insert_ne by done.
        destruct (decide (x = y)) as [->|Hxy].
        -- rewrite lookup_delete_eq. split; [discriminate|].
           intros Hq. destruct (decide (p = q)) as [->|Hpq].
           ++ rewrite list_lookup_insert_eq in Hq by done. congruence.
           ++ rewrite list_lookup_insert_ne in Hq by done.
              exfalso. apply Hpq. eapply NoDup_lookup; eauto.
        -- rewrite lookup_delete_ne by done. rewrite (Hwf y q). simpl.
           destruct (decide (p = q)) as [->|Hpq].
           ++ rewrite list_lookup_insert_eq by done.
              rewrite lookup_app_l by done. split; congruence.
           ++ rewrite list_lookup_insert_ne by done. split.
              ** intros Hq.
                 destruct (decide (q < length items')) as [Hlt|Hge].
                 --- by rewrite lookup_app_l in Hq.
                 --- rewrite lookup_app_r in Hq by lia.
                     destruct (q - length items') as [|n]; simpl in Hq;
                       [congruence|by destruct n].
              ** intros Hq. rewrite lookup_app_l; [done|]. by eapply lookup_lt_Some.
    + intros y. simpl. rewrite elem_of_app, list_elem_of_singleton.
      split.
      * intros Hy. apply list_elem_of_lookup in Hy as [q Hq].
        destruct (decide (p = q)) as [->|Hpq].
        -- rewrite list_lookup_insert_eq in Hq by done.
           injection Hq as <-. split; [by right|done].
        -- rewrite list_lookup_insert_ne in Hq by done.
           split; [left; by eapply list_elem_of_lookup_2|].
           intros ->. apply Hpq. eapply NoDup_lookup; eauto.
      * intros [[Hy| ->] Hyx].
        -- apply list_elem_of_lookup in Hy as [q Hq].
           apply list_elem_of_lookup. exists q.
           rewrite list_lookup_insert_ne; [done|].
           intros ->. congruence.
        -- apply list_elem_of_lookup. exists p.
           by rewrite list_lookup_insert_eq.
  - apply dec_stable in Hpeq. subst p.
    rewrite lookup_app_r, Nat.sub_diag in Hpx by done. injection Hpx as ->.
    eexists. split; [done|]. split.
    + intros y q. simpl.
      destruct (decide (x = y)) as [->|Hxy].
      * rewrite lookup_delete_eq. split; [discriminate|].
        intros Hq. exfalso. apply Hlst. by eapply list_elem_of_lookup_2.
      * rewrite lookup_delete_ne by done. rewrite (Hwf y q). simpl. split.
        -- intros Hq.
           destruct (decide (q < length items')) as [Hlt|Hge].
           ++ by rewrite lookup_app_l in Hq.
           ++ rewrite lookup_app_r in Hq by lia.
              destruct (q - length items') as [|n]; simpl in Hq;
                [congruence|by destruct n].
        -- intros Hq. rewrite lookup_app_l; [done|]. by eapply lookup_lt_Some.
    + intros y. simpl. rewrite elem_of_app, list_elem_of_singleton.
      split; [|tauto]. intros Hy. split; [by left|]. by intros ->.
Qed.
End ListDict_facts.

Lemma lookup_snoc_cases {A} (l : list A) (x : A) k y :
  (l ++ [x]) !! k = Some y →
  (k < length l ∧ l !! k = Some y) ∨ (k = length l ∧ y = x).
Proof.
  intros H. destruct (decide (k < length l)) as [Hlt|Hge].
  - left. by rewrite lookup_app_l in H.
  - right. rewrite lookup_app_r in H by lia.
    destruct (k - length l) as [|n] eqn:E; simpl in H; [|by destruct n].
    split; [lia|congruence].
Qed.

Lemma last_lookup_length {A} (l : list A) x k :
  last l = Some x → S k = length l → l !! k = Some x.
Proof.
  intros Hl Hk. rewrite last_lookup in Hl. rewrite <- Hk in Hl. by simpl in Hl.
Qed.

Lemma counts_SIR_snoc N S I R s i r y :
  counts_SIR N S I R →
  last S = Some s → last I = Some i → last R = Some r →
  SIR_move (s, i, r) y →
  counts_SIR N (S ++ [y.1.1]) (I ++ [y.1.2]) (R ++ [y.2]).
Proof.
  intros (HL1 & HL2 & Hsum & Hmove) HS HI HR Hy.
  assert (Hsir : (s + i + r = N)%Z).
  { assert (length S ≠ 0) as HS0 by (intros ?; by destruct S).
    destruct (length S) as [|k] eqn:E; [done|].
    apply (Hsum k (s, i, r)). repeat split; simpl;
      apply last_lookup_length; try done; lia. }
  split; [rewrite !length_app; simpl; lia|].
  split; [rewrite !length_app; simpl; lia|]. split.
  - intros k [[s' i'] r'] (H1 & H2 & H3). simpl in *.
    apply lookup_snoc_cases in H1 as [[Hk H1]|[Hk ->]].
    + rewrite lookup_app_l in H2 by lia. rewrite lookup_app_l in H3 by lia.
      by apply (Hsum k (s', i', r')).
    + rewrite lookup_app_r in H2 by lia. rewrite lookup_app_r in H3 by lia.
      replace (k - length I) with 0 in H2 by lia.
      replace (k - length R) with 0 in H3 by lia.
      simpl in *. injection H2 as <-. injection H3 as <-.
      destruct y as [[? ?] ?]. simpl in *. lia.
  - intros k [[s1 i1] r1] [[s2 i2] r2] (H1 & H2 & H3) (H4 & H5 & H6). simpl in *.
    apply lookup_snoc_cases in H4 as [[Hk H4]|[Hk ->]].
    + rewrite lookup_app_l in H1, H2, H3, H5, H6 by lia.
      by apply (Hmove k (s1, i1, r1) (s2, i2, r2)).
    + rewrite lookup_app_l in H1, H2, H3 by lia.
      rewrite lookup_app_r in H5, H6 by lia.
      replace (k + 1 - length I) with 0 in H5 by lia.
      replace (k + 1 - length R) with 0 in H6 by lia.
      simpl in *. injection H5 as <-. injection H6 as <-.
      rewrite (last_lookup_length S s k) in H1 by (done || lia).
      rewrite (last_lookup_length I i k) in H2 by (done || lia).
      rewrite (last_lookup_length R r k) in H3 by (done || lia).
      injection H1 as <-. injection H2 as <-. injection H3 as <-.
      by destruct y as [[? ?] ?].
Qed.

Lemma counts_SIR_drop N S I R n :
  counts_SIR N S I R → counts_SIR N (drop n S) (drop n I) (drop n R).
Proof.
  intros (HL1 & HL2 & Hsum & Hmove).
  split; [rewrite !length_drop; lia|]. split; [rewrite !length_drop; lia|].
  unfold entry_SIR. split.
  - intros k x. rewrite !lookup_drop. apply Hsum.
  - intros k x y. rewrite !lookup_drop.
    replace (n + (k + 1)) with (n + k + 1) by lia. apply Hmove.
Qed.

Lemma counts_SIS_snoc N S I s i y :
  counts_SIS N S I →
  last S = Some s → last I = Some i →
  SIS_move (s, i) y →
  counts_SIS N (S ++ [y.1]) (I ++ [y.2]).
Proof.
  intros (HL1 & Hsum & Hmove) HS HI Hy.
  assert (Hsi : (s + i = N)%Z).
  { assert (length S ≠ 0) as HS0 by (intros ?; by destruct S).
    destruct (length S) as [|k] eqn:E; [done|].
    apply (Hsum k (s, i)). repeat split; simpl;
      apply last_lookup_length; try done; lia. }
  split; [rewrite !length_app; simpl; lia|]. split.
  - intros k [s' i'] (H1 & H2). simpl in *.
    apply lookup_snoc_cases in H1 as [[Hk H1]|[Hk ->]].
    + rewrite lookup_app_l in H2 by lia.
      by apply (Hsum k (s', i')).
    + rewrite lookup_app_r in H2 by lia.
      replace (k - length I) with 0 in H2 by lia.
      simpl in *. injection H2 as <-.
      destruct y as [? ?]. simpl in *. lia.
  - intros k [s1 i1] [s2 i2] (H1 & H2) (H4 & H5). simpl in *.
    apply lookup_snoc_cases in H4 as [[Hk H4]|[Hk ->]].
    + rewrite lookup_app_l in H1, H2, H5 by lia.
      by apply (Hmove k (s1, i1) (s2, i2)).
    + rewrite lookup_app_l in H1, H2 by lia.
      rewrite lookup_app_r in H5 by lia.
      replace (k + 1 - length I) with 0 in H5 by lia.
      simpl in *. injection H5 as <-.
      rewrite (last_lookup_length S s k) in H1 by (done || lia).
      rewrite (last_lookup_length I i k) in H2 by (done || lia).
      injection H1 as <-. injection H2 as <-.
      by destruct y as [? ?].
Qed.

Lemma counts_SIS_drop N S I n :
  counts_SIS N S I → counts_SIS N (drop n S) (drop n I).
Proof.
  intros (HL1 & Hsum & Hmove).
  split; [rewrite !length_drop; lia|].
  unfold entry_SIS. split.
  - intros k x. rewrite !lookup_drop. apply Hsum.
  - intros k x y. rewrite !lookup_drop.
    replace (n + (k + 1)) with (n + k + 1) by lia. apply Hmove.
Qed.

Lemma counts_SIR_init N s i r :
  (s + i + r = N)%Z → counts_SIR N [s] [i] [r].
Proof.
  intros H. split; [done|]. split; [done|]. split.
  - intros [|k] [[? ?] ?] (H1 & H2 & H3); simpl in *; [|done]. congruence.
  - intros k x y _ (H1 & _). by rewrite Nat.add_1_r in H1.
Qed.

Lemma counts_SIS_init N s i :
  (s + i = N)%Z → counts_SIS N [s] [i].
Proof.
  intros H. split; [done|]. split.
  - intros [|k] [? ?] (H1 & H2); simpl in *; [|done]. congruence.
  - intros k x y _ (H1 & _). by rewrite Nat.add_1_r in H1.
Qed.

Lemma tle_refl a : a ≤ₜ a.
Proof. destruct a; simpl; [|done]. apply Qle_bool_iff. lra. Qed.

Lemma tle_trans a b c : a ≤ₜ b → b ≤ₜ c → a ≤ₜ c.
Proof.
  destruct a, b, c; simpl; try done.
  rewrite !Qle_bool_iff. lra.
Qed.

Lemma tlt_tle a b : a <ₜ b → a ≤ₜ b.
Proof.
  destruct a, b; simpl; try done.
  rewrite Qlt_bool_true, Qle_bool_iff. lra.
Qed.

Lemma tlt_tle_trans a b c : a <ₜ b → b ≤ₜ c → a <ₜ c.
Proof.
  destruct a, b, c; simpl; try done.
  rewrite !Qlt_bool_true, Qle_bool_iff. lra.
Qed.

Lemma tle_tlt_trans a b c : a ≤ₜ b → b <ₜ c → a <ₜ c.
Proof.
  destruct a, b, c; simpl; try done.
  rewrite !Qlt_bool_true, Qle_bool_iff. lra.
Qed.

Lemma tlt_false_tle a b : tlt a b = false → b ≤ₜ a.
Proof.
  destruct a, b; simpl; try done.
  rewrite Qlt_bool_false, Qle_bool_iff. done.
Qed.

Lemma tle_false_tlt a b : tle a b = false → b <ₜ a.
Proof.
  destruct a, b; simpl; try done.
  intros H. apply Qlt_bool_true. apply Qnot_le_lt. intros Hle.
  apply Qle_bool_iff in Hle. congruence.
Qed.

Lemma tlt_irrefl a : tlt a a = false.
Proof. destruct a; simpl; [|done]. apply Qlt_bool_false. lra. Qed.

Lemma tlt_not_tle a b : a <ₜ b → tle b a = false.
Proof.
  destruct a, b; simpl; try done.
  rewrite Qlt_bool_true. intros H. destruct (Qle_bool q0 q) eqn:E; [|done].
  apply Qle_bool_iff in E. lra.
Qed.

Lemma teq_tle a b : teq a b = true → a ≤ₜ b.
Proof.
  destruct a, b; simpl; try done.
  intros H. apply Qeq_bool_iff in H. apply Qle_bool_iff. lra.
Qed.

Lemma teq_sym a b : teq a b = true → teq b a = true.
Proof.
  destruct a, b; simpl; try done.
  rewrite !Qeq_bool_iff. intros ->. done.
Qed.

Lemma tle_Inf a : a ≤ₜ Inf.
Proof. by destruct a. Qed.

Lemma tle_tadd a d : nonneg d → a ≤ₜ a +ₜ d.
Proof.
  unfold nonneg. destruct a, d; simpl; try done.
  rewrite !Qle_bool_iff. lra.
Qed.

Lemma tlt_tadd a b d : nonneg d → a <ₜ b → a <ₜ b +ₜ d.
Proof.
  intros Hd Hab. eapply tlt_tle_trans; [done|]. by apply tle_tadd.
Qed.

Lemma random_expovariate_nonneg lambd x t :
  (0 <= lambd)%Q → random_expovariate lambd x = Ok t → nonneg t.
Proof.
  unfold random_expovariate, nonneg. intros Hl.
  destruct (Qeq_bool lambd 0) eqn:E0; [discriminate|].
  destruct (QMicromega.Qlt_bool 0 lambd) eqn:E1.
  - destruct (Qle_bool 0 x) eqn:E2; [|discriminate]. by intros [= <-].
  - apply Qlt_bool_false in E1. assert (lambd == 0)%Q by lra.
    apply Qeq_bool_iff in H. congruence.
Qed.

Lemma nondecreasing_snoc ts a t :
  nondecreasing ts → last ts = Some a → a ≤ₜ t → nondecreasing (ts ++ [t]).
Proof.
  intros Hnd Hl Hat i x y Hx Hy.
  apply lookup_snoc_cases in Hy as [[Hi Hy]|[Hi ->]].
  - rewrite lookup_app_l in Hx by lia. by eapply Hnd.
  - rewrite lookup_app_l in Hx by lia.
    rewrite (last_lookup_length ts a i) in Hx by (done || lia). by injection Hx as <-.
Qed.

Lemma nondecreasing_drop ts n : nondecreasing ts → nondecreasing (drop n ts).
Proof.
  intros Hnd i a b. rewrite !lookup_drop.
  replace (n + (i + 1)) with (n + i + 1) by lia. apply Hnd.
Qed.

Lemma nondecreasing_le ts i j a b :
  nondecreasing ts → i ≤ j → ts !! i = Some a → ts !! j = Some b → a ≤ₜ b.
Proof.
  intros Hnd Hij Ha. revert b. induction Hij as [|j Hij IH]; intros b Hb.
  - replace b with a by congruence. apply tle_refl.
  - destruct (lookup_lt_is_Some_2 ts j) as [c Hc].
    { apply lookup_lt_Some in Hb. lia. }
    eapply tle_trans; [by apply IH|]. eapply (Hnd j); [done|].
    by rewrite Nat.add_1_r.
Qed.

Lemma times_ok_snoc tmin tmax ts a t :
  times_ok tmin tmax ts → last ts = Some a → a ≤ₜ t → t ≤ₜ tmax →
  times_ok tmin tmax (ts ++ [t]).
Proof.
  intros (Hh & Hnd & Hb) Hl Hat Ht. split; [|split].
  - destruct ts; [done|]. done.
  - by eapply nondecreasing_snoc.
  - intros x [Hx|Hx]%elem_of_app; [by apply Hb|].
    apply list_elem_of_singleton in Hx. by subst.
Qed.

Lemma times_ok_init tmin tmax : tmin ≤ₜ tmax → times_ok tmin tmax [tmin].
Proof.
  intros H. split; [done|]. split.
  - intros i a b _ Hb. by rewrite Nat.add_1_r in Hb.
  - intros a Ha. apply list_elem_of_singleton in Ha. by subst.
Qed.

Section Queue_facts.
Context {F : Type}.
Implicit Types (e x : myQueue.event F) (h : list (myQueue.event F)) (q : myQueue.t F).

Lemma heappush_perm h e : myQueue.heappush h e ≡ₚ e :: h.
Proof.
  induction h as [|x h IH]; simpl; [done|].
  destruct (myQueue.tuple_lt e x); [done|].
  rewrite IH. apply perm_swap.
Qed.

Lemma tuple_lt_time_le e x : myQueue.tuple_lt e x = true → time_le e x.
Proof.
  unfold myQueue.tuple_lt, time_le. intros [H|[H _]%andb_true_iff]%orb_true_iff.
  - by apply tlt_tle.
  - by apply teq_tle.
Qed.

Lemma tuple_lt_false_time_le e x : myQueue.tuple_lt e x = false → time_le x e.
Proof.
  unfold myQueue.tuple_lt, time_le. intros [H _]%orb_false_iff.
  by apply tlt_false_tle.
Qed.

Lemma heappush_sorted h e :
  StronglySorted time_le h → StronglySorted time_le (myQueue.heappush h e).
Proof.
  induction h as [|x h IH]; intros Hs; simpl.
  - constructor; [constructor|constructor].
  - apply StronglySorted_inv in Hs as [Hs Hx].
    destruct (myQueue.tuple_lt e x) eqn:E.
    + apply tuple_lt_time_le in E. constructor; [by constructor|].
      constructor; [done|]. eapply Forall_impl; [done|].
      intros y Hy. unfold time_le in *. by eapply tle_trans.
    + apply tuple_lt_false_time_le in E. constructor; [by apply IH|].
      rewrite heappush_perm. by constructor.
Qed.

(** An event that is later in the tuple order than a prefix of the heap is
    pushed behind that prefix. *)
Lemma heappush_behind p h e :
  Forall (λ x, myQueue.tuple_lt e x = false) p →
  myQueue.heappush (p ++ h) e = p ++ myQueue.heappush h e.
Proof.
  induction p as [|x p IH]; intros Hp; simpl; [done|].
  apply Forall_cons in Hp as [Hx Hp]. rewrite Hx. by rewrite IH.
Qed.

Lemma add_tmax time c q : myQueue.tmax (myQueue.add time c q) = myQueue.tmax q.
Proof. unfold myQueue.add. by destruct (tlt _ _). Qed.

Lemma add_counter_le time c q :
  myQueue.counter q ≤ myQueue.counter (myQueue.add time c q).
Proof. unfold myQueue.add. destruct (tlt _ _); simpl; lia. Qed.

Lemma add_elem time c q e :
  e ∈ myQueue._Q_ (myQueue.add time c q) ↔
  (time <ₜ myQueue.tmax q ∧ e = myQueue.Event time (myQueue.counter q) c)
  ∨ e ∈ myQueue._Q_ q.
Proof.
  unfold myQueue.add. destruct (tlt time (myQueue.tmax q)) eqn:E; simpl.
  - rewrite heappush_perm, elem_of_cons. naive_solver.
  - naive_solver.
Qed.

Lemma add_sorted time c q :
  StronglySorted time_le (myQueue._Q_ q) →
  StronglySorted time_le (myQueue._Q_ (myQueue.add time c q)).
Proof.
  unfold myQueue.add. destruct (tlt _ _); simpl; [|done]. apply heappush_sorted.
Qed.
End Queue_facts.

(** ** The Gillespie engines *)

Module GillespieProofs.
Import Gillespie GillespieSpec.

Lemma rg_get_set rg k d k' :
  rg_get (rg_set rg k d) k' = if decide (k' = k) then d else rg_get rg k'.
Proof.
  induction rg as [|[k0 d0] rg IH]; simpl.
  - by destruct (decide (k' = k)).
  - destruct (decide (k = k0)) as [->|Hne]; simpl.
    + by destruct (decide (k' = k0)).
    + destruct (decide (k' = k0)) as [->|Hne'].
      * by rewrite decide_False by congruence.
      * done.
Qed.

Lemma count_of_insert cnt v c w :
  count_of (<[v := c]> cnt) w = if decide (w = v) then c else count_of cnt w.
Proof.
  unfold count_of. destruct (decide (w = v)) as [->|Hne].
  - by rewrite lookup_insert_eq.
  - by rewrite lookup_insert_ne.
Qed.

(** Taking a susceptible node out of the bucket of its count. *)
Lemma unbucket_ok hold s v :
  buckets_ok hold s → v ∉ hold → status_of (status s) v = Susceptible →
  let c := count_of (infected_neighbor_count s) v in
  ∃ rg1,
    ((0 < c)%Z → rg_remove c v (risk_group s) = Ok rg1) ∧
    ((c ≤ 0)%Z → rg1 = risk_group s) ∧
    (∀ k, ListDict.wf (rg_get rg1 k)) ∧
    (∀ k y, y ∈ ListDict.items (rg_get rg1 k) ↔
       y ≠ v ∧ y ∈ ListDict.items (rg_get (risk_group s) k)).
Proof.
  intros [Hwf Hmem] Hhold Hst c.
  destruct (decide (0 < c)%Z) as [Hpos|Hnpos].
  - assert (Hin : v ∈ ListDict.items (rg_get (risk_group s) c)).
    { apply Hmem. done. }
    destruct (ListDict_remove_spec _ v (Hwf c) Hin) as (d' & Hrm & Hwf' & Hit).
    exists (rg_set (risk_group s) c d'). split; [|split; [|split]].
    + intros _. unfold rg_remove. by rewrite Hrm.
    + lia.
    + intros k. rewrite rg_get_set. by destruct (decide (k = c)).
    + intros k y. rewrite rg_get_set. destruct (decide (k = c)) as [->|Hk].
      * rewrite Hit. tauto.
      * split; [|tauto]. intros Hy. split; [|done].
        intros ->. apply Hmem in Hy as (_ & _ & ? & _). unfold c in Hk. congruence.
  - exists (risk_group s). split; [lia|]. split; [done|]. split; [done|].
    intros k y. split; [|tauto]. intros Hy. split; [|done].
    intros ->. apply Hmem in Hy as (_ & _ & ? & ?). unfold c in Hnpos. lia.
Qed.

(** Moving a susceptible node from the bucket of its count to the bucket
    of a new count. *)
Lemma move_ok hold s v c' :
  buckets_ok hold s → v ∉ hold → status_of (status s) v = Susceptible →
  (0 ≤ c')%Z →
  let c := count_of (infected_neighbor_count s) v in
  ∃ rg1,
    ((0 < c)%Z → rg_remove c v (risk_group s) = Ok rg1) ∧
    ((c ≤ 0)%Z → rg1 = risk_group s) ∧
    buckets_ok hold
      (set_risk (<[v := c']> (infected_neighbor_count s))
         (if decide (c' > 0)%Z then rg_add c' v rg1 else rg1) s).
Proof.
  intros Hb Hhold Hst Hc' c.
  destruct (unbucket_ok hold s v Hb Hhold Hst) as (rg1 & H1 & H2 & Hwf1 & Hmem1).
  destruct Hb as [Hwf Hmem].
  exists rg1. split; [done|]. split; [done|].
  split; simpl.
  - intros k. destruct (decide (c' > 0)%Z); [|done].
    unfold rg_add. rewrite rg_get_set. destruct (decide (k = c')); [|done].
    by apply ListDict_add_spec.
  - intros k y. rewrite count_of_insert.
    destruct (decide (c' > 0)%Z) as [Hpos|Hnpos].
    + unfold rg_add. rewrite rg_get_set.
      destruct (decide (k = c')) as [->|Hk].
      * rewrite (proj2 (ListDict_add_spec _ v (Hwf1 c'))).
        rewrite Hmem1, Hmem.
        destruct (decide (y = v)) as [->|Hy]; [|tauto].
        split; [|tauto]. intros _. repeat split; try done. lia.
      * rewrite Hmem1, Hmem.
        destruct (decide (y = v)) as [->|Hy]; [|tauto].
        split; [tauto|]. intros (_ & _ & ? & _). congruence.
    + rewrite Hmem1, Hmem.
      destruct (decide (y = v)) as [->|Hy]; [|tauto].
      split; [tauto|]. lia.
Qed.

Lemma counts_are_ext f g s :
  (∀ v, f v = g v) → counts_are f s → counts_are g s.
Proof. intros Hfg Hf v Hv. rewrite <- Hfg. by apply Hf. Qed.

Lemma same_but_risk_refl s : same_but_risk s s.
Proof. by destruct s. Qed.

Lemma same_but_risk_trans s1 s2 s3 :
  same_but_risk s1 s2 → same_but_risk s2 s3 → same_but_risk s1 s3.
Proof. unfold same_but_risk. intros H1 H2. rewrite H2, H1. done. Qed.

Lemma same_but_risk_set c rg s : same_but_risk s (set_risk c rg s).
Proof. done. Qed.

Lemma same_but_risk_status s s' : same_but_risk s s' → status s' = status s.
Proof. by intros ->. Qed.

Lemma initialize_neighbor_eq n s : initialize_neighbor n s = infect_neighbor n s.
Proof.
  unfold initialize_neighbor, infect_neighbor.
  destruct (decide (status_of (status s) n = Susceptible)); [|done].
  set (c := count_of (infected_neighbor_count s) n).
  replace (c + 1 - 1)%Z with c by lia.
  destruct (decide (c + 1 > 1)%Z), (decide (c > 0)%Z); try lia; done.
Qed.

Lemma infect_neighbor_ok hold s base n :
  buckets_ok hold s → counts_are base s → (∀ v, 0 ≤ base v)%Z → n ∉ hold →
  ∃ s', infect_neighbor n s = Ok s' ∧ same_but_risk s s' ∧ buckets_ok hold s'
        ∧ counts_are (λ v, base v + if decide (v = n) then 1 else 0)%Z s'.
Proof.
  intros Hb Hc Hbase Hhold. unfold infect_neighbor.
  destruct (decide (status_of (status s) n = Susceptible)) as [Hst|Hst].
  - specialize (Hc n Hst) as Hcn. pose proof (Hbase n) as Hbn.
    destruct (move_ok hold s n (count_of (infected_neighbor_count s) n + 1)
                Hb Hhold Hst) as (rg1 & H1 & H2 & Hok); [lia|].
    rewrite decide_True in Hok by lia.
    destruct (decide (count_of (infected_neighbor_count s) n > 0)%Z) as [Hpos|Hnpos].
    + rewrite H1 by lia. simpl. eexists. split; [done|].
      split; [apply same_but_risk_set|]. split; [done|].
      intros v Hv. simpl in *. rewrite count_of_insert.
      destruct (decide (v = n)) as [->|]; [lia|]. rewrite Hc by done. lia.
    + rewrite H2 in Hok by lia. simpl. eexists. split; [done|].
      split; [apply same_but_risk_set|]. split; [done|].
      intros v Hv. simpl in *. rewrite count_of_insert.
      destruct (decide (v = n)) as [->|]; [lia|]. rewrite Hc by done. lia.
  - exists s. split; [done|]. split; [apply same_but_risk_refl|]. split; [done|].
    intros v Hv. destruct (decide (v = n)) as [->|]; [done|].
    rewrite Hc by done. lia.
Qed.

Lemma infect_loop_ok hold ns : ∀ s base,
  NoDup ns → buckets_ok hold s → counts_are base s → (∀ v, 0 ≤ base v)%Z →
  (∀ n, n ∈ ns → n ∉ hold) →
  ∃ s', py_for ns infect_neighbor s = Ok s' ∧ same_but_risk s s'
        ∧ buckets_ok hold s'
        ∧ counts_are (λ v, base v + if decide (v ∈ ns) then 1 else 0)%Z s'.
Proof.
  induction ns as [|n ns IH]; intros s base Hnd Hb Hc Hbase Hhold.
  - exists s. split; [done|]. split; [apply same_but_risk_refl|]. split; [done|].
    eapply counts_are_ext; [|done]. intros v.
    destruct (decide (v ∈ [])) as [Hin|]; [by apply elem_of_nil in Hin|lia].
  - apply NoDup_cons in Hnd as [Hn Hnd].
    destruct (infect_neighbor_ok hold s base n Hb Hc Hbase) as (s1 & E1 & Hs1 & Hb1 & Hc1).
    { apply Hhold. left. }
    destruct (IH s1 _ Hnd Hb1 Hc1) as (s2 & E2 & Hs2 & Hb2 & Hc2).
    { intros v. simpl. pose proof (Hbase v). destruct (decide (v = n)); lia. }
    { intros m Hm. apply Hhold. by right. }
    exists s2. simpl. rewrite E1. simpl. split; [done|].
    split; [by eapply same_but_risk_trans|]. split; [done|].
    eapply counts_are_ext; [|done]. intros v. cbv beta.
    destruct (decide (v = n)) as [->|Hvn].
    + destruct (decide (n ∈ ns)); [done|].
      destruct (decide (n ∈ n :: ns)) as [|Hx]; [lia|]. exfalso. apply Hx. left.
    + destruct (decide (v ∈ ns)) as [Hin|Hnin].
      * destruct (decide (v ∈ n :: ns)) as [|Hx]; [lia|]. exfalso. apply Hx. by right.
      * destruct (decide (v ∈ n :: ns)) as [Hx|]; [|lia].
        apply elem_of_cons in Hx. tauto.
Qed.

(** The neighbour loop of [_Gillespie_recover_SIR_]. *)
Lemma recover_neighbor_SIR_ok s base n :
  buckets_ok [] s → counts_are base s →
  (status_of (status s) n = Susceptible → 1 ≤ base n)%Z →
  ∃ s', recover_neighbor_SIR n s = Ok s' ∧ same_but_risk s s' ∧ buckets_ok [] s'
        ∧ counts_are (λ v, base v - if decide (v = n) then 1 else 0)%Z s'.
Proof.
  intros Hb Hc Hbase. unfold recover_neighbor_SIR.
  destruct (decide (status_of (status s) n = Susceptible)) as [Hst|Hst].
  - specialize (Hc n Hst) as Hcn. specialize (Hbase Hst).
    destruct (move_ok [] s n (count_of (infected_neighbor_count s) n - 1)
                Hb (not_elem_of_nil _) Hst) as (rg1 & H1 & H2 & Hok); [lia|].
    rewrite H1 by lia. simpl. eexists. split; [done|].
    split; [apply same_but_risk_set|]. split; [done|].
    intros v Hv. simpl in *. rewrite count_of_insert.
    destruct (decide (v = n)) as [->|]; [lia|]. rewrite Hc by done. lia.
  - exists s. split; [done|]. split; [apply same_but_risk_refl|]. split; [done|].
    intros v Hv. destruct (decide (v = n)) as [->|]; [done|].
    rewrite Hc by done. lia.
Qed.

Lemma recover_loop_SIR_ok ns : ∀ s base,
  NoDup ns → buckets_ok [] s → counts_are base s →
  (∀ n, n ∈ ns → status_of (status s) n = Susceptible → 1 ≤ base n)%Z →
  ∃ s', py_for ns recover_neighbor_SIR s = Ok s' ∧ same_but_risk s s'
        ∧ buckets_ok [] s'
        ∧ counts_are (λ v, base v - if decide (v ∈ ns) then 1 else 0)%Z s'.
Proof.
  induction ns as [|n ns IH]; intros s base Hnd Hb Hc Hbase.
  - exists s. split; [done|]. split; [apply same_but_risk_refl|]. split; [done|].
    eapply counts_are_ext; [|done]. intros v.
    destruct (decide (v ∈ [])) as [Hin|]; [by apply elem_of_nil in Hin|lia].
  - apply NoDup_cons in Hnd as [Hn Hnd].
    destruct (recover_neighbor_SIR_ok s base n Hb Hc) as (s1 & E1 & Hs1 & Hb1 & Hc1).
    { apply Hbase. left. }
    destruct (IH s1 _ Hnd Hb1 Hc1) as (s2 & E2 & Hs2 & Hb2 & Hc2).
    { intros m Hm Hst. simpl. rewrite (same_but_risk_status _ _ Hs1) in Hst.
      rewrite decide_False by (intros ->; done).
      specialize (Hbase m). rewrite elem_of_cons in Hbase.
      specialize (Hbase (or_intror Hm) Hst). lia. }
    exists s2. simpl. rewrite E1. simpl. split; [done|].
    split; [by eapply same_but_risk_trans|]. split; [done|].
    eapply counts_are_ext; [|done]. intros v. cbv beta.
    destruct (decide (v = n)) as [->|Hvn].
    + destruct (decide (n ∈ ns)); [done|].
      destruct (decide (n ∈ n :: ns)) as [|Hx]; [lia|]. exfalso. apply Hx. left.
    + destruct (decide (v ∈ ns)) as [Hin|Hnin].
      * destruct (decide (v ∈ n :: ns)) as [|Hx]; [lia|]. exfalso. apply Hx. by right.
      * destruct (decide (v ∈ n :: ns)) as [Hx|]; [|lia].
        apply elem_of_cons in Hx. tauto.
Qed.

(** Counting in a duplicate-free list when a predicate changes at one point. *)
Lemma filter_length_gain {A} `{EqDecision A} (P Q : A → Prop)
    `{∀ x, Decision (P x)} `{∀ x, Decision (Q x)} (x : A) (l : list A) :
  NoDup l → (∀ u, u ≠ x → (P u ↔ Q u)) → ¬ P x → Q x →
  length (filter Q l) = length (filter P l) + (if decide (x ∈ l) then 1 else 0).
Proof.
  intros Hnd HPQ HP HQ. induction l as [|a l IH].
  - simpl. destruct (decide (x ∈ [])) as [Hin|]; [by apply elem_of_nil in Hin|done].
  - apply NoDup_cons in Hnd as [Ha Hnd]. specialize (IH Hnd).
    rewrite !filter_cons.
    destruct (decide (a = x)) as [->|Hax].
    + rewrite decide_True by done. rewrite decide_False by done.
      destruct (decide (x ∈ l)); [done|].
      destruct (decide (x ∈ x :: l)) as [|Hx]; [|exfalso; apply Hx; left].
      simpl. lia.
    + destruct (decide (x ∈ a :: l)) as [Hin|Hnin].
      * apply elem_of_cons in Hin as [->|Hin]; [done|].
        rewrite decide_True in IH by done.
        destruct (decide (Q a)) as [Hq|Hq], (decide (P a)) as [Hp|Hp];
          simpl; try lia; exfalso; apply HPQ in Hax; tauto.
      * rewrite decide_False in IH by (intros ?; apply Hnin; by right).
        destruct (decide (Q a)) as [Hq|Hq], (decide (P a)) as [Hp|Hp];
          simpl; try lia; exfalso; apply HPQ in Hax; tauto.
Qed.

Lemma filter_length_ext {A} (P Q : A → Prop)
    `{∀ x, Decision (P x)} `{∀ x, Decision (Q x)} (l : list A) :
  (∀ u, u ∈ l → (P u ↔ Q u)) → length (filter P l) = length (filter Q l).
Proof.
  intros HPQ. induction l as [|a l IH]; [done|].
  rewrite !filter_cons.
  assert (P a ↔ Q a) by (apply HPQ; left).
  assert (IH' : length (filter P l) = length (filter Q l)).
  { apply IH. intros; apply HPQ; by right. }
  destruct (decide (P a)), (decide (Q a)); simpl; tauto || lia.
Qed.

Section Graph_facts.
Context (G : Graph) (HG : undirected G).

Lemma nbrs_NoDup v : NoDup (nbrs G v).
Proof.
  unfold nbrs. destruct (G !! v) as [ns|] eqn:E; simpl.
  - by apply (map_Forall_lookup_1 _ _ _ _ HG E).
  - apply NoDup_nil_2.
Qed.

Lemma nbrs_sym u v : u ∈ nbrs G v → v ∈ nbrs G u.
Proof.
  unfold nbrs at 1. destruct (G !! v) as [ns|] eqn:E; simpl.
  - intros Hu. destruct (map_Forall_lookup_1 _ _ _ _ HG E) as [_ Hs].
    by apply (proj1 (Forall_forall _ _) Hs).
  - intros Hu. by apply elem_of_nil in Hu.
Qed.

Lemma nbrs_sym_iff u v : u ∈ nbrs G v ↔ v ∈ nbrs G u.
Proof. split; apply nbrs_sym. Qed.

Lemma neighbors_nbrs v ns : neighbors G v = Ok ns → nbrs G v = ns.
Proof.
  unfold neighbors, nbrs. destruct (G !! v); [|discriminate]. by intros [= ->].
Qed.

Lemma infected_neighbors_gain st x v :
  status_of st x ≠ Infected →
  infected_neighbors G (<[x := Infected]> st) v
  = (infected_neighbors G st v + if decide (v ∈ nbrs G x) then 1 else 0)%Z.
Proof.
  intros Hx. unfold infected_neighbors.
  rewrite (filter_length_gain (λ u, status_of st u = Infected)
             (λ u, status_of (<[x := Infected]> st) u = Infected) x).
  - rewrite Nat2Z.inj_add.
    destruct (decide (x ∈ nbrs G v)) as [H1|H1], (decide (v ∈ nbrs G x)) as [H2|H2];
      try done; exfalso; apply nbrs_sym in H1 || apply nbrs_sym in H2; done.
  - apply nbrs_NoDup.
  - intros u Hu. by rewrite status_of_insert, decide_False.
  - done.
  - by rewrite status_of_insert, decide_True.
Qed.

Lemma infected_neighbors_loss st x y v :
  status_of st x = Infected → y ≠ Infected →
  infected_neighbors G (<[x := y]> st) v
  = (infected_neighbors G st v - if decide (v ∈ nbrs G x) then 1 else 0)%Z.
Proof.
  intros Hx Hy. unfold infected_neighbors.
  rewrite (filter_length_gain (λ u, status_of (<[x := y]> st) u = Infected)
             (λ u, status_of st u = Infected) x _ (nbrs_NoDup v)).
  - rewrite Nat2Z.inj_add.
    destruct (decide (x ∈ nbrs G v)) as [H1|H1], (decide (v ∈ nbrs G x)) as [H2|H2];
      try lia; exfalso; apply nbrs_sym in H1 || apply nbrs_sym in H2; done.
  - intros u Hu. by rewrite status_of_insert, decide_False.
  - by rewrite status_of_insert, decide_True.
  - done.
Qed.

Lemma infected_neighbors_pos st x v :
  status_of st x = Infected → v ∈ nbrs G x → (1 ≤ infected_neighbors G st v)%Z.
Proof.
  intros Hx Hv. apply nbrs_sym in Hv. unfold infected_neighbors.
  assert (x ∈ filter (λ u, status_of st u = Infected) (nbrs G v)) as Hin.
  { by apply list_elem_of_filter. }
  destruct (filter _ (nbrs G v)); [by apply elem_of_nil in Hin|]. simpl. lia.
Qed.

Lemma infected_neighbors_nonneg st v : (0 ≤ infected_neighbors G st v)%Z.
Proof. unfold infected_neighbors. lia. Qed.

End Graph_facts.

Lemma ginv_buckets_exact G s : ginv G s → buckets_exact G s.
Proof.
  intros ([_ Hmem] & Hc & _) v Hv. unfold in_bucket.
  specialize (Hc v Hv). split.
  - intros Hpos k. rewrite Hmem. rewrite Hc. split.
    + by intros (_ & _ & <- & _).
    + intros ->. repeat split; try done. apply not_elem_of_nil.
  - intros H0 k. rewrite Hmem. rewrite Hc, H0. lia.
Qed.

Lemma py_for_ext {A St} (f g : A → St → result St) l s :
  (∀ x s, f x s = g x s) → py_for l f s = py_for l g s.
Proof.
  intros Hfg. revert s. induction l as [|a l IH]; intros s; [done|].
  simpl. rewrite Hfg. destruct (g a s); simpl; auto.
Qed.

Lemma random_choice_elem {A} (l : list A) k x :
  random_choice l k = Ok x → x ∈ l.
Proof.
  unfold random_choice, py_get. destruct l as [|a l]; [discriminate|].
  destruct ((a :: l) !! _) eqn:E; [|discriminate]. intros [= ->].
  by eapply list_elem_of_lookup_2.
Qed.

Lemma choose_recipient_elem rg u k n x :
  choose_recipient rg u k = Ok (n, x) → x ∈ ListDict.items (rg_get rg n).
Proof.
  unfold choose_recipient. intros H.
  bind_ok H. bind_ok H. bind_ok H. injection H as <- <-.
  by eapply random_choice_elem.
Qed.

Lemma pop_random_infected_perm s k l' x :
  pop_random_infected s k = Ok (l', x) → infected s ≡ₚ x :: l'.
Proof.
  unfold pop_random_infected. intros H.
  bind_ok H. bind_ok H. rename a0 into index.
  bind_ok H. rename a0 into lst. bind_ok H. rename a0 into b.
  bind_ok H. rename a0 into l1. bind_ok H. rename a0 into l2.
  apply py_last_Some in E1.
  unfold py_get in E2. destruct (infected s !! Z.to_nat index) eqn:Eb; [|discriminate].
  injection E2 as ->.
  unfold py_set in E3. destruct (decide _) as [Hlt|]; [|discriminate].
  injection E3 as <-.
  unfold py_set in E4. destruct (decide _) as [Hlt'|]; [|discriminate].
  injection E4 as <-.
  apply last_Some in E1 as [l0 El]. rewrite El in *. clear El.
  set (i := Z.to_nat index) in *.
  rewrite length_insert, length_app in *. simpl in *.
  replace (length l0 + 1 - 1) with (length l0) in * by lia.
  destruct (decide (i = length l0)) as [Hi|Hi].
  - rewrite Hi in *. rewrite lookup_app_r, Nat.sub_diag in Eb by done.
    injection Eb as <-.
    assert (Hid : <[length l0 := lst]> (l0 ++ [lst]) = l0 ++ [lst]).
    { apply list_insert_id. by rewrite lookup_app_r, Nat.sub_diag. }
    rewrite !Hid in H. rewrite py_pop_snoc in H. injection H as <- <-.
    by rewrite Permutation_app_comm.
  - assert (Hil : i < length l0) by lia.
    rewrite lookup_app_l in Eb by done.
    rewrite insert_app_l in H by done.
    rewrite insert_app_r_alt in H by (rewrite length_insert; lia).
    rewrite length_insert, Nat.sub_diag in H. simpl in H.
    rewrite py_pop_snoc in H. injection H as <- <-.
    rewrite insert_take_drop by done.
    rewrite <- (take_drop_middle l0 i b Eb) at 1.
    rewrite <- app_assoc. simpl.
    rewrite <- Permutation_middle. apply perm_skip.
    apply Permutation_app_head. rewrite <- Permutation_cons_append. done.
Qed.

Lemma ginv_fields G s s' :
  ginv G s → status s' = status s →
  infected_neighbor_count s' = infected_neighbor_count s →
  risk_group s' = risk_group s → infected s' = infected s → ginv G s'.
Proof.
  unfold ginv, buckets_ok, counts_are. intros H E1 E2 E3 E4.
  by rewrite E1, E2, E3, E4.
Qed.

Section Handlers.
Context (G : Graph) (HG : undirected G).

Lemma infect_preserves SIR t u k s s' :
  ginv G s → _Gillespie_infect_ G SIR t u k s = Ok s' → ginv G s'.
Proof.
  intros (Hb & Hc & Hnd & Hinf) H. unfold _Gillespie_infect_ in H.
  bind_ok H. destruct a as [n x]. bind_ok H.
  unfold py_assert in E0. case_bool_decide as Hx; [|discriminate]. clear E0 a.
  bind_ok H. rename a into rg1. bind_ok H. bind_ok H. bind_ok H. bind_ok H.
  rename a2 into ns.
  apply choose_recipient_elem in E as Hin.
  pose proof Hb as [Hwf Hmem]. apply Hmem in Hin as (_ & _ & Hcx & Hn).
  destruct (unbucket_ok [] s x Hb (not_elem_of_nil _) Hx) as (rg1' & H1 & _ & Hwf1 & Hmem1).
  rewrite Hcx in H1. rewrite H1 in E0 by done. injection E0 as <-.
  apply (neighbors_nbrs G) in E4.
  match type of H with py_for _ _ ?x0 = _ => set (s0 := x0) in * end.
  assert (Hb0 : buckets_ok [] s0).
  { split; [done|]. intros k0 y. simpl. rewrite Hmem1, Hmem, status_of_insert.
    destruct (decide (y = x)) as [->|]; [|tauto]. split; [tauto|].
    intros (_ & ? & _). done. }
  assert (Hc0 : counts_are (infected_neighbors G (status s)) s0).
  { intros v. simpl. rewrite status_of_insert.
    destruct (decide (v = x)); [done|]. apply Hc. }
  destruct (infect_loop_ok [] ns s0 _ (eq_ind _ _ (nbrs_NoDup G HG x) _ E4) Hb0 Hc0)
    as (s1 & E5 & Hsame & Hb1 & Hc1).
  { intros v. apply infected_neighbors_nonneg. }
  { intros ? _. apply not_elem_of_nil. }
  rewrite E5 in H. injection H as <-.
  assert (Hst : status s1 = <[x := Infected]> (status s)) by by rewrite Hsame.
  assert (Hil : infected s1 = infected s ++ [x]) by by rewrite Hsame.
  split; [done|]. split; [|split].
  - rewrite Hst. eapply counts_are_ext; [|done]. intros v. cbv beta.
    rewrite (infected_neighbors_gain G HG); [|congruence]. by rewrite E4.
  - rewrite Hil. apply NoDup_app. split; [done|]. split; [|apply NoDup_singleton].
    intros y Hy ->%list_elem_of_singleton. apply Hinf in Hy. congruence.
  - intros v. rewrite Hil, Hst, elem_of_app, list_elem_of_singleton, status_of_insert, Hinf.
    destruct (decide (v = x)) as [->|]; [tauto|]. tauto.
Qed.

Lemma recover_SIR_preserves rfd t k s s' :
  ginv G s → _Gillespie_recover_SIR_ G rfd t k s = Ok s' → ginv G s'.
Proof.
  intros (Hb & Hc & Hnd & Hinf) H. unfold _Gillespie_recover_SIR_ in H.
  bind_ok H. destruct a as [l' x]. bind_ok H. bind_ok H. bind_ok H. bind_ok H.
  rename a2 into ns. bind_ok H. rename a2 into s1. injection H as <-.
  apply pop_random_infected_perm in E as Hperm.
  assert (Hx : status_of (status s) x = Infected).
  { apply Hinf. rewrite Hperm. left. }
  apply (neighbors_nbrs G) in E3.
  match type of E4 with py_for _ _ ?x0 = _ => set (s0 := x0) in * end.
  pose proof Hb as [Hwf Hmem].
  assert (Hb0 : buckets_ok [] s0).
  { split; [done|]. intros k0 y. simpl. rewrite Hmem, status_of_insert.
    destruct (decide (y = x)) as [->|]; [|tauto].
    split; intros (_ & ? & _); congruence. }
  assert (Hc0 : counts_are (infected_neighbors G (status s)) s0).
  { intros v. simpl. rewrite status_of_insert.
    destruct (decide (v = x)); [done|]. apply Hc. }
  destruct (recover_loop_SIR_ok ns s0 _ (eq_ind _ _ (nbrs_NoDup G HG x) _ E3) Hb0 Hc0)
    as (s2 & E5 & Hsame & Hb1 & Hc1).
  { intros n Hn _. apply (infected_neighbors_pos G HG _ x); [done|]. by rewrite E3. }
  rewrite E5 in E4. injection E4 as <-.
  assert (Hst : status s2 = <[x := Recovered]> (status s)) by by rewrite Hsame.
  assert (Hil : infected s2 = l') by by rewrite Hsame.
  rewrite Hperm in Hnd. apply NoDup_cons in Hnd as [Hxl Hnd].
  apply (ginv_fields G s2); [|done..].
  split; [|split; [|split]]; simpl.
  - done.
  - rewrite Hst. eapply counts_are_ext; [|done]. intros v. cbv beta.
    rewrite (infected_neighbors_loss G HG); [|done..]. by rewrite E3.
  - by rewrite Hil.
  - intros v. rewrite Hil, Hst, status_of_insert.
    destruct (decide (v = x)) as [->|Hvx]; [done|].
    rewrite <- Hinf, Hperm, elem_of_cons. tauto.
Qed.
End Handlers.

Lemma recover_neighbor_SIS_ok x s base n :
  buckets_ok [x] s → counts_are base s →
  status_of (status s) x = Susceptible →
  (n ≠ x → status_of (status s) n ≠ Recovered) →
  (n ≠ x → status_of (status s) n = Susceptible → 1 ≤ base n)%Z →
  ∃ s', recover_neighbor_SIS x n s = Ok s' ∧ same_but_risk s s'
        ∧ buckets_ok [x] s'
        ∧ counts_are
            (λ v, if decide (v = x)
                  then base x + (if decide (n ≠ x ∧ status_of (status s) n = Infected)
                                 then 1 else 0)
                  else base v - (if decide (v = n) then 1 else 0))%Z s'.
Proof.
  intros Hb Hc Hx HnR Hbase. unfold recover_neighbor_SIS.
  destruct (decide (n = x)) as [->|Hnx].
  - exists s. split; [done|]. split; [apply same_but_risk_refl|]. split; [done|].
    intros v Hv. rewrite Hc by done.
    destruct (decide (v = x)) as [->|].
    + rewrite decide_False by tauto. lia.
    + lia.
  - destruct (decide (status_of (status s) n = Infected)) as [Hn|Hn].
    + eexists. split; [done|]. split; [apply same_but_risk_set|]. split.
      * destruct Hb as [Hwf Hmem]. split; [done|]. intros k0 y. simpl.
        rewrite Hmem, count_of_insert, list_elem_of_singleton.
        destruct (decide (y = x)); tauto.
      * intros v Hv. simpl in *. rewrite count_of_insert.
        destruct (decide (v = x)) as [->|].
        -- rewrite decide_True by done. rewrite Hc by done. done.
        -- rewrite Hc by done. destruct (decide (v = n)) as [->|]; [congruence|lia].
    + assert (Hs : status_of (status s) n = Susceptible).
      { specialize (HnR Hnx). destruct (status_of (status s) n); done. }
      specialize (Hbase Hnx Hs). specialize (Hc n Hs) as Hcn.
      destruct (move_ok [x] s n (count_of (infected_neighbor_count s) n - 1) Hb)
        as (rg1 & H1 & H2 & Hok);
        [by intros ->%list_elem_of_singleton|done|lia|].
      rewrite H1 by lia. simpl. eexists. split; [done|].
      split; [apply same_but_risk_set|]. split; [done|].
      intros v Hv. simpl in *. rewrite count_of_insert.
      destruct (decide (v = x)) as [->|].
      * rewrite decide_False by done. rewrite decide_False by tauto.
        rewrite Hc by done. lia.
      * destruct (decide (v = n)) as [->|]; [lia|]. rewrite Hc by done. lia.
Qed.

Lemma recover_loop_SIS_ok x ns : ∀ s base,
  NoDup ns → buckets_ok [x] s → counts_are base s →
  status_of (status s) x = Susceptible →
  (∀ n, n ∈ ns → n ≠ x → status_of (status s) n ≠ Recovered) →
  (∀ n, n ∈ ns → n ≠ x → status_of (status s) n = Susceptible → 1 ≤ base n)%Z →
  ∃ s', py_for ns (recover_neighbor_SIS x) s = Ok s' ∧ same_but_risk s s'
        ∧ buckets_ok [x] s'
        ∧ counts_are
            (λ v, if decide (v = x)
                  then base x + Z.of_nat (length
                         (filter (λ n, n ≠ x ∧ status_of (status s) n = Infected) ns))
                  else base v - (if decide (v ∈ ns) then 1 else 0))%Z s'.
Proof.
  induction ns as [|n ns IH]; intros s base Hnd Hb Hc Hx HnR Hbase.
  - exists s. split; [done|]. split; [apply same_but_risk_refl|]. split; [done|].
    eapply counts_are_ext; [|done]. intros v. simpl.
    destruct (decide (v = x)) as [->|]; [lia|].
    destruct (decide (v ∈ [])) as [Hin|]; [by apply elem_of_nil in Hin|lia].
  - apply NoDup_cons in Hnd as [Hn Hnd].
    destruct (recover_neighbor_SIS_ok x s base n Hb Hc Hx) as (s1 & E1 & Hs1 & Hb1 & Hc1).
    { apply HnR. left. }
    { apply Hbase. left. }
    pose proof (same_but_risk_status _ _ Hs1) as Hst1.
    destruct (IH s1 _ Hnd Hb1 Hc1) as (s2 & E2 & Hs2 & Hb2 & Hc2).
    { by rewrite Hst1. }
    { intros m Hm. rewrite Hst1. apply HnR. by right. }
    { intros m Hm Hmx. rewrite Hst1. intros Hms. cbv beta.
      rewrite decide_False by done. rewrite decide_False by (intros ->; done).
      assert (1 ≤ base m)%Z; [|lia]. apply Hbase; [by right|done..]. }
    exists s2. simpl. rewrite E1. simpl. split; [done|].
    split; [by eapply same_but_risk_trans|]. split; [done|].
    eapply counts_are_ext; [|done]. intros v. cbv beta. rewrite Hst1.
    destruct (decide (v = x)) as [->|Hvx].
    + rewrite decide_True by done. rewrite filter_cons.
      destruct (decide (n ≠ x ∧ status_of (status s) n = Infected)); simpl; lia.
    + destruct (decide (v = n)) as [->|Hvn].
      * destruct (decide (n ∈ ns)); [done|].
        destruct (decide (n ∈ n :: ns)) as [|Hx']; [lia|]. exfalso. apply Hx'. left.
      * destruct (decide (v ∈ ns)) as [Hin|Hnin].
        -- destruct (decide (v ∈ n :: ns)) as [|Hx']; [lia|]. exfalso. apply Hx'. by right.
        -- destruct (decide (v ∈ n :: ns)) as [Hx'|]; [|lia].
           apply elem_of_cons in Hx'. tauto.
Qed.

Section Handlers_SIS.
Context (G : Graph) (HG : undirected G).

Lemma infect_preserves_SIS SIR t u k s s' :
  ginv_SIS G s → _Gillespie_infect_ G SIR t u k s = Ok s' → ginv_SIS G s'.
Proof.
  intros [Hg HnR] H. split; [by eapply infect_preserves|].
  unfold _Gillespie_infect_ in H.
  bind_ok H. destruct a as [n x]. bind_ok H. bind_ok H. bind_ok H. bind_ok H.
  bind_ok H. bind_ok H.
  match type of H with py_for _ _ ?x0 = _ => set (s0 := x0) in * end.
  assert (∀ ns s1 s2, py_for ns infect_neighbor s1 = Ok s2 → status s2 = status s1)
    as Hloop.
  { clear. induction ns as [|n ns IH]; intros s1 s2 H; simpl in H.
    - by injection H as <-.
    - bind_ok H. rewrite (IH _ _ H). unfold infect_neighbor in E.
      destruct (decide _); [|by injection E as <-].
      bind_ok E. by injection E as <-. }
  rewrite (Hloop _ _ _ H). simpl. intros v. rewrite status_of_insert.
  destruct (decide (v = x)); [done|]. apply HnR.
Qed.

Lemma recover_SIS_preserves rfd t k s s' :
  ginv_SIS G s → _Gillespie_recover_SIS_ G rfd t k s = Ok s' → ginv_SIS G s'.
Proof.
  intros [(Hb & Hc & Hnd & Hinf) HnR] H. unfold _Gillespie_recover_SIS_ in H.
  bind_ok H. bind_ok H. bind_ok H. destruct a1 as [l' x]. bind_ok H. bind_ok H.
  rename a2 into ns. bind_ok H. rename a2 into s1. injection H as <-.
  apply pop_random_infected_perm in E1 as Hperm.
  assert (Hx : status_of (status s) x = Infected).
  { apply Hinf. rewrite Hperm. left. }
  apply (neighbors_nbrs G) in E3.
  match type of E4 with py_for _ _ ?x0 = _ => set (s0 := x0) in * end.
  pose proof Hb as [Hwf Hmem].
  assert (Hb0 : buckets_ok [x] s0).
  { split; [done|]. intros k0 y. simpl.
    rewrite Hmem, status_of_insert, count_of_insert, list_elem_of_singleton.
    pose proof (not_elem_of_nil y).
    destruct (decide (y = x)) as [->|]; [|tauto].
    split; [|tauto]. intros (_ & ? & _). congruence. }
  set (base := λ v, if decide (v = x) then 0%Z else infected_neighbors G (status s) v).
  assert (Hc0 : counts_are base s0).
  { intros v. simpl. rewrite status_of_insert, count_of_insert. unfold base.
    destruct (decide (v = x)); [done|]. apply Hc. }
  destruct (recover_loop_SIS_ok x ns s0 _ (eq_ind _ _ (nbrs_NoDup G HG x) _ E3) Hb0 Hc0)
    as (s2 & E5 & Hsame & Hb1 & Hc1).
  { simpl. by rewrite status_of_insert, decide_True. }
  { intros n _ Hn. simpl. rewrite status_of_insert, decide_False by done. apply HnR. }
  { intros n Hn Hnx _. unfold base. rewrite decide_False by done.
    apply (infected_neighbors_pos G HG _ x); [done|]. by rewrite E3. }
  rewrite E5 in E4. injection E4 as <-.
  assert (Hst : status s2 = <[x := Susceptible]> (status s)) by by rewrite Hsame.
  assert (Hil : infected s2 = l') by by rewrite Hsame.
  rewrite Hperm in Hnd. apply NoDup_cons in Hnd as [Hxl Hnd].
  assert (Hcnt : counts_are (infected_neighbors G (status s2)) s2).
  { rewrite Hst. intros v Hv. rewrite (Hc1 v Hv). unfold base.
    destruct (decide (v = x)) as [->|Hvx].
    - rewrite decide_True by done. unfold infected_neighbors. rewrite E3.
      simpl. rewrite Z.add_0_l. f_equal. apply filter_length_ext. intros u Hu. simpl.
      rewrite !status_of_insert. destruct (decide (u = x)) as [->|]; [|tauto].
      split; [tauto|done].
    - rewrite (infected_neighbors_loss G HG); [|done..]. by rewrite E3. }
  split.
  - eapply (ginv_fields G
      (set_risk (infected_neighbor_count s2)
         (if decide (count_of (infected_neighbor_count s2) x > 0)%Z
          then rg_add (count_of (infected_neighbor_count s2) x) x (risk_group s2)
          else risk_group s2) s2)); [|done..].
    split; [|split; [|split]]; simpl; [|done|by rewrite Hil|].
    + destruct Hb1 as [Hwf1 Hmem1].
      assert (Hxs : status_of (status s2) x = Susceptible).
      { by rewrite Hst, status_of_insert, decide_True. }
      split; simpl.
      * intros k0. destruct (decide _); [|done]. unfold rg_add.
        rewrite rg_get_set. destruct (decide _); [|done]. by apply ListDict_add_spec.
      * intros k0 y. pose proof (not_elem_of_nil y) as Hnil.
        assert (Hold : y ∈ ListDict.items (rg_get (risk_group s2) k0) ↔
                  y ≠ x ∧ status_of (status s2) y = Susceptible
                  ∧ count_of (infected_neighbor_count s2) y = k0 ∧ (0 < k0)%Z).
        { rewrite Hmem1, list_elem_of_singleton. tauto. }
        destruct (decide (count_of (infected_neighbor_count s2) x > 0)%Z)
          as [Hpos|Hnpos].
        -- unfold rg_add. rewrite rg_get_set. destruct (decide (k0 = _)) as [->|Hk].
           ++ rewrite (proj2 (ListDict_add_spec _ x (Hwf1 _))), Hold.
              destruct (decide (y = x)) as [->|]; [|tauto].
              split; [|tauto]. intros _. repeat split; try done. lia.
           ++ rewrite Hold.
              destruct (decide (y = x)) as [->|]; [|tauto].
              split; [tauto|]. intros (_ & _ & ? & _). congruence.
        -- rewrite Hold.
           destruct (decide (y = x)) as [->|]; [|tauto].
           split; [tauto|]. lia.
    + intros v. rewrite Hil, Hst, status_of_insert.
      destruct (decide (v = x)) as [->|Hvx]; [done|].
      rewrite <- Hinf, Hperm, elem_of_cons. tauto.
  - simpl. intros v. rewrite Hst, status_of_insert.
    destruct (decide (v = x)); [done|]. apply HnR.
Qed.
End Handlers_SIS.

Lemma filter_length_swap {A} `{EqDecision A} (l1 l2 : list A) :
  NoDup l1 → NoDup l2 →
  length (filter (λ x, x ∈ l2) l1) = length (filter (λ x, x ∈ l1) l2).
Proof.
  intros H1 H2. induction l1 as [|a l1 IH].
  - simpl. symmetry. apply length_zero_iff_nil.
    induction l2 as [|b l2 IH2]; [done|].
    apply NoDup_cons in H2 as [_ H2]. rewrite filter_cons.
    destruct (decide (b ∈ [])) as [Hb|]; [by apply elem_of_nil in Hb|]. by apply IH2.
  - apply NoDup_cons in H1 as [Ha H1]. specialize (IH H1).
    rewrite (filter_length_gain (λ x, x ∈ l1) (λ x, x ∈ a :: l1) a l2 H2).
    + rewrite filter_cons. rewrite <- IH.
      destruct (decide (a ∈ l2)); simpl; lia.
    + intros u Hu. rewrite elem_of_cons. naive_solver.
    + done.
    + left.
Qed.

Lemma status_of_set_all l x st v :
  status_of (set_all l x st) v = if decide (v ∈ l) then x else status_of st v.
Proof.
  revert st. induction l as [|a l IH]; intros st; simpl.
  - destruct (decide (v ∈ [])) as [Hv|]; [by apply elem_of_nil in Hv|done].
  - unfold set_all in *. simpl. rewrite IH, status_of_insert.
    destruct (decide (v ∈ l)) as [Hl|Hl].
    + rewrite decide_True by by right. done.
    + destruct (decide (v = a)) as [->|Hva].
      * rewrite decide_True by left. done.
      * rewrite decide_False; [done|]. rewrite elem_of_cons. tauto.
Qed.

Section Init.
Context (G : Graph) (HG : undirected G).

Lemma initialize_risk_ok ii : ∀ s0 s base,
  buckets_ok [] s0 → counts_are base s0 → (∀ v, 0 ≤ base v)%Z →
  initialize_risk G ii s0 = Ok s →
  same_but_risk s0 s ∧ buckets_ok [] s
  ∧ counts_are (λ v, base v
       + Z.of_nat (length (filter (λ u, v ∈ nbrs G u) ii)))%Z s.
Proof.
  unfold initialize_risk.
  induction ii as [|u ii IH]; intros s0 s base Hb Hc Hbase H; simpl in H.
  - injection H as <-. split; [apply same_but_risk_refl|]. split; [done|].
    eapply counts_are_ext; [|done]. intros v. simpl. lia.
  - bind_ok H. rename a into s1. bind_ok E. rename a into ns.
    apply (neighbors_nbrs G) in E0.
    rewrite (py_for_ext _ infect_neighbor) in E by apply initialize_neighbor_eq.
    destruct (infect_loop_ok [] ns s0 base (eq_ind _ _ (nbrs_NoDup G HG u) _ E0) Hb Hc Hbase)
      as (s1' & E1 & Hs1 & Hb1 & Hc1).
    { intros ? _. apply not_elem_of_nil. }
    rewrite E1 in E. injection E as <-.
    destruct (IH s1' s _ Hb1 Hc1) as (Hs2 & Hb2 & Hc2); [|done|].
    { intros v. cbv beta. pose proof (Hbase v). destruct (decide _); lia. }
    split; [by eapply same_but_risk_trans|]. split; [done|].
    eapply counts_are_ext; [|done]. intros v. cbv beta. rewrite filter_cons, E0.
    destruct (decide (v ∈ ns)); simpl; lia.
Qed.

Lemma initial_ginv ii st s0 s :
  NoDup ii → (∀ v, v ∈ ii ↔ status_of st v = Infected) →
  status s0 = st → infected s0 = ii → infected_neighbor_count s0 = ∅ →
  risk_group s0 = [] →
  initialize_risk G ii s0 = Ok s → ginv G s.
Proof.
  intros Hnd Hst Es Ei Ec Er H.
  destruct (initialize_risk_ok ii s0 s (λ _, 0%Z)) as (Hsame & Hb & Hc); [| |done|done|].
  - split.
    + intros k. rewrite Er. simpl. apply ListDict_wf_init.
    + intros k v. rewrite Er, Ec. simpl. unfold count_of. rewrite lookup_empty. simpl.
      split; [by intros ?%elem_of_nil|lia].
  - intros v _. by rewrite Ec.
  - assert (Hs : status s = st) by (rewrite Hsame; simpl; done).
    assert (Hi : infected s = ii) by (rewrite Hsame; simpl; done).
    split; [done|]. split; [|split].
    + rewrite Hs. eapply counts_are_ext; [|done]. intros v. cbv beta.
      unfold infected_neighbors. rewrite Z.add_0_l. f_equal.
      rewrite (filter_length_ext _ (λ u, u ∈ nbrs G v)).
      * rewrite filter_length_swap; [|done|by apply nbrs_NoDup].
        apply filter_length_ext. intros w _. apply Hst.
      * intros w _. by apply nbrs_sym_iff.
    + by rewrite Hi.
    + intros v. by rewrite Hi, Hs.
Qed.

Lemma SIR_initial_ginv ii ir tmin rfd s :
  NoDup ii → (∀ lr, ir = Some lr → ∀ v, v ∈ ii → v ∉ lr) →
  _Gillespie_initialize_SIR_ G ii ir tmin rfd = Ok s → ginv G s.
Proof.
  intros Hnd Hdisj H. unfold _Gillespie_initialize_SIR_ in H.
  bind_ok H. injection H as <-.
  apply (ginv_fields G a); [|done..].
  eapply (initial_ginv ii
            (match ir with
             | Some l => set_all l Recovered (set_all ii Infected ∅)
             | None => set_all ii Infected ∅
             end)); [done| | | | | |exact E]; [|done..].
  intros v. destruct ir as [lr|].
  - rewrite !status_of_set_all. destruct (decide (v ∈ lr)) as [Hl|Hl].
    + split; [|done]. intros Hv. exfalso. by eapply Hdisj.
    + destruct (decide (v ∈ ii)); [done|]. split; [done|].
      unfold status_of. by rewrite lookup_empty.
  - rewrite status_of_set_all. destruct (decide (v ∈ ii)); [done|]. split; [done|].
    unfold status_of. by rewrite lookup_empty.
Qed.

Lemma SIS_initial_ginv ii tmin rfd s :
  NoDup ii → _Gillespie_initialize_SIS_ G ii tmin rfd = Ok s → ginv_SIS G s.
Proof.
  intros Hnd H. unfold _Gillespie_initialize_SIS_ in H.
  bind_ok H. injection H as <-.
  assert (Hst : ∀ v, v ∈ ii ↔ status_of (set_all ii Infected ∅) v = Infected).
  { intros v. rewrite status_of_set_all. destruct (decide (v ∈ ii)); [done|].
    split; [done|]. unfold status_of. by rewrite lookup_empty. }
  split.
  - apply (ginv_fields G a); [|done..].
    eapply (initial_ginv ii (set_all ii Infected ∅));
      [done| | | | | |exact E]; [exact Hst|done..].
  - simpl.
    match type of E with initialize_risk _ _ ?x0 = _ =>
      destruct (initialize_risk_ok ii x0 a (λ _, 0%Z)) as (Hsame & _);
        [| |done|exact E|]
    end.
    + split; [intros k; apply ListDict_wf_init|].
      intros k v. simpl. unfold count_of. rewrite lookup_empty. simpl.
      split; [by intros ?%elem_of_nil|lia].
    + done.
    + rewrite Hsame. simpl. intros v. rewrite status_of_set_all.
      destruct (decide _); [done|]. unfold status_of. by rewrite lookup_empty.
Qed.

Lemma SIR_iteration_ginv tau gamma rfd d l l' :
  ginv G (st l) → SIR_iteration G tau gamma rfd d l = Ok l' → ginv G (st l').
Proof.
  intros Hg H. unfold SIR_iteration in H.
  bind_ok H. bind_ok H. destruct a0 as [s rate]. bind_ok H. injection H as <-. simpl.
  destruct (QMicromega.Qlt_bool _ _).
  - bind_ok E0. bind_ok E0. injection E0 as <- <-. by eapply recover_SIR_preserves.
  - bind_ok E0. injection E0 as <- <-. by eapply infect_preserves.
Qed.

Lemma SIS_iteration_ginv tau gamma rfd d l l' :
  ginv_SIS G (st l) → SIS_iteration G tau gamma rfd d l = Ok l' → ginv_SIS G (st l').
Proof.
  intros Hg H. unfold SIS_iteration in H.
  bind_ok H. bind_ok H. destruct a0 as [s rate]. bind_ok H. injection H as <-. simpl.
  destruct (QMicromega.Qlt_bool _ _).
  - bind_ok E0. bind_ok E0. injection E0 as <- <-. by eapply recover_SIS_preserves.
  - bind_ok E0. injection E0 as <- <-. by eapply infect_preserves_SIS.
Qed.

Lemma enter_loop_st tau gamma x s l : enter_loop tau gamma x s = Ok l → st l = s.
Proof. unfold enter_loop. intros H. bind_ok H. bind_ok H. by injection H as <-. Qed.

Lemma SIR_reachable_ginv tau gamma ii_arg ir rho tmin tmax rfd smp x ii l0 l :
  resolve_initial G ii_arg rho smp = Ok ii → NoDup ii →
  (∀ lr, ir = Some lr → ∀ v, v ∈ ii → v ∉ lr) →
  SIR_start G tau gamma ii_arg ir rho tmin rfd smp x = Ok l0 →
  reachable (SIR_iteration G tau gamma rfd) tmax l0 l → ginv G (st l).
Proof.
  intros Hres Hnd Hdisj Hstart Hreach. induction Hreach as [|l d l' _ IH _ Hit].
  - unfold SIR_start in Hstart. bind_ok Hstart. rewrite Hres in Hstart.
    simpl in Hstart. bind_ok Hstart. apply enter_loop_st in Hstart as ->.
    by eapply SIR_initial_ginv.
  - by eapply SIR_iteration_ginv.
Qed.

Lemma SIS_reachable_ginv tau gamma ii_arg rho tmin tmax rfd smp x ii l0 l :
  resolve_initial G ii_arg rho smp = Ok ii → NoDup ii →
  SIS_start G tau gamma ii_arg rho tmin rfd smp x = Ok l0 →
  reachable (SIS_iteration G tau gamma rfd) tmax l0 l → ginv_SIS G (st l).
Proof.
  intros Hres Hnd Hstart Hreach. induction Hreach as [|l d l' _ IH _ Hit].
  - unfold SIS_start in Hstart. bind_ok Hstart. rewrite Hres in Hstart.
    simpl in Hstart. bind_ok Hstart. apply enter_loop_st in Hstart as ->.
    by eapply SIS_initial_ginv.
  - by eapply SIS_iteration_ginv.
Qed.

End Init.

Lemma scan_finds rg keys : ∀ r n0,
  (0 <= r)%Q → (r < inject_Z (weight rg keys))%Q →
  ∃ n, scan rg keys r n0 = Some n ∧ n ∈ keys
       ∧ ListDict.items (rg_get rg n) ≠ [].
Proof.
  induction keys as [|k keys IH]; intros r n0 Hr Hlt; simpl in *.
  - change (inject_Z 0) with 0%Q in Hlt. lra.
  - rewrite inject_Z_plus in Hlt.
    destruct (QMicromega.Qlt_bool _ _) eqn:E.
    + apply Qlt_bool_true in E. exists k. split; [done|]. split; [left|].
      intros Hnil. unfold ListDict.len in E. rewrite Hnil in E. simpl in E.
      rewrite Z.mul_0_r in E. change (inject_Z 0) with 0%Q in E. lra.
    + apply Qlt_bool_false in E.
      destruct (IH (r - inject_Z (k * Z.of_nat (ListDict.len (rg_get rg k))))%Q (Some k))
        as (n & Hn & Hin & Hne); [lra|lra|].
      exists n. split; [done|]. split; [by right|done].
Qed.

Lemma random_random_Ok u v : random_random u = Ok v → v = u ∧ (0 <= u)%Q ∧ (u < 1)%Q.
Proof.
  unfold random_random. destruct (Qle_bool 0 u) eqn:E1; [|discriminate].
  destruct (QMicromega.Qlt_bool u 1) eqn:E2; [|discriminate]. simpl.
  intros [= <-]. apply Qle_bool_iff in E1. apply Qlt_bool_true in E2. done.
Qed.

Lemma random_random_valid u : (0 <= u)%Q → (u < 1)%Q → random_random u = Ok u.
Proof.
  intros H1 H2. unfold random_random.
  apply Qle_bool_iff in H1. apply Qlt_bool_true in H2. by rewrite H1, H2.
Qed.

Lemma choose_recipient_ok G s u k :
  ginv G s → (0 <= u)%Q → (u < 1)%Q → (0 < weighted_size (risk_group s))%Z →
  ∃ n x, choose_recipient (risk_group s) u k = Ok (n, x)
         ∧ ListDict.items (rg_get (risk_group s) n) ≠ []
         ∧ x ∈ ListDict.items (rg_get (risk_group s) n)
         ∧ status_of (status s) x = Susceptible.
Proof.
  intros (Hb & _) Hu0 Hu1 Hw. unfold choose_recipient.
  rewrite random_random_valid by done. simpl.
  destruct (scan_finds (risk_group s) (rg_keys (risk_group s))
              (u * inject_Z (weighted_size (risk_group s)))%Q None)
    as (n & -> & _ & Hne).
  - pose proof Hw as HW. rewrite Zlt_Qlt in HW.
    change (inject_Z 0) with 0%Q in HW. apply Qmult_le_0_compat; [done|lra].
  - pose proof Hw as HW. rewrite Zlt_Qlt in HW.
    change (inject_Z 0) with 0%Q in HW.
    unfold weighted_size in *. unfold weight. nra.
  - simpl. unfold ListDict.choose_random, random_choice.
    destruct (ListDict.items (rg_get (risk_group s) n)) as [|a l] eqn:El; [done|].
    assert (k mod length (a :: l) < length (a :: l)) as Hlt.
    { apply Nat.mod_upper_bound. done. }
    apply lookup_lt_is_Some in Hlt as [x Hx].
    unfold py_get. rewrite Hx. simpl. exists n, x. split; [done|].
    assert (Hin : x ∈ a :: l) by by eapply list_elem_of_lookup_2.
    rewrite <- El in Hin, Hne. split; [done|]. split; [done|].
    by apply Hb in Hin as (_ & ? & _).
Qed.

Lemma infect_loop_same ns : ∀ s s',
  py_for ns infect_neighbor s = Ok s' → same_but_risk s s'.
Proof.
  induction ns as [|n ns IH]; intros s s' H; simpl in H.
  - injection H as <-. apply same_but_risk_refl.
  - bind_ok H. eapply same_but_risk_trans; [|by apply IH].
    unfold infect_neighbor in E. destruct (decide _).
    + bind_ok E. injection E as <-. apply same_but_risk_set.
    + injection E as <-. apply same_but_risk_refl.
Qed.

Lemma recover_loop_SIR_same ns : ∀ s s',
  py_for ns recover_neighbor_SIR s = Ok s' → same_but_risk s s'.
Proof.
  induction ns as [|n ns IH]; intros s s' H; simpl in H.
  - injection H as <-. apply same_but_risk_refl.
  - bind_ok H. eapply same_but_risk_trans; [|by apply IH].
    unfold recover_neighbor_SIR in E. destruct (decide _).
    + bind_ok E. injection E as <-. apply same_but_risk_set.
    + injection E as <-. apply same_but_risk_refl.
Qed.

Lemma recover_loop_SIS_same x ns : ∀ s s',
  py_for ns (recover_neighbor_SIS x) s = Ok s' → same_but_risk s s'.
Proof.
  induction ns as [|n ns IH]; intros s s' H; simpl in H.
  - injection H as <-. apply same_but_risk_refl.
  - bind_ok H. eapply same_but_risk_trans; [|by apply IH].
    unfold recover_neighbor_SIS in E. destruct (decide _).
    + injection E as <-. apply same_but_risk_refl.
    + destruct (decide _).
      * injection E as <-. apply same_but_risk_set.
      * bind_ok E. injection E as <-. apply same_but_risk_set.
Qed.

(** What each handler appends to the recorded sequences. *)
Lemma infect_appends G SIR t u k s s' :
  _Gillespie_infect_ G SIR t u k s = Ok s' →
  ∃ sl il, last (S_ s) = Some sl ∧ last (I_ s) = Some il
    ∧ times s' = times s ++ [t]
    ∧ S_ s' = S_ s ++ [sl - 1]%Z ∧ I_ s' = I_ s ++ [il + 1]%Z
    ∧ (if SIR then ∃ rl, last (R_ s) = Some rl ∧ R_ s' = R_ s ++ [rl]
       else R_ s' = R_ s).
Proof.
  intros H. unfold _Gillespie_infect_ in H.
  bind_ok H as [n x] E. bind_ok H as ? Eas. bind_ok H as rg Erg.
  bind_ok H as sl Es. bind_ok H as il Ei. bind_ok H as R' ER. bind_ok H as ns En.
  apply infect_loop_same in H. rewrite H. simpl.
  apply py_last_Some in Es, Ei. exists sl, il. repeat split; try done.
  destruct SIR.
  - bind_ok ER as rl Er. apply py_last_Some in Er. injection ER as <-. by exists rl.
  - by injection ER as <-.
Qed.

Lemma recover_SIR_appends G rfd t k s s' :
  _Gillespie_recover_SIR_ G rfd t k s = Ok s' →
  ∃ sl il rl, last (S_ s) = Some sl ∧ last (I_ s) = Some il
    ∧ last (R_ s) = Some rl
    ∧ times s' = times s ++ [t]
    ∧ S_ s' = S_ s ++ [sl] ∧ I_ s' = I_ s ++ [il - 1]%Z
    ∧ R_ s' = R_ s ++ [rl + 1]%Z.
Proof.
  intros H. unfold _Gillespie_recover_SIR_ in H.
  bind_ok H as [l' x] E. bind_ok H as il Ei. bind_ok H as sl Es.
  bind_ok H as rl Er. bind_ok H as ns En. bind_ok H as s1 Eloop.
  injection H as <-. apply recover_loop_SIR_same in Eloop. rewrite Eloop. simpl.
  apply py_last_Some in Ei, Es, Er. by exists sl, il, rl.
Qed.

Lemma recover_SIS_appends G rfd t k s s' :
  _Gillespie_recover_SIS_ G rfd t k s = Ok s' →
  ∃ sl il, last (S_ s) = Some sl ∧ last (I_ s) = Some il
    ∧ times s' = times s ++ [t]
    ∧ S_ s' = S_ s ++ [sl + 1]%Z ∧ I_ s' = I_ s ++ [il - 1]%Z
    ∧ R_ s' = R_ s.
Proof.
  intros H. unfold _Gillespie_recover_SIS_ in H.
  bind_ok H as il Ei. bind_ok H as ? Eas. bind_ok H as [l' y] E.
  bind_ok H as sl Es. bind_ok H as ns En. bind_ok H as s1 Eloop.
  injection H as <-. apply recover_loop_SIS_same in Eloop. rewrite Eloop. simpl.
  apply py_last_Some in Ei, Es. by exists sl, il.
Qed.

Lemma initialize_risk_same G ii : ∀ s s',
  initialize_risk G ii s = Ok s' → same_but_risk s s'.
Proof.
  unfold initialize_risk.
  induction ii as [|u ii IH]; intros s s' H; simpl in H.
  - injection H as <-. apply same_but_risk_refl.
  - bind_ok H. eapply same_but_risk_trans; [|by apply IH].
    bind_ok E. rewrite (py_for_ext _ infect_neighbor) in E by apply initialize_neighbor_eq.
    by apply infect_loop_same in E.
Qed.

Lemma run_loop_reachable iteration tmax ds : ∀ l0 l,
  run_loop iteration tmax ds l0 = Ok l →
  reachable iteration tmax l0 l ∧ loop_test tmax l = false.
Proof.
  assert (∀ l0 l1 l, reachable iteration tmax l0 l1 →
            run_loop iteration tmax ds l1 = Ok l →
            reachable iteration tmax l0 l ∧ loop_test tmax l = false) as Hgen.
  { induction ds as [|d ds IH]; intros l0 l1 l Hr H; simpl in H.
    - destruct (loop_test tmax l1) eqn:E; [discriminate|]. by injection H as <-.
    - destruct (loop_test tmax l1) eqn:E; [|by injection H as <-].
      bind_ok H. eapply (IH l0 a); [|done]. by eapply reach_step. }
  intros l0 l H. eapply Hgen; [|done]. apply reach_start.
Qed.

Lemma rg_set_keys_pos rg k d :
  (0 < k)%Z → Forall (λ kd, 0 < kd.1)%Z rg → Forall (λ kd, 0 < kd.1)%Z (rg_set rg k d).
Proof.
  intros Hk. induction rg as [|[k0 d0] rg IH]; intros H; simpl.
  - by constructor.
  - apply Forall_cons in H as [H0 H]. destruct (decide (k = k0)).
    + by constructor.
    + constructor; [done|]. by apply IH.
Qed.

Lemma infect_neighbor_keys_pos n s s' :
  keys_pos s → infect_neighbor n s = Ok s' → keys_pos s'.
Proof.
  intros [Hc Hk] H. unfold infect_neighbor in H.
  destruct (decide _); [|by injection H as <-].
  bind_ok H as rg Erg. injection H as <-. pose proof (Hc n) as Hn.
  split; cbn [infected_neighbor_count risk_group set_risk].
  - intros v. rewrite count_of_insert. destruct (decide (v = n)); [lia|apply Hc].
  - unfold rg_add. apply rg_set_keys_pos; [lia|].
    destruct (decide (_ > 0)%Z).
    + unfold rg_remove in Erg. bind_ok Erg as d Ed. injection Erg as <-.
      apply rg_set_keys_pos; [lia|done].
    + by injection Erg as <-.
Qed.

Lemma initialize_risk_keys_pos G ii : ∀ s s',
  keys_pos s → initialize_risk G ii s = Ok s' → keys_pos s'.
Proof.
  unfold initialize_risk.
  induction ii as [|u ii IH]; intros s s' Hs H; simpl in H.
  - by injection H as <-.
  - bind_ok H as s1 E1. eapply IH; [|done].
    bind_ok E1 as ns En.
    rewrite (py_for_ext _ infect_neighbor) in E1 by apply initialize_neighbor_eq.
    clear En H. revert s s1 Hs E1.
    induction ns as [|n ns IHn]; intros s s1 Hs H; simpl in H.
    + by injection H as <-.
    + bind_ok H as s2 E2. eapply IHn; [|done]. by eapply infect_neighbor_keys_pos.
Qed.

Lemma keys_pos_weighted_size s :
  keys_pos s → (0 ≤ weighted_size (risk_group s))%Z.
Proof.
  intros [_ Hk]. unfold weighted_size, rg_keys.
  assert (∀ l, Forall (λ k, 0 < k)%Z l →
            0 ≤ foldr (λ n acc, n * Z.of_nat (ListDict.len (rg_get (risk_group s) n)) + acc) 0 l)%Z
    as Hgen.
  { induction l as [|k l IH]; intros Hl; simpl; [lia|].
    apply Forall_cons in Hl as [Hk0 Hl]. specialize (IH Hl). nia. }
  apply Hgen. apply Forall_fmap. eapply Forall_impl; [done|]. by intros [? ?].
Qed.

Lemma loop_test_true tmax l :
  loop_test tmax l = true → next_time l <ₜ tmax ∧ infected (st l) ≠ [].
Proof.
  unfold loop_test. intros [H1 H2]%andb_true_iff. split; [done|].
  by apply bool_decide_eq_true in H2.
Qed.

Section Series.
Context (G : Graph) (tau gamma : Q) (rfd : bool) (tmin tmax : number).

Lemma SIR_iteration_series d l l' :
  SIR_iteration G tau gamma rfd d l = Ok l' →
  loop_test tmax l = true →
  (counts_SIR (order G) (S_ (st l)) (I_ (st l)) (R_ (st l)) →
   counts_SIR (order G) (S_ (st l')) (I_ (st l')) (R_ (st l')))
  ∧ (loop_times_ok tmin tmax l → loop_times_ok tmin tmax l').
Proof.
  intros H Htest. apply loop_test_true in Htest as [Hlt _].
  unfold SIR_iteration in H.
  bind_ok H as u Eu. bind_ok H as [s rate] Eh. bind_ok H as nt Ent.
  injection H as <-. simpl.
  assert (next_time l ≤ₜ nt) as Hnt.
  { destruct (QMicromega.Qlt_bool 0 _) eqn:Epos.
    - bind_ok Ent as dt Edt. injection Ent as <-. apply tle_tadd.
      eapply random_expovariate_nonneg; [|done]. apply Qlt_bool_true in Epos. lra.
    - injection Ent as <-. apply tle_refl. }
  assert (times s = times (st l) ++ [next_time l]
          ∧ ∃ sl il rl y, last (S_ (st l)) = Some sl ∧ last (I_ (st l)) = Some il
              ∧ last (R_ (st l)) = Some rl ∧ SIR_move (sl, il, rl) y
              ∧ S_ s = S_ (st l) ++ [y.1.1] ∧ I_ s = I_ (st l) ++ [y.1.2]
              ∧ R_ s = R_ (st l) ++ [y.2]) as (Ht & sl & il & rl & y & HS & HI & HR & Hy & ES & EI & ER).
  { destruct (QMicromega.Qlt_bool _ (total_rec_rate l)).
    - bind_ok Eh as s1 E1. bind_ok Eh as i1 Ei1. injection Eh as <- <-.
      apply recover_SIR_appends in E1
        as (sl & il & rl & HS & HI & HR & Ht & ES & EI & ER).
      split; [done|]. exists sl, il, rl, (sl, il - 1, rl + 1)%Z.
      repeat split; try done. right. done.
    - bind_ok Eh as s1 E1. injection Eh as <- <-.
      apply infect_appends in E1 as (sl & il & HS & HI & Ht & ES & EI & rl & HR & ER).
      split; [done|]. exists sl, il, rl, (sl - 1, il + 1, rl)%Z.
      repeat split; try done. left. done. }
  split.
  - intros Hc. rewrite ES, EI, ER. by eapply counts_SIR_snoc.
  - intros (Hok & a & Ha & Hle). split; cbn [st next_time].
    + rewrite Ht. eapply times_ok_snoc; [done..|by apply tlt_tle].
    + exists (next_time l). split; [|done]. rewrite Ht. apply last_snoc.
Qed.

Lemma SIS_iteration_series d l l' :
  SIS_iteration G tau gamma rfd d l = Ok l' →
  loop_test tmax l = true →
  (counts_SIS (order G) (S_ (st l)) (I_ (st l)) →
   counts_SIS (order G) (S_ (st l')) (I_ (st l')))
  ∧ (loop_times_ok tmin tmax l → loop_times_ok tmin tmax l').
Proof.
  intros H Htest. apply loop_test_true in Htest as [Hlt _].
  unfold SIS_iteration in H.
  bind_ok H as u Eu. bind_ok H as [s rate] Eh. bind_ok H as nt Ent.
  injection H as <-. simpl.
  assert (next_time l ≤ₜ nt) as Hnt.
  { destruct (QMicromega.Qlt_bool 0 _) eqn:Epos.
    - bind_ok Ent as dt Edt. injection Ent as <-. apply tle_tadd.
      eapply random_expovariate_nonneg; [|done]. apply Qlt_bool_true in Epos. lra.
    - injection Ent as <-. apply tle_Inf. }
  assert (times s = times (st l) ++ [next_time l]
          ∧ ∃ sl il y, last (S_ (st l)) = Some sl ∧ last (I_ (st l)) = Some il
              ∧ SIS_move (sl, il) y
              ∧ S_ s = S_ (st l) ++ [y.1] ∧ I_ s = I_ (st l) ++ [y.2])
    as (Ht & sl & il & y & HS & HI & Hy & ES & EI).
  { destruct (QMicromega.Qlt_bool _ (total_rec_rate l)).
    - bind_ok Eh as s1 E1. bind_ok Eh as i1 Ei1. injection Eh as <- <-.
      apply recover_SIS_appends in E1 as (sl & il & HS & HI & Ht & ES & EI & ER).
      split; [done|]. exists sl, il, (sl + 1, il - 1)%Z.
      repeat split; try done. right. done.
    - bind_ok Eh as s1 E1. injection Eh as <- <-.
      apply infect_appends in E1 as (sl & il & HS & HI & Ht & ES & EI & ER).
      split; [done|]. exists sl, il, (sl - 1, il + 1)%Z.
      repeat split; try done. left. done. }
  split.
  - intros Hc. rewrite ES, EI. by eapply counts_SIS_snoc.
  - intros (Hok & a & Ha & Hle). split; cbn [st next_time].
    + rewrite Ht. eapply times_ok_snoc; [done..|by apply tlt_tle].
    + exists (next_time l). split; [|done]. rewrite Ht. apply last_snoc.
Qed.

Lemma enter_loop_times x s l :
  (0 <= tau)%Q → (0 <= gamma)%Q → keys_pos s → tmin ≤ₜ tmax →
  times s = [tmin] →
  enter_loop tau gamma x s = Ok l → loop_times_ok tmin tmax l.
Proof.
  intros Htau Hgamma Hk Hmm Ht H. unfold enter_loop in H.
  bind_ok H as a Ea. bind_ok H as dt Edt. injection H as <-. simpl.
  rewrite Ht in Ea. injection Ea as <-.
  split; cbn [st next_time]; rewrite Ht; [by apply times_ok_init|].
  exists tmin. split; [done|].
  apply tle_tadd. eapply random_expovariate_nonneg; [|done].
  apply keys_pos_weighted_size in Hk. unfold total_trans_rate.
  rewrite Zle_Qle in Hk. change (inject_Z 0) with 0%Q in Hk.
  assert (0 <= inject_Z (Z.of_nat (length (infected s))))%Q.
  { change 0%Q with (inject_Z 0). rewrite <- Zle_Qle. lia. }
  nra.
Qed.

End Series.

Lemma keys_pos_initial s :
  infected_neighbor_count s = ∅ → risk_group s = [] → keys_pos s.
Proof.
  intros Hc Hr. split.
  - intros v. unfold count_of. by rewrite Hc, lookup_empty.
  - rewrite Hr. constructor.
Qed.

Lemma same_but_risk_series s s' :
  same_but_risk s s' →
  times s' = times s ∧ S_ s' = S_ s ∧ I_ s' = I_ s ∧ R_ s' = R_ s.
Proof. by intros ->. Qed.

Lemma initialize_SIR_series G ii ir tmin rfd s :
  _Gillespie_initialize_SIR_ G ii ir tmin rfd = Ok s →
  times s = [tmin] ∧ keys_pos s
  ∧ counts_SIR (order G) (S_ s) (I_ s) (R_ s).
Proof.
  intros H. unfold _Gillespie_initialize_SIR_ in H. bind_ok H as s1 E1.
  injection H as <-. simpl.
  pose proof (initialize_risk_same _ _ _ _ E1) as Hsame.
  apply same_but_risk_series in Hsame as (-> & -> & -> & ->). simpl.
  split; [done|]. split.
  - apply initialize_risk_keys_pos in E1 as [? ?]; [done|].
    by apply keys_pos_initial.
  - apply counts_SIR_init. lia.
Qed.

Lemma initialize_SIS_series G ii tmin rfd s :
  _Gillespie_initialize_SIS_ G ii tmin rfd = Ok s →
  times s = [tmin] ∧ keys_pos s
  ∧ counts_SIS (order G) (S_ s) (I_ s).
Proof.
  intros H. unfold _Gillespie_initialize_SIS_ in H. bind_ok H as s1 E1.
  injection H as <-. simpl.
  pose proof (initialize_risk_same _ _ _ _ E1) as Hsame.
  apply same_but_risk_series in Hsame as (-> & -> & -> & _). simpl.
  split; [done|]. split.
  - apply initialize_risk_keys_pos in E1 as [? ?]; [done|].
    by apply keys_pos_initial.
  - apply counts_SIS_init. lia.
Qed.

Section Series.
Context (G : Graph) (tau gamma : Q) (rfd : bool) (tmin tmax : number).

Lemma SIR_reachable_counts l0 l :
  counts_SIR (order G) (S_ (st l0)) (I_ (st l0)) (R_ (st l0)) →
  reachable (SIR_iteration G tau gamma rfd) tmax l0 l →
  counts_SIR (order G) (S_ (st l)) (I_ (st l)) (R_ (st l)).
Proof.
  intros H0 Hr. induction Hr as [|l d l' _ IH Ht Hit]; [done|].
  apply (SIR_iteration_series G tau gamma rfd tmin tmax) in Hit as [Hit _]; [by apply Hit|done].
Qed.

Lemma SIS_reachable_counts l0 l :
  counts_SIS (order G) (S_ (st l0)) (I_ (st l0)) →
  reachable (SIS_iteration G tau gamma rfd) tmax l0 l →
  counts_SIS (order G) (S_ (st l)) (I_ (st l)).
Proof.
  intros H0 Hr. induction Hr as [|l d l' _ IH Ht Hit]; [done|].
  apply (SIS_iteration_series G tau gamma rfd tmin tmax) in Hit as [Hit _]; [by apply Hit|done].
Qed.

Lemma SIR_reachable_times l0 l :
  loop_times_ok tmin tmax l0 →
  reachable (SIR_iteration G tau gamma rfd) tmax l0 l →
  loop_times_ok tmin tmax l.
Proof.
  intros H0 Hr. induction Hr as [|l d l' _ IH Ht Hit]; [done|].
  apply (SIR_iteration_series G tau gamma rfd tmin tmax) in Hit as [_ Hit]; [by apply Hit|done].
Qed.

Lemma SIS_reachable_times l0 l :
  loop_times_ok tmin tmax l0 →
  reachable (SIS_iteration G tau gamma rfd) tmax l0 l →
  loop_times_ok tmin tmax l.
Proof.
  intros H0 Hr. induction Hr as [|l d l' _ IH Ht Hit]; [done|].
  apply (SIS_iteration_series G tau gamma rfd tmin tmax) in Hit as [_ Hit]; [by apply Hit|done].
Qed.

Lemma Gillespie_SIR_series ii ir rho smp x ds ts S I R :
  Gillespie_SIR G tau gamma ii ir rho tmin tmax rfd smp x ds = Ok (ts, S, I, R) →
  counts_SIR (order G) S I R
  ∧ ((0 <= tau)%Q → (0 <= gamma)%Q → tmin ≤ₜ tmax → times_ok tmin tmax ts).
Proof.
  intros H. unfold Gillespie_SIR in H. bind_ok H as l El.
  injection H as <- <- <- <-. unfold SIR_run in El. bind_ok El as l0 E0.
  apply run_loop_reachable in El as [Hr _].
  unfold SIR_start in E0. bind_ok E0 as u Eu. bind_ok E0 as ii' Eii.
  bind_ok E0 as s Es. apply initialize_SIR_series in Es as (Ht & Hk & Hc).
  pose proof (enter_loop_st _ _ _ _ _ E0) as Hst. split.
  - eapply SIR_reachable_counts; [|done]. by rewrite Hst.
  - intros Htau Hgamma Hmm.
    eapply enter_loop_times in E0; [|done..].
    by apply (SIR_reachable_times _ _ E0) in Hr as [? _].
Qed.

Lemma Gillespie_SIS_series ii rho smp x ds ts S I :
  Gillespie_SIS G tau gamma ii rho tmin tmax rfd smp x ds = Ok (ts, S, I) →
  counts_SIS (order G) S I
  ∧ ((0 <= tau)%Q → (0 <= gamma)%Q → tmin ≤ₜ tmax → times_ok tmin tmax ts).
Proof.
  intros H. unfold Gillespie_SIS in H. bind_ok H as l El.
  injection H as <- <- <-. unfold SIS_run in El. bind_ok El as l0 E0.
  apply run_loop_reachable in El as [Hr _].
  unfold SIS_start in E0. bind_ok E0 as u Eu. bind_ok E0 as ii' Eii.
  bind_ok E0 as s Es. apply initialize_SIS_series in Es as (Ht & Hk & Hc).
  pose proof (enter_loop_st _ _ _ _ _ E0) as Hst. split.
  - eapply SIS_reachable_counts; [|done]. by rewrite Hst.
  - intros Htau Hgamma Hmm.
    eapply enter_loop_times in E0; [|done..].
    by apply (SIS_reachable_times _ _ E0) in Hr as [? _].
Qed.
End Series.

Lemma snoc_nonempty {A} (l : list A) x : l ++ [x] ≠ [].
Proof. by destruct l. Qed.

Lemma Gillespie_reachable_ginv SIR G tau gamma ii ir rho tmin tmax rfd smp x lii l0 l :
  undirected G →
  resolve_initial G ii rho smp = Ok lii → distinct_seeds SIR lii ir →
  Gillespie_start SIR G tau gamma ii ir rho tmin rfd smp x = Ok l0 →
  reachable (Gillespie_iteration SIR G tau gamma rfd) tmax l0 l →
  ginv G (st l).
Proof.
  intros HG Hres [Hnd Hdisj] Hstart Hreach. destruct SIR; simpl in *.
  - eapply SIR_reachable_ginv; eauto.
  - by eapply SIS_reachable_ginv.
Qed.

Lemma Gillespie_reachable_nonempty SIR G tau gamma ii ir rho tmin tmax rfd smp x l0 l :
  Gillespie_start SIR G tau gamma ii ir rho tmin rfd smp x = Ok l0 →
  reachable (Gillespie_iteration SIR G tau gamma rfd) tmax l0 l →
  series_nonempty SIR (st l).
Proof.
  intros Hstart Hreach. induction Hreach as [|l d l' _ IH _ Hit].
  - destruct SIR; simpl in Hstart.
    + unfold SIR_start in Hstart. bind_ok Hstart as u Eu.
      bind_ok Hstart as lii Eii. bind_ok Hstart as s Es.
      apply enter_loop_st in Hstart as ->.
      unfold _Gillespie_initialize_SIR_ in Es. bind_ok Es as s1 E1.
      injection Es as <-. apply initialize_risk_same in E1.
      apply same_but_risk_series in E1 as (_ & E2 & E3 & E4).
      unfold series_nonempty. simpl. by rewrite E2, E3, E4.
    + unfold SIS_start in Hstart. bind_ok Hstart as u Eu.
      bind_ok Hstart as lii Eii. bind_ok Hstart as s Es.
      apply enter_loop_st in Hstart as ->.
      unfold _Gillespie_initialize_SIS_ in Es. bind_ok Es as s1 E1.
      injection Es as <-. apply initialize_risk_same in E1.
      apply same_but_risk_series in E1 as (_ & E2 & E3 & E4).
      unfold series_nonempty. simpl. by rewrite E2, E3.
  - destruct SIR; simpl in Hit.
    + unfold SIR_iteration in Hit. bind_ok Hit as u Eu.
      bind_ok Hit as [s rate] Es. bind_ok Hit as nt Ent. injection Hit as <-.
      unfold series_nonempty. simpl. destruct (QMicromega.Qlt_bool _ _).
      * bind_ok Es as s1 E1. bind_ok Es as il Eil. injection Es as <- <-.
        apply recover_SIR_appends in E1
          as (? & ? & ? & _ & _ & _ & _ & -> & -> & ->).
        repeat split; intros; apply snoc_nonempty.
      * bind_ok Es as s1 E1. injection Es as <- <-.
        apply infect_appends in E1
          as (? & ? & _ & _ & _ & -> & -> & ? & _ & ->).
        repeat split; intros; apply snoc_nonempty.
    + unfold SIS_iteration in Hit. bind_ok Hit as u Eu.
      bind_ok Hit as [s rate] Es. bind_ok Hit as nt Ent. injection Hit as <-.
      unfold series_nonempty. simpl. destruct (QMicromega.Qlt_bool _ _).
      * bind_ok Es as s1 E1. bind_ok Es as il Eil. injection Es as <- <-.
        apply recover_SIS_appends in E1 as (? & ? & _ & _ & _ & -> & -> & _).
        repeat split; try done; apply snoc_nonempty.
      * bind_ok Es as s1 E1. injection Es as <- <-.
        apply infect_appends in E1 as (? & ? & _ & _ & _ & -> & -> & _).
        repeat split; try done; apply snoc_nonempty.
Qed.

Lemma py_last_nonempty {A} (l : list A) : l ≠ [] → ∃ x, py_last l = Ok x.
Proof.
  intros Hl. unfold py_last. destruct (last l) eqn:E; [by eexists|].
  by apply last_None in E.
Qed.

Lemma infect_succeeds G SIR t u k s :
  undirected G → ginv G s → series_nonempty SIR s →
  (0 <= u)%Q → (u < 1)%Q → (0 < weighted_size (risk_group s))%Z →
  ∃ n x s', choose_recipient (risk_group s) u k = Ok (n, x)
    ∧ ListDict.items (rg_get (risk_group s) n) ≠ []
    ∧ x ∈ ListDict.items (rg_get (risk_group s) n)
    ∧ status_of (status s) x = Susceptible
    ∧ py_assert (bool_decide (status_of (status s) x = Susceptible)) = Ok ()
    ∧ _Gillespie_infect_ G SIR t u k s = Ok s'.
Proof.
  intros HG Hg (HS & HI & HR) Hu0 Hu1 Hw.
  destruct (choose_recipient_ok G s u k Hg Hu0 Hu1 Hw) as (n & x & Ec & Hne & Hin & Hx).
  destruct Hg as (Hb & Hc & Hnd & Hinf).
  exists n, x. unfold _Gillespie_infect_. rewrite Ec. simpl.
  rewrite bool_decide_eq_true_2 by done. simpl.
  pose proof Hb as [Hwf Hmem]. pose proof Hin as Hin'.
  apply Hmem in Hin' as (_ & _ & Hcx & Hn).
  destruct (unbucket_ok [] s x Hb (not_elem_of_nil _) Hx)
    as (rg1 & H1 & _ & Hwf1 & Hmem1).
  rewrite Hcx in H1. rewrite H1 by done. simpl.
  destruct (py_last_nonempty _ HS) as [sl ->].
  destruct (py_last_nonempty _ HI) as [il ->]. simpl.
  assert (∃ R', (if SIR then r_last ← py_last (R_ s); Ok (R_ s ++ [r_last])
                  else Ok (R_ s)) = Ok R') as [R' ->].
  { destruct SIR; [|by eexists].
    destruct (py_last_nonempty _ (HR eq_refl)) as [rl ->]. by eexists. }
  simpl.
  assert (∃ ns, neighbors G x = Ok ns ∧ nbrs G x = ns) as (ns & -> & Hns).
  { specialize (Hc x Hx). rewrite Hcx in Hc. unfold neighbors, nbrs.
    destruct (G !! x) as [ns|] eqn:E; [by eexists|].
    exfalso. unfold infected_neighbors, nbrs in Hc. rewrite E in Hc.
    simpl in Hc. lia. }
  simpl.
  match goal with |- context [py_for _ _ ?x0] => set (s0 := x0) end.
  assert (Hb0 : buckets_ok [] s0).
  { split; [done|]. intros k0 y. simpl. rewrite Hmem1, Hmem, status_of_insert.
    destruct (decide (y = x)) as [->|]; [|tauto]. split; [tauto|].
    intros (_ & ? & _). done. }
  assert (Hc0 : counts_are (infected_neighbors G (status s)) s0).
  { intros v. simpl. rewrite status_of_insert.
    destruct (decide (v = x)); [done|]. apply Hc. }
  destruct (infect_loop_ok [] ns s0 _ (eq_ind _ _ (nbrs_NoDup G HG x) _ Hns) Hb0 Hc0)
    as (s1 & E5 & _).
  { intros v. apply infected_neighbors_nonneg. }
  { intros ? _. apply not_elem_of_nil. }
  exists s1. by rewrite E5.
Qed.

Lemma nodes_NoDup G : NoDup (nodes G).
Proof. apply NoDup_fst_map_to_list. Qed.

Lemma neighbors_in_nodes G n ns : neighbors G n = Ok ns → n ∈ nodes G.
Proof.
  unfold neighbors, nodes. destruct (G !! n) as [l|] eqn:E; [|discriminate].
  intros _. apply list_elem_of_fmap. exists (n, l). split; [done|].
  by apply elem_of_map_to_list.
Qed.

Lemma count_status_move G st n a b :
  n ∈ nodes G → status_of st n = a → a ≠ b →
  count_status G (<[n := b]> st) a = (count_status G st a - 1)%Z
  ∧ count_status G (<[n := b]> st) b = (count_status G st b + 1)%Z
  ∧ ∀ c, c ≠ a → c ≠ b →
         count_status G (<[n := b]> st) c = count_status G st c.
Proof.
  intros Hn Ha Hab. unfold count_status. split; [|split].
  - pose proof (filter_length_gain
                  (λ u, status_of (<[n := b]> st) u = a)
                  (λ u, status_of st u = a) n (nodes G) (nodes_NoDup G)) as H.
    rewrite decide_True in H by done. rewrite H; [lia| | |done].
    + intros u Hu. rewrite status_of_insert. by rewrite decide_False.
    + rewrite status_of_insert. rewrite decide_True by done. congruence.
  - pose proof (filter_length_gain
                  (λ u, status_of st u = b)
                  (λ u, status_of (<[n := b]> st) u = b) n (nodes G)
                  (nodes_NoDup G)) as H.
    rewrite decide_True in H by done. rewrite H; [lia| | |].
    + intros u Hu. rewrite status_of_insert. by rewrite decide_False.
    + congruence.
    + rewrite status_of_insert. by rewrite decide_True.
  - intros c Hca Hcb. f_equal. f_equal. apply list_filter_iff.
    intros u. rewrite status_of_insert. destruct (decide (u = n)) as [->|]; [|done].
    split; congruence.
Qed.

Lemma last_snoc_eq {A} (l : list A) x y : x = y → last (l ++ [x]) = Some y.
Proof. intros ->. apply last_snoc. Qed.

Lemma infect_counted G SIR t u k s s' :
  counted SIR G s → _Gillespie_infect_ G SIR t u k s = Ok s' →
  counted SIR G s'.
Proof.
  intros (HS & HI & HR) H. unfold _Gillespie_infect_ in H.
  bind_ok H as [n x] E. bind_ok H as u0 Eas.
  unfold py_assert in Eas. case_bool_decide as Hx; [|discriminate].
  bind_ok H as rg Erg. bind_ok H as sl Es. bind_ok H as il Ei.
  bind_ok H as R' ER. bind_ok H as ns En.
  apply py_last_Some in Es, Ei. apply neighbors_in_nodes in En.
  apply infect_loop_same in H. rewrite H. clear H.
  unfold counted. cbn [S_ I_ R_ status set_risk].
  destruct (count_status_move G (status s) x Susceptible Infected En Hx)
    as (C1 & C2 & C3); [done|].
  rewrite C1, C2. split; [|split].
  - apply last_snoc_eq. congruence.
  - apply last_snoc_eq. congruence.
  - intros ->. rewrite C3 by done. bind_ok ER as rl Er. injection ER as <-.
    apply py_last_Some in Er. apply last_snoc_eq. rewrite HR in Er by done.
    congruence.
Qed.

Lemma recover_SIR_counted G rfd t k s s' :
  ginv G s → counted true G s → _Gillespie_recover_SIR_ G rfd t k s = Ok s' →
  counted true G s'.
Proof.
  intros (_ & _ & _ & Hinf) (HS & HI & HR) H. unfold _Gillespie_recover_SIR_ in H.
  bind_ok H as [l' x] E. bind_ok H as il Ei. bind_ok H as sl Es.
  bind_ok H as rl Er. bind_ok H as ns En. bind_ok H as s1 Eloop.
  injection H as <-. apply py_last_Some in Es, Ei, Er.
  apply neighbors_in_nodes in En. apply recover_loop_SIR_same in Eloop.
  rewrite Eloop. clear Eloop.
  assert (Hx : status_of (status s) x = Infected).
  { apply Hinf. apply pop_random_infected_perm in E. rewrite E. left. }
  unfold counted. cbn [S_ I_ R_ status set_risk].
  destruct (count_status_move G (status s) x Infected Recovered En Hx)
    as (C1 & C2 & C3); [done|].
  rewrite C1, C2, C3 by done. rewrite HR in Er by done.
  split; [|split]; [| |intros _]; apply last_snoc_eq; congruence.
Qed.

Lemma recover_SIS_counted G rfd t k s s' :
  ginv G s → counted false G s → _Gillespie_recover_SIS_ G rfd t k s = Ok s' →
  counted false G s'.
Proof.
  intros (_ & _ & _ & Hinf) (HS & HI & HR) H. unfold _Gillespie_recover_SIS_ in H.
  bind_ok H as il Ei. bind_ok H as u0 Eas. bind_ok H as [l' x] E.
  bind_ok H as sl Es. bind_ok H as ns En. bind_ok H as s1 Eloop.
  injection H as <-. apply py_last_Some in Es, Ei.
  apply neighbors_in_nodes in En. apply recover_loop_SIS_same in Eloop.
  rewrite Eloop. clear Eloop.
  assert (Hx : status_of (status s) x = Infected).
  { apply Hinf. apply pop_random_infected_perm in E. rewrite E. left. }
  unfold counted. cbn [S_ I_ R_ status set_risk].
  destruct (count_status_move G (status s) x Infected Susceptible En Hx)
    as (C1 & C2 & C3); [done|].
  rewrite C1, C2.
  split; [|split]; [| |done]; apply last_snoc_eq; congruence.
Qed.

Lemma count_status_total G st :
  (count_status G st Susceptible + count_status G st Infected
   + count_status G st Recovered = order G)%Z.
Proof.
  unfold count_status, order, nodes. rewrite <- length_map_to_list.
  rewrite <- (length_fmap fst (map_to_list G)).
  induction ((map_to_list G).*1) as [|n l IH]; [done|].
  rewrite !filter_cons. cbn [length].
  destruct (status_of st n);
    repeat (destruct (decide _) as [|]; try done); cbn [length]; lia.
Qed.

Lemma initialize_risk_nodes G ii : ∀ s s',
  initialize_risk G ii s = Ok s' → ∀ n, n ∈ ii → n ∈ nodes G.
Proof.
  unfold initialize_risk.
  induction ii as [|u ii IH]; intros s s' H n Hn; [by apply elem_of_nil in Hn|].
  simpl in H. bind_ok H as s1 E1. bind_ok E1 as ns En.
  apply elem_of_cons in Hn as [->|Hn]; [by eapply neighbors_in_nodes|].
  by eapply IH.
Qed.

Lemma filter_length_all {A} (P : A → Prop) `{∀ x, Decision (P x)} (l : list A) :
  (∀ x, x ∈ l → P x) → length (filter P l) = length l.
Proof.
  induction l as [|a l IH]; intros Hl; [done|]. rewrite filter_cons.
  rewrite decide_True by (apply Hl; left). simpl. f_equal. apply IH.
  intros x Hx. apply Hl. by right.
Qed.

Lemma filter_length_none {A} (P : A → Prop) `{∀ x, Decision (P x)} (l : list A) :
  (∀ x, x ∈ l → ¬ P x) → length (filter P l) = 0.
Proof.
  induction l as [|a l IH]; intros Hl; [done|]. rewrite filter_cons.
  rewrite decide_False by (apply Hl; left). apply IH.
  intros x Hx. apply Hl. by right.
Qed.

Lemma count_status_seeds G ii :
  NoDup ii → (∀ n, n ∈ ii → n ∈ nodes G) →
  count_status G (set_all ii Infected ∅) Infected = Z.of_nat (length ii)
  ∧ count_status G (set_all ii Infected ∅) Recovered = 0%Z
  ∧ count_status G (set_all ii Infected ∅) Susceptible
    = (order G - Z.of_nat (length ii))%Z.
Proof.
  intros Hnd Hin.
  assert (Hst : ∀ v, status_of (set_all ii Infected ∅) v
                     = if decide (v ∈ ii) then Infected else Susceptible).
  { intros v. rewrite status_of_set_all. destruct (decide _); [done|].
    unfold status_of. by rewrite lookup_empty. }
  assert (HI : count_status G (set_all ii Infected ∅) Infected
               = Z.of_nat (length ii)).
  { unfold count_status. f_equal.
    rewrite (filter_length_ext _ (λ n, n ∈ ii)).
    - rewrite (filter_length_swap _ _ (nodes_NoDup G) Hnd).
      by apply filter_length_all.
    - intros v _. rewrite Hst. by destruct (decide _). }
  assert (HR : count_status G (set_all ii Infected ∅) Recovered = 0%Z).
  { unfold count_status. rewrite filter_length_none; [done|].
    intros v _. rewrite Hst. by destruct (decide _). }
  split; [done|]. split; [done|].
  pose proof (count_status_total G (set_all ii Infected ∅)). lia.
Qed.

Lemma initialize_SIR_counted G ii ir tmin rfd s :
  NoDup ii → default [] ir = [] →
  _Gillespie_initialize_SIR_ G ii ir tmin rfd = Ok s → counted true G s.
Proof.
  intros Hnd Hir H. unfold _Gillespie_initialize_SIR_ in H.
  bind_ok H as s1 E1. injection H as <-.
  pose proof (initialize_risk_nodes _ _ _ _ E1) as Hin.
  apply initialize_risk_same in E1. rewrite E1.
  unfold counted. cbn [S_ I_ R_ status set_risk].
  assert (match ir with
          | Some l => set_all l Recovered (set_all ii Infected ∅)
          | None => set_all ii Infected ∅
          end = set_all ii Infected ∅) as ->.
  { destruct ir as [l|]; [|done]. simpl in Hir. by subst. }
  destruct (count_status_seeds G ii Hnd Hin) as (-> & -> & ->). done.
Qed.

Lemma initialize_SIS_counted G ii tmin rfd s :
  NoDup ii →
  _Gillespie_initialize_SIS_ G ii tmin rfd = Ok s → counted false G s.
Proof.
  intros Hnd H. unfold _Gillespie_initialize_SIS_ in H.
  bind_ok H as s1 E1. injection H as <-.
  pose proof (initialize_risk_nodes _ _ _ _ E1) as Hin.
  apply initialize_risk_same in E1. rewrite E1.
  unfold counted. cbn [S_ I_ R_ status set_risk].
  destruct (count_status_seeds G ii Hnd Hin) as (-> & _ & ->). done.
Qed.

End GillespieProofs.

(** ** The event-driven engines *)

Module EventProofs.
Import EventDriven EventSpec GillespieProofs.

Lemma adds_trans P W t q1 q2 q3 : adds P W t q1 q2 → adds P W t q2 q3 → adds P W t q1 q3.
Proof. intros H1 H2. induction H2; [done|]. by constructor. Qed.

Lemma adds_one P W t q time c :
  (W → t ≤ₜ time) → P c → adds P W t q (myQueue.add time c q).
Proof. intros. constructor; [constructor|done..]. Qed.

Lemma adds_tmax P W t q q' : adds P W t q q' → myQueue.tmax q' = myQueue.tmax q.
Proof. induction 1; [done|]. by rewrite add_tmax. Qed.

Lemma adds_counter P W t q q' : adds P W t q q' → myQueue.counter q ≤ myQueue.counter q'.
Proof.
  induction 1; [done|]. etrans; [done|]. apply add_counter_le.
Qed.

Lemma adds_sorted P W t q q' :
  adds P W t q q' → StronglySorted time_le (myQueue._Q_ q) →
  StronglySorted time_le (myQueue._Q_ q').
Proof. induction 1; [done|]. intros. apply add_sorted. auto. Qed.

Lemma adds_elem P W t q q' e :
  adds P W t q q' → e ∈ myQueue._Q_ q' →
  e ∈ myQueue._Q_ q
  ∨ ((W → t ≤ₜ myQueue.ev_time e) ∧ P (myQueue.ev_call e)
     ∧ myQueue.ev_time e <ₜ myQueue.tmax q
     ∧ myQueue.counter q ≤ myQueue.ev_counter e).
Proof.
  induction 1 as [|q' time c Hadds IH Ht Hc]; [by left|].
  intros [[Hlt ->]|He]%add_elem.
  - right. simpl. rewrite <- (adds_tmax _ _ _ _ _ Hadds). repeat split; try done.
    by eapply adds_counter.
  - by apply IH.
Qed.

Lemma adds_keeps P W t q q' e :
  adds P W t q q' → e ∈ myQueue._Q_ q → e ∈ myQueue._Q_ q'.
Proof.
  induction 1; [done|]. intros He. apply add_elem. right. auto.
Qed.

Lemma same_but_Q_refl s : same_but_Q s s.
Proof. by destruct s. Qed.

Lemma same_but_Q_trans s1 s2 s3 :
  same_but_Q s1 s2 → same_but_Q s2 s3 → same_but_Q s1 s3.
Proof. unfold same_but_Q. intros H1 H2. rewrite H2, H1. done. Qed.

Lemma same_but_Q_add time c s : same_but_Q s (Q_add time c s).
Proof. done. Qed.

Section SIR_handlers.
Context (P : call → Prop) (W : Prop).

Lemma schedule_trans_SIR_effect G fxn t node vd s :
  (W → nonneg vd.2) → P (trans_SIR G vd.1 fxn) →
  let s' := schedule_trans_SIR G fxn t node vd s in
  adds P W t (Q_ s) (Q_ s')
  ∧ times s' = times s ∧ S_ s' = S_ s ∧ I_ s' = I_ s ∧ R_ s' = R_ s
  ∧ status s' = status s ∧ rec_time s' = rec_time s
  ∧ rec_default s' = rec_default s
  ∧ ∀ v, pred_inf_time_of s' v ≤ₜ pred_inf_time_of s v.
Proof.
  intros Hd HP. unfold schedule_trans_SIR.
  destruct (_ && _) eqn:E.
  - simpl. split; [apply adds_one; [intros HW; apply tle_tadd; auto|done]|].
    repeat split; try done. intros v. unfold pred_inf_time_of. simpl.
    destruct (decide (v = vd.1)) as [->|Hne].
    + rewrite lookup_insert_eq. simpl.
      apply andb_true_iff in E as [[_ E]%andb_true_iff _]. by apply tlt_tle.
    + rewrite lookup_insert_ne by done. apply tle_refl.
  - split; [constructor|]. repeat split; try done. intros v. apply tle_refl.
Qed.

Lemma schedule_loop_SIR_effect G fxn t node tds : ∀ s,
  (W → Forall (λ vd, nonneg vd.2) tds) → (∀ v, P (trans_SIR G v fxn)) →
  let s' := foldl (λ s vd, schedule_trans_SIR G fxn t node vd s) s tds in
  adds P W t (Q_ s) (Q_ s')
  ∧ times s' = times s ∧ S_ s' = S_ s ∧ I_ s' = I_ s ∧ R_ s' = R_ s
  ∧ status s' = status s ∧ rec_time s' = rec_time s
  ∧ rec_default s' = rec_default s
  ∧ ∀ v, pred_inf_time_of s' v ≤ₜ pred_inf_time_of s v.
Proof.
  induction tds as [|vd tds IH]; intros s Htds HP; simpl.
  - split; [constructor|]. repeat split; try done. intros. apply tle_refl.
  - assert (W → nonneg vd.2) as Hvd.
    { intros HW. by apply Htds, Forall_cons in HW as [? _]. }
    assert (W → Forall (λ vd, nonneg vd.2) tds) as Htds'.
    { intros HW. by apply Htds, Forall_cons in HW as [_ ?]. }
    clear Htds. rename Htds' into Htds.
    destruct (schedule_trans_SIR_effect G fxn t node vd s Hvd (HP _))
      as (A1 & A2 & A3 & A4 & A5 & A6 & A7 & A8 & A9).
    destruct (IH (schedule_trans_SIR G fxn t node vd s) Htds HP)
      as (B1 & B2 & B3 & B4 & B5 & B6 & B7 & B8 & B9).
    split; [by eapply adds_trans|].
    repeat split; try congruence. intros v. eapply tle_trans; [apply B9|apply A9].
Qed.

Lemma process_trans_SIR_effect seed t G node fxn s s' :
  (W → nonneg_joint_SIR fxn) → (∀ v, P (trans_SIR G v fxn)) →
  P (rec_SIR node) →
  _process_trans_SIR_ seed t G node fxn s = Ok s' →
  adds P W t (Q_ s) (Q_ s') ∧ rec_default s' = rec_default s
  ∧ (∀ v, pred_inf_time_of s' v ≤ₜ pred_inf_time_of s v)
  ∧ (if decide (status_of (status s) node = Susceptible)
     then recorded t node Infected (-1) 1 s s' ∧ R_appended 0 s s'
     else s' = s).
Proof.
  intros Hf HP HPr H. unfold _process_trans_SIR_ in H.
  destruct (decide (status_of (status s) node = Susceptible)) as [Hst|Hst].
  - bind_ok H as sl Es. bind_ok H as il Ei. bind_ok H as rl Er. bind_ok H as ns En.
    apply py_last_Some in Es, Ei, Er.
    match type of H with context [fxn seed node ?l] =>
      assert (W → nonneg (fxn seed node l).2
                  ∧ Forall (λ vd, nonneg vd.2) (fxn seed node l).1) as Hfl
        by (intros HW; apply (Hf HW));
      destruct (fxn seed node l) as [td rd]
    end.
    simpl in Hfl.
    assert (W → nonneg rd) as Hrd by (intros HW; by apply Hfl).
    assert (W → Forall (λ vd, nonneg vd.2) td) as Htd by (intros HW; by apply Hfl).
    injection H as <-.
    match goal with |- context [foldl _ ?x0 td] => set (s3 := x0) end.
    destruct (schedule_loop_SIR_effect G fxn t node td s3 Htd HP)
      as (A1 & A2 & A3 & A4 & A5 & A6 & A7 & A8 & A9).
    assert (adds P W t (Q_ s) (Q_ s3)
            ∧ times s3 = times s ++ [t] ∧ S_ s3 = S_ s ++ [sl - 1]%Z
            ∧ I_ s3 = I_ s ++ [il + 1]%Z ∧ R_ s3 = R_ s ++ [rl]
            ∧ status s3 = <[node := Infected]> (status s)
            ∧ rec_default s3 = rec_default s
            ∧ pred_inf_time s3 = pred_inf_time s)
      as (B1 & B2 & B3 & B4 & B5 & B6 & B7 & B8).
    { unfold s3. destruct (tle _ _); simpl.
      - split; [|done]. apply adds_one; [|done].
        unfold rec_time_of. simpl. rewrite lookup_insert_eq. simpl.
        intros HW. apply tle_tadd. auto.
      - split; [constructor|done]. }
    split; [by eapply adds_trans|]. split; [congruence|]. split.
    { intros v. eapply tle_trans; [apply A9|]. unfold pred_inf_time_of.
      rewrite B8. apply tle_refl. }
    split.
    + split; [congruence|]. split; [congruence|]. exists sl, il.
      split; [done|]. split; [done|]. by rewrite A3, A4, B3, B4.
    + exists rl. split; [done|]. rewrite Z.add_0_r. congruence.
  - injection H as <-. split; [constructor|]. split; [done|]. split; [|done].
    intros. apply tle_refl.
Qed.

Lemma process_rec_SIR_effect t node s s' :
  _process_rec_SIR_ t node s = Ok s' →
  Q_ s' = Q_ s ∧ rec_default s' = rec_default s
  ∧ rec_time s' = rec_time s ∧ pred_inf_time s' = pred_inf_time s
  ∧ recorded t node Recovered 0 (-1) s s' ∧ R_appended 1 s s'.
Proof.
  intros H. unfold _process_rec_SIR_ in H.
  bind_ok H as sl Es. bind_ok H as il Ei. bind_ok H as rl Er.
  apply py_last_Some in Es, Ei, Er. injection H as <-. simpl.
  repeat split; try done.
  - exists sl, il. rewrite Z.add_0_r. done.
  - by exists rl.
Qed.
End SIR_handlers.

Section SIS_handlers.
Context (P : call → Prop) (W : Prop).

Lemma find_next_trans_effect d t tau source target c s s' :
  (W → 0 <= tau)%Q → P c →
  _find_next_trans_SIS_Markov d t tau source target c s = Ok s' →
  adds P W t (Q_ s) (Q_ s') ∧ same_but_Q s s'.
Proof.
  intros Htau HP H. unfold _find_next_trans_SIS_Markov in H.
  destruct (tlt (rec_time_of s target) (rec_time_of s source));
    [|injection H as <-; split; [constructor|apply same_but_Q_refl]].
  bind_ok H as delay Ed. bind_ok H as tt Et.
  assert (W → t ≤ₜ tt) as Htt.
  { intros HW. specialize (Htau HW).
    apply random_expovariate_nonneg in Ed; [|done].
    destruct (tlt (t +ₜ delay) (rec_time_of s target)) eqn:E.
    - bind_ok Et as delay2 Ed2. injection Et as <-.
      apply random_expovariate_nonneg in Ed2; [|done].
      eapply tle_trans; [|by apply tle_tadd].
      eapply tle_trans; [by apply (tle_tadd t delay)|by apply tlt_tle].
    - injection Et as <-. by apply tle_tadd. }
  destruct (_ && _); injection H as <-.
  - split; [by apply adds_one|apply same_but_Q_add].
  - split; [constructor|apply same_but_Q_refl].
Qed.

Lemma find_next_trans_loop_effect d t G target trf rrf ns : ∀ s s',
  (W → ∀ u v, 0 <= trf u v)%Q →
  (∀ src v, P (trans_SIS_Markov G src v trf rrf)) →
  py_for ns
    (λ v s, _find_next_trans_SIS_Markov d t (trf target v) target v
              (trans_SIS_Markov G (Some target) v trf rrf) s) s = Ok s' →
  adds P W t (Q_ s) (Q_ s') ∧ same_but_Q s s'.
Proof.
  induction ns as [|n ns IH]; intros s s' Htrf HP H; simpl in H.
  - injection H as <-. split; [constructor|apply same_but_Q_refl].
  - bind_ok H as s1 E1.
    apply find_next_trans_effect in E1 as [A1 A2]; [|by auto|done].
    destruct (IH s1 s' Htrf HP H) as [B1 B2].
    split; [by eapply adds_trans|by eapply same_but_Q_trans].
Qed.

Lemma process_trans_SIS_Markov_effect d t G source target trf rrf s s' :
  (W → nonneg_rates trf rrf) →
  (∀ src v, P (trans_SIS_Markov G src v trf rrf)) → P (rec_SIS target) →
  _process_trans_SIS_Markov d t G source target trf rrf s = Ok s' →
  adds P W t (Q_ s) (Q_ s') ∧ rec_default s' = rec_default s
  ∧ R_ s' = R_ s
  ∧ (if decide (status_of (status s) target = Susceptible)
     then recorded t target Infected (-1) 1 s s'
     else unrecorded s s').
Proof.
  intros Hrates HP HPr H. unfold _process_trans_SIS_Markov in H.
  assert (W → ∀ u v, 0 <= trf u v)%Q as Htrf by (intros HW; apply (Hrates HW)).
  assert (W → ∀ u, 0 <= rrf u)%Q as Hrrf by (intros HW; apply (Hrates HW)).
  bind_ok H as s1 E1.
  assert (adds P W t (Q_ s) (Q_ s1) ∧ rec_default s1 = rec_default s
          ∧ R_ s1 = R_ s
          ∧ (if decide (status_of (status s) target = Susceptible)
             then recorded t target Infected (-1) 1 s s1
             else unrecorded s s1)) as (A1 & A2 & A3 & A4).
  { destruct (decide (status_of (status s) target = Susceptible)) as [Hst|Hst].
    - bind_ok E1 as il Ei. bind_ok E1 as sl Es. bind_ok E1 as delay Ed.
      bind_ok E1 as ns En. bind_ok E1 as s2 E2. injection E1 as <-.
      apply py_last_Some in Es, Ei.
      assert (W → nonneg delay) as Hdelay.
      { intros HW. eapply random_expovariate_nonneg; [|done]. by apply Hrrf. }
      apply find_next_trans_loop_effect in E2 as [B1 B2]; [|done..].
      rewrite B2. simpl. split.
      + eapply adds_trans; [|done].
        destruct (tlt _ _); simpl; [|constructor].
        apply adds_one; [|done]. unfold rec_time_of. simpl.
        rewrite lookup_insert_eq. simpl. intros HW. apply tle_tadd. auto.
      + unfold recorded.
        match goal with |- context [tlt ?a ?b] => destruct (tlt a b) end; simpl;
          (split; [done|]; split; [done|]; split; [done|]; split; [done|]);
          by exists sl, il.
    - injection E1 as <-. split; [constructor|]. done. }
  assert (adds P W t (Q_ s1) (Q_ s') ∧ same_but_Q s1 s') as [B1 B2].
  { destruct source as [source|].
    - eapply find_next_trans_effect; [by auto|apply HP|exact H].
    - injection H as <-. split; [constructor|apply same_but_Q_refl]. }
  split; [by eapply adds_trans|]. rewrite B2. simpl.
  split; [done|]. split; [done|].
  destruct (decide _); [|done].
  destruct A4 as (C1 & C2 & sl & il & C3 & C4 & C5 & C6).
  split; [done|]. split; [done|]. by exists sl, il.
Qed.

Lemma process_rec_SIS_effect t node s s' :
  _process_rec_SIS_ t node s = Ok s' →
  Q_ s' = Q_ s ∧ rec_default s' = rec_default s
  ∧ rec_time s' = rec_time s ∧ R_ s' = R_ s
  ∧ recorded t node Susceptible 1 (-1) s s'.
Proof.
  intros H. unfold _process_rec_SIS_ in H.
  bind_ok H as sl Es. bind_ok H as il Ei.
  apply py_last_Some in Es, Ei. injection H as <-. simpl.
  repeat split; try done. by exists sl, il.
Qed.

Lemma schedule_trans_SIS_effect G fxn t tds v s s' :
  (W → map_Forall (λ _ l, Forall nonneg l) tds) →
  (∀ v fut, P (trans_SIS_nonMarkov G v fut fxn)) →
  schedule_trans_SIS G fxn t tds v s = Ok s' →
  adds P W t (Q_ s) (Q_ s') ∧ same_but_Q s s'.
Proof.
  intros Htds HP H. unfold schedule_trans_SIS in H.
  destruct (tds !! v) as [l|] eqn:El; [|discriminate].
  assert (W → Forall nonneg l) as Hl.
  { intros HW. by apply (map_Forall_lookup_1 _ _ _ _ (Htds HW)) in El. }
  clear El.
  destruct l as [|td l]; [injection H as <-; split; [constructor|apply same_but_Q_refl]|].
  match type of H with context [match ?x with [] => _ | _ => _ end] =>
    destruct x as [|t0 fl] eqn:Ex
  end.
  - injection H as <-; split; [constructor|apply same_but_Q_refl].
  - injection H as <-. split; [|apply same_but_Q_add]. apply adds_one; [|done].
    intros HW. specialize (Hl HW).
    assert (t0 ∈ (λ td0, t +ₜ td0) <$> (td :: l)) as Hin.
    { destruct (decide _).
      - assert (t0 ∈ t0 :: fl) as Hin by left. rewrite <- Ex in Hin.
        by apply list_elem_of_filter in Hin as [_ Hin].
      - rewrite Ex. left. }
    apply list_elem_of_fmap in Hin as (td0 & -> & Hin).
    apply tle_tadd. by apply (proj1 (Forall_forall _ _) Hl).
Qed.

Lemma schedule_loop_SIS_effect G fxn t tds ns : ∀ s s',
  (W → map_Forall (λ _ l, Forall nonneg l) tds) →
  (∀ v fut, P (trans_SIS_nonMarkov G v fut fxn)) →
  py_for ns (schedule_trans_SIS G fxn t tds) s = Ok s' →
  adds P W t (Q_ s) (Q_ s') ∧ same_but_Q s s'.
Proof.
  induction ns as [|n ns IH]; intros s s' Htds HP H; simpl in H.
  - injection H as <-. split; [constructor|apply same_but_Q_refl].
  - bind_ok H as s1 E1.
    apply schedule_trans_SIS_effect in E1 as [A1 A2]; [|done..].
    destruct (IH s1 s' Htds HP H) as [B1 B2].
    split; [by eapply adds_trans|by eapply same_but_Q_trans].
Qed.

Lemma process_trans_SIS_nonMarkov_effect seed t G target fut fxn s s' :
  (W → nonneg_joint_SIS fxn) →
  (∀ v fut, P (trans_SIS_nonMarkov G v fut fxn)) → P (rec_SIS target) →
  (W → status_of (status s) target ≠ Susceptible → t ≤ₜ rec_time_of s target) →
  _process_trans_SIS_nonMarkov_ seed t G target fut fxn s = Ok s' →
  adds P W t (Q_ s) (Q_ s') ∧ rec_default s' = rec_default s
  ∧ R_ s' = R_ s
  ∧ (if decide (status_of (status s) target = Susceptible)
     then recorded t target Infected (-1) 1 s s'
          ∧ (∀ n, n ≠ target → rec_time_of s' n = rec_time_of s n)
          ∧ (myQueue.tmax (Q_ s) ≤ₜ rec_time_of s' target
             ∨ ∃ c, myQueue.Event (rec_time_of s' target) c (rec_SIS target)
                    ∈ myQueue._Q_ (Q_ s'))
     else unrecorded s s' ∧ rec_time s' = rec_time s).
Proof.
  intros Hf HP HPr Hpre H. unfold _process_trans_SIS_nonMarkov_ in H.
  bind_ok H as s1 E1.
  assert (adds P W t (Q_ s) (Q_ s1) ∧ rec_default s1 = rec_default s
          ∧ R_ s1 = R_ s ∧ (W → t ≤ₜ rec_time_of s1 target)
          ∧ (if decide (status_of (status s) target = Susceptible)
             then recorded t target Infected (-1) 1 s s1
                  ∧ (∀ n, n ≠ target → rec_time_of s1 n = rec_time_of s n)
                  ∧ (myQueue.tmax (Q_ s) ≤ₜ rec_time_of s1 target
                     ∨ ∃ c, myQueue.Event (rec_time_of s1 target) c (rec_SIS target)
                            ∈ myQueue._Q_ (Q_ s1))
             else unrecorded s s1 ∧ rec_time s1 = rec_time s))
    as (A1 & A2 & A3 & A4 & A5).
  { destruct (decide (status_of (status s) target = Susceptible)) as [Hst|Hst].
    - bind_ok E1 as il Ei. bind_ok E1 as sl Es. bind_ok E1 as ns En.
      apply py_last_Some in Es, Ei.
      match type of E1 with context [fxn seed target ?l] =>
        assert (W → nonneg (fxn seed target l).2
                    ∧ map_Forall (λ _ tds, Forall nonneg tds)
                        (fxn seed target l).1) as Hfl
          by (intros HW; apply (Hf HW));
        destruct (fxn seed target l) as [td rd]
      end.
      simpl in Hfl.
      assert (W → nonneg rd) as Hrd by (intros HW; by apply Hfl).
      assert (W → map_Forall (λ _ tds, Forall nonneg tds) td) as Htd
        by (intros HW; by apply Hfl).
      apply schedule_loop_SIS_effect in E1 as [B1 B2]; [|done..].
      match type of B1 with adds _ _ _ (Q_ ?x0) _ => set (s2 := x0) in * end.
      assert (rec_time_of s2 target = t +ₜ rd) as Hrt.
      { unfold s2. destruct (tlt _ _); unfold rec_time_of; simpl;
          by rewrite lookup_insert_eq. }
      assert (adds P W t (Q_ s) (Q_ s2)
              ∧ (myQueue.tmax (Q_ s) ≤ₜ rec_time_of s2 target
                 ∨ ∃ c, myQueue.Event (rec_time_of s2 target) c (rec_SIS target)
                        ∈ myQueue._Q_ (Q_ s2))
              ∧ times s2 = times s ++ [t] ∧ S_ s2 = S_ s ++ [sl - 1]%Z
              ∧ I_ s2 = I_ s ++ [il + 1]%Z ∧ R_ s2 = R_ s
              ∧ status s2 = <[target := Infected]> (status s)
              ∧ rec_default s2 = rec_default s
              ∧ rec_time s2 = <[target := t +ₜ rd]> (rec_time s))
        as (C1 & C2 & C3 & C4 & C5 & C6 & C7 & C8 & C9).
      { rewrite Hrt. unfold s2.
        match goal with |- context [tlt (rec_time_of ?x target) _] =>
          assert (rec_time_of x target = t +ₜ rd) as Hr0
            by (unfold rec_time_of; simpl; by rewrite lookup_insert_eq);
          rewrite !Hr0
        end.
        match goal with |- context [tlt ?a ?b] => destruct (tlt a b) eqn:E end.
        - split; [|split; [|done]].
          + apply adds_one; [intros HW; apply tle_tadd; auto|done].
          + right. exists (myQueue.counter (Q_ s)). simpl.
            apply add_elem. left. done.
        - split; [constructor|]. split; [|done]. left.
          by apply tlt_false_tle in E. }
      rewrite B2.
      split; [by eapply adds_trans|]. split; [done|]. split; [done|].
      split; [intros HW; unfold rec_time_of in *; simpl; rewrite Hrt;
              apply tle_tadd; auto|].
      split; [|split].
      + split; [done|]. split; [done|]. by exists sl, il.
      + intros n Hn. unfold rec_time_of. simpl. rewrite C8, C9.
        by rewrite lookup_insert_ne.
      + destruct C2 as [C2|[c C2]]; [by left|]. right. exists c.
        unfold rec_time_of in *. simpl. by eapply adds_keeps.
    - injection E1 as <-. split; [constructor|]. split; [done|]. split; [done|].
      split; [by auto|]. done. }
  match type of H with context [match ?x with [] => _ | _ => _ end] =>
    destruct x as [|t0 fl] eqn:Ex
  end.
  - injection H as <-. split; [done|]. split; [done|]. split; [done|].
    destruct (decide _); [|done]. done.
  - injection H as <-.
    assert (W → t ≤ₜ t0) as Ht0.
    { intros HW. assert (t0 ∈ t0 :: fl) as Hin by left. rewrite <- Ex in Hin.
      apply list_elem_of_filter in Hin as [Hin _].
      eapply tle_trans; [by apply A4|]. by apply tlt_tle. }
    split; [eapply adds_trans; [done|]; by apply adds_one|].
    split; [done|]. split; [done|].
    destruct (decide _).
    + destruct A5 as (C1 & C2 & C3). split; [done|]. split; [done|].
      destruct C3 as [C3|[c C3]]; [by left|]. right. exists c.
      unfold rec_time_of in *. simpl. apply add_elem. by right.
    + done.
Qed.
End SIS_handlers.

Lemma unrecorded_of_eq s : unrecorded s s.
Proof. done. Qed.

Lemma run_call_effect W e d t c s s' :
  call_ok W e c →
  (W → e = E_SIS_nonMarkov →
   ∀ n, status_of (status s) n ≠ Susceptible → t ≤ₜ rec_time_of s n) →
  run_call d t c s = Ok s' →
  adds (call_ok W e) W t (Q_ s) (Q_ s') ∧ call_effect t c s s'
  ∧ rec_default s' = rec_default s.
Proof.
  intros Hok Hpre H. destruct e, c; simpl in Hok; try done; simpl in H.
  - apply (process_trans_SIR_effect (call_ok W E_SIR) W) in H
      as (A1 & A2 & A3 & A4); [|done|done|done].
    split; [done|]. split; [|done]. simpl.
    destruct (decide _); [done|]. subst. apply unrecorded_of_eq.
  - apply process_rec_SIR_effect in H as (A1 & A2 & A3 & A4 & A5 & A6).
    rewrite A1. split; [constructor|]. done.
  - apply (process_trans_SIS_Markov_effect (call_ok W E_SIS_Markov) W) in H
      as (A1 & A2 & A3 & A4); [|done|done|done].
    split; [done|]. split; [|done]. simpl.
    destruct (decide _); done.
  - apply process_rec_SIS_effect in H as (A1 & A2 & A3 & A4 & A5).
    rewrite A1. split; [constructor|]. done.
  - apply (process_trans_SIS_nonMarkov_effect (call_ok W E_SIS_nonMarkov) W) in H
      as (A1 & A2 & A3 & A4); [|done|done|done|by auto].
    split; [done|]. split; [|done]. simpl.
    destruct (decide _); [|by destruct A4]. by destruct A4.
  - apply process_rec_SIS_effect in H as (A1 & A2 & A3 & A4 & A5).
    rewrite A1. split; [constructor|]. done.
Qed.

Lemma call_effect_times t c s s' :
  call_effect t c s s' → times s' = times s ∨ times s' = times s ++ [t].
Proof.
  destruct c; simpl; try destruct (decide _);
    try (intros (? & _); by left);
    intros ((? & _) & _); by right.
Qed.

Lemma call_effect_counts W e N t c s s' :
  call_ok W e c → call_effect t c s s' → counts_of e N s → counts_of e N s'.
Proof.
  intros Hok Heff Hc.
  assert (unrecorded s s' → counts_of e N s') as Hun.
  { intros (_ & E1 & E2 & E3 & _). destruct e; simpl in *; by rewrite E1, E2, ?E3. }
  destruct e, c; simpl in Hok; try done; simpl in Heff, Hc |- *;
    try (destruct (decide _); [|by apply Hun]).
  - destruct Heff as ((_ & _ & sl & il & HS & HI & -> & ->) & rl & HR & ->).
    apply (counts_SIR_snoc N _ _ _ sl il rl (sl + -1, il + 1, rl + 0)%Z); try done.
    left. lia.
  - destruct Heff as ((_ & _ & sl & il & HS & HI & -> & ->) & rl & HR & ->).
    apply (counts_SIR_snoc N _ _ _ sl il rl (sl + 0, il + -1, rl + 1)%Z); try done.
    right. lia.
  - destruct Heff as ((_ & _ & sl & il & HS & HI & -> & ->) & _).
    apply (counts_SIS_snoc N _ _ sl il (sl + -1, il + 1)%Z); try done. left. lia.
  - destruct Heff as ((_ & _ & sl & il & HS & HI & -> & ->) & _).
    apply (counts_SIS_snoc N _ _ sl il (sl + 1, il + -1)%Z); try done. right. lia.
  - destruct Heff as ((_ & _ & sl & il & HS & HI & -> & ->) & _).
    apply (counts_SIS_snoc N _ _ sl il (sl + -1, il + 1)%Z); try done. left. lia.
  - destruct Heff as ((_ & _ & sl & il & HS & HI & -> & ->) & _).
    apply (counts_SIS_snoc N _ _ sl il (sl + 1, il + -1)%Z); try done. right. lia.
Qed.

Lemma pop_and_run_inv d s s' :
  pop_and_run d s = Ok s' →
  ∃ ev h, myQueue._Q_ (Q_ s) = ev :: h
    ∧ run_call d (myQueue.ev_time ev) (myQueue.ev_call ev)
        (set_Q {| myQueue._Q_ := h; myQueue.tmax := myQueue.tmax (Q_ s);
                  myQueue.counter := myQueue.counter (Q_ s) |} s) = Ok s'.
Proof.
  unfold pop_and_run, myQueue.pop_and_run. intros H.
  destruct (myQueue._Q_ (Q_ s)) as [|ev h]; [discriminate|]. simpl in H.
  by exists ev, h.
Qed.

Lemma drain_drains ds : ∀ s s', drain ds s = Ok s' → drains s s'.
Proof.
  assert (∀ s0 s s', drains s0 s → drain ds s = Ok s' → drains s0 s') as Hgen.
  { induction ds as [|d ds IH]; intros s0 s s' H0 H; simpl in H.
    - destruct (myQueue.len (Q_ s)); [|discriminate]. by injection H as <-.
    - destruct (myQueue.len (Q_ s)); [by injection H as <-|].
      bind_ok H as s1 E1. eapply IH; [|done]. by eapply drains_step. }
  intros s s'. apply Hgen. constructor.
Qed.

Lemma drains_ind_inv (Pinv : store → Prop) :
  (∀ d s s', Pinv s → pop_and_run d s = Ok s' → Pinv s') →
  ∀ s s', drains s s' → Pinv s → Pinv s'.
Proof. intros Hstep s s' H. induction H; eauto. Qed.

Lemma kinv_step e N d s s' : kinv e N s → pop_and_run d s = Ok s' → kinv e N s'.
Proof.
  intros [Hk Hc] H. apply pop_and_run_inv in H as (ev & h & EQ & H).
  assert (call_ok False e (myQueue.ev_call ev)) as Hok.
  { apply Hk. rewrite EQ. left. }
  apply (run_call_effect False e) in H as (A1 & A2 & A3); [|done|done].
  split.
  - intros ev' Hev'. eapply adds_elem in Hev' as [Hold|(_ & Hnew & _)]; [| |done]; [|done].
    simpl in Hold. apply Hk. rewrite EQ. by right.
  - eapply call_effect_counts; [done|done|]. done.
Qed.

Lemma nondecreasing_snoc_weak ts t :
  nondecreasing ts → (∀ a, last ts = Some a → a ≤ₜ t) → nondecreasing (ts ++ [t]).
Proof.
  intros Hnd Hl. destruct (last ts) as [a|] eqn:E.
  - eapply nondecreasing_snoc; [done..|]. by apply Hl.
  - apply last_None in E as ->. intros i a b _ Hb. simpl in Hb.
    by rewrite Nat.add_1_r in Hb.
Qed.

Lemma rec_time_of_set_Q q s n : rec_time_of (set_Q q s) n = rec_time_of s n.
Proof. done. Qed.

Lemma pending_pre tmax ev h s n :
  StronglySorted time_le (ev :: h) → myQueue._Q_ (Q_ s) = ev :: h →
  myQueue.tmax (Q_ s) = tmax → myQueue.ev_time ev <ₜ tmax →
  recovery_pending s → status_of (status s) n ≠ Susceptible →
  myQueue.ev_time ev ≤ₜ rec_time_of s n.
Proof.
  intros Hs EQ Ht Hlt [HnR Hp] Hn.
  assert (status_of (status s) n = Infected) as Hi.
  { specialize (HnR n). destruct (status_of (status s) n); done. }
  destruct (Hp n Hi) as [Hmax|[c Hc]].
  - rewrite Ht in Hmax. apply tlt_tle. by eapply tlt_tle_trans.
  - rewrite EQ in Hc. apply StronglySorted_inv in Hs as [_ Hall].
    apply elem_of_cons in Hc as [<-|Hc]; [apply tle_refl|].
    by apply (proj1 (Forall_forall _ _) Hall) in Hc.
Qed.

Lemma run_call_pending d ev h s s0 s' :
  myQueue._Q_ (Q_ s) = ev :: h →
  s0 = set_Q {| myQueue._Q_ := h; myQueue.tmax := myQueue.tmax (Q_ s);
                myQueue.counter := myQueue.counter (Q_ s) |} s →
  call_ok True E_SIS_nonMarkov (myQueue.ev_call ev) →
  (∀ n, status_of (status s) n ≠ Susceptible →
        myQueue.ev_time ev ≤ₜ rec_time_of s n) →
  recovery_pending s →
  run_call d (myQueue.ev_time ev) (myQueue.ev_call ev) s0 = Ok s' →
  recovery_pending s'.
Proof.
  intros EQ -> Hok Hpre [HnR Hp] H.
  destruct ev as [t c0 c]. simpl in *. destruct c; simpl in Hok; try done; simpl in H.
  - apply (process_trans_SIS_nonMarkov_effect (call_ok True E_SIS_nonMarkov) True) in H
      as (A1 & A2 & A3 & A4);
      [|done|intros ? ?; exact Hok|done|intros _ Hn; by apply Hpre].
    simpl in *. pose proof (adds_tmax _ _ _ _ _ A1) as Htm. simpl in Htm.
    destruct (decide (status_of (status s) target = Susceptible)) as [Hst|Hst].
    + destruct A4 as ((_ & Hs' & _) & Hrt & Hnew). split.
      * intros n. rewrite Hs', status_of_insert. destruct (decide _); [done|apply HnR].
      * intros n. rewrite Hs', status_of_insert, Htm.
        destruct (decide (n = target)) as [->|Hne]; [by intros _|].
        intros Hi. rewrite (Hrt n Hne). rewrite rec_time_of_set_Q.
        destruct (Hp n Hi) as [Hmax|[c Hc]]; [by left|]. right. exists c.
        eapply adds_keeps; [done|]. simpl. rewrite EQ in Hc.
        apply elem_of_cons in Hc as [Hc|Hc]; [discriminate|done].
    + destruct A4 as ((_ & _ & _ & _ & Hs') & Hrt). split.
      * intros n. rewrite Hs'. apply HnR.
      * intros n. rewrite Hs', Htm. intros Hi.
        assert (rec_time_of s' n = rec_time_of s n) as ->.
        { unfold rec_time_of. by rewrite Hrt, A2. }
        destruct (Hp n Hi) as [Hmax|[c Hc]]; [by left|]. right. exists c.
        eapply adds_keeps; [done|]. simpl. rewrite EQ in Hc.
        apply elem_of_cons in Hc as [Hc|Hc]; [discriminate|done].
  - apply process_rec_SIS_effect in H as (A1 & A2 & A3 & A4 & (_ & Hs' & _)).
    simpl in *. split.
    + intros n. rewrite Hs', status_of_insert. destruct (decide _); [done|apply HnR].
    + intros n. rewrite Hs', status_of_insert, A1. simpl.
      destruct (decide (n = node)) as [->|Hne]; [done|]. intros Hi.
      assert (rec_time_of s' n = rec_time_of s n) as ->.
      { unfold rec_time_of. by rewrite A3, A2. }
      destruct (Hp n Hi) as [Hmax|[c Hc]]; [by left|]. right. exists c.
      rewrite EQ in Hc.
      apply elem_of_cons in Hc as [Hc|Hc]; [congruence|done].
Qed.

Lemma tinv_step e tmax d s s' :
  tinv e tmax s → pop_and_run d s = Ok s' → tinv e tmax s'.
Proof.
  intros (Ht & Hsorted & Hev & Hnd & Hb & Hpend) H.
  apply pop_and_run_inv in H as (ev & h & EQ & H).
  rewrite EQ in Hsorted. pose proof Hsorted as Hsorted'.
  apply StronglySorted_inv in Hsorted' as [Hsh Hall].
  destruct (Hev ev) as (Hok & Hlt & Hlast); [rewrite EQ; left|].
  assert (∀ n, e = E_SIS_nonMarkov → status_of (status s) n ≠ Susceptible →
               myQueue.ev_time ev ≤ₜ rec_time_of s n) as Hpre.
  { intros n He Hn. eapply pending_pre; eauto. }
  pose proof H as Hrun.
  apply (run_call_effect True e) in H as (A1 & A2 & A3);
    [|done|intros _ He n Hn; by apply Hpre].
  simpl in A1. pose proof (adds_tmax _ _ _ _ _ A1) as Htm. simpl in Htm.
  apply call_effect_times in A2 as Htimes. simpl in Htimes.
  assert (∀ a, last (times s') = Some a → a ≤ₜ myQueue.ev_time ev) as Hlast'.
  { intros a. destruct Htimes as [->| ->]; [apply Hlast|].
    rewrite last_snoc. intros [= <-]. apply tle_refl. }
  split; [congruence|]. split; [by eapply adds_sorted|]. split; [|split; [|split]].
  - intros ev' Hev'. eapply adds_elem in Hev' as [Hold|(Hnew1 & Hnew2 & Hnew3 & _)];
      [| |done].
    + simpl in Hold. destruct (Hev ev') as (B1 & B2 & B3); [rewrite EQ; by right|].
      split; [done|]. split; [done|]. intros a Ha.
      eapply tle_trans; [by apply Hlast'|].
      by apply (proj1 (Forall_forall _ _) Hall) in Hold.
    + simpl in Hnew3. split; [done|]. split; [congruence|]. intros a Ha.
      eapply tle_trans; [by apply Hlast'|]. by apply Hnew1.
  - destruct Htimes as [->| ->]; [done|]. by apply nondecreasing_snoc_weak.
  - destruct Htimes as [->| ->]; [done|].
    intros a [Ha|Ha]%elem_of_app; [by apply Hb|].
    apply list_elem_of_singleton in Ha as ->. by apply tlt_tle.
  - intros ->. eapply run_call_pending; [done|done|done| |by apply Hpend|done].
    intros n. by apply Hpre.
Qed.

Lemma tle_not_tlt a b : a ≤ₜ b → tlt b a = false.
Proof.
  intros H. destruct (tlt b a) eqn:E; [|done].
  apply tlt_not_tle in E. congruence.
Qed.

Lemma seed_events_app tmin c_of l1 : ∀ j l2,
  seed_events tmin c_of j (l1 ++ l2)
  = seed_events tmin c_of j l1 ++ seed_events tmin c_of (j + length l1) l2.
Proof.
  induction l1 as [|u l1 IH]; intros j l2; simpl.
  - by rewrite Nat.add_0_r.
  - rewrite IH. by replace (S j + length l1) with (j + S (length l1)) by lia.
Qed.

Lemma seed_events_Forall tmin c_of l : ∀ j,
  Forall (λ x, myQueue.ev_time x = tmin
               ∧ j ≤ myQueue.ev_counter x < j + length l
               ∧ ∃ u, u ∈ l ∧ myQueue.ev_call x = c_of u)
         (seed_events tmin c_of j l).
Proof.
  induction l as [|u l IH]; intros j; simpl; [constructor|].
  constructor.
  - simpl. split; [done|]. split; [lia|]. exists u. split; [left|done].
  - eapply Forall_impl; [apply IH|]. intros x (H1 & H2 & u' & H3 & H4).
    split; [done|]. split; [lia|]. exists u'. split; [by right|done].
Qed.

Lemma adds_behind P t q q' p r :
  adds P True t q q' → myQueue._Q_ q = p ++ r →
  Forall (λ x, myQueue.ev_time x ≤ₜ t
               ∧ myQueue.ev_counter x < myQueue.counter q) p →
  ∃ r', myQueue._Q_ q' = p ++ r'.
Proof.
  intros Hadds EQ Hp. induction Hadds as [|q' time c Hadds IH Ht Hc]; [by exists r|].
  destruct IH as [r' IH]. unfold myQueue.add.
  destruct (tlt time (myQueue.tmax q')); [|by exists r'].
  simpl. rewrite IH. rewrite heappush_behind; [by eexists|].
  eapply Forall_impl; [done|]. intros x [Hx1 Hx2]. unfold myQueue.tuple_lt. simpl.
  apply orb_false_iff. split.
  - apply tle_not_tlt. eapply tle_trans; [done|]. by apply Ht.
  - apply andb_false_iff. right. apply Nat.ltb_ge.
    apply adds_counter in Hadds. lia.
Qed.

Lemma call_effect_trans t c s s' n :
  trans_target c = Some n → status_of (status s) n = Susceptible →
  call_effect t c s s' →
  times s' = times s ++ [t] ∧ status s' = <[n := Infected]> (status s).
Proof.
  intros Hc Hn H. destruct c; simpl in Hc; try done; injection Hc as ->;
    simpl in H; rewrite decide_True in H by done;
    by destruct H as ((? & ? & _) & _).
Qed.

Lemma seeds_inv_step e tmax tmin c_of ii d s s' :
  (∀ u, trans_target (c_of u) = Some u) →
  tinv e tmax s → seeds_inv tmin c_of ii s →
  pop_and_run d s = Ok s' → seeds_inv tmin c_of ii s'.
Proof.
  intros Hc_of (Ht & Hsorted & Hev & Hnd & Hb & Hpend)
    (dn & todo & rest & more & Eii & EQ & Etimes & Hmore & Hst & Hnodup & Hcnt) H.
  apply pop_and_run_inv in H as (ev & h & EQ' & H).
  destruct (Hev ev) as (Hok & Hlt & Hlast); [rewrite EQ'; left|].
  assert (∀ n, e = E_SIS_nonMarkov → status_of (status s) n ≠ Susceptible →
               myQueue.ev_time ev ≤ₜ rec_time_of s n) as Hpre.
  { intros n He Hn. eapply pending_pre; eauto. by rewrite <- EQ'. }
  apply (run_call_effect True e) in H as (A1 & A2 & A3);
    [|done|intros _ He n Hn; by apply Hpre].
  simpl in A1. pose proof (adds_counter _ _ _ _ _ A1) as Hcnt'. simpl in Hcnt'.
  destruct todo as [|u todo].
  - apply call_effect_times in A2. simpl in A2.
    destruct A2 as [A2|A2].
    + exists dn, [], (myQueue._Q_ (Q_ s')), more.
      rewrite A2. repeat split; try done; [by intros ? ?%elem_of_nil|lia].
    + exists dn, [], (myQueue._Q_ (Q_ s')), (more ++ [myQueue.ev_time ev]).
      rewrite A2, Etimes, app_assoc.
      repeat split; try done; [by intros ? ?%elem_of_nil|lia].
  - simpl in EQ. rewrite EQ in EQ'. injection EQ' as <- <-.
    simpl in *. apply NoDup_cons in Hnodup as [Hu Hnodup].
    eapply call_effect_trans in A2 as [B1 B2]; [|apply Hc_of|apply Hst; left].
    destruct (adds_behind _ _ _ _ (seed_events tmin c_of (S (length dn)) todo) rest A1)
      as [rest' Hrest']; [done| |].
    { eapply Forall_impl; [apply seed_events_Forall|].
      intros x (-> & Hx & _). simpl. split; [apply tle_refl|].
      rewrite Eii, length_app in Hcnt. simpl in Hcnt. lia. }
    unfold set_Q in B1, B2. simpl in B1, B2.
    exists (dn ++ [u]), todo, rest', [].
    rewrite length_app. simpl.
    replace (length dn + 1) with (S (length dn)) in * by lia.
    split; [by rewrite <- app_assoc|]. split; [done|]. split.
    { rewrite B1. rewrite Hmore, app_nil_r in Etimes by done. rewrite Etimes.
      replace (S (length dn) + 1) with (S (S (length dn))) by lia.
      rewrite (replicate_S_end (S (length dn))). by rewrite app_nil_r. }
    split; [done|]. split.
    { intros v Hv. rewrite B2, status_of_insert.
      rewrite decide_False by (intros ->; done). apply Hst. by right. }
    split; [done|lia].
Qed.

Lemma seeds_inv_done tmin c_of ii s :
  seeds_inv tmin c_of ii s → myQueue._Q_ (Q_ s) = [] →
  times s !! length ii = Some tmin.
Proof.
  intros (dn & todo & rest & more & Eii & EQ & Etimes & _) Hq.
  destruct todo as [|u todo]; [|by rewrite EQ in Hq].
  rewrite app_nil_r in Eii. subst ii. rewrite Etimes.
  rewrite lookup_app_l by (rewrite length_replicate; lia).
  apply lookup_replicate. split; [done|lia].
Qed.

Lemma drain_empty ds : ∀ s s', drain ds s = Ok s' → myQueue._Q_ (Q_ s') = [].
Proof.
  induction ds as [|d ds IH]; intros s s' H; simpl in H.
  - destruct (myQueue.len (Q_ s)) eqn:E; [|discriminate]. injection H as <-.
    by apply length_zero_iff_nil.
  - destruct (myQueue.len (Q_ s)) eqn:E.
    + injection H as <-. by apply length_zero_iff_nil.
    + bind_ok H as s1 E1. by eapply IH.
Qed.

Lemma seed_fold tmin c_of g ii s0 :
  (∀ u s, g u s = set_pred_inf_time (pred_inf_time (g u s)) s) →
  myQueue._Q_ (Q_ s0) = [] → myQueue.counter (Q_ s0) = 0 →
  seeded tmin c_of ii s0 (foldl (seed_step tmin c_of g) s0 ii).
Proof.
  intros Hg HQ Hc. induction ii as [|u ii IH] using rev_ind.
  - simpl. repeat split; try done. by destruct (tlt _ _).
  - rewrite foldl_app. simpl.
    set (s1 := foldl (seed_step tmin c_of g) s0 ii) in *.
    destruct IH as (E1 & E2 & E3 & E4 & E5 & E6 & E7 & E8 & E9).
    unfold seed_step at 1. rewrite (Hg u s1). unfold Q_add, set_Q. simpl.
    repeat split; try done; cbn [Q_]; [by rewrite add_tmax|].
    unfold myQueue.add. rewrite E8.
    destruct (tlt tmin (myQueue.tmax (Q_ s0))) eqn:Elt; [|done].
    destruct E9 as [E9 E10]. cbn [myQueue._Q_ myQueue.counter].
    rewrite E9, E10. split.
    + rewrite seed_events_app.
      pose proof (heappush_behind (seed_events tmin c_of 0 ii) []
                    (myQueue.Event tmin (length ii) (c_of u))) as Hb.
      rewrite app_nil_r in Hb. rewrite Hb; [done|].
      eapply Forall_impl; [apply seed_events_Forall|].
      intros x (Hx1 & Hx2 & _). unfold myQueue.tuple_lt. simpl.
      rewrite Hx1. rewrite tlt_irrefl. simpl.
      apply andb_false_iff. right. apply Nat.ltb_ge. lia.
    + rewrite length_app. simpl. lia.
Qed.

Lemma seed_events_sorted tmin c_of l : ∀ j,
  StronglySorted time_le (seed_events tmin c_of j l).
Proof.
  induction l as [|u l IH]; intros j; simpl; constructor; [done|].
  eapply Forall_impl; [apply seed_events_Forall|].
  intros x (Hx & _). unfold time_le. simpl. rewrite Hx. apply tle_refl.
Qed.

Lemma seeded_kinv e N tmin c_of ii s0 s :
  counts_of e N s0 → (∀ u, call_ok False e (c_of u)) →
  seeded tmin c_of ii s0 s → kinv e N s.
Proof.
  intros Hc Hok (E1 & E2 & E3 & E4 & E5 & E6 & E7 & E8 & E9). split.
  - intros ev Hev. destruct (tlt _ _).
    + destruct E9 as [E9 _]. rewrite E9 in Hev.
      pose proof (seed_events_Forall tmin c_of ii 0) as HF.
      rewrite Forall_forall in HF. destruct (HF _ Hev) as (_ & _ & u & _ & ->).
      apply Hok.
    + rewrite E9 in Hev. by apply elem_of_nil in Hev.
  - destruct e; simpl in *; by rewrite E2, E3, ?E4.
Qed.

Lemma seeded_tinv e tmin tmax c_of ii s0 s :
  times s0 = [tmin] → tmin ≤ₜ tmax → myQueue.tmax (Q_ s0) = tmax →
  (∀ u, call_ok True e (c_of u)) →
  (e = E_SIS_nonMarkov → ∀ n, status_of (status s0) n = Susceptible) →
  seeded tmin c_of ii s0 s → tinv e tmax s.
Proof.
  intros Ht Hmm Hmax Hok Hst (E1 & E2 & E3 & E4 & E5 & E6 & E7 & E8 & E9).
  rewrite Hmax in *. split; [done|]. split; [|split; [|split; [|split]]].
  - destruct (tlt _ _).
    + destruct E9 as [-> _]. apply seed_events_sorted.
    + rewrite E9. constructor.
  - intros ev Hev. destruct (tlt tmin tmax) eqn:Elt.
    + destruct E9 as [E9 _]. rewrite E9 in Hev.
      pose proof (seed_events_Forall tmin c_of ii 0) as HF.
      rewrite Forall_forall in HF. destruct (HF _ Hev) as (-> & _ & u & _ & ->).
      split; [apply Hok|]. split; [by rewrite Elt|].
      intros a. rewrite E1, Ht. simpl. intros [= <-]. apply tle_refl.
    + rewrite E9 in Hev. by apply elem_of_nil in Hev.
  - rewrite E1, Ht. intros i a b _ Hb. by rewrite Nat.add_1_r in Hb.
  - rewrite E1, Ht. intros a Ha. apply list_elem_of_singleton in Ha. by subst.
  - intros He. split; intros n; rewrite E5, Hst; done.
Qed.

Lemma seeded_seeds_inv tmin c_of ii s0 s :
  times s0 = [tmin] → tmin <ₜ myQueue.tmax (Q_ s0) → NoDup ii →
  (∀ u, u ∈ ii → status_of (status s0) u = Susceptible) →
  seeded tmin c_of ii s0 s → seeds_inv tmin c_of ii s.
Proof.
  intros Ht Hlt Hnd Hst (E1 & E2 & E3 & E4 & E5 & E6 & E7 & E8 & E9).
  destruct (tlt _ _); [|done]. destruct E9 as [E9 E10].
  exists [], ii, [], []. simpl. rewrite app_nil_r, E1, E5, E10.
  repeat split; try done.
Qed.

(** What a run of the drain loop keeps. *)
Lemma drain_series e N tmin tmax c_of ii ds s s' :
  (∀ u, trans_target (c_of u) = Some u) →
  drain ds s = Ok s' →
  (kinv e N s → counts_of e N s')
  ∧ (tinv e tmax s →
     nondecreasing (times s') ∧ (∀ a, a ∈ times s' → a ≤ₜ tmax)
     ∧ (seeds_inv tmin c_of ii s → times s' !! length ii = Some tmin)).
Proof.
  intros Hc_of H. pose proof (drain_empty _ _ _ H) as Hempty.
  apply drain_drains in H. split.
  - intros Hk. eapply (drains_ind_inv (kinv e N)) in H as [_ ?]; [done| |done].
    intros. by eapply kinv_step.
  - intros Ht.
    assert (tinv e tmax s' ∧ (seeds_inv tmin c_of ii s → seeds_inv tmin c_of ii s'))
      as [(_ & _ & _ & Hnd & Hb & _) Hseeds].
    { clear Hempty. induction H as [|s d s' s'' _ IH Hstep]; [done|].
      destruct (IH Ht) as [Ht' Hs']. split; [by eapply tinv_step|].
      intros Hs. eapply seeds_inv_step; [done|done|by apply Hs'|done]. }
    split; [done|]. split; [done|].
    intros Hs. apply (seeds_inv_done tmin c_of); [by apply Hseeds|done].
Qed.

Lemma find_delays_SIR_nonneg f g :
  (∀ seed u v, nonneg (f seed u v)) → (∀ seed u, nonneg (g seed u)) →
  nonneg_joint_SIR (_find_trans_and_rec_delays_SIR_ f g).
Proof.
  intros Hf Hg seed n ns. unfold _find_trans_and_rec_delays_SIR_. simpl.
  split; [apply Hg|]. apply Forall_fmap, Forall_forall. intros v _. apply Hf.
Qed.

Lemma find_delays_SIS_nonneg f g :
  (∀ seed u v d, Forall nonneg (f seed u v d)) → (∀ seed u, nonneg (g seed u)) →
  nonneg_joint_SIS (_find_trans_and_rec_delays_SIS_ f g).
Proof.
  intros Hf Hg seed n ns. unfold _find_trans_and_rec_delays_SIS_. simpl.
  split; [apply Hg|].
  assert (∀ m : gmap nat (list number),
            map_Forall (λ _ tds, Forall nonneg tds) m →
            map_Forall (λ _ tds, Forall nonneg tds)
              (foldl (λ m target, <[target := f seed n target (g seed n)]> m) m ns))
    as Hgen.
  { induction ns as [|v ns IH]; intros m Hm; simpl; [done|].
    apply IH. apply map_Forall_insert_2; [apply Hf|done]. }
  apply Hgen, map_Forall_empty.
Qed.

Lemma status_after_recovereds tmin l : ∀ s u,
  let s' := foldl (λ s node,
                     set_rec_time (<[node := tpred tmin]> (rec_time s))
                       (set_status (<[node := Recovered]> (status s)) s)) s l in
  times s' = times s ∧ S_ s' = S_ s ∧ I_ s' = I_ s ∧ R_ s' = R_ s
  ∧ Q_ s' = Q_ s
  ∧ (u ∉ l → status_of (status s') u = status_of (status s) u).
Proof.
  induction l as [|n l IH]; intros s u; simpl; [done|].
  match goal with |- context [foldl _ ?x0 l] => destruct (IH x0 u)
      as (E1 & E2 & E3 & E4 & E5 & E6) end.
  rewrite E1, E2, E3, E4, E5. repeat split; try done.
  intros Hu. apply not_elem_of_cons in Hu as [Hne Hu]. rewrite E6 by done.
  simpl. rewrite status_of_insert. by rewrite decide_False.
Qed.

Lemma head_drop {A} (l : list A) k : head (drop k l) = l !! k.
Proof. rewrite head_lookup, lookup_drop. by rewrite Nat.add_0_r. Qed.

Section Engines.
Context (G : Graph) (tmin tmax : number).

Lemma SIR_start_inv ttf rtf jf ii ir rho Q smp s l :
  SIR_start G ttf rtf jf ii ir rho tmin tmax Q smp = Ok (s, l) →
  ∃ fxn s0,
    resolve_initial G ii rho smp = Ok l
    ∧ seeded tmin (λ u, trans_SIR G u fxn) l s0 s
    ∧ times s0 = [tmin] ∧ S_ s0 = [order G] ∧ I_ s0 = [0%Z] ∧ R_ s0 = [0%Z]
    ∧ myQueue.tmax (Q_ s0) = tmax
    ∧ (∀ u, u ∉ default [] ir → status_of (status s0) u = Susceptible)
    ∧ (nonneg_delays_SIR ttf rtf jf → nonneg_joint_SIR fxn).
Proof.
  intros H. unfold SIR_start in H.
  bind_ok H as u1 E1. bind_ok H as u2 E2. bind_ok H as u3 E3.
  bind_ok H as fxn Ef. destruct Q as [?|]; [discriminate|].
  bind_ok H as l' El. injection H as <- <-.
  match goal with |- context [foldl _ ?x0 l'] => set (s0 := x0) end.
  exists fxn, s0. split; [done|]. split.
  { apply (seed_fold tmin (λ u, trans_SIR G u fxn)
             (λ u s, set_pred_inf_time (<[u := tmin]> (pred_inf_time s)) s)).
    - done.
    - unfold s0. destruct ir as [lr|]; [|done].
      by destruct (status_after_recovereds tmin lr
                     (initial_store (order G) tmin tmax [0%Z]) 0)
        as (_ & _ & _ & _ & -> & _).
    - unfold s0. destruct ir as [lr|]; [|done].
      by destruct (status_after_recovereds tmin lr
                     (initial_store (order G) tmin tmax [0%Z]) 0)
        as (_ & _ & _ & _ & -> & _). }
  assert (times s0 = [tmin] ∧ S_ s0 = [order G] ∧ I_ s0 = [0%Z] ∧ R_ s0 = [0%Z]
          ∧ Q_ s0 = myQueue.init tmax
          ∧ ∀ u, u ∉ default [] ir → status_of (status s0) u = Susceptible)
    as (A1 & A2 & A3 & A4 & A5 & A6).
  { unfold s0. destruct ir as [lr|]; simpl; [|done].
    pose proof (status_after_recovereds tmin lr
                  (initial_store (order G) tmin tmax [0%Z])) as Hrec.
    cbv zeta in Hrec. destruct (Hrec 0) as (B1 & B2 & B3 & B4 & B5 & _).
    rewrite B1, B2, B3, B4, B5. repeat split; try done.
    intros u Hu. destruct (Hrec u) as (_ & _ & _ & _ & _ & ->); done. }
  do 4 (split; [done|]). split; [by rewrite A5|]. split; [done|].
  intros Hnn. unfold nonneg_delays_SIR in Hnn.
  destruct jf as [f|]; [by injection Ef as <-|].
  destruct ttf as [f|]; [|discriminate]. destruct rtf as [g|]; [|discriminate].
  injection Ef as <-. destruct Hnn. by apply find_delays_SIR_nonneg.
Qed.

Lemma fast_nonMarkov_SIR_series ttf rtf jf ii ir rho Q smp ds ts S I R :
  fast_nonMarkov_SIR G ttf rtf jf ii ir rho tmin tmax Q smp ds
    = Ok (ts, S, I, R) →
  counts_SIR (order G) S I R
  ∧ (nonneg_delays_SIR ttf rtf jf → tmin ≤ₜ tmax →
     ∃ l, resolve_initial G ii rho smp = Ok l
          ∧ event_times_ok tmin tmax l ir ts).
Proof.
  intros H. unfold fast_nonMarkov_SIR in H. bind_ok H as [s l] Es.
  bind_ok H as s' Ed. injection H as <- <- <- <-.
  apply SIR_start_inv in Es
    as (fxn & s0 & Hres & Hseed & A1 & A2 & A3 & A4 & A5 & A6 & A7).
  destruct (drain_series E_SIR (order G) tmin tmax (λ u, trans_SIR G u fxn) l
              ds s s') as [Hk Ht]; [intros; reflexivity|done|].
  split.
  - unfold py_slice_from. apply counts_SIR_drop. apply Hk.
    apply (seeded_kinv E_SIR (order G) tmin (λ u, trans_SIR G u fxn) l s0 s);
      [|by intros u ?|done]. simpl. rewrite A2, A3, A4.
    apply counts_SIR_init. lia.
  - intros Hnn Hmm. exists l. split; [done|].
    destruct Ht as (B1 & B2 & B3).
    { eapply seeded_tinv; try done. intros u _. by apply A7. }
    unfold py_slice_from. split; [by apply nondecreasing_drop|]. split.
    + intros a Ha. apply B2. by eapply subseteq_drop.
    + intros Hlt [Hnd Hfresh]. rewrite head_drop. apply B3.
      eapply seeded_seeds_inv; try done; [by rewrite A5|].
      intros u Hu. apply A6. by apply Hfresh.
Qed.

Lemma SIS_series e c_of l s ds s' ts S I :
  e ≠ E_SIR →
  seeded tmin c_of l (initial_store (order G) tmin tmax []) s →
  (∀ u, trans_target (c_of u) = Some u) →
  (∀ u, call_ok False e (c_of u)) →
  drain ds s = Ok s' → returned_SIS s' l = (ts, S, I) →
  counts_SIS (order G) S I
  ∧ ((∀ u, call_ok True e (c_of u)) → tmin ≤ₜ tmax →
     event_times_ok tmin tmax l None ts).
Proof.
  intros He Hseed Htgt Hok Ed Hret. unfold returned_SIS in Hret.
  injection Hret as <- <- <-.
  destruct (drain_series e (order G) tmin tmax c_of l ds s s') as [Hk Ht];
    [done|done|].
  split.
  - unfold py_slice_from. apply counts_SIS_drop.
    assert (counts_of e (order G) s') as Hc.
    { apply Hk. eapply seeded_kinv; [|done|done].
      destruct e; [done|..]; simpl; apply counts_SIS_init; lia. }
    by destruct e.
  - intros Hok' Hmm. destruct Ht as (B1 & B2 & B3).
    { apply (seeded_tinv e tmin tmax c_of l
               (initial_store (order G) tmin tmax []) s);
        [done|done|done|done| |done].
      intros _ n. unfold status_of. simpl. by rewrite lookup_empty. }
    unfold py_slice_from. split; [by apply nondecreasing_drop|]. split.
    + intros a Ha. apply B2. by eapply subseteq_drop.
    + intros Hlt [Hnd _]. rewrite head_drop. apply B3.
      apply (seeded_seeds_inv tmin c_of l
               (initial_store (order G) tmin tmax []) s);
        [done|done|done| |done].
      intros u _. unfold status_of. simpl. by rewrite lookup_empty.
Qed.

Lemma fast_SIS_series rates ii rho smp ds ts S I :
  fast_SIS G rates ii rho tmin tmax smp ds = Ok (ts, S, I) →
  counts_SIS (order G) S I
  ∧ (nonneg_rates rates.1 rates.2 → tmin ≤ₜ tmax →
     ∃ l, resolve_initial G ii rho smp = Ok l
          ∧ event_times_ok tmin tmax l None ts).
Proof.
  intros H. unfold fast_SIS in H. bind_ok H as [s l] Es.
  bind_ok H as s' Ed. injection H as <- <- <-.
  unfold SIS_Markov_start in Es. bind_ok Es as u1 E1.
  destruct rates as [trf rrf]. bind_ok Es as l' El. injection Es as <- <-.
  match type of Ed with drain _ ?x0 = _ => set (s := x0) in * end.
  assert (seeded tmin (λ u, trans_SIS_Markov G None u trf rrf) l'
            (initial_store (order G) tmin tmax []) s) as Hseed.
  { apply (seed_fold tmin _ (λ _ s, s)); try done. by intros _ []. }
  destruct (SIS_series E_SIS_Markov
              (λ u, trans_SIS_Markov G None u trf rrf) l' s ds s'
              (py_slice_from (length l') (times s'))
              (py_slice_from (length l') (S_ s'))
              (py_slice_from (length l') (I_ s')))
    as [Hc Ht];
    [done|exact Hseed|intros; reflexivity|by intros u ?|exact Ed|reflexivity|].
  split; [done|]. intros Hnn Hmm. exists l'. split; [done|].
  apply Ht; [|done]. by intros u _.
Qed.

Lemma fast_nonMarkov_SIS_series ttf rtf jf ii rho smp ds ts S I :
  fast_nonMarkov_SIS G ttf rtf jf ii rho tmin tmax smp ds = Ok (ts, S, I) →
  counts_SIS (order G) S I
  ∧ (nonneg_delays_SIS ttf rtf jf → tmin ≤ₜ tmax →
     ∃ l, resolve_initial G ii rho smp = Ok l
          ∧ event_times_ok tmin tmax l None ts).
Proof.
  intros H. unfold fast_nonMarkov_SIS in H. bind_ok H as [s l] Es.
  bind_ok H as s' Ed. injection H as <- <- <-.
  unfold SIS_nonMarkov_start in Es.
  bind_ok Es as u1 E1. bind_ok Es as u2 E2. bind_ok Es as u3 E3.
  bind_ok Es as fxn Ef. bind_ok Es as l' El. injection Es as <- <-.
  match type of Ed with drain _ ?x0 = _ => set (s := x0) in * end.
  assert (seeded tmin (λ u, trans_SIS_nonMarkov G u [] fxn) l'
            (initial_store (order G) tmin tmax []) s) as Hseed.
  { apply (seed_fold tmin _ (λ _ s, s)); try done. by intros _ []. }
  destruct (SIS_series E_SIS_nonMarkov
              (λ u, trans_SIS_nonMarkov G u [] fxn) l' s ds s'
              (py_slice_from (length l') (times s'))
              (py_slice_from (length l') (S_ s'))
              (py_slice_from (length l') (I_ s')))
    as [Hc Ht];
    [done|exact Hseed|intros; reflexivity|by intros u ?|exact Ed|reflexivity|].
  split; [done|]. intros Hnn Hmm. exists l'. split; [done|].
  apply Ht; [|done]. intros u _. unfold nonneg_delays_SIS in Hnn.
  destruct jf as [f|]; [by injection Ef as <-|].
  destruct ttf as [f|]; [|discriminate]. destruct rtf as [g|]; [|discriminate].
  injection Ef as <-. destruct Hnn. by apply find_delays_SIS_nonneg.
Qed.
End Engines.

Lemma enqueued_irrefl {F} (q : myQueue.t F) time c : ¬ enqueued q q time c.
Proof.
  unfold enqueued. intros H%Permutation_length. simpl in H. lia.
Qed.

Lemma schedule_trans_SIR_spec G fxn t node v d s :
  let inf_time := t +ₜ d in
  let s' := schedule_trans_SIR G fxn t node (v, d) s in
  (enqueued (Q_ s) (Q_ s') inf_time (trans_SIR G v fxn)
   ↔ may_transmit s node v inf_time ∧ inf_time <ₜ myQueue.tmax (Q_ s))
  ∧ (¬ enqueued (Q_ s) (Q_ s') inf_time (trans_SIR G v fxn) → Q_ s' = Q_ s)
  ∧ (may_transmit s node v inf_time ∧ inf_time ≤ₜ myQueue.tmax (Q_ s) →
     pred_inf_time s' = <[v := inf_time]> (pred_inf_time s))
  ∧ (¬ (may_transmit s node v inf_time ∧ inf_time ≤ₜ myQueue.tmax (Q_ s)) →
     pred_inf_time s' = pred_inf_time s)
  ∧ ∀ w, pred_inf_time_of s' w ≤ₜ pred_inf_time_of s w.
Proof.
  intros inf_time s'. unfold may_transmit.
  assert (∀ w, pred_inf_time_of s' w ≤ₜ pred_inf_time_of s w) as Hmono.
  { by destruct (schedule_trans_SIR_effect (λ _, True) False G fxn t node (v, d) s)
      as (_ & _ & _ & _ & _ & _ & _ & _ & ?). }
  subst s'. unfold schedule_trans_SIR in *. cbn [fst snd] in *.
  fold inf_time in Hmono |- *.
  destruct (tle inf_time (rec_time_of s node)) eqn:E1;
    destruct (tlt inf_time (pred_inf_time_of s v)) eqn:E2;
    destruct (tle inf_time (myQueue.tmax (Q_ s))) eqn:E3; cbn [andb];
    try (split; [split; [by intros ?%enqueued_irrefl|by intros [[? ?] ?%tlt_tle]; congruence]|];
         split; [done|]; split; [by intros [[? ?] ?]|done]).
  unfold Q_add, set_Q, set_pred_inf_time. cbn [Q_ pred_inf_time].
  unfold myQueue.add.
  destruct (tlt inf_time (myQueue.tmax (Q_ s))) eqn:E4.
  - split; [split; [done|]|].
    + intros _. unfold enqueued. cbn [myQueue._Q_]. apply heappush_perm.
    + split; [|split; [done|split; [|done]]].
      * intros Hne. exfalso. apply Hne. unfold enqueued. cbn [myQueue._Q_].
        apply heappush_perm.
      * intros Hn. exfalso. by apply Hn.
  - split; [split|].
    + by intros ?%enqueued_irrefl.
    + by intros [_ ?].
    + split; [done|]. split; [done|]. split; [|done].
      intros Hn. exfalso. by apply Hn.
Qed.

Lemma pred_step N d s s' :
  kinv E_SIR N s → pop_and_run d s = Ok s' →
  ∀ v, pred_inf_time_of s' v ≤ₜ pred_inf_time_of s v.
Proof.
  intros [Hk _] H. apply pop_and_run_inv in H as (ev & h & EQ & H).
  assert (call_ok False E_SIR (myQueue.ev_call ev)) as Hok.
  { apply Hk. rewrite EQ. left. }
  destruct (myQueue.ev_call ev) as [G0 n fxn|n| | |]; simpl in Hok; try done;
    simpl in H.
  - by apply (process_trans_SIR_effect (λ _, True) False) in H
      as (_ & _ & ? & _).
  - apply process_rec_SIR_effect in H as (_ & _ & _ & Hp & _).
    intros v. unfold pred_inf_time_of. rewrite Hp. apply tle_refl.
Qed.

Lemma pred_drains N s s' :
  kinv E_SIR N s → drains s s' →
  ∀ v, pred_inf_time_of s' v ≤ₜ pred_inf_time_of s v.
Proof.
  intros Hk H.
  assert (kinv E_SIR N s' ∧ ∀ v, pred_inf_time_of s' v ≤ₜ pred_inf_time_of s v)
    as [_ ?]; [|done].
  induction H as [|s d s' s'' _ IH Hstep].
  - split; [done|]. intros. apply tle_refl.
  - destruct (IH Hk) as [Hk' Hle]. split; [by eapply kinv_step|].
    intros v. eapply tle_trans; [|apply Hle]. by eapply pred_step.
Qed.

Lemma SIR_run_pred G ttf rtf jf ii ir rho tmin tmax Q smp s0 l s s' :
  SIR_start G ttf rtf jf ii ir rho tmin tmax Q smp = Ok (s0, l) →
  drains s0 s → drains s s' →
  ∀ v, pred_inf_time_of s' v ≤ₜ pred_inf_time_of s v.
Proof.
  intros Hstart H0 H.
  apply SIR_start_inv in Hstart
    as (fxn & s00 & Hres & Hseed & A1 & A2 & A3 & A4 & A5 & A6 & A7).
  apply (pred_drains (order G)); [|done].
  eapply (drains_ind_inv (kinv E_SIR (order G))); [|done|].
  - intros. by eapply kinv_step.
  - apply (seeded_kinv E_SIR (order G) tmin (λ u, trans_SIR G u fxn) l s00 s0);
      [|by intros u ?|done]. simpl. rewrite A2, A3, A4.
    apply counts_SIR_init. lia.
Qed.

Lemma replay_log_counter {F} (ops : list (myQueue.op (F:=F))) : ∀ q log,
  (∀ e, e ∈ log → myQueue.ev_counter e < myQueue.counter q) →
  ∀ e, e ∈ (myQueue.replay ops q log).2 →
       myQueue.ev_counter e < myQueue.counter (myQueue.replay ops q log).1.
Proof.
  induction ops as [|[time c|] ops IH]; intros q log Hlog; simpl; [done| |].
  - apply IH. intros e [He|He]%elem_of_app.
    + specialize (Hlog e He). pose proof (add_counter_le time c q). lia.
    + unfold myQueue.pushed, myQueue.add in *.
      destruct (tlt time (myQueue.tmax q)); [|by apply elem_of_nil in He].
      apply list_elem_of_singleton in He as ->. simpl. lia.
  - destruct (myQueue._Q_ q) as [|x h]; simpl; by apply IH.
Qed.

Lemma replay_tmax {F} (ops : list (myQueue.op (F:=F))) : ∀ q log,
  myQueue.tmax (myQueue.replay ops q log).1 = myQueue.tmax q.
Proof.
  induction ops as [|[time c|] ops IH]; intros q log; simpl; [done| |].
  - by rewrite IH, add_tmax.
  - destruct (myQueue._Q_ q) as [|x h]; simpl; by rewrite IH.
Qed.

Lemma rec_nodes_add time c q :
  rec_nodes (myQueue.add time c q)
  ≡ₚ (if tlt time (myQueue.tmax q)
      then match rec_node c with Some n => [n] | None => [] end
      else []) ++ rec_nodes q.
Proof.
  unfold rec_nodes, myQueue.add. destruct (tlt _ _); [|done].
  cbn [myQueue._Q_]. rewrite heappush_perm. simpl.
  by destruct (rec_node c).
Qed.

Lemma adds_rec_nodes P W t q q' :
  (∀ c, P c → rec_node c = None) → adds P W t q q' →
  rec_nodes q' ≡ₚ rec_nodes q.
Proof.
  intros HP H. induction H as [|q' time c _ IH _ Hc]; [done|].
  rewrite rec_nodes_add, (HP c Hc). by destruct (tlt _ _).
Qed.

Lemma adds_weaken (P P' : call → Prop) W t q q' :
  (∀ c, P c → P' c) → adds P W t q q' → adds P' W t q q'.
Proof. intros HP H. induction H; [constructor|]. constructor; auto. Qed.

Ltac trans_of_tac :=
  intros; split; [split; [by intros []|by intros ? [= <-]]|done].

Section Queue_steps.
Context (e : engine) (G : Graph).

Lemma process_trans_SIR_queue seed t node fxn s s' :
  e = E_SIR →
  _process_trans_SIR_ seed t G node fxn s = Ok s' →
  if decide (status_of (status s) node = Susceptible)
  then queue_step e G t node (rec_SIR node) (Q_ s) (Q_ s')
       ∧ node ∈ nodes G
  else adds (trans_of e G) False t (Q_ s) (Q_ s').
Proof.
  intros -> H. unfold _process_trans_SIR_ in H.
  destruct (decide (status_of (status s) node = Susceptible)) as [Hst|Hst];
    [|injection H as <-; constructor].
  bind_ok H as sl Es. bind_ok H as il Ei. bind_ok H as rl Er. bind_ok H as ns En.
  apply neighbors_in_nodes in En. split; [|done].
  match type of H with context [fxn seed node ?l] =>
    destruct (fxn seed node l) as [td rd]
  end.
  injection H as <-.
  match goal with |- context [foldl _ ?x0 td] => set (s3 := x0) end.
  destruct (schedule_loop_SIR_effect (trans_of E_SIR G) False G fxn t node td s3)
    as (A1 & _); [by intros []|trans_of_tac|].
  exists (Q_ s3). split; [|done]. unfold s3.
  match goal with |- context [tle ?a ?b] => destruct (tle a b) end;
    [right; by eexists|by left].
Qed.

Lemma process_trans_SIS_Markov_queue d t source target trf rrf s s' :
  e = E_SIS_Markov →
  _process_trans_SIS_Markov d t G source target trf rrf s = Ok s' →
  if decide (status_of (status s) target = Susceptible)
  then queue_step e G t target (rec_SIS target) (Q_ s) (Q_ s')
       ∧ target ∈ nodes G
  else adds (trans_of e G) False t (Q_ s) (Q_ s').
Proof.
  intros -> H. unfold _process_trans_SIS_Markov in H. bind_ok H as s1 E1.
  assert (adds (trans_of E_SIS_Markov G) False t (Q_ s1) (Q_ s')) as Hlast.
  { destruct source as [source|].
    - eapply find_next_trans_effect; [by intros []| |exact H]. trans_of_tac.
    - injection H as <-. constructor. }
  destruct (decide (status_of (status s) target = Susceptible)) as [Hst|Hst].
  - bind_ok E1 as il Ei. bind_ok E1 as sl Es. bind_ok E1 as delay Ed.
    bind_ok E1 as ns En. bind_ok E1 as s2 E2. injection E1 as <-.
    apply neighbors_in_nodes in En. split; [|done].
    apply (find_next_trans_loop_effect (trans_of E_SIS_Markov G) False) in E2
      as [B1 B2]; [|by intros []|trans_of_tac].
    match type of B1 with adds _ _ _ (Q_ ?x0) _ => set (s3 := x0) in * end.
    exists (Q_ s3). split.
    + unfold s3.
      match goal with |- context [tlt ?a ?b] => destruct (tlt a b) end;
        [right; by eexists|by left].
    + eapply adds_trans; [done|]. exact Hlast.
  - injection E1 as <-. exact Hlast.
Qed.

Lemma process_trans_SIS_nonMarkov_queue seed t target fut fxn s s' :
  e = E_SIS_nonMarkov →
  _process_trans_SIS_nonMarkov_ seed t G target fut fxn s = Ok s' →
  if decide (status_of (status s) target = Susceptible)
  then queue_step e G t target (rec_SIS target) (Q_ s) (Q_ s')
       ∧ target ∈ nodes G
  else adds (trans_of e G) False t (Q_ s) (Q_ s').
Proof.
  intros -> H. unfold _process_trans_SIS_nonMarkov_ in H. bind_ok H as s1 E1.
  assert (adds (trans_of E_SIS_nonMarkov G) False t (Q_ s1) (Q_ s')) as Hlast.
  { match type of H with context [match ?x with [] => _ | _ => _ end] =>
      destruct x as [|t0 fl]
    end; injection H as <-; [constructor|].
    apply adds_one; [by intros []|trans_of_tac]. }
  destruct (decide (status_of (status s) target = Susceptible)) as [Hst|Hst].
  - bind_ok E1 as il Ei. bind_ok E1 as sl Es. bind_ok E1 as ns En.
    pose proof (neighbors_in_nodes _ _ _ En) as Hin. split; [|done].
    match type of E1 with context [fxn seed target ?l] =>
      destruct (fxn seed target l) as [td rd]
    end.
    apply (schedule_loop_SIS_effect (trans_of E_SIS_nonMarkov G) False) in E1
      as [B1 B2]; [|by intros []|trans_of_tac].
    match type of B1 with adds _ _ _ (Q_ ?x0) _ => set (s3 := x0) in * end.
    exists (Q_ s3). split.
    + unfold s3.
      match goal with |- context [tlt ?a ?b] => destruct (tlt a b) end;
        [right; by eexists|by left].
    + eapply adds_trans; [done|]. exact Hlast.
  - injection E1 as <-. exact Hlast.
Qed.
End Queue_steps.

Lemma rec_nodes_elem_call P W t q q' n :
  (∀ c, P c → rec_node c = None) → adds P W t q q' →
  n ∈ rec_nodes q' ↔ n ∈ rec_nodes q.
Proof. intros HP H. by rewrite (adds_rec_nodes P W t q q' HP H). Qed.

Lemma adds_call_of e G t q q' :
  adds (trans_of e G) False t q q' →
  (∀ ev, ev ∈ myQueue._Q_ q → call_of e G (myQueue.ev_call ev)) →
  ∀ ev, ev ∈ myQueue._Q_ q' → call_of e G (myQueue.ev_call ev).
Proof.
  intros H Hq ev Hev.
  destruct (adds_elem _ _ _ _ _ _ H Hev) as [Hold|(_ & [Hnew _] & _)];
    [by apply Hq|done].
Qed.

Lemma counted_store_unrecorded e G s s' :
  unrecorded s s' → counted_store e G s → counted_store e G s'.
Proof.
  intros (_ & E1 & E2 & E3 & E4) (HS & HI & HR). unfold counted_store.
  by rewrite E1, E2, E3, E4.
Qed.

Lemma counted_store_move e G t n a b ds di dr s s' :
  n ∈ nodes G → status_of (status s) n = a → a ≠ b →
  (∀ x, (if decide (x = a) then -1 else if decide (x = b) then 1 else 0)%Z
        = match x with Susceptible => ds | Infected => di | Recovered => dr end) →
  recorded t n b ds di s s' →
  (e = E_SIR → R_appended dr s s') →
  counted_store e G s → counted_store e G s'.
Proof.
  intros Hn Ha Hab Hd (_ & Est & sl & il & HS & HI & ES & EI) HR (CS & CI & CR).
  destruct (count_status_move G (status s) n a b Hn Ha Hab) as (M1 & M2 & M3).
  assert (∀ x, count_status G (status s') x
               = (count_status G (status s) x
                  + match x with Susceptible => ds | Infected => di
                    | Recovered => dr end)%Z) as Hx.
  { intros x. rewrite Est, <- Hd. destruct (decide (x = a)) as [->|Hxa].
    - rewrite M1. lia.
    - destruct (decide (x = b)) as [->|Hxb]; [rewrite M2; lia|].
      rewrite M3 by done. lia. }
  rewrite HS in CS. rewrite HI in CI. injection CS as ->. injection CI as ->.
  unfold counted_store. rewrite ES, EI, !last_snoc, !Hx.
  split; [done|]. split; [done|]. intros He.
  destruct (HR He) as (rl & Hrl & ->). rewrite (CR He) in Hrl.
  injection Hrl as <-. by rewrite last_snoc.
Qed.

Section Invariant_steps.
Context (e : engine) (G : Graph).

Lemma cinv_infect t n c_rec s0 s' :
  call_of e G c_rec → rec_node c_rec = Some n →
  cinv e G s0 →
  status_of (status s0) n = Susceptible →
  queue_step e G t n c_rec (Q_ s0) (Q_ s') → n ∈ nodes G →
  recorded t n Infected (-1) 1 s0 s' →
  (e = E_SIR → R_appended 0 s0 s') →
  cinv e G s'.
Proof.
  intros Hc Hrec (Hq & Hnd & Hinf & Hcnt) Hst (q1 & Hq1 & Hadds) Hn Hr HR.
  assert (n ∉ rec_nodes (Q_ s0)) as Hfresh.
  { intros Hin. apply Hinf in Hin as [Hin _]. by rewrite Hst in Hin. }
  assert ((∀ ev, ev ∈ myQueue._Q_ q1 → call_of e G (myQueue.ev_call ev))
          ∧ NoDup (rec_nodes q1)
          ∧ ∀ m, m ∈ rec_nodes q1 → m = n ∨ m ∈ rec_nodes (Q_ s0))
    as (Hq1a & Hq1b & Hq1c).
  { destruct Hq1 as [->|[time ->]]; [by auto|]. split; [|split].
    - intros ev [[_ ->]|Hev]%add_elem; [done|by apply Hq].
    - rewrite rec_nodes_add, Hrec. destruct (tlt _ _); [|done].
      simpl. by apply NoDup_cons.
    - intros m. rewrite rec_nodes_add, Hrec. destruct (tlt _ _); [|by right].
      simpl. intros [->|?]%elem_of_cons; by auto. }
  assert (∀ c, trans_of e G c → rec_node c = None) as HP by (by intros c [_ ?]).
  pose proof (adds_rec_nodes _ _ _ _ _ HP Hadds) as Hperm.
  split; [by eapply adds_call_of|]. split; [by rewrite Hperm|]. split.
  - intros m Hm. rewrite Hperm in Hm. destruct Hr as (_ & -> & _).
    rewrite status_of_insert. destruct (decide (m = n)) as [->|Hne]; [done|].
    destruct (Hq1c m Hm) as [->|Hm']; [done|]. by apply Hinf.
  - eapply (counted_store_move e G t n Susceptible Infected (-1) 1 0);
      [done|done|done|by intros []|done|done|done].
Qed.

Lemma cinv_same t s0 s' :
  cinv e G s0 → adds (trans_of e G) False t (Q_ s0) (Q_ s') →
  unrecorded s0 s' → cinv e G s'.
Proof.
  intros (Hq & Hnd & Hinf & Hcnt) Hadds Hun.
  assert (∀ c, trans_of e G c → rec_node c = None) as HP by (by intros c [_ ?]).
  pose proof (adds_rec_nodes _ _ _ _ _ HP Hadds) as Hperm.
  split; [by eapply adds_call_of|]. split; [by rewrite Hperm|]. split.
  - intros m Hm. rewrite Hperm in Hm. destruct Hun as (_ & _ & _ & _ & ->).
    by apply Hinf.
  - by eapply counted_store_unrecorded.
Qed.

Lemma cinv_recover t n x ds dr h s s' :
  x ≠ Infected →
  (∀ y, (if decide (y = Infected) then -1 else if decide (y = x) then 1 else 0)%Z
        = match y with Susceptible => ds | Infected => (-1)%Z | Recovered => dr end) →
  cinv e G s →
  (∃ ev, myQueue._Q_ (Q_ s) = ev :: h ∧ rec_node (myQueue.ev_call ev) = Some n) →
  myQueue._Q_ (Q_ s') = h →
  recorded t n x ds (-1) s s' →
  (e = E_SIR → R_appended dr s s') →
  cinv e G s'.
Proof.
  intros Hx Hd (Hq & Hnd & Hinf & Hcnt) (ev & EQ & Hev) EQ' Hr HR.
  unfold rec_nodes in Hnd, Hinf. rewrite EQ in Hnd, Hinf. simpl in Hnd, Hinf.
  rewrite Hev in Hnd, Hinf. apply NoDup_cons in Hnd as [Hn Hnd].
  destruct (Hinf n) as [Hst Hin]; [left|].
  split; [|split; [|split]].
  - intros ev' Hev'. apply Hq. rewrite EQ. right. by rewrite <- EQ'.
  - unfold rec_nodes. by rewrite EQ'.
  - unfold rec_nodes. rewrite EQ'. intros m Hm. destruct Hr as (_ & -> & _).
    rewrite status_of_insert. rewrite decide_False by (by intros ->).
    apply Hinf. by right.
  - eapply (counted_store_move e G t n Infected x ds (-1) dr);
      [done|done|done|done|done|done|done].
Qed.
End Invariant_steps.

Lemma cinv_pop e G ev h s :
  cinv e G s → myQueue._Q_ (Q_ s) = ev :: h →
  rec_node (myQueue.ev_call ev) = None →
  cinv e G (set_Q {| myQueue._Q_ := h; myQueue.tmax := myQueue.tmax (Q_ s);
                     myQueue.counter := myQueue.counter (Q_ s) |} s).
Proof.
  intros (Hq & Hnd & Hinf & Hcnt) EQ Hev.
  unfold rec_nodes in Hnd, Hinf. rewrite EQ in Hnd, Hinf. simpl in Hnd, Hinf.
  rewrite Hev in Hnd, Hinf. split; [|done]. simpl.
  intros ev' Hev'. apply Hq. rewrite EQ. by right.
Qed.

Lemma cinv_trans e G t n c_rec s0 s' :
  call_of e G c_rec → rec_node c_rec = Some n → cinv e G s0 →
  (if decide (status_of (status s0) n = Susceptible)
   then queue_step e G t n c_rec (Q_ s0) (Q_ s') ∧ n ∈ nodes G
   else adds (trans_of e G) False t (Q_ s0) (Q_ s')) →
  (if decide (status_of (status s0) n = Susceptible)
   then recorded t n Infected (-1) 1 s0 s' ∧ (e = E_SIR → R_appended 0 s0 s')
   else unrecorded s0 s') →
  cinv e G s'.
Proof.
  intros Hc Hrec Hinv HQ HR.
  destruct (decide (status_of (status s0) n = Susceptible)) as [Hst|Hst].
  - destruct HQ, HR. by eapply cinv_infect.
  - by eapply cinv_same.
Qed.

Lemma cinv_step e G d s s' :
  cinv e G s → pop_and_run d s = Ok s' → cinv e G s'.
Proof.
  intros Hinv H. apply pop_and_run_inv in H as (ev & h & EQ & H).
  pose proof Hinv as (Hq & _).
  destruct (Hq ev) as [Hok Hg]; [rewrite EQ; left|].
  destruct (run_call_effect False e d _ _ _ _ Hok ltac:(done) H) as (_ & A2 & _).
  destruct (rec_node (myQueue.ev_call ev)) as [n|] eqn:Hrec.
  - destruct ev as [t cnt c]. simpl in *.
    destruct c; try done; injection Hrec as ->.
    + destruct e; try done. simpl in H.
      apply process_rec_SIR_effect in H as (B1 & _ & _ & _ & B5 & B6).
      apply (cinv_recover E_SIR G t n Recovered 0 1 h s s');
        [done|by intros []|done|by eexists|by rewrite B1|exact B5|done].
    + assert (e ≠ E_SIR) as He by (by destruct e).
      simpl in H. apply process_rec_SIS_effect in H as (B1 & _ & _ & _ & B5).
      apply (cinv_recover e G t n Susceptible 1 0 h s s');
        [done|by intros []|done|by eexists|by rewrite B1|exact B5|done].
  - pose proof (cinv_pop e G ev h s Hinv EQ Hrec) as Hinv0.
    destruct ev as [t cnt c]. simpl in *.
    destruct e, c as [G' n fxn|n|G' src n trf rrf|G' n fut fxn|n];
      simpl in Hok; try done; simpl in H, A2;
      rewrite (Hg _ eq_refl) in H.
    + apply (process_trans_SIR_queue E_SIR G) in H; [|done].
      eapply (cinv_trans E_SIR G t n (rec_SIR n));
        [done|done|exact Hinv0|exact H|].
      destruct (decide _); [|done]. by destruct A2.
    + apply (process_trans_SIS_Markov_queue E_SIS_Markov G) in H; [|done].
      eapply (cinv_trans E_SIS_Markov G t n (rec_SIS n));
        [done|done|exact Hinv0|exact H|].
      destruct (decide _); [|done]. by destruct A2.
    + apply (process_trans_SIS_nonMarkov_queue E_SIS_nonMarkov G) in H; [|done].
      eapply (cinv_trans E_SIS_nonMarkov G t n (rec_SIS n));
        [done|done|exact Hinv0|exact H|].
      destruct (decide _); [|done]. by destruct A2.
Qed.

Lemma count_status_none G st :
  (∀ u, status_of st u = Susceptible) →
  count_status G st Susceptible = order G
  ∧ count_status G st Infected = 0%Z ∧ count_status G st Recovered = 0%Z.
Proof.
  intros Hst.
  assert (count_status G st Infected = 0%Z) as HI.
  { unfold count_status. rewrite filter_length_none; [done|].
    intros v _. by rewrite Hst. }
  assert (count_status G st Recovered = 0%Z) as HR.
  { unfold count_status. rewrite filter_length_none; [done|].
    intros v _. by rewrite Hst. }
  pose proof (count_status_total G st). split; [lia|done].
Qed.

Lemma seeded_cinv e G tmin c_of ii s0 s :
  (∀ u, trans_of e G (c_of u)) →
  (∀ u, status_of (status s0) u = Susceptible) →
  S_ s0 = [order G] → I_ s0 = [0%Z] → (e = E_SIR → R_ s0 = [0%Z]) →
  seeded tmin c_of ii s0 s → cinv e G s.
Proof.
  intros Hc Hst HS HI HR (E1 & E2 & E3 & E4 & E5 & E6 & E7 & E8 & E9).
  assert (∀ ev, ev ∈ myQueue._Q_ (Q_ s) → trans_of e G (myQueue.ev_call ev))
    as Hq.
  { intros ev Hev. destruct (tlt _ _).
    - destruct E9 as [E9 _]. rewrite E9 in Hev.
      pose proof (seed_events_Forall tmin c_of ii 0) as HF.
      rewrite Forall_forall in HF. destruct (HF _ Hev) as (_ & _ & u & _ & ->).
      apply Hc.
    - rewrite E9 in Hev. by apply elem_of_nil in Hev. }
  assert (rec_nodes (Q_ s) = []) as Hrec.
  { unfold rec_nodes. clear E9. revert Hq.
    induction (myQueue._Q_ (Q_ s)) as [|ev l IH]; intros Hq; [done|].
    simpl. assert (ev ∈ ev :: l) as Hin by left.
    apply Hq in Hin as [_ ->]. apply IH.
    intros ev' Hev'. apply Hq. by right. }
  clear E9. split; [intros ev Hev; by apply Hq|]. rewrite Hrec.
  split; [constructor|]. split; [by intros n ?%elem_of_nil|].
  destruct (count_status_none G (status s0) Hst) as (C1 & C2 & C3).
  unfold counted_store. rewrite E2, E3, E4, E5, HS, HI, C1, C2, C3.
  split; [done|]. split; [done|]. intros He. by rewrite (HR He).
Qed.

Lemma drains_cinv e G s s' : drains s s' → cinv e G s → cinv e G s'.
Proof.
  apply (drains_ind_inv (cinv e G)). intros d s1 s2. apply cinv_step.
Qed.

Section Engine_counts.
Context (G : Graph) (tmin tmax : number).

Lemma SIR_start_cinv ttf rtf jf ii ir rho Q smp s l :
  default [] ir = [] →
  SIR_start G ttf rtf jf ii ir rho tmin tmax Q smp = Ok (s, l) →
  cinv E_SIR G s.
Proof.
  intros Hir H. apply SIR_start_inv in H
    as (fxn & s0 & _ & Hseed & _ & A2 & A3 & A4 & _ & A6 & _).
  apply (seeded_cinv E_SIR G tmin (λ u, trans_SIR G u fxn) l s0 s);
    [trans_of_tac| |done|done|done|done].
  intros u. apply A6. rewrite Hir. apply not_elem_of_nil.
Qed.

Lemma SIS_Markov_start_cinv rates ii rho smp s l :
  SIS_Markov_start G rates ii rho tmin tmax smp = Ok (s, l) →
  cinv E_SIS_Markov G s.
Proof.
  intros Es. unfold SIS_Markov_start in Es. bind_ok Es as u1 E1.
  destruct rates as [trf rrf]. bind_ok Es as l' El. injection Es as <- <-.
  apply (seeded_cinv E_SIS_Markov G tmin
           (λ u, trans_SIS_Markov G None u trf rrf) l'
           (initial_store (order G) tmin tmax []));
    [trans_of_tac| |done|done|done|].
  - intros u. unfold status_of. simpl. by rewrite lookup_empty.
  - apply (seed_fold tmin _ (λ _ s, s)); try done. by intros _ [].
Qed.

Lemma SIS_nonMarkov_start_cinv ttf rtf jf ii rho smp s l :
  SIS_nonMarkov_start G ttf rtf jf ii rho tmin tmax smp = Ok (s, l) →
  cinv E_SIS_nonMarkov G s.
Proof.
  intros Es. unfold SIS_nonMarkov_start in Es.
  bind_ok Es as u1 E1. bind_ok Es as u2 E2. bind_ok Es as u3 E3.
  bind_ok Es as fxn Ef. bind_ok Es as l' El. injection Es as <- <-.
  apply (seeded_cinv E_SIS_nonMarkov G tmin
           (λ u, trans_SIS_nonMarkov G u [] fxn) l'
           (initial_store (order G) tmin tmax []));
    [trans_of_tac| |done|done|done|].
  - intros u. unfold status_of. simpl. by rewrite lookup_empty.
  - apply (seed_fold tmin _ (λ _ s, s)); try done. by intros _ [].
Qed.
End Engine_counts.

End EventProofs.

Module AuxiliaryProofs.
Import Auxiliary.

Lemma history_of_insert_ne tmin nh m h n :
  n ≠ m → history_of tmin (<[m := h]> nh) n = history_of tmin nh n.
Proof. intros Hne. unfold history_of. by rewrite lookup_insert_ne. Qed.

Lemma log_append_lookup tmin x node time nh n :
  log_append tmin x node time nh !! n
  = if decide (n = node)
    then Some ((history_of tmin nh node).1 ++ [time],
               (history_of tmin nh node).2 ++ [x])
    else nh !! n.
Proof.
  unfold log_append. destruct (decide (n = node)) as [->|Hne].
  - by rewrite lookup_insert_eq.
  - by rewrite lookup_insert_ne.
Qed.

Lemma log_change_lookup tmin x node time nh n :
  log_change tmin x node time nh !! n
  = if decide (n = node)
    then Some (if teq time tmin then ([time], [x])
               else ((history_of tmin nh node).1 ++ [time],
                     (history_of tmin nh node).2 ++ [x]))
    else nh !! n.
Proof.
  unfold log_change. rewrite log_append_lookup.
  destruct (decide (n = node)) as [->|Hne].
  - destruct (teq time tmin); [|done].
    unfold history_of. by rewrite lookup_insert_eq.
  - destruct (teq time tmin); [|done]. by rewrite lookup_insert_ne.
Qed.

Lemma log_changes_lookup tmin x l : ∀ nh n,
  NoDup l.*1 →
  foldl (λ nh nt, log_change tmin x nt.1 nt.2 nh) nh l !! n
  = match (list_to_map l : gmap Node number) !! n with
    | Some time =>
        Some (if teq time tmin then ([time], [x])
              else ((history_of tmin nh n).1 ++ [time],
                    (history_of tmin nh n).2 ++ [x]))
    | None => nh !! n
    end.
Proof.
  induction l as [|[m t] l IH]; intros nh n Hnd; [done|].
  simpl in Hnd. apply NoDup_cons in Hnd as [Hm Hnd]. simpl.
  rewrite IH by done. destruct (decide (n = m)) as [->|Hne].
  - rewrite lookup_insert_eq.
    rewrite (not_elem_of_list_to_map_1 _ _ Hm).
    rewrite log_change_lookup. by rewrite decide_True.
  - rewrite lookup_insert_ne by done.
    assert (history_of tmin (log_change tmin x m t nh) n = history_of tmin nh n)
      as ->.
    { unfold history_of. rewrite log_change_lookup. by rewrite decide_False. }
    destruct (list_to_map l !! n); [done|].
    rewrite log_change_lookup. by rewrite decide_False.
Qed.

Lemma log_cycles_other tmin node : ∀ Itimes Rtimes nh n,
  n ≠ node → log_cycles tmin node Itimes Rtimes nh !! n = nh !! n.
Proof.
  induction Itimes as [|ti Itimes IH]; intros Rtimes nh n Hne; [done|].
  simpl. destruct Rtimes as [|tr Rtimes]; rewrite IH by done.
  - rewrite log_change_lookup. by rewrite decide_False.
  - rewrite log_append_lookup, decide_False by done.
    rewrite log_change_lookup. by rewrite decide_False.
Qed.

Lemma history_of_Some tmin nh n h :
  nh !! n = Some h → history_of tmin nh n = h.
Proof. intros H. unfold history_of. by rewrite H. Qed.

Lemma log_change_keep tmin x node time nh :
  teq time tmin = false →
  log_change tmin x node time nh !! node
  = Some ((history_of tmin nh node).1 ++ [time],
          (history_of tmin nh node).2 ++ [x]).
Proof. intros Ht. by rewrite log_change_lookup, decide_True, Ht. Qed.

Lemma log_append_same tmin x node time nh h :
  nh !! node = Some h →
  log_append tmin x node time nh !! node = Some (h.1 ++ [time], h.2 ++ [x]).
Proof.
  intros Hh. rewrite log_append_lookup, decide_True by done.
  by rewrite (history_of_Some _ _ _ _ Hh).
Qed.

Lemma log_cycles_same tmin node : ∀ Itimes Rtimes nh,
  Forall (λ t, teq t tmin = false) Itimes → Itimes ≠ [] →
  log_cycles tmin node Itimes Rtimes nh !! node
  = Some ((history_of tmin nh node).1 ++ (cycles Itimes Rtimes).*1,
          (history_of tmin nh node).2 ++ (cycles Itimes Rtimes).*2).
Proof.
  induction Itimes as [|ti Itimes IH]; intros Rtimes nh HF Hne; [done|].
  apply Forall_cons in HF as [Hti HF]. simpl.
  pose proof (log_change_keep tmin Infected node ti nh Hti) as H1.
  destruct Rtimes as [|tr Rtimes].
  - destruct Itimes as [|ti' Itimes]; [done|].
    rewrite IH by done. rewrite (history_of_Some _ _ _ _ H1).
    cbn [fst snd]. by rewrite <- !app_assoc.
  - pose proof (log_append_same tmin Susceptible node tr _ _ H1) as H2.
    cbn [fst snd] in H2. rewrite <- !app_assoc in H2.
    destruct Itimes as [|ti' Itimes]; [done|].
    rewrite IH by done. rewrite (history_of_Some _ _ _ _ H2).
    cbn [fst snd]. by rewrite <- !app_assoc.
Qed.

Lemma log_cycles_reset tmin node ti Itimes Rtimes nh :
  teq ti tmin = true → Forall (λ t, teq t tmin = false) Itimes →
  log_cycles tmin node (ti :: Itimes) Rtimes nh !! node
  = Some ((cycles (ti :: Itimes) Rtimes).*1, (cycles (ti :: Itimes) Rtimes).*2).
Proof.
  intros Hti HF. simpl.
  assert (log_change tmin Infected node ti nh !! node
          = Some ([ti], [Infected])) as H1.
  { by rewrite log_change_lookup, decide_True, Hti. }
  destruct Rtimes as [|tr Rtimes].
  - destruct Itimes as [|ti' Itimes]; [done|].
    rewrite log_cycles_same by done. by rewrite (history_of_Some _ _ _ _ H1).
  - pose proof (log_append_same tmin Susceptible node tr _ _ H1) as H2.
    cbn [fst snd app] in H2.
    destruct Itimes as [|ti' Itimes]; [done|].
    rewrite log_cycles_same by done. by rewrite (history_of_Some _ _ _ _ H2).
Qed.

Lemma transform_SIS_lookup tmin (recovery_times : gmap Node (list number)) l :
  ∀ nh n,
  NoDup l.*1 →
  foldl (λ nh nI,
           let Rtimes := default [] (recovery_times !! nI.1) in
           log_cycles tmin nI.1 nI.2 Rtimes nh) nh l !! n
  = match (list_to_map l : gmap Node (list number)) !! n with
    | Some Itimes =>
        log_cycles tmin n Itimes (default [] (recovery_times !! n)) nh !! n
    | None => nh !! n
    end.
Proof.
  induction l as [|[m Is] l IH]; intros nh n Hnd; [done|].
  simpl in Hnd. apply NoDup_cons in Hnd as [Hm Hnd]. simpl.
  rewrite IH by done. destruct (decide (n = m)) as [->|Hne].
  - rewrite lookup_insert_eq.
    by rewrite (not_elem_of_list_to_map_1 _ _ Hm).
  - rewrite lookup_insert_ne by done.
    destruct (list_to_map l !! n) as [Is'|] eqn:E.
    + clear IH. revert nh.
      assert (∀ Rs nh1 nh2, nh1 !! n = nh2 !! n →
                log_cycles tmin n Is' Rs nh1 !! n
                = log_cycles tmin n Is' Rs nh2 !! n) as Hext.
      { clear. induction Is' as [|ti Is' IH]; intros Rs nh1 nh2 Heq; [done|].
        simpl.
        assert (log_change tmin Infected n ti nh1 !! n
                = log_change tmin Infected n ti nh2 !! n) as H1.
        { rewrite !log_change_lookup, !decide_True by done.
          unfold history_of. by rewrite Heq. }
        destruct Rs as [|tr Rs]; [by apply IH|]. apply IH.
        rewrite !log_append_lookup, !decide_True by done.
        unfold history_of. by rewrite H1. }
      intros nh. apply Hext. by apply log_cycles_other.
    + by apply log_cycles_other.
Qed.

End AuxiliaryProofs.

Module DiscreteProofs.
Import Auxiliary Discrete GillespieProofs.

Lemma generations_snoc N S I R s i r y :
  generations N S I R →
  last S = Some s → last I = Some i → last R = Some r →
  (y.1.1 + y.1.2 + y.2 = N)%Z → generation_move (s, i, r) y →
  generations N (S ++ [y.1.1]) (I ++ [y.1.2]) (R ++ [y.2]).
Proof.
  intros (HL1 & HL2 & Hsum & Hmove) HS HI HR Hy Hm.
  split; [rewrite !length_app; simpl; lia|].
  split; [rewrite !length_app; simpl; lia|]. split.
  - intros k [[s' i'] r'] (H1 & H2 & H3). simpl in *.
    apply lookup_snoc_cases in H1 as [[Hk H1]|[Hk ->]].
    + rewrite lookup_app_l in H2 by lia. rewrite lookup_app_l in H3 by lia.
      by apply (Hsum k (s', i', r')).
    + rewrite lookup_app_r in H2 by lia. rewrite lookup_app_r in H3 by lia.
      replace (k - length I) with 0 in H2 by lia.
      replace (k - length R) with 0 in H3 by lia.
      simpl in *. injection H2 as <-. injection H3 as <-. done.
  - intros k [[s1 i1] r1] [[s2 i2] r2] (H1 & H2 & H3) (H4 & H5 & H6). simpl in *.
    apply lookup_snoc_cases in H4 as [[Hk H4]|[Hk ->]].
    + rewrite lookup_app_l in H1, H2, H3, H5, H6 by lia.
      by apply (Hmove k (s1, i1, r1) (s2, i2, r2)).
    + rewrite lookup_app_l in H1, H2, H3 by lia.
      rewrite lookup_app_r in H5, H6 by lia.
      replace (k + 1 - length I) with 0 in H5 by lia.
      replace (k + 1 - length R) with 0 in H6 by lia.
      simpl in *. injection H5 as <-. injection H6 as <-.
      rewrite (last_lookup_length S s k) in H1 by (done || lia).
      rewrite (last_lookup_length I i k) in H2 by (done || lia).
      rewrite (last_lookup_length R r k) in H3 by (done || lia).
      injection H1 as <-. injection H2 as <-. injection H3 as <-.
      by destruct y as [[? ?] ?].
Qed.

Lemma unit_steps_snoc ts a :
  unit_steps ts → last ts = Some a → unit_steps (ts ++ [a +ₜ Fin 1]).
Proof.
  intros Hu Hl k x y Hx Hy.
  apply lookup_snoc_cases in Hy as [[Hk Hy]|[Hk ->]].
  - rewrite lookup_app_l in Hx by lia. by eapply Hu.
  - rewrite lookup_app_l in Hx by lia.
    rewrite (last_lookup_length ts a k) in Hx by (done || lia).
    by injection Hx as <-.
Qed.

Lemma before_horizon_snoc tmax ts a b :
  before_horizon tmax ts → last ts = Some a → a <ₜ tmax →
  before_horizon tmax (ts ++ [b]).
Proof.
  intros Hb Hl Ha k x Hx Hk. rewrite length_app in Hk. simpl in Hk.
  rewrite lookup_app_l in Hx by lia.
  destruct (decide (k + 1 < length ts)) as [Hlt|Hge]; [by eapply Hb|].
  rewrite (last_lookup_length ts a k) in Hx by (done || lia).
  by injection Hx as <-.
Qed.

Lemma head_snoc {A} (l : list A) x y : head l = Some x → head (l ++ [y]) = Some x.
Proof. by destruct l. Qed.

Lemma iteration_inv G test tmin tmax rfd g s s' :
  iteration G test tmin tmax rfd g s = Ok s' →
  ∃ g' t_last s_last i_last r_last,
    spread G test (infecteds s) (susceptible s) g
      = Ok (susceptible s', infecteds s', g')
    ∧ last (t s) = Some t_last ∧ last (S_ s) = Some s_last
    ∧ last (I_ s) = Some i_last ∧ last (R_ s) = Some r_last
    ∧ t s' = t s ++ [t_last +ₜ Fin 1]
    ∧ S_ s' = S_ s ++ [s_last - Z.of_nat (length (infecteds s'))]%Z
    ∧ I_ s' = I_ s ++ [Z.of_nat (length (infecteds s'))]
    ∧ R_ s' = R_ s ++ [r_last + i_last]%Z.
Proof.
  intros H. unfold iteration in H.
  bind_ok H as [[sus new] g'] Esp. bind_ok H as nh Enh.
  bind_ok H as r_last Er. bind_ok H as i_last Ei. bind_ok H as s_last Es.
  bind_ok H as t_last Et. injection H as <-. simpl.
  apply py_last_Some in Er, Ei, Es, Et.
  by exists g', t_last, s_last, i_last, r_last.
Qed.

Lemma iteration_series N tmin tmax k0 G test rfd g s s' :
  series_inv N tmin tmax k0 s → loop_test tmax s = Ok true →
  iteration G test tmin tmax rfd g s = Ok s' →
  series_inv N tmin tmax k0 s'.
Proof.
  intros (A1 & A2 & A3 & A4 & A5 & A6 & A7 & A8) Htest H.
  apply iteration_inv in H
    as (g' & tl & sl & il & rl & _ & Ht & Hs & Hi & Hr & E1 & E2 & E3 & E4).
  assert (tl <ₜ tmax) as Hlt.
  { unfold loop_test in Htest. destruct (infecteds s); [discriminate|].
    rewrite last_lookup in Ht. unfold py_last in Htest.
    rewrite last_lookup, Ht in Htest. simpl in Htest. by injection Htest as ->. }
  assert (sl + il + rl = N)%Z as Hsum.
  { destruct A5 as (L1 & L2 & Hsum & _).
    assert (length (S_ s) ≠ 0) as HS0.
    { intros E. apply length_zero_iff_nil in E. by rewrite E in Hs. }
    destruct (length (S_ s)) as [|k] eqn:E; [done|].
    apply (Hsum k (sl, il, rl)). repeat split; simpl;
      apply last_lookup_length; try done; lia. }
  unfold series_inv. rewrite E1, E2, E3, E4.
  split; [rewrite !length_app; simpl; lia|].
  split; [by apply head_snoc|].
  split; [by apply unit_steps_snoc|].
  split; [by eapply before_horizon_snoc|].
  split.
  { apply (generations_snoc N _ _ _ sl il rl
             (sl - Z.of_nat (length (infecteds s')),
              Z.of_nat (length (infecteds s')), rl + il)%Z); try done.
    - simpl. lia.
    - simpl. lia. }
  split; [by apply head_snoc|]. split; [by apply head_snoc|].
  by rewrite last_snoc.
Qed.

Lemma loop_series N tmin tmax k0 G test rfd ds : ∀ s s',
  series_inv N tmin tmax k0 s →
  loop G test tmin tmax rfd ds s = Ok s' →
  series_inv N tmin tmax k0 s' ∧ loop_test tmax s' = Ok false.
Proof.
  induction ds as [|g ds IH]; intros s s' Hinv H; simpl in H.
  - bind_ok H as b Eb. destruct b; [discriminate|]. by injection H as <-.
  - bind_ok H as b Eb. destruct b; [|by injection H as <-].
    bind_ok H as s1 E1. apply (IH s1); [|done].
    by eapply iteration_series.
Qed.

Lemma start_inv G ii ir rho tmin rfd smp s :
  start G ii ir rho tmin rfd smp = Ok s →
  ∃ l, resolve_initial G ii rho smp = Ok l
       ∧ t s = [tmin]
       ∧ S_ s = [order G - Z.of_nat (length l)]%Z
       ∧ I_ s = [Z.of_nat (length l)] ∧ R_ s = [0%Z]
       ∧ infecteds s = l
       ∧ susceptible s
         = match ir with
           | Some lr => Gillespie.set_all lr false (Gillespie.set_all l false ∅)
           | None => Gillespie.set_all l false ∅
           end.
Proof.
  intros H. unfold start in H. bind_ok H as u Eu. bind_ok H as l El.
  bind_ok H as nh Enh. injection H as <-. simpl. by exists l.
Qed.

Lemma start_series G ii ir rho tmin tmax rfd smp s :
  start G ii ir rho tmin rfd smp = Ok s →
  ∃ l, resolve_initial G ii rho smp = Ok l
       ∧ series_inv (order G) tmin tmax (Z.of_nat (length l)) s.
Proof.
  intros H. apply start_inv in H as (l & Hl & E1 & E2 & E3 & E4 & E5 & E6).
  exists l. split; [done|]. unfold series_inv. rewrite E1, E2, E3, E4, E5.
  repeat split; try done.
  - intros k a b _ Hb. simpl in Hb. by rewrite Nat.add_1_r in Hb.
  - intros k a _ Hk. simpl in Hk. lia.
  - intros k [[x1 x2] x3] (H1 & H2 & H3). simpl in *.
    destruct k; simpl in *; [|done]. injection H1 as <-. injection H2 as <-.
    injection H3 as <-. lia.
  - intros k x y _ (H1 & _). simpl in H1. by rewrite Nat.add_1_r in H1.
Qed.

Lemma elem_of_nodes (G : Graph) v : v ∈ nodes G ↔ is_Some (G !! v).
Proof.
  unfold nodes. rewrite list_elem_of_fmap. split.
  - intros ([v' ns] & -> & Hin). apply elem_of_map_to_list in Hin. by eexists.
  - intros [ns Hns]. exists (v, ns). split; [done|].
    by apply elem_of_map_to_list.
Qed.

Lemma closed_neighbors G u ns v :
  closed G → neighbors G u = Ok ns → v ∈ ns → v ∈ nodes G.
Proof.
  intros HG Hu Hv. unfold neighbors in Hu.
  destruct (G !! u) as [ns'|] eqn:E; [|discriminate]. injection Hu as ->.
  apply HG in E. apply elem_of_nodes.
  by apply (proj1 (Forall_forall _ _) E).
Qed.

Lemma susceptible_of_insert sus v (b : bool) w :
  susceptible_of (<[v := b]> sus) w
  = if decide (w = v) then b else susceptible_of sus w.
Proof.
  unfold susceptible_of. destruct (decide (w = v)) as [->|Hne].
  - by rewrite lookup_insert_eq.
  - by rewrite lookup_insert_ne.
Qed.

Lemma susceptible_of_set_all l (b : bool) sus v :
  susceptible_of (Gillespie.set_all l b sus) v
  = if decide (v ∈ l) then b else susceptible_of sus v.
Proof.
  revert sus. induction l as [|a l IH]; intros sus; simpl.
  - destruct (decide (v ∈ [])) as [Hv|]; [by apply elem_of_nil in Hv|done].
  - unfold Gillespie.set_all in *. simpl. rewrite IH, susceptible_of_insert.
    destruct (decide (v ∈ l)) as [Hl|Hl].
    + rewrite decide_True by by right. done.
    + destruct (decide (v = a)) as [->|Hva].
      * rewrite decide_True by left. done.
      * rewrite decide_False; [done|]. rewrite elem_of_cons. tauto.
Qed.

Lemma filter_length_le {A} (P Q : A → Prop)
    `{∀ x, Decision (P x)} `{∀ x, Decision (Q x)} (l : list A) :
  (∀ u, u ∈ l → P u → Q u) → length (filter P l) ≤ length (filter Q l).
Proof.
  intros HPQ. induction l as [|a l IH]; [done|].
  rewrite !filter_cons.
  assert (P a → Q a) by (apply HPQ; left).
  assert (IH' : length (filter P l) ≤ length (filter Q l)).
  { apply IH. intros; apply HPQ; [by right|done]. }
  destruct (decide (P a)), (decide (Q a)); simpl; tauto || lia.
Qed.

Lemma sus_count_nonneg G sus : (0 ≤ sus_count G sus)%Z.
Proof. unfold sus_count. lia. Qed.

Lemma sus_count_remove G l : ∀ sus sus',
  NoDup l →
  (∀ v, v ∈ l → susceptible_of sus v = true ∧ v ∈ nodes G) →
  (∀ v, susceptible_of sus' v
        = if decide (v ∈ l) then false else susceptible_of sus v) →
  (sus_count G sus' = sus_count G sus - Z.of_nat (length l))%Z.
Proof.
  induction l as [|a l IH]; intros sus sus' Hnd Hl Hs.
  - simpl. unfold sus_count. rewrite (filter_length_ext _
      (λ v, susceptible_of sus v = true)); [lia|].
    intros u _. by rewrite Hs.
  - apply NoDup_cons in Hnd as [Ha Hnd].
    destruct (Hl a) as [Hsa Hna]; [left|].
    rewrite (IH (<[a := false]> sus) sus'); [|done| |].
    + assert (length (filter (λ v, susceptible_of sus v = true) (nodes G))
              = length (filter (λ v, susceptible_of (<[a := false]> sus) v = true)
                          (nodes G)) + 1) as Hg.
      { rewrite (filter_length_gain
                   (λ v, susceptible_of (<[a := false]> sus) v = true)
                   (λ v, susceptible_of sus v = true) a (nodes G)
                   (nodes_NoDup G)).
        - by rewrite decide_True.
        - intros u Hu. rewrite susceptible_of_insert. by rewrite decide_False.
        - rewrite susceptible_of_insert. by rewrite decide_True.
        - done. }
      unfold sus_count. simpl. lia.
    + intros v Hv. rewrite susceptible_of_insert.
      rewrite decide_False by (intros ->; done).
      apply Hl. by right.
    + intros v. rewrite Hs, susceptible_of_insert.
      destruct (decide (v = a)) as [->|Hva].
      * rewrite decide_True by left. by rewrite decide_False.
      * destruct (decide (v ∈ l)) as [Hin|Hin].
        -- rewrite decide_True by by right. done.
        -- rewrite decide_False; [done|]. rewrite elem_of_cons. tauto.
Qed.

Lemma test_neighbor_rel G test sus0 u v acc acc' :
  v ∈ nodes G → spread_rel G sus0 acc →
  test_neighbor test u v acc = Ok acc' → spread_rel G sus0 acc'.
Proof.
  intros Hv (Hnd & Hin & Hs) H. destruct acc as [[sus new] g].
  unfold test_neighbor in H. simpl in *.
  destruct (susceptible_of sus v) eqn:Esus; [|by injection H as <-].
  bind_ok H as [b g'] Et. destruct b; injection H as <-; [|done].
  assert (v ∉ new) as Hnew.
  { intros Hv'. rewrite Hs, decide_True in Esus by done. discriminate. }
  assert (susceptible_of sus0 v = true) as Hv0.
  { by rewrite Hs, decide_False in Esus. }
  split; [|split]; simpl.
  - apply NoDup_app. split; [done|]. split; [|apply NoDup_singleton].
    intros x Hx Hx'. apply list_elem_of_singleton in Hx'. by subst.
  - intros w [Hw|Hw]%elem_of_app; [by apply Hin|].
    apply list_elem_of_singleton in Hw. by subst.
  - intros w. rewrite susceptible_of_insert, Hs.
    destruct (decide (w = v)) as [->|Hwv].
    + rewrite decide_True; [done|]. apply elem_of_app. right. left.
    + destruct (decide (w ∈ new)) as [Hin'|Hin'].
      * rewrite decide_True; [done|]. apply elem_of_app. by left.
      * rewrite decide_False; [done|]. rewrite elem_of_app.
        intros [?|Hw]; [done|]. by apply list_elem_of_singleton in Hw.
Qed.

Lemma spread_spec G test infecteds sus g sus' new g' :
  closed G → spread G test infecteds sus g = Ok (sus', new, g') →
  spread_rel G sus (sus', new, g').
Proof.
  intros HG H. unfold spread in H.
  assert (∀ l acc acc', spread_rel G sus acc →
            py_for l
              (λ u acc, ns ← neighbors G u; py_for ns (test_neighbor test u) acc)
              acc = Ok acc' → spread_rel G sus acc') as Hout.
  { induction l as [|u l IH]; intros acc acc' Hrel Hl; simpl in Hl.
    - by injection Hl as <-.
    - bind_ok Hl as acc1 E1. bind_ok E1 as ns En. apply (IH acc1); [|done].
      assert (∀ vs, vs ⊆ ns → ∀ a a', spread_rel G sus a →
                py_for vs (test_neighbor test u) a = Ok a' →
                spread_rel G sus a') as Hin.
      { induction vs as [|v vs IHv]; intros Hsub a a' Ha Hv; simpl in Hv.
        - by injection Hv as <-.
        - bind_ok Hv as a1 Ea. apply (IHv ltac:(set_solver) a1); [|done].
          eapply test_neighbor_rel; [|done|done].
          eapply closed_neighbors; [done|done|]. apply Hsub. left. }
      by apply (Hin ns ltac:(done) acc). }
  apply (Hout infecteds (sus, [], g)); [|done].
  split; [constructor|]. split; [by intros v ?%elem_of_nil|]. by intros v.
Qed.

Lemma iteration_population G test tmin tmax rfd g s s' :
  closed G → population_inv G s → loop_test tmax s = Ok true →
  last (I_ s) = Some (Z.of_nat (length (infecteds s))) →
  iteration G test tmin tmax rfd g s = Ok s' →
  population_inv G s'.
Proof.
  intros HG (HS & r & Hr & Hlen) Htest HI H.
  apply iteration_inv in H
    as (g' & tl & sl & il & rl & Hsp & Ht & Hs & Hi & Hr' & E1 & E2 & E3 & E4).
  rewrite Hr in Hr'. injection Hr' as <-. rewrite HI in Hi. injection Hi as <-.
  apply spread_spec in Hsp as (Hnd & Hin & Hflag); [|done]. simpl in *.
  pose proof (sus_count_remove G (infecteds s') (susceptible s) (susceptible s')
                Hnd Hin Hflag) as Hcount.
  assert (infecteds s ≠ []) as Hne.
  { unfold loop_test in Htest. by destruct (infecteds s). }
  assert (0 < length (infecteds s)) as Hpos.
  { destruct (infecteds s); [done|simpl; lia]. }
  split.
  - rewrite E2. apply Forall_app. split.
    + eapply Forall_impl; [exact HS|]. intros x Hx. simpl in Hx. lia.
    + apply Forall_singleton.
      assert (sus_count G (susceptible s) ≤ sl)%Z.
      { apply (proj1 (Forall_forall _ _) HS). rewrite last_lookup in Hs.
        by eapply list_elem_of_lookup_2. }
      lia.
  - exists (r + Z.of_nat (length (infecteds s)))%Z. rewrite E4, E1.
    split; [by rewrite last_snoc|]. rewrite length_app. simpl. lia.
Qed.

Lemma loop_population N tmin tmax k0 G test rfd ds : ∀ s s',
  closed G → series_inv N tmin tmax k0 s → population_inv G s →
  loop G test tmin tmax rfd ds s = Ok s' → population_inv G s'.
Proof.
  induction ds as [|g ds IH]; intros s s' HG Hinv Hpop H; simpl in H.
  - bind_ok H as b Eb. destruct b; [discriminate|]. by injection H as <-.
  - bind_ok H as b Eb. destruct b; [|by injection H as <-].
    bind_ok H as s1 E1. apply (IH s1); [done| | |done].
    + by eapply iteration_series.
    + eapply iteration_population; try done.
      by destruct Hinv as (_ & _ & _ & _ & _ & _ & _ & ?).
Qed.

Lemma start_population G ii ir rho tmin rfd smp s l :
  start G ii ir rho tmin rfd smp = Ok s →
  resolve_initial G ii rho smp = Ok l → NoDup l → l ⊆ nodes G →
  population_inv G s.
Proof.
  intros H Hl Hnd Hsub.
  apply start_inv in H as (l' & Hl' & E1 & E2 & E3 & E4 & E5 & E6).
  rewrite Hl in Hl'. injection Hl' as <-.
  unfold population_inv. rewrite E1, E2, E4, E6. split.
  - apply Forall_singleton.
    assert (sus_count G (Gillespie.set_all l false ∅)
            = order G - Z.of_nat (length l))%Z as Hc.
    { rewrite (sus_count_remove G l ∅); [| done | |].
      - unfold sus_count, order, nodes.
        rewrite filter_length_all; [|by intros x _].
        rewrite length_fmap, length_map_to_list. done.
      - intros v Hv. split; [done|]. by apply Hsub.
      - intros v. by rewrite susceptible_of_set_all. }
    destruct ir as [lr|]; [|lia].
    assert (sus_count G (Gillespie.set_all lr false (Gillespie.set_all l false ∅))
            ≤ sus_count G (Gillespie.set_all l false ∅))%Z; [|lia].
    unfold sus_count. apply inj_le. apply filter_length_le.
    intros u _. rewrite susceptible_of_set_all. by destruct (decide _).
  - exists 0%Z. split; [done|]. simpl. lia.
Qed.

Lemma iteration_SIS_inv G p N tmin tmax rfd g s s' :
  iteration_SIS G p N tmin tmax rfd g s = Ok s' →
  ∃ t_last, last (t' s) = Some t_last
    ∧ t' s' = t' s ++ [t_last +ₜ Fin 1]
    ∧ S' s' = S' s ++ [N] ∧ I' s' = I' s ++ [0%Z]
    ∧ infecteds' s' = ∅.
Proof.
  intros H. unfold iteration_SIS in H. bind_ok H as g' Eg.
  bind_ok H as nh Enh. bind_ok H as t_last Et. injection H as <-.
  cbn [t' S' I' infecteds'].
  apply py_last_Some in Et. exists t_last.
  split; [done|]. split; [done|]. split; [|split; [|done]].
  - f_equal. f_equal. exact (Z.sub_0_r N).
  - reflexivity.
Qed.

Lemma loop_SIS_spec G p N tmin tmax rfd ds s s' :
  t' s = [tmin] →
  loop_SIS G p N tmin tmax rfd ds s = Ok s' →
  (infecteds' s ≠ ∅ ∧ tlt tmin tmax = true
   ∧ t' s' = [tmin; tmin +ₜ Fin 1]
   ∧ S' s' = S' s ++ [N] ∧ I' s' = I' s ++ [0%Z])
  ∨ ((infecteds' s = ∅ ∨ tlt tmin tmax = false)
     ∧ t' s' = [tmin] ∧ S' s' = S' s ∧ I' s' = I' s).
Proof.
  intros Ht H.
  assert (loop_test_SIS tmax s
          = Ok (bool_decide (infecteds' s ≠ ∅) && tlt tmin tmax)) as Htest.
  { unfold loop_test_SIS. destruct (decide (infecteds' s = ∅)) as [E|E].
    - by rewrite bool_decide_false by (intros ?; done).
    - rewrite bool_decide_true by done. by rewrite Ht. }
  destruct ds as [|g ds]; simpl in H; rewrite Htest in H; simpl in H.
  - destruct (bool_decide _ && _) eqn:E; [discriminate|]. injection H as <-.
    right. split; [|done]. apply andb_false_iff in E as [E|E]; [|by right].
    left. apply bool_decide_eq_false in E.
    destruct (decide (infecteds' s = ∅)); [done|]. by exfalso; apply E.
  - destruct (bool_decide _ && _) eqn:E.
    + apply andb_true_iff in E as [E1 E2]. apply bool_decide_eq_true in E1.
      bind_ok H as s1 Es1.
      apply iteration_SIS_inv in Es1 as (tl & Hl & F1 & F2 & F3 & F4).
      rewrite Ht in Hl. injection Hl as <-.
      assert (s' = s1) as ->.
      { destruct ds; simpl in H; unfold loop_test_SIS in H;
          rewrite decide_True in H by done; simpl in H; by injection H as <-. }
      left. rewrite F1, F2, F3, Ht. done.
    + injection H as <-. right. split; [|done].
      apply andb_false_iff in E as [E|E]; [|by right].
      left. apply bool_decide_eq_false in E.
      destruct (decide (infecteds' s = ∅)); [done|]. by exfalso; apply E.
Qed.

End DiscreteProofs.

Module GillespieSafety.
Import Gillespie GillespieSpec GillespieProofs.

Lemma infect_fields G SIR t u k s s' :
  _Gillespie_infect_ G SIR t u k s = Ok s' →
  ∃ x il, status_of (status s) x = Susceptible ∧ x ∈ nodes G
    ∧ last (I_ s) = Some il
    ∧ infected s' = infected s ++ [x]
    ∧ status s' = <[x := Infected]> (status s)
    ∧ I_ s' = I_ s ++ [il + 1]%Z.
Proof.
  intros H. unfold _Gillespie_infect_ in H.
  bind_ok H as [n x] E. bind_ok H as u0 Eas. bind_ok H as rg Erg.
  bind_ok H as sl Es. bind_ok H as il Ei. bind_ok H as R' ER.
  bind_ok H as ns En. apply infect_loop_same in H. rewrite H. simpl.
  unfold py_assert in Eas. case_bool_decide as Hx; [|discriminate].
  apply py_last_Some in Ei. exists x, il. repeat split; try done.
  by eapply neighbors_in_nodes.
Qed.

Lemma recover_SIR_fields G rfd t k s s' :
  _Gillespie_recover_SIR_ G rfd t k s = Ok s' →
  ∃ x l' il, pop_random_infected s k = Ok (l', x) ∧ x ∈ nodes G
    ∧ last (I_ s) = Some il
    ∧ infected s' = l'
    ∧ status s' = <[x := Recovered]> (status s)
    ∧ I_ s' = I_ s ++ [il - 1]%Z.
Proof.
  intros H. unfold _Gillespie_recover_SIR_ in H.
  bind_ok H as [l' x] E. bind_ok H as il Ei. bind_ok H as sl Es.
  bind_ok H as rl Er. bind_ok H as ns En. bind_ok H as s1 Eloop.
  injection H as <-. apply recover_loop_SIR_same in Eloop. rewrite Eloop.
  simpl. apply py_last_Some in Ei. exists x, l', il. repeat split; try done.
  by eapply neighbors_in_nodes.
Qed.

Lemma recover_SIS_fields G rfd t k s s' :
  _Gillespie_recover_SIS_ G rfd t k s = Ok s' →
  ∃ x l' il, pop_random_infected s k = Ok (l', x) ∧ x ∈ nodes G
    ∧ last (I_ s) = Some il
    ∧ infected s' = l'
    ∧ status s' = <[x := Susceptible]> (status s)
    ∧ I_ s' = I_ s ++ [il - 1]%Z.
Proof.
  intros H. unfold _Gillespie_recover_SIS_ in H.
  bind_ok H as il Ei. bind_ok H as u0 Eas. bind_ok H as [l' x] E.
  bind_ok H as sl Es. bind_ok H as ns En. bind_ok H as s1 Eloop.
  injection H as <-. apply recover_loop_SIS_same in Eloop. rewrite Eloop.
  simpl. apply py_last_Some in Ei. exists x, l', il. repeat split; try done.
  by eapply neighbors_in_nodes.
Qed.

Lemma pop_random_infected_ok s k :
  ilen s → infected s ≠ [] → ∃ l' x, pop_random_infected s k = Ok (l', x).
Proof.
  intros Hil Hne. unfold pop_random_infected, py_last. rewrite Hil. simpl.
  set (n := length (infected s)).
  assert (0 < n) as Hn.
  { unfold n. destruct (infected s); [done|simpl; lia]. }
  unfold random_randint. rewrite decide_False by lia. simpl.
  set (index := Z.to_nat (0 + Z.of_nat k mod (Z.of_nat n - 1 - 0 + 1))).
  assert (index < n) as Hidx.
  { unfold index. replace (Z.of_nat n - 1 - 0 + 1)%Z with (Z.of_nat n) by lia.
    pose proof (Z.mod_pos_bound (Z.of_nat k) (Z.of_nat n) ltac:(lia)). lia. }
  destruct (last (infected s)) as [a|] eqn:Ea;
    [|by apply last_None in Ea]. simpl.
  unfold py_get. destruct (lookup_lt_is_Some_2 (infected s) index Hidx)
    as [b Hb]. rewrite Hb. simpl.
  unfold py_set. rewrite decide_True by done. simpl.
  rewrite decide_True by (rewrite length_insert; fold n; lia). simpl.
  unfold py_pop.
  match goal with |- context [last ?l] => destruct (last l) eqn:El end.
  - by eexists _, _.
  - apply last_None in El. apply (f_equal length) in El.
    rewrite !length_insert in El. fold n in El. simpl in El. lia.
Qed.

Lemma pop_random_infected_length s k l' x :
  pop_random_infected s k = Ok (l', x) →
  length (infected s) = S (length l') ∧ x ∈ infected s
  ∧ ∀ v, v ∈ l' → v ∈ infected s.
Proof.
  intros H. apply pop_random_infected_perm in H. split; [by rewrite H|].
  split; [rewrite H; left|]. intros v Hv. rewrite H. by right.
Qed.

Section Handlers.
Context (G : Graph) (HG : undirected G).

Lemma recover_SIR_succeeds rfd t k s :
  ginv G s → series_nonempty true s → ilen s → infected s ≠ [] →
  (∀ v, v ∈ infected s → v ∈ nodes G) →
  ∃ s', _Gillespie_recover_SIR_ G rfd t k s = Ok s'.
Proof.
  intros (Hb & Hc & Hnd & Hinf) (HS & HI & HR) Hil Hne Hnodes.
  destruct (pop_random_infected_ok s k Hil Hne) as (l' & x & E).
  destruct (pop_random_infected_length _ _ _ _ E) as (_ & Hx & _).
  unfold _Gillespie_recover_SIR_. rewrite E. simpl.
  destruct (py_last_nonempty _ HI) as [il ->].
  destruct (py_last_nonempty _ HS) as [sl ->].
  destruct (py_last_nonempty _ (HR eq_refl)) as [rl ->]. simpl.
  assert (∃ ns, neighbors G x = Ok ns) as [ns En].
  { apply Hnodes in Hx. unfold nodes in Hx.
    apply list_elem_of_fmap in Hx as ([x' ns] & -> & Hx).
    apply elem_of_map_to_list in Hx. exists ns. unfold neighbors. simpl.
    by rewrite Hx. }
  rewrite En. simpl. pose proof (neighbors_nbrs G _ _ En) as E3.
  assert (status_of (status s) x = Infected) as Hxi by by apply Hinf.
  match goal with |- context [py_for _ _ ?x0] => set (s0 := x0) end.
  pose proof Hb as [Hwf Hmem].
  assert (Hb0 : buckets_ok [] s0).
  { split; [done|]. intros k0 y. simpl. rewrite Hmem, status_of_insert.
    destruct (decide (y = x)) as [->|]; [|tauto].
    split; intros (_ & ? & _); congruence. }
  assert (Hc0 : counts_are (infected_neighbors G (status s)) s0).
  { intros v. simpl. rewrite status_of_insert.
    destruct (decide (v = x)); [done|]. apply Hc. }
  destruct (recover_loop_SIR_ok ns s0 _
              (eq_ind _ _ (nbrs_NoDup G HG x) _ E3) Hb0 Hc0)
    as (s2 & E5 & _).
  { intros n Hn _. apply (infected_neighbors_pos G HG _ x); [done|].
    by rewrite E3. }
  rewrite E5. simpl. by eexists.
Qed.

Lemma recover_SIS_succeeds rfd t k s :
  ginv_SIS G s → series_nonempty false s → ilen s → infected s ≠ [] →
  (∀ v, v ∈ infected s → v ∈ nodes G) →
  ∃ s', _Gillespie_recover_SIS_ G rfd t k s = Ok s'.
Proof.
  intros [(Hb & Hc & Hnd & Hinf) HnR] (HS & HI & _) Hil Hne Hnodes.
  destruct (pop_random_infected_ok s k Hil Hne) as (l' & x & E).
  destruct (pop_random_infected_length _ _ _ _ E) as (_ & Hx & _).
  unfold _Gillespie_recover_SIS_.
  assert (py_last (I_ s) = Ok (Z.of_nat (length (infected s)))) as ->.
  { unfold py_last. by rewrite Hil. }
  simpl. rewrite bool_decide_true by done. simpl. rewrite E. simpl.
  destruct (py_last_nonempty _ HS) as [sl ->]. simpl.
  assert (∃ ns, neighbors G x = Ok ns) as [ns En].
  { apply Hnodes in Hx. unfold nodes in Hx.
    apply list_elem_of_fmap in Hx as ([x' ns] & -> & Hx).
    apply elem_of_map_to_list in Hx. exists ns. unfold neighbors. simpl.
    by rewrite Hx. }
  rewrite En. simpl. pose proof (neighbors_nbrs G _ _ En) as E3.
  assert (status_of (status s) x = Infected) as Hxi by by apply Hinf.
  match goal with |- context [py_for _ _ ?x0] => set (s0 := x0) end.
  pose proof Hb as [Hwf Hmem].
  assert (Hb0 : buckets_ok [x] s0).
  { split; [done|]. intros k0 y. simpl.
    rewrite Hmem, status_of_insert, count_of_insert, list_elem_of_singleton.
    pose proof (not_elem_of_nil y).
    destruct (decide (y = x)) as [->|]; [|tauto].
    split; [|tauto]. intros (_ & ? & _). congruence. }
  set (base := λ v, if decide (v = x) then 0%Z
                    else infected_neighbors G (status s) v).
  assert (Hc0 : counts_are base s0).
  { intros v. simpl. rewrite status_of_insert, count_of_insert. unfold base.
    destruct (decide (v = x)); [done|]. apply Hc. }
  destruct (recover_loop_SIS_ok x ns s0 _
              (eq_ind _ _ (nbrs_NoDup G HG x) _ E3) Hb0 Hc0)
    as (s2 & E5 & _).
  { simpl. by rewrite status_of_insert, decide_True. }
  { intros n _ Hn. simpl. rewrite status_of_insert, decide_False by done.
    apply HnR. }
  { intros n Hn Hnx _. unfold base. rewrite decide_False by done.
    apply (infected_neighbors_pos G HG _ x); [done|]. by rewrite E3. }
  rewrite E5. simpl. by eexists.
Qed.
End Handlers.

Lemma initialize_SIR_fields G ii ir tmin rfd s :
  _Gillespie_initialize_SIR_ G ii ir tmin rfd = Ok s →
  infected s = ii ∧ I_ s = [Z.of_nat (length ii)]
  ∧ ∀ v, v ∈ ii → v ∈ nodes G.
Proof.
  intros H. unfold _Gillespie_initialize_SIR_ in H. bind_ok H as s1 E1.
  injection H as <-. pose proof (initialize_risk_nodes _ _ _ _ E1) as Hn.
  apply initialize_risk_same in E1. rewrite E1. done.
Qed.

Lemma initialize_SIS_fields G ii tmin rfd s :
  _Gillespie_initialize_SIS_ G ii tmin rfd = Ok s →
  infected s = ii ∧ I_ s = [Z.of_nat (length ii)]
  ∧ ∀ v, v ∈ ii → v ∈ nodes G.
Proof.
  intros H. unfold _Gillespie_initialize_SIS_ in H. bind_ok H as s1 E1.
  injection H as <-. pose proof (initialize_risk_nodes _ _ _ _ E1) as Hn.
  apply initialize_risk_same in E1. rewrite E1. done.
Qed.

Lemma gamma_len_pos gamma (l : list Node) :
  (0 < gamma)%Q → l ≠ [] → (0 < gamma * inject_Z (Z.of_nat (length l)))%Q.
Proof.
  intros Hg Hl. apply Qmult_lt_0_compat; [done|].
  change 0%Q with (inject_Z 0). rewrite <- Zlt_Qlt.
  destruct l; [done|simpl; lia].
Qed.

Lemma enter_loop_live G tau gamma x s l :
  (0 < gamma)%Q → ilen s → (∀ v, v ∈ infected s → v ∈ nodes G) →
  enter_loop tau gamma x s = Ok l → live G tau l.
Proof.
  intros Hg Hil Hn H. unfold enter_loop in H. bind_ok H as tl Et.
  bind_ok H as dt Ed. injection H as <-. unfold live. simpl.
  split; [done|]. split; [done|]. split; [reflexivity|].
  by apply gamma_len_pos.
Qed.

Lemma start_live SIR G tau gamma ii ir rho tmin rfd smp x l0 :
  (0 < gamma)%Q →
  Gillespie_start SIR G tau gamma ii ir rho tmin rfd smp x = Ok l0 →
  live G tau l0.
Proof.
  intros Hg H. destruct SIR; simpl in H.
  - unfold SIR_start in H. bind_ok H as u Eu. bind_ok H as lii El.
    bind_ok H as s Es. apply initialize_SIR_fields in Es as (E1 & E2 & E3).
    eapply enter_loop_live; [done| | |done].
    + unfold ilen. by rewrite E1, E2.
    + by rewrite E1.
  - unfold SIS_start in H. bind_ok H as u Eu. bind_ok H as lii El.
    bind_ok H as s Es. apply initialize_SIS_fields in Es as (E1 & E2 & E3).
    eapply enter_loop_live; [done| | |done].
    + unfold ilen. by rewrite E1, E2.
    + by rewrite E1.
Qed.

Lemma infect_live G SIR t u k s s' :
  ilen s → (∀ v, v ∈ infected s → v ∈ nodes G) →
  _Gillespie_infect_ G SIR t u k s = Ok s' →
  ilen s' ∧ (∀ v, v ∈ infected s' → v ∈ nodes G).
Proof.
  intros Hil Hn H.
  apply infect_fields in H as (x & il & _ & Hx & Hi & E1 & _ & E3).
  unfold ilen in *. rewrite Hil in Hi. injection Hi as <-.
  rewrite E1, E3, last_snoc, length_app. simpl. split; [f_equal; lia|].
  intros v [Hv|Hv]%elem_of_app; [by apply Hn|].
  apply list_elem_of_singleton in Hv. by subst.
Qed.

Lemma recover_live G x l' il s s' k :
  ilen s → (∀ v, v ∈ infected s → v ∈ nodes G) →
  pop_random_infected s k = Ok (l', x) → last (I_ s) = Some il →
  infected s' = l' → I_ s' = I_ s ++ [il - 1]%Z →
  ilen s' ∧ (∀ v, v ∈ infected s' → v ∈ nodes G)
  ∧ last (I_ s') = Some (Z.of_nat (length l')).
Proof.
  intros Hil Hn Hpop Hi E1 E3.
  apply pop_random_infected_length in Hpop as (Hlen & _ & Hsub).
  unfold ilen in *. rewrite Hil in Hi. injection Hi as <-.
  rewrite E1, E3, last_snoc.
  assert (Z.of_nat (length (infected s)) - 1 = Z.of_nat (length l'))%Z as ->
    by lia.
  split; [done|]. split; [|done]. intros v Hv. by apply Hn, Hsub.
Qed.

Lemma iteration_live SIR G tau gamma rfd tmax d l l' :
  (0 < gamma)%Q → live G tau l → loop_test tmax l = true →
  Gillespie_iteration SIR G tau gamma rfd d l = Ok l' → live G tau l'.
Proof.
  intros Hg (Hil & Hn & Hrate & Hpos) Htest H.
  apply loop_test_true in Htest as [_ Hne]. specialize (Hpos Hne).
  assert (∀ s rate,
    (QMicromega.Qlt_bool (d_event d * total_rate l) (total_rec_rate l) = true →
     ∃ x lx il, pop_random_infected (st l) (d_index d) = Ok (lx, x)
       ∧ last (I_ (st l)) = Some il ∧ infected s = lx
       ∧ I_ s = I_ (st l) ++ [il - 1]%Z
       ∧ py_last (I_ s) = Ok (Z.of_nat (length lx))
       ∧ rate = (gamma * inject_Z (Z.of_nat (length lx)))%Q) →
    (QMicromega.Qlt_bool (d_event d * total_rate l) (total_rec_rate l) = false →
     _Gillespie_infect_ G SIR (next_time l) (d_scan d) (d_index d) (st l)
       = Ok s ∧ rate = total_rec_rate l) →
    ilen s ∧ (∀ v, v ∈ infected s → v ∈ nodes G)
    ∧ (infected s ≠ [] → (0 < rate)%Q)) as Hboth.
  { intros s rate Hrec Hinf.
    destruct (QMicromega.Qlt_bool _ _).
    - destruct (Hrec eq_refl) as (x & lx & il & Hpop & Hi & E1 & E3 & _ & ->).
      destruct (recover_live G x lx il (st l) s (d_index d) Hil Hn Hpop Hi E1 E3)
        as (A1 & A2 & _).
      split; [done|]. split; [done|]. rewrite E1. by apply gamma_len_pos.
    - destruct (Hinf eq_refl) as [Hi ->].
      destruct (infect_live _ _ _ _ _ _ _ Hil Hn Hi). done. }
  destruct SIR; simpl in H.
  - unfold SIR_iteration in H. bind_ok H as u Eu.
    apply random_random_Ok in Eu as (-> & _).
    bind_ok H as [s rate] Es. bind_ok H as nt Ent. injection H as <-.
    unfold live. cbn [st total_rate total_rec_rate].
    destruct (Hboth s rate) as (A1 & A2 & A3).
    + intros Hlt. rewrite Hlt in Es. bind_ok Es as s1 E1.
      bind_ok Es as il' Eil'. injection Es as <- <-.
      apply recover_SIR_fields in E1
        as (x & lx & il & Hpop & _ & Hi & F1 & _ & F3).
      destruct (recover_live G x lx il (st l) s1 (d_index d) Hil Hn Hpop Hi F1 F3)
        as (_ & _ & Hlast).
      exists x, lx, il. unfold py_last in Eil' |- *. rewrite Hlast in Eil' |- *.
      injection Eil' as <-. done.
    + intros Hlt. rewrite Hlt in Es. bind_ok Es as s1 E1.
      by injection Es as <- <-.
    + split; [done|]. split; [done|]. split; [reflexivity|done].
  - unfold SIS_iteration in H. bind_ok H as u Eu.
    apply random_random_Ok in Eu as (-> & _).
    bind_ok H as [s rate] Es. bind_ok H as nt Ent. injection H as <-.
    unfold live. cbn [st total_rate total_rec_rate].
    destruct (Hboth s rate) as (A1 & A2 & A3).
    + intros Hlt. rewrite Hlt in Es. bind_ok Es as s1 E1.
      bind_ok Es as il' Eil'. injection Es as <- <-.
      apply recover_SIS_fields in E1
        as (x & lx & il & Hpop & _ & Hi & F1 & _ & F3).
      destruct (recover_live G x lx il (st l) s1 (d_index d) Hil Hn Hpop Hi F1 F3)
        as (_ & _ & Hlast).
      exists x, lx, il. unfold py_last in Eil' |- *. rewrite Hlast in Eil' |- *.
      injection Eil' as <-. done.
    + intros Hlt. rewrite Hlt in Es. bind_ok Es as s1 E1.
      by injection Es as <- <-.
    + split; [done|]. split; [done|]. split; [reflexivity|done].
Qed.

Lemma reachable_live SIR G tau gamma ii ir rho tmin tmax rfd smp x l0 l :
  (0 < gamma)%Q →
  Gillespie_start SIR G tau gamma ii ir rho tmin rfd smp x = Ok l0 →
  reachable (Gillespie_iteration SIR G tau gamma rfd) tmax l0 l →
  live G tau l.
Proof.
  intros Hg Hstart Hreach. induction Hreach as [|l d l' _ IH Ht Hit].
  - by eapply start_live.
  - by eapply iteration_live.
Qed.

Lemma random_expovariate_pos lambd x :
  (0 < lambd)%Q → (0 <= x)%Q → random_expovariate lambd x = Ok (Fin x).
Proof.
  intros Hl Hx. unfold random_expovariate.
  destruct (Qeq_bool lambd 0) eqn:E0.
  { apply Qeq_bool_iff in E0. lra. }
  rewrite (proj2 (Qlt_bool_true 0 lambd) Hl).
  apply Qle_bool_iff in Hx. by rewrite Hx.
Qed.

(** The lines of an iteration after the event. *)
Lemma next_time_succeeds rate x t t' :
  (0 <= x)%Q →
  ∃ nt, (if QMicromega.Qlt_bool 0 rate then
           dt ← random_expovariate rate x; Ok (t +ₜ dt)
         else Ok t') = Ok nt.
Proof.
  intros Hx. destruct (QMicromega.Qlt_bool 0 rate) eqn:E; [|by eexists].
  apply Qlt_bool_true in E. rewrite (random_expovariate_pos _ _ E Hx).
  simpl. by eexists.
Qed.

(** When the event is a transmission, a node is at risk. *)
Lemma infect_branch_weight tau u l G :
  (0 <= tau)%Q → (0 <= u)%Q → (u < 1)%Q → live G tau l →
  infected (st l) ≠ [] →
  QMicromega.Qlt_bool (u * total_rate l) (total_rec_rate l) = false →
  (0 < weighted_size (risk_group (st l)))%Z.
Proof.
  intros Ht Hu0 Hu1 (_ & _ & Hrate & Hpos) Hne Hlt. specialize (Hpos Hne).
  apply Qlt_bool_false in Hlt. rewrite Hrate in Hlt.
  unfold total_trans_rate in Hlt.
  destruct (Z_lt_le_dec 0 (weighted_size (risk_group (st l)))) as [|Hw];
    [done|exfalso].
  assert (inject_Z (weighted_size (risk_group (st l))) <= 0)%Q as Hw'.
  { change 0%Q with (inject_Z 0). by rewrite <- Zle_Qle. }
  set (w := inject_Z (weighted_size (risk_group (st l)))) in *.
  set (r := total_rec_rate l) in *.
  assert (tau * w <= 0)%Q by nra.
  assert (u * (r + tau * w) <= u * r)%Q by nra.
  assert (u * r < r)%Q by nra. lra.
Qed.

Lemma iteration_succeeds SIR G tau gamma rfd tmax d l :
  undirected G → (0 <= tau)%Q →
  ginv G (st l) → (SIR = false → ginv_SIS G (st l)) →
  series_nonempty SIR (st l) → live G tau l →
  loop_test tmax l = true → valid_draw d →
  ∃ l', Gillespie_iteration SIR G tau gamma rfd d l = Ok l'.
Proof.
  intros HG Ht Hg Hgs Hser Hlive Htest (Hu0 & Hu1 & Hs0 & Hs1 & Hx).
  pose proof Hlive as (Hil & Hn & _ & _).
  apply loop_test_true in Htest as [_ Hne].
  assert (QMicromega.Qlt_bool (d_event d * total_rate l) (total_rec_rate l)
            = false →
          ∃ s, _Gillespie_infect_ G SIR (next_time l) (d_scan d) (d_index d)
                 (st l) = Ok s) as Hinf.
  { intros Hlt.
    pose proof (infect_branch_weight _ _ _ _ Ht Hu0 Hu1 Hlive Hne Hlt) as Hw.
    destruct (infect_succeeds G SIR (next_time l) (d_scan d) (d_index d)
                (st l) HG Hg Hser Hs0 Hs1 Hw) as (? & ? & s & _ & _ & _ & _ & _ & E).
    by exists s. }
  destruct SIR; simpl.
  - unfold SIR_iteration. rewrite (random_random_valid _ Hu0 Hu1). simpl.
    destruct (QMicromega.Qlt_bool _ _) eqn:Hlt.
    + destruct (recover_SIR_succeeds G HG rfd (next_time l) (d_index d) (st l)
                  Hg Hser Hil Hne Hn) as [s E].
      rewrite E. simpl.
      apply recover_SIR_fields in E as (? & ? & il & _ & _ & _ & _ & _ & E3).
      unfold py_last. rewrite E3, last_snoc. simpl.
      edestruct (next_time_succeeds) as [nt ->]; [exact Hx|].
      simpl. by eexists.
    + destruct (Hinf eq_refl) as [s ->]. simpl.
      edestruct (next_time_succeeds) as [nt ->]; [exact Hx|].
      simpl. by eexists.
  - unfold SIS_iteration. rewrite (random_random_valid _ Hu0 Hu1). simpl.
    destruct (QMicromega.Qlt_bool _ _) eqn:Hlt.
    + destruct (recover_SIS_succeeds G HG rfd (next_time l) (d_index d) (st l)
                  (Hgs eq_refl) Hser Hil Hne Hn) as [s E].
      rewrite E. simpl.
      apply recover_SIS_fields in E as (? & ? & il & _ & _ & _ & _ & _ & E3).
      unfold py_last. rewrite E3, last_snoc. simpl.
      edestruct (next_time_succeeds) as [nt ->]; [exact Hx|].
      simpl. by eexists.
    + destruct (Hinf eq_refl) as [s ->]. simpl.
      edestruct (next_time_succeeds) as [nt ->]; [exact Hx|].
      simpl. by eexists.
Qed.

Lemma reachable_safe SIR G tau gamma ii ir rho tmin tmax rfd smp x lii l0 l :
  undirected G →
  resolve_initial G ii rho smp = Ok lii → distinct_seeds SIR lii ir →
  (0 < gamma)%Q →
  Gillespie_start SIR G tau gamma ii ir rho tmin rfd smp x = Ok l0 →
  reachable (Gillespie_iteration SIR G tau gamma rfd) tmax l0 l →
  ginv G (st l) ∧ (SIR = false → ginv_SIS G (st l))
  ∧ series_nonempty SIR (st l) ∧ live G tau l.
Proof.
  intros HG Hres Hd Hgam Hstart Hreach.
  split; [by eapply Gillespie_reachable_ginv|].
  split; [|split; [by eapply Gillespie_reachable_nonempty
                  |by eapply reachable_live]].
  intros ->. destruct Hd as [Hnd _]. simpl in *.
  by eapply SIS_reachable_ginv.
Qed.

(** A run from a reachable state ends, or stops for lack of draws. *)
Lemma run_loop_safe SIR G tau gamma ii ir rho tmin tmax rfd smp x lii l0 :
  undirected G →
  resolve_initial G ii rho smp = Ok lii → distinct_seeds SIR lii ir →
  (0 <= tau)%Q → (0 < gamma)%Q →
  Gillespie_start SIR G tau gamma ii ir rho tmin rfd smp x = Ok l0 →
  ∀ ds l, Forall valid_draw ds →
    reachable (Gillespie_iteration SIR G tau gamma rfd) tmax l0 l →
    run_loop (Gillespie_iteration SIR G tau gamma rfd) tmax ds l = BadDraw
    ∨ ∃ l', run_loop (Gillespie_iteration SIR G tau gamma rfd) tmax ds l
            = Ok l'.
Proof.
  intros HG Hres Hd Ht Hgam Hstart ds.
  induction ds as [|d ds IH]; intros l Hds Hreach; simpl.
  - destruct (loop_test tmax l); [by left|right; by eexists].
  - destruct (loop_test tmax l) eqn:Htest; [|right; by eexists].
    apply Forall_cons in Hds as [Hv Hds].
    destruct (reachable_safe _ _ _ _ _ _ _ _ _ _ _ _ _ _ _ HG Hres Hd Hgam
                Hstart Hreach) as (Hg & Hgs & Hser & Hlive).
    destruct (iteration_succeeds SIR G tau gamma rfd tmax d l HG Ht Hg Hgs
                Hser Hlive Htest Hv) as [l' E].
    rewrite E. simpl. apply IH; [done|]. by eapply reach_step.
Qed.

Lemma reachable_ilen SIR G tau gamma ii ir rho tmin tmax rfd smp x l0 l :
  Gillespie_start SIR G tau gamma ii ir rho tmin rfd smp x = Ok l0 →
  reachable (Gillespie_iteration SIR G tau gamma rfd) tmax l0 l →
  ilen (st l).
Proof.
  intros Hstart Hreach.
  enough (ilen (st l) ∧ ∀ v, v ∈ infected (st l) → v ∈ nodes G) as [? _]
    by done.
  induction Hreach as [|l d l' _ [Hil Hn] _ Hit].
  - assert (∃ s lii, enter_loop tau gamma x s = Ok l0
              ∧ infected s = lii ∧ I_ s = [Z.of_nat (length lii)]
              ∧ ∀ v, v ∈ lii → v ∈ nodes G) as (s & lii & He & E1 & E2 & E3).
    { destruct SIR; simpl in Hstart.
      - unfold SIR_start in Hstart. bind_ok Hstart as u Eu.
        bind_ok Hstart as lii El. bind_ok Hstart as s Es.
        apply initialize_SIR_fields in Es. by exists s, lii.
      - unfold SIS_start in Hstart. bind_ok Hstart as u Eu.
        bind_ok Hstart as lii El. bind_ok Hstart as s Es.
        apply initialize_SIS_fields in Es. by exists s, lii. }
    apply enter_loop_st in He as ->. unfold ilen. rewrite E1, E2.
    split; [done|]. by subst.
  - assert (∃ s rate,
      st l' = s
      ∧ (if QMicromega.Qlt_bool (d_event d * total_rate l) (total_rec_rate l)
         then (s' ← (if SIR
                      then _Gillespie_recover_SIR_ G rfd (next_time l)
                             (d_index d) (st l)
                      else _Gillespie_recover_SIS_ G rfd (next_time l)
                             (d_index d) (st l));
               i_last ← py_last (I_ s');
               Ok (s', (gamma * inject_Z i_last)%Q))
         else (s' ← _Gillespie_infect_ G SIR (next_time l) (d_scan d)
                      (d_index d) (st l);
               Ok (s', total_rec_rate l))) = Ok (s, rate))
      as (s & rate & <- & Es).
    { destruct SIR; simpl in Hit.
      - unfold SIR_iteration in Hit. bind_ok Hit as u Eu.
        apply random_random_Ok in Eu as (-> & _).
        bind_ok Hit as [s rate] Es. bind_ok Hit as nt Ent.
        injection Hit as <-. by exists s, rate.
      - unfold SIS_iteration in Hit. bind_ok Hit as u Eu.
        apply random_random_Ok in Eu as (-> & _).
        bind_ok Hit as [s rate] Es. bind_ok Hit as nt Ent.
        injection Hit as <-. by exists s, rate. }
    destruct (QMicromega.Qlt_bool _ _).
    + bind_ok Es as s1 E1. bind_ok Es as il' Eil'. injection Es as <- _.
      assert (∃ y lx il, pop_random_infected (st l) (d_index d) = Ok (lx, y)
                ∧ last (I_ (st l)) = Some il ∧ infected s1 = lx
                ∧ I_ s1 = I_ (st l) ++ [il - 1]%Z)
        as (y & lx & il & Hpop & Hi & F1 & F3).
      { destruct SIR.
        - apply recover_SIR_fields in E1
            as (y & lx & il & Hpop & _ & Hi & F1 & _ & F3).
          by exists y, lx, il.
        - apply recover_SIS_fields in E1
            as (y & lx & il & Hpop & _ & Hi & F1 & _ & F3).
          by exists y, lx, il. }
      destruct (recover_live G y lx il (st l) s1 (d_index d) Hil Hn Hpop Hi
                  F1 F3) as (A1 & A2 & _). done.
    + bind_ok Es as s1 E1. injection Es as <- _.
      by eapply infect_live.
Qed.

(** What an iteration does to [total_rec_rate] and to the list
    [infected]. *)
Lemma iteration_rec_rate SIR G tau gamma rfd d l l' :
  ilen (st l) →
  Gillespie_iteration SIR G tau gamma rfd d l = Ok l' →
  if QMicromega.Qlt_bool (d_event d * total_rate l) (total_rec_rate l)
  then length (infected (st l)) = S (length (infected (st l')))
       ∧ total_rec_rate l'
         = (gamma * inject_Z (Z.of_nat (length (infected (st l')))))%Q
  else length (infected (st l')) = S (length (infected (st l)))
       ∧ total_rec_rate l' = total_rec_rate l.
Proof.
  intros Hil Hit.
  assert (∀ s1 x lx il,
    pop_random_infected (st l) (d_index d) = Ok (lx, x) →
    last (I_ (st l)) = Some il → infected s1 = lx →
    I_ s1 = I_ (st l) ++ [il - 1]%Z →
    length (infected (st l)) = S (length (infected s1))
    ∧ py_last (I_ s1) = Ok (Z.of_nat (length (infected s1)))) as Hrec.
  { intros s1 x lx il Hpop Hi F1 F3.
    apply pop_random_infected_length in Hpop as (Hlen & _).
    unfold ilen in Hil. rewrite Hil in Hi. injection Hi as <-.
    unfold py_last. rewrite F1, F3, last_snoc. split; [done|].
    do 2 f_equal. lia. }
  destruct SIR; simpl in Hit.
  - unfold SIR_iteration in Hit. bind_ok Hit as u Eu.
    apply random_random_Ok in Eu as (-> & _).
    bind_ok Hit as [s rate] Es. bind_ok Hit as nt Ent. injection Hit as <-.
    cbn [st total_rec_rate]. destruct (QMicromega.Qlt_bool _ _).
    + bind_ok Es as s1 E1. bind_ok Es as il' Eil'. injection Es as <- <-.
      apply recover_SIR_fields in E1
        as (x & lx & il & Hpop & _ & Hi & F1 & _ & F3).
      destruct (Hrec s1 x lx il Hpop Hi F1 F3) as [A1 A2].
      rewrite A2 in Eil'. by injection Eil' as <-.
    + bind_ok Es as s1 E1. injection Es as <- <-.
      apply infect_fields in E1 as (x & il & _ & _ & _ & F1 & _).
      rewrite F1, length_app. simpl. split; [lia|done].
  - unfold SIS_iteration in Hit. bind_ok Hit as u Eu.
    apply random_random_Ok in Eu as (-> & _).
    bind_ok Hit as [s rate] Es. bind_ok Hit as nt Ent. injection Hit as <-.
    cbn [st total_rec_rate]. destruct (QMicromega.Qlt_bool _ _).
    + bind_ok Es as s1 E1. bind_ok Es as il' Eil'. injection Es as <- <-.
      apply recover_SIS_fields in E1
        as (x & lx & il & Hpop & _ & Hi & F1 & _ & F3).
      destruct (Hrec s1 x lx il Hpop Hi F1 F3) as [A1 A2].
      rewrite A2 in Eil'. by injection Eil' as <-.
    + bind_ok Es as s1 E1. injection Es as <- <-.
      apply infect_fields in E1 as (x & il & _ & _ & _ & F1 & _).
      rewrite F1, length_app. simpl. split; [lia|done].
Qed.

Lemma start_rec_rate SIR G tau gamma ii ir rho tmin rfd smp x l0 :
  Gillespie_start SIR G tau gamma ii ir rho tmin rfd smp x = Ok l0 →
  total_rec_rate l0
  = (gamma * inject_Z (Z.of_nat (length (infected (st l0)))))%Q.
Proof.
  intros H.
  assert (∃ s, enter_loop tau gamma x s = Ok l0) as [s He].
  { destruct SIR; simpl in H.
    - unfold SIR_start in H. bind_ok H as u Eu. bind_ok H as lii El.
      bind_ok H as s Es. by exists s.
    - unfold SIS_start in H. bind_ok H as u Eu. bind_ok H as lii El.
      bind_ok H as s Es. by exists s. }
  unfold enter_loop in He. bind_ok He as tl Et. bind_ok He as dt Ed.
  by injection He as <-.
Qed.

Lemma status_forward_refl st : status_forward st st.
Proof. by intros n. Qed.

Lemma status_forward_trans st1 st2 st3 :
  status_forward st1 st2 → status_forward st2 st3 → status_forward st1 st3.
Proof. intros H1 H2 n. specialize (H1 n). specialize (H2 n). lia. Qed.

Lemma status_forward_insert st n x :
  rank (status_of st n) ≤ rank x → status_forward st (<[n := x]> st).
Proof.
  intros H v. rewrite status_of_insert. by destruct (decide (v = n)) as [->|].
Qed.

Lemma SIR_iteration_forward G tau gamma rfd d l l' :
  SIR_iteration G tau gamma rfd d l = Ok l' →
  status_forward (status (st l)) (status (st l')).
Proof.
  intros Hit. unfold SIR_iteration in Hit. bind_ok Hit as u Eu.
  bind_ok Hit as [s rate] Es. bind_ok Hit as nt Ent. injection Hit as <-.
  cbn [st]. destruct (QMicromega.Qlt_bool _ _).
  - bind_ok Es as s1 E1. bind_ok Es as il' Eil'. injection Es as <- _.
    apply recover_SIR_fields in E1 as (x & lx & il & _ & _ & _ & _ & -> & _).
    apply status_forward_insert. simpl.
    destruct (status_of (status (st l)) x); simpl; lia.
  - bind_ok Es as s1 E1. injection Es as <- _.
    apply infect_fields in E1 as (x & il & Hx & _ & _ & _ & -> & _).
    apply status_forward_insert. rewrite Hx. simpl. lia.
Qed.

Lemma set_all_not_recovered (l : list Node) (x : Status) : ∀ m,
  x ≠ Recovered → (∀ v, status_of m v ≠ Recovered) →
  ∀ v, status_of (set_all l x m) v ≠ Recovered.
Proof.
  unfold set_all. induction l as [|n l IH]; intros m Hx Hm v; simpl; [done|].
  apply IH; [done|]. intros w. rewrite status_of_insert.
  by destruct (decide (w = n)).
Qed.

Lemma SIS_reachable_not_recovered G tau gamma ii rho tmin tmax rfd smp x l0 l :
  SIS_start G tau gamma ii rho tmin rfd smp x = Ok l0 →
  reachable (SIS_iteration G tau gamma rfd) tmax l0 l →
  ∀ v, status_of (status (st l)) v ≠ Recovered.
Proof.
  intros Hstart Hreach. induction Hreach as [|l d l' _ IH _ Hit].
  - unfold SIS_start in Hstart. bind_ok Hstart as u Eu.
    bind_ok Hstart as lii El. bind_ok Hstart as s Es.
    apply enter_loop_st in Hstart as ->.
    unfold _Gillespie_initialize_SIS_ in Es. bind_ok Es as s1 E1.
    injection Es as <-. apply initialize_risk_same in E1. rewrite E1.
    simpl. apply set_all_not_recovered; [done|].
    intros v. unfold status_of. by rewrite lookup_empty.
  - unfold SIS_iteration in Hit. bind_ok Hit as u Eu.
    bind_ok Hit as [s rate] Es. bind_ok Hit as nt Ent. injection Hit as <-.
    cbn [st]. destruct (QMicromega.Qlt_bool _ _).
    + bind_ok Es as s1 E1. bind_ok Es as il' Eil'. injection Es as <- _.
      apply recover_SIS_fields in E1 as (x0 & lx & il & _ & _ & _ & _ & -> & _).
      intros v. rewrite status_of_insert. by destruct (decide (v = x0)).
    + bind_ok Es as s1 E1. injection Es as <- _.
      apply infect_fields in E1 as (x0 & il & _ & _ & _ & _ & -> & _).
      intros v. rewrite status_of_insert. by destruct (decide (v = x0)).
Qed.

End GillespieSafety.

Module EventSafety.
Import EventDriven EventSpec EventProofs GillespieProofs GillespieSafety.

Lemma pop_status_forward d s s' :
  (∀ ev, ev ∈ myQueue._Q_ (Q_ s) → call_ok False E_SIR (myQueue.ev_call ev)) →
  pop_and_run d s = Ok s' →
  status_forward (status s) (status s').
Proof.
  intros Hq H. apply pop_and_run_inv in H as (ev & h & EQ & H).
  assert (call_ok False E_SIR (myQueue.ev_call ev)) as Hok.
  { apply Hq. rewrite EQ. left. }
  apply (run_call_effect False E_SIR) in H as (_ & A2 & _); [|done|done].
  destruct (myQueue.ev_call ev) as [G' n fxn|n| | |]; try done;
    simpl in A2.
  - destruct (decide _) as [Hs|_].
    + destruct A2 as [(_ & -> & _) _]. apply status_forward_insert.
      simpl in *. rewrite Hs. simpl. lia.
    + destruct A2 as (_ & _ & _ & _ & ->). apply status_forward_refl.
  - destruct A2 as [(_ & -> & _) _]. apply status_forward_insert. simpl.
    destruct (status_of (status s) n); simpl; lia.
Qed.

Lemma pop_not_recovered e d s s' :
  e ≠ E_SIR →
  (∀ ev, ev ∈ myQueue._Q_ (Q_ s) → call_ok False e (myQueue.ev_call ev)) →
  pop_and_run d s = Ok s' →
  (∀ n, status_of (status s) n ≠ Recovered) →
  ∀ n, status_of (status s') n ≠ Recovered.
Proof.
  intros He Hq H Hs. apply pop_and_run_inv in H as (ev & h & EQ & H).
  assert (call_ok False e (myQueue.ev_call ev)) as Hok.
  { apply Hq. rewrite EQ. left. }
  apply (run_call_effect False e) in H as (_ & A2 & _); [|done|done].
  assert (∀ n x, x ≠ Recovered →
            ∀ v, status_of (<[n := x]> (status s)) v ≠ Recovered) as Hins.
  { intros n x Hx v. rewrite status_of_insert.
    destruct (decide (v = n)); [done|apply Hs]. }
  destruct e; [done| |];
    destruct (myQueue.ev_call ev) as [G' n fxn|n|G' src n trf rrf|G' n fut fxn|n];
    try done; simpl in A2.
  - destruct (decide _) as [_|_].
    + destruct A2 as [(_ & -> & _) _]. by apply Hins.
    + destruct A2 as (_ & _ & _ & _ & ->). apply Hs.
  - destruct A2 as [(_ & -> & _) _]. by apply Hins.
  - destruct (decide _) as [_|_].
    + destruct A2 as [(_ & -> & _) _]. by apply Hins.
    + destruct A2 as (_ & _ & _ & _ & ->). apply Hs.
  - destruct A2 as [(_ & -> & _) _]. by apply Hins.
Qed.

Lemma drains_status_forward N s s' :
  kinv E_SIR N s → drains s s' → status_forward (status s) (status s').
Proof.
  intros Hk H. induction H as [|s d s' s'' H IH Hpop].
  - apply status_forward_refl.
  - eapply status_forward_trans; [by apply IH|].
    assert (kinv E_SIR N s') as [Hq _].
    { eapply (drains_ind_inv (kinv E_SIR N)); [|done|done].
      intros. by eapply kinv_step. }
    by eapply pop_status_forward.
Qed.

Lemma drains_not_recovered e G s s' :
  e ≠ E_SIR → cinv e G s → drains s s' →
  (∀ n, status_of (status s) n ≠ Recovered) →
  ∀ n, status_of (status s') n ≠ Recovered.
Proof.
  intros He Hc H Hs. induction H as [|s d s' s'' H IH Hpop]; [done|].
  assert (cinv e G s') as [Hq _] by by eapply drains_cinv.
  eapply (pop_not_recovered e); [done| |done|by apply IH].
  intros ev Hev. by apply Hq.
Qed.

Lemma seeded_not_recovered tmin c_of ii s0 s :
  seeded tmin c_of ii s0 s → status s0 = ∅ →
  ∀ n, status_of (status s) n ≠ Recovered.
Proof.
  intros (_ & _ & _ & _ & -> & _) -> n. unfold status_of.
  by rewrite lookup_empty.
Qed.

End EventSafety.

Module EntryPoints.
Import GillespieSpec EventSpec GillespieProofs EventProofs.
Import GillespieSafety EventSafety.

Lemma Gillespie_no_seed SIR G tau gamma ii ir rho tmin rfd smp x :
  ii = None ∨ rho = None →
  resolve_initial G ii rho smp = Ok [] →
  Gillespie_start SIR G tau gamma ii ir rho tmin rfd smp x
  = Raise ZeroDivisionError.
Proof.
  intros Hone Hres.
  assert (bool_decide (is_Some rho) && bool_decide (is_Some ii) = false) as Hb.
  { destruct Hone as [-> | ->].
    - rewrite (bool_decide_eq_false_2 (is_Some None)); [apply andb_false_r|].
      by intros [? ?].
    - rewrite (bool_decide_eq_false_2 (is_Some None)); [done|].
      by intros [? ?]. }
  assert (∀ s, Gillespie.infected s = [] → Gillespie.risk_group s = [] →
               Gillespie.times s = [tmin] →
               Gillespie.enter_loop tau gamma x s = Raise ZeroDivisionError)
    as Hloop.
  { intros s E1 E2 E3. unfold Gillespie.enter_loop, Gillespie.total_trans_rate.
    rewrite E1, E2, E3. simpl.
    unfold random_expovariate.
    match goal with |- context [Qeq_bool ?a 0] =>
      assert (Qeq_bool a 0 = true) as ->; [|done] end.
    apply Qeq_bool_iff. unfold Gillespie.weighted_size. simpl.
    unfold inject_Z. ring. }
  destruct SIR; simpl.
  - unfold Gillespie.SIR_start. rewrite Hb, Hres. simpl.
    unfold Gillespie._Gillespie_initialize_SIR_. simpl. by apply Hloop.
  - unfold Gillespie.SIS_start. rewrite Hb, Hres. simpl.
    unfold Gillespie._Gillespie_initialize_SIS_. simpl. by apply Hloop.
Qed.

Lemma drain_empty_queue ds s :
  myQueue._Q_ (EventDriven.Q_ s) = [] → EventDriven.drain ds s = Ok s.
Proof.
  intros H. destruct ds; simpl; unfold myQueue.len; by rewrite H.
Qed.

Lemma guard_one_given {A B} (f : option A → bool) (g : option B → bool)
    (a : option A) (b : option B) :
  f None = false → g None = false → a = None ∨ b = None →
  f a && g b = false.
Proof.
  intros Hf Hg [-> | ->]; [by rewrite Hf|]. rewrite Hg. apply andb_false_r.
Qed.

Lemma fast_SIS_no_seed G rates ii rho tmin tmax smp ds :
  ii = None ∨ rho = None →
  resolve_initial G ii rho smp = Ok [] →
  EventDriven.fast_SIS G rates ii rho tmin tmax smp ds
  = Ok ([tmin], [order G], [0%Z]).
Proof.
  intros Hone Hres. unfold EventDriven.fast_SIS, EventDriven.SIS_Markov_start.
  rewrite (guard_one_given EventDriven.is_given EventDriven.is_given rho ii)
    by (done || tauto).
  destruct rates as [trf rrf]. simpl. rewrite Hres. simpl.
  by rewrite drain_empty_queue.
Qed.

Lemma fast_nonMarkov_SIR_no_seed G fxn ii ir rho tmin tmax smp ds :
  ii = None ∨ rho = None → rho = None ∨ ir = None →
  resolve_initial G ii rho smp = Ok [] →
  EventDriven.fast_nonMarkov_SIR G None None (Some fxn) ii ir rho tmin tmax
    None smp ds
  = Ok ([tmin], [order G], [0%Z], [0%Z]).
Proof.
  intros Hone Hir Hres.
  unfold EventDriven.fast_nonMarkov_SIR, EventDriven.SIR_start.
  rewrite (guard_one_given EventDriven.truthy_number EventDriven.truthy_init
             rho ii) by (done || tauto).
  rewrite (guard_one_given EventDriven.truthy_number EventDriven.truthy_list
             rho ir) by (done || tauto).
  simpl. rewrite Hres. simpl.
  assert (∀ l s,
    myQueue._Q_ (EventDriven.Q_ s) = [] →
    EventDriven.times s = [tmin] → EventDriven.S_ s = [order G] →
    EventDriven.I_ s = [0%Z] → EventDriven.R_ s = [0%Z] →
    let s' := foldl (λ s node,
                 EventDriven.set_rec_time
                   (<[node := tpred tmin]> (EventDriven.rec_time s))
                   (EventDriven.set_status
                      (<[node := Recovered]> (EventDriven.status s)) s)) s l in
    myQueue._Q_ (EventDriven.Q_ s') = []
    ∧ EventDriven.times s' = [tmin] ∧ EventDriven.S_ s' = [order G]
    ∧ EventDriven.I_ s' = [0%Z] ∧ EventDriven.R_ s' = [0%Z]) as Hfold.
  { induction l as [|n l IH]; intros s H1 H2 H3 H4 H5; simpl; [done|].
    by apply IH. }
  destruct ir as [lr|].
  - destruct (Hfold lr (EventDriven.initial_store (order G) tmin tmax [0%Z]))
      as (H1 & H2 & H3 & H4 & H5); try done.
    rewrite drain_empty_queue by done. simpl.
    unfold EventDriven.returned_SIR, py_slice_from. simpl.
    by rewrite H2, H3, H4, H5.
  - by rewrite drain_empty_queue.
Qed.

Lemma fast_nonMarkov_SIS_no_seed G fxn ii rho tmin tmax smp ds :
  ii = None ∨ rho = None →
  resolve_initial G ii rho smp = Ok [] →
  EventDriven.fast_nonMarkov_SIS G None None (Some fxn) ii rho tmin tmax
    smp ds
  = Ok ([tmin], [order G], [0%Z]).
Proof.
  intros Hone Hres.
  unfold EventDriven.fast_nonMarkov_SIS, EventDriven.SIS_nonMarkov_start.
  rewrite (guard_one_given EventDriven.truthy_number EventDriven.truthy_init
             rho ii) by (done || tauto).
  simpl. rewrite Hres. simpl. by rewrite drain_empty_queue.
Qed.

Lemma Gillespie_seed_not_in_graph SIR G tau gamma u l ir tmin rfd smp x :
  G !! u = None →
  Gillespie_start SIR G tau gamma (Some (Nodes (u :: l))) ir None tmin rfd
    smp x = Raise NetworkXError.
Proof.
  intros Hu. destruct SIR; simpl.
  - unfold Gillespie.SIR_start. cbn [resolve_initial mbind result_bind].
    simpl. unfold Gillespie._Gillespie_initialize_SIR_,
      Gillespie.initialize_risk. cbn [py_for]. unfold neighbors.
    by rewrite Hu.
  - unfold Gillespie.SIS_start. cbn [resolve_initial mbind result_bind].
    simpl. unfold Gillespie._Gillespie_initialize_SIS_,
      Gillespie.initialize_risk. cbn [py_for]. unfold neighbors.
    by rewrite Hu.
Qed.

Lemma seeded_head tmin c_of u l s0 s :
  seeded tmin c_of (u :: l) s0 s → tmin <ₜ myQueue.tmax (EventDriven.Q_ s0) →
  ∃ h, myQueue._Q_ (EventDriven.Q_ s) = myQueue.Event tmin 0 (c_of u) :: h
       ∧ EventDriven.S_ s = EventDriven.S_ s0
       ∧ EventDriven.I_ s = EventDriven.I_ s0
       ∧ EventDriven.R_ s = EventDriven.R_ s0
       ∧ EventDriven.status s = EventDriven.status s0.
Proof.
  intros (_ & E2 & E3 & E4 & E5 & _ & _ & _ & E9) Hlt. rewrite Hlt in E9.
  destruct E9 as [E9 _]. simpl in E9. by eexists.
Qed.

Lemma SIR_drain_seed_not_in_graph G tmin tmax ttf rtf jf u l ir rho Q smp s l'
    d ds :
  EventDriven.SIR_start G ttf rtf jf (Some (Nodes (u :: l))) ir rho tmin tmax
    Q smp = Ok (s, l') →
  G !! u = None → tmin <ₜ tmax → u ∉ default [] ir →
  EventDriven.drain (d :: ds) s = Raise NetworkXError.
Proof.
  intros E Hu Hlt Hir.
  pose proof (SIR_start_inv G tmin tmax _ _ _ _ _ _ _ _ _ _ E)
    as (fxn & s0 & Hres & Hseed & A1 & A2 & A3 & A4 & A5 & A6 & _).
  simpl in Hres. injection Hres as <-.
  rewrite <- A5 in Hlt.
  destruct (seeded_head _ _ _ _ _ _ Hseed Hlt) as (h & EQ & B2 & B3 & B4 & B5).
  simpl. unfold myQueue.len. rewrite EQ. simpl.
  unfold EventDriven.pop_and_run, myQueue.pop_and_run. rewrite EQ. simpl.
  unfold EventDriven._process_trans_SIR_. simpl. rewrite B5.
  rewrite decide_True by by apply A6.
  rewrite B2, B3, B4, A2, A3, A4. simpl. unfold neighbors. by rewrite Hu.
Qed.

Lemma SIS_drain_seed_not_in_graph G tmin tmax trf rrf u l rho smp s l' d ds :
  EventDriven.SIS_Markov_start G (trf, rrf) (Some (Nodes (u :: l))) rho tmin
    tmax smp = Ok (s, l') →
  G !! u = None → tmin <ₜ tmax →
  (0 < rrf u)%Q → (0 <= EventDriven.d_rec d)%Q →
  EventDriven.drain (d :: ds) s = Raise NetworkXError.
Proof.
  intros E Hu Hlt Hr Hd. unfold EventDriven.SIS_Markov_start in E.
  bind_ok E as u1 E1. cbn [resolve_initial mbind result_bind] in E.
  injection E as <- <-.
  set (f := λ (s : EventDriven.store) (v : Node),
              EventDriven.Q_add tmin
                (EventDriven.trans_SIS_Markov G None v trf rrf) s).
  set (s0 := EventDriven.initial_store (order G) tmin tmax []).
  change (foldl f (EventDriven.Q_add tmin
                     (EventDriven.trans_SIS_Markov G None u trf rrf) s0) l)
    with (foldl f s0 (u :: l)).
  assert (seeded tmin (λ v, EventDriven.trans_SIS_Markov G None v trf rrf)
            (u :: l) s0 (foldl f s0 (u :: l))) as Hseed.
  { apply (seed_fold tmin _ (λ _ s, s)); try done. by intros _ []. }
  destruct (seeded_head _ _ _ _ _ _ Hseed Hlt) as (h & EQ & B2 & B3 & B4 & B5).
  cbn [EventDriven.drain]. unfold myQueue.len. rewrite EQ.
  cbn [length mbind result_bind].
  unfold EventDriven.pop_and_run, myQueue.pop_and_run. rewrite EQ.
  cbn [myQueue.heappop mbind result_bind myQueue.ev_time myQueue.ev_call
       EventDriven.run_call].
  unfold EventDriven._process_trans_SIS_Markov.
  cbn [EventDriven.status EventDriven.set_Q EventDriven.I_ EventDriven.S_].
  rewrite B5, B2, B3. unfold s0. cbn [EventDriven.initial_store
    EventDriven.status EventDriven.I_ EventDriven.S_].
  rewrite decide_True by done.
  unfold py_last. cbn [last mbind result_bind].
  rewrite (random_expovariate_pos _ _ Hr Hd). cbn [mbind result_bind].
  unfold neighbors. by rewrite Hu.
Qed.

Lemma SIS_Markov_start_status G tmin tmax rates ii rho smp s l :
  EventDriven.SIS_Markov_start G rates ii rho tmin tmax smp = Ok (s, l) →
  ∀ n, status_of (EventDriven.status s) n ≠ Recovered.
Proof.
  intros Es. unfold EventDriven.SIS_Markov_start in Es. bind_ok Es as u1 E1.
  destruct rates as [trf rrf]. bind_ok Es as l' El. injection Es as <- <-.
  apply (seeded_not_recovered tmin
           (λ u, EventDriven.trans_SIS_Markov G None u trf rrf) l'
           (EventDriven.initial_store (order G) tmin tmax [])); [|done].
  apply (seed_fold tmin _ (λ _ s, s)); try done. by intros _ [].
Qed.

Lemma SIS_nonMarkov_start_status G tmin tmax ttf rtf jf ii rho smp s l :
  EventDriven.SIS_nonMarkov_start G ttf rtf jf ii rho tmin tmax smp
    = Ok (s, l) →
  ∀ n, status_of (EventDriven.status s) n ≠ Recovered.
Proof.
  intros Es. unfold EventDriven.SIS_nonMarkov_start in Es.
  bind_ok Es as u1 E1. bind_ok Es as u2 E2. bind_ok Es as u3 E3.
  bind_ok Es as fxn Ef. bind_ok Es as l' El. injection Es as <- <-.
  apply (seeded_not_recovered tmin
           (λ u, EventDriven.trans_SIS_nonMarkov G u [] fxn) l'
           (EventDriven.initial_store (order G) tmin tmax [])); [|done].
  apply (seed_fold tmin _ (λ _ s, s)); try done. by intros _ [].
Qed.

Lemma SIR_start_kinv G tmin tmax ttf rtf jf ii ir rho Q smp s l :
  EventDriven.SIR_start G ttf rtf jf ii ir rho tmin tmax Q smp = Ok (s, l) →
  kinv E_SIR (order G) s.
Proof.
  intros Hstart. apply SIR_start_inv in Hstart
    as (fxn & s00 & Hres & Hseed & A1 & A2 & A3 & A4 & A5 & A6 & A7).
  apply (seeded_kinv E_SIR (order G) tmin
           (λ u, EventDriven.trans_SIR G u fxn) l s00 s);
    [|by intros u ?|done]. simpl. rewrite A2, A3, A4.
  apply counts_SIR_init. lia.
Qed.

End EntryPoints.

Module PercolationProofs.
Import Auxiliary Discrete Percolation GillespieProofs DiscreteProofs.

(** *** The spread of one iteration *)

Lemma test_neighbor_step test u v sus new g acc' :
  test_neighbor test u v (sus, new, g) = Ok acc' →
  (∀ w, susceptible_of sus w = false → susceptible_of acc'.1.1 w = false)
  ∧ (∃ added, acc'.1.2 = new ++ added ∧ ∀ w, w ∈ added → w = v)
  ∧ (test u v g = Ok (true, g) → susceptible_of acc'.1.1 v = false).
Proof.
  unfold test_neighbor. intros H.
  destruct (susceptible_of sus v) eqn:Ev.
  - bind_ok H as [b g1] Et. destruct b; injection H as <-; simpl.
    + split; [|split].
      * intros w Hw. rewrite susceptible_of_insert.
        by destruct (decide (w = v)).
      * exists [v]. split; [done|]. by intros w ->%list_elem_of_singleton.
      * intros _. rewrite susceptible_of_insert. by rewrite decide_True.
    + split; [done|]. split.
      * exists []. split; [by rewrite app_nil_r|]. by intros w ?%elem_of_nil.
      * intros Ht. rewrite Ht in Et. discriminate.
  - injection H as <-. simpl. split; [done|]. split; [|done].
    exists []. split; [by rewrite app_nil_r|]. by intros w ?%elem_of_nil.
Qed.

Lemma neighbor_loop test u ns : ∀ acc acc',
  py_for ns (test_neighbor test u) acc = Ok acc' →
  (∀ w, susceptible_of acc.1.1 w = false → susceptible_of acc'.1.1 w = false)
  ∧ (∃ added, acc'.1.2 = acc.1.2 ++ added ∧ ∀ w, w ∈ added → w ∈ ns)
  ∧ ((∀ v g, v ∈ ns → test u v g = Ok (true, g)) →
     ∀ v, v ∈ ns → susceptible_of acc'.1.1 v = false).
Proof.
  induction ns as [|v ns IH]; intros acc acc' H; simpl in H.
  - injection H as <-. split; [done|]. split.
    + exists []. split; [by rewrite app_nil_r|]. by intros w ?%elem_of_nil.
    + by intros _ v ?%elem_of_nil.
  - bind_ok H as acc1 E1. destruct acc as [[sus new] g].
    apply test_neighbor_step in E1 as (A1 & (ad1 & A2 & A3) & A4).
    apply IH in H as (B1 & (ad2 & B2 & B3) & B4). simpl in *.
    split; [by auto|]. split.
    + exists (ad1 ++ ad2). rewrite B2, A2, app_assoc. split; [done|].
      intros w [Hw|Hw]%elem_of_app;
        [rewrite (A3 w Hw); left|right; by apply B3].
    + intros Hc w [->|Hw]%elem_of_cons.
      * apply B1, A4, Hc. left.
      * apply B4; [|done]. intros v' g' Hv'. apply Hc. by right.
Qed.

Lemma spread_loop H test infecteds : ∀ acc acc',
  py_for infecteds
    (λ u acc, ns ← neighbors H u;
              py_for ns (test_neighbor test u) acc) acc = Ok acc' →
  (∀ w, susceptible_of acc.1.1 w = false → susceptible_of acc'.1.1 w = false)
  ∧ (∃ added, acc'.1.2 = acc.1.2 ++ added
       ∧ ∀ w, w ∈ added → ∃ u, u ∈ infecteds ∧ w ∈ nbrs H u)
  ∧ (certain H test →
     ∀ u v, u ∈ infecteds → v ∈ nbrs H u →
            susceptible_of acc'.1.1 v = false).
Proof.
  induction infecteds as [|u l IH]; intros acc acc' Hs; simpl in Hs.
  - injection Hs as <-. split; [done|]. split.
    + exists []. split; [by rewrite app_nil_r|]. by intros w ?%elem_of_nil.
    + by intros _ u v ?%elem_of_nil.
  - bind_ok Hs as acc1 E1. bind_ok E1 as ns En.
    apply (neighbors_nbrs H) in En.
    apply neighbor_loop in E1 as (A1 & (ad1 & A2 & A3) & A4).
    apply IH in Hs as (B1 & (ad2 & B2 & B3) & B4).
    split; [by auto|]. split.
    + exists (ad1 ++ ad2). rewrite B2, A2, app_assoc. split; [done|].
      intros w [Hw|Hw]%elem_of_app.
      * exists u. split; [left|]. rewrite En. by apply A3.
      * destruct (B3 w Hw) as (u' & Hu' & Hw'). exists u'. split; [by right|done].
    + intros Hc u' v [->|Hu']%elem_of_cons Hv.
      * apply B1, A4; [|by rewrite <- En].
        intros v' g' Hv'. apply Hc. by rewrite En.
      * by eapply B4.
Qed.

Lemma spread_edges H test infecteds sus g sus' new g' :
  spread H test infecteds sus g = Ok (sus', new, g') →
  (∀ w, susceptible_of sus w = false → susceptible_of sus' w = false)
  ∧ (∀ w, w ∈ new → ∃ u, u ∈ infecteds ∧ w ∈ nbrs H u)
  ∧ (certain H test →
     ∀ u v, u ∈ infecteds → v ∈ nbrs H u → susceptible_of sus' v = false).
Proof.
  unfold spread. intros Hs.
  apply spread_loop in Hs as (A1 & (ad & A2 & A3) & A4). simpl in *.
  subst new. by repeat split.
Qed.

(** *** The invariant of a run with certain transmission *)

Lemma sus_count_all H : sus_count H ∅ = order H.
Proof.
  unfold sus_count, order, nodes. rewrite filter_length_all.
  - by rewrite length_fmap, length_map_to_list.
  - intros x _. unfold susceptible_of. by rewrite lookup_empty.
Qed.

Lemma start_bfs C H ii ir rho tmin rfd smp s l :
  start H ii ir rho tmin rfd smp = Ok s →
  resolve_initial H ii rho smp = Ok l → NoDup l → l ⊆ nodes H →
  default [] ir = [] →
  bfs_inv C H l s.
Proof.
  intros Hs Hres Hnd Hsub Hir.
  apply start_inv in Hs as (l' & Hres' & E1 & E2 & E3 & E4 & E5 & E6).
  rewrite Hres in Hres'. injection Hres' as <-.
  assert (susceptible s = Gillespie.set_all l false ∅) as Esus.
  { rewrite E6. destruct ir as [lr|]; [|done]. simpl in Hir. by subst lr. }
  assert (∀ v, susceptible_of (susceptible s) v = false ↔ v ∈ l) as Hns.
  { intros v. rewrite Esus, susceptible_of_set_all.
    destruct (decide (v ∈ l)); [done|]. unfold susceptible_of.
    rewrite lookup_empty. simpl. split; [done|tauto]. }
  unfold bfs_inv. rewrite E5. split; [done|]. split.
  { intros v Hv. split; [by apply Hns|by apply Hsub]. }
  split.
  { intros v Hv%Hns. exists v. split; [done|]. apply rtc_refl. }
  split; [intros v Hv; by apply Hns|]. split.
  { intros _ u v Hu%Hns Hu'. done. }
  exists (order H - Z.of_nat (length l))%Z, (Z.of_nat (length l)), 0%Z.
  rewrite E2, E3, E4. repeat split; try done; [|lia].
  rewrite (sus_count_remove H l ∅ (susceptible s)); [by rewrite sus_count_all|done| |].
  - intros v Hv. split; [|by apply Hsub]. unfold susceptible_of.
    by rewrite lookup_empty.
  - intros v. by rewrite Esus, susceptible_of_set_all.
Qed.

Lemma iteration_bfs (C : Prop) H test l tmin tmax rfd g s s' :
  closed H → (C → certain H test) → bfs_inv C H l s →
  iteration H test tmin tmax rfd g s = Ok s' →
  bfs_inv C H l s'.
Proof.
  intros Hcl Hc (Hnd & Hinf & Hsound & Hseeds & Hclosure
                 & sl & il & rl & ES & EI & ER & Hsl & Hil & Hsum) Hit.
  apply iteration_inv in Hit
    as (g' & tl & sl' & il' & rl' & Hsp & _ & ES' & EI' & ER' & _ & F2 & F3
        & F4).
  rewrite ES in ES'. rewrite EI in EI'. rewrite ER in ER'.
  injection ES' as <-. injection EI' as <-. injection ER' as <-.
  pose proof (spread_spec _ _ _ _ _ _ _ _ Hcl Hsp) as (Hnd' & Hnew & Heq).
  simpl in Hnd', Hnew, Heq.
  apply spread_edges in Hsp as (Hmono & Hedges & Hcert).
  unfold bfs_inv. split; [done|]. split.
  { intros v Hv. split; [|by apply Hnew]. rewrite Heq. by rewrite decide_True. }
  split.
  { intros v Hv. rewrite Heq in Hv. destruct (decide (v ∈ infecteds s')) as [Hin|].
    - destruct (Hedges v Hin) as (u & Hu & Huv).
      destruct (Hsound u) as (u0 & Hu0 & Hpath); [by apply Hinf|].
      exists u0. split; [done|]. eapply rtc_r; [done|]. done.
    - by apply Hsound. }
  split; [intros v Hv; by apply Hmono, Hseeds|]. split.
  { intros HC u v Hu Hout Huv. rewrite Heq in Hu.
    rewrite decide_False in Hu by done.
    destruct (decide (u ∈ infecteds s)) as [Hin|Hnin].
    - by eapply (Hcert (Hc HC)).
    - by eapply Hmono, Hclosure. }
  exists (sl - Z.of_nat (length (infecteds s')))%Z,
    (Z.of_nat (length (infecteds s'))), (rl + il)%Z.
  rewrite F2, F3, F4, !last_snoc. repeat split; try done; [|lia].
  rewrite (sus_count_remove H (infecteds s') (susceptible s) (susceptible s'));
    [by rewrite Hsl|done|done|done].
Qed.

Lemma loop_bfs (C : Prop) H test l tmin tmax rfd ds : ∀ s s',
  closed H → (C → certain H test) → bfs_inv C H l s →
  loop H test tmin tmax rfd ds s = Ok s' → bfs_inv C H l s'.
Proof.
  induction ds as [|g ds IH]; intros s s' Hcl Hc Hinv Hl; simpl in Hl.
  - bind_ok Hl as b Eb. destruct b; [discriminate|]. by injection Hl as <-.
  - bind_ok Hl as b Eb. destruct b; [|by injection Hl as <-].
    bind_ok Hl as s1 E1. eapply IH; [done|done| |done].
    by eapply iteration_bfs.
Qed.

Lemma connected_to_nodes H l v :
  closed H → l ⊆ nodes H → connected_to H l v → v ∈ nodes H.
Proof.
  intros Hcl Hsub (u & Hu & Hpath). apply Hsub in Hu.
  induction Hpath as [|a b c Hab _ IH]; [done|]. apply IH.
  apply elem_of_nodes in Hu as [ns Hns].
  apply (closed_neighbors H a ns); [done| |].
  - unfold neighbors. by rewrite Hns.
  - unfold nbrs in Hab. by rewrite Hns in Hab.
Qed.

(** When nobody is infected and transmission is certain, the nodes
    connected to the initial infecteds are no longer susceptible. *)
Lemma bfs_complete H l s :
  bfs_inv True H l s → infecteds s = [] →
  ∀ v, connected_to H l v → susceptible_of (susceptible s) v = false.
Proof.
  intros (_ & _ & _ & Hseeds & Hclosure & _) Hnone v (u & Hu & Hpath).
  apply Hseeds in Hu. induction Hpath as [|a b c Hab _ IH]; [done|].
  apply IH. eapply (Hclosure I); [done| |done].
  rewrite Hnone. apply not_elem_of_nil.
Qed.

Lemma filter_length_split {A} (P : A → Prop) `{∀ x, Decision (P x)}
    (l : list A) :
  length (filter P l) + length (filter (λ x, ¬ P x) l) = length l.
Proof.
  induction l as [|a l IH]; [done|]. rewrite !filter_cons.
  destruct (decide (P a)); destruct (decide (¬ P a)); simpl; tauto || lia.
Qed.

Lemma elem_of_reached G s v :
  v ∈ reached G s
  ↔ v ∈ nodes G ∧ susceptible_of (susceptible s) v = false.
Proof.
  unfold reached. rewrite list_elem_of_filter.
  destruct (susceptible_of (susceptible s) v); split; intros [? ?]; done.
Qed.

(** The counts of a state in terms of the nodes reached. *)
Lemma bfs_counts C H l s :
  bfs_inv C H l s →
  NoDup (reached H s)
  ∧ (∀ v, v ∈ reached H s → connected_to H l v)
  ∧ ∃ il rl,
      last (I_ s) = Some il ∧ last (R_ s) = Some rl
      ∧ (il + rl = Z.of_nat (length (reached H s)))%Z
      ∧ last (S_ s) = Some (order H - Z.of_nat (length (reached H s)))%Z.
Proof.
  intros (_ & _ & Hsound & _ & _
          & sl & il & rl & ES & EI & ER & Hsl & Hil & Hsum).
  split; [apply NoDup_filter, nodes_NoDup|]. split.
  { intros v [_ Hv]%elem_of_reached. by apply Hsound. }
  exists il, rl.
  pose proof (filter_length_split
                (λ v, susceptible_of (susceptible s) v = true) (nodes H)) as Hlen.
  assert (Z.of_nat (length (nodes H)) = order H) as Hord.
  { unfold order, nodes. by rewrite length_fmap, length_map_to_list. }
  unfold sus_count in Hsl. unfold reached. rewrite ES.
  repeat split; try done; [lia|f_equal; lia].
Qed.

Lemma discrete_SIR_bfs C H test ii ir rho tmin tmax rfd smp ds l ts S I R nh :
  closed H → (C → certain H test) →
  resolve_initial H ii rho smp = Ok l → NoDup l → l ⊆ nodes H →
  default [] ir = [] →
  discrete_SIR H test ii ir rho tmin tmax rfd smp ds = Ok (ts, S, I, R, nh) →
  ∃ s, bfs_inv C H l s ∧ S = S_ s ∧ I = I_ s ∧ R = R_ s
       ∧ (last I = Some 0%Z → infecteds s = []).
Proof.
  intros Hcl Hc Hres Hnd Hsub Hir Hrun. unfold discrete_SIR in Hrun.
  bind_ok Hrun as s0 E0. bind_ok Hrun as s E1. injection Hrun as <- <- <- <- <-.
  pose proof (start_bfs C _ _ _ _ _ _ _ _ _ E0 Hres Hnd Hsub Hir) as Hinv0.
  pose proof (loop_bfs C _ _ _ _ _ _ _ _ _ Hcl Hc Hinv0 E1) as Hinv.
  exists s. split; [done|]. do 3 (split; [done|]).
  intros HI. destruct Hinv as (_ & _ & _ & _ & _
                               & sl & il & rl & _ & EI & _ & _ & Hil & _).
  rewrite EI in HI. injection HI as ->.
  destruct (infecteds s); [done|simpl in Hil; lia].
Qed.

(** *** [percolate_network] *)

Lemma nbrs_add_neighbor u v H w :
  nbrs (add_neighbor u v H) w
  = if decide (w = u)
    then (if decide (v ∈ nbrs H u) then nbrs H u else nbrs H u ++ [v])
    else nbrs H w.
Proof.
  unfold add_neighbor, nbrs at 1. destruct (decide (w = u)) as [->|Hne].
  - by rewrite lookup_insert_eq.
  - by rewrite lookup_insert_ne.
Qed.

Lemma elem_of_nbrs_add_neighbor u v H w x :
  x ∈ nbrs (add_neighbor u v H) w ↔ x ∈ nbrs H w ∨ (w = u ∧ x = v).
Proof.
  rewrite nbrs_add_neighbor. destruct (decide (w = u)) as [->|Hne].
  - destruct (decide (v ∈ nbrs H u)) as [Hin|Hout].
    + split; [by left|]. intros [?|[_ ->]]; done.
    + rewrite elem_of_app, list_elem_of_singleton. split; intros [?|?]; tauto.
  - split; [by left|]. intros [?|[? _]]; done.
Qed.

Lemma elem_of_nbrs_add_edge u v H w x :
  x ∈ nbrs (add_edge u v H) w
  ↔ x ∈ nbrs H w ∨ (w = u ∧ x = v) ∨ (w = v ∧ x = u).
Proof.
  unfold add_edge. rewrite !elem_of_nbrs_add_neighbor. tauto.
Qed.

Lemma NoDup_nbrs_add_neighbor u v H :
  (∀ w, NoDup (nbrs H w)) → ∀ w, NoDup (nbrs (add_neighbor u v H) w).
Proof.
  intros Hnd w. rewrite nbrs_add_neighbor.
  destruct (decide (w = u)) as [->|]; [|done].
  destruct (decide (v ∈ nbrs H u)) as [|Hout]; [done|].
  apply NoDup_app. split; [done|]. split; [|apply NoDup_singleton].
  intros x Hx ->%list_elem_of_singleton. done.
Qed.

Lemma lookup_add_neighbor u v H w :
  is_Some (add_neighbor u v H !! w) ↔ is_Some (H !! w) ∨ w = u.
Proof.
  unfold add_neighbor. destruct (decide (w = u)) as [->|Hne].
  - rewrite lookup_insert_eq. split; [by right|by eexists].
  - rewrite lookup_insert_ne by done. split; [by left|]. by intros [?|?].
Qed.

Lemma lookup_add_edge u v H w :
  is_Some (add_edge u v H !! w) ↔ is_Some (H !! w) ∨ w = u ∨ w = v.
Proof. unfold add_edge. rewrite !lookup_add_neighbor. tauto. Qed.

Lemma lookup_add_nodes_from ns : ∀ H n,
  is_Some (add_nodes_from ns H !! n) ↔ is_Some (H !! n) ∨ n ∈ ns.
Proof.
  unfold add_nodes_from.
  induction ns as [|a ns IH]; intros H n; simpl.
  - split; [by left|]. by intros [?|?%elem_of_nil].
  - rewrite IH, elem_of_cons. destruct (decide (is_Some (H !! a))) as [Ha|Ha].
    + split; [tauto|]. intros [?|[->|?]]; tauto.
    + destruct (decide (n = a)) as [->|Hne].
      * rewrite lookup_insert_eq. split; [tauto|]. intros _. left. by eexists.
      * rewrite lookup_insert_ne by done. tauto.
Qed.

Lemma nbrs_add_nodes_from ns : ∀ H n,
  nbrs (add_nodes_from ns H) n = nbrs H n.
Proof.
  unfold add_nodes_from.
  induction ns as [|a ns IH]; intros H n; simpl; [done|].
  rewrite IH. destruct (decide (is_Some (H !! a))) as [Ha|Ha]; [done|].
  unfold nbrs. destruct (decide (n = a)) as [->|Hne].
  - rewrite lookup_insert_eq. simpl.
    destruct (H !! a) eqn:E; [|done]. exfalso. apply Ha. by eexists.
  - by rewrite lookup_insert_ne.
Qed.

Lemma nbrs_is_Some (G : Graph) u v : v ∈ nbrs G u → is_Some (G !! u).
Proof.
  unfold nbrs. destruct (G !! u); [by eexists|]. by intros ?%elem_of_nil.
Qed.

Lemma percolated_start G : percolated G (add_nodes_from (nodes G) ∅).
Proof.
  assert (∀ u, nbrs (add_nodes_from (nodes G) ∅) u = []) as Hn.
  { intros u. rewrite nbrs_add_nodes_from. unfold nbrs.
    by rewrite lookup_empty. }
  unfold percolated. split; [|split; [|split; [|split; [|split]]]].
  - intros u v. rewrite Hn. by intros ?%elem_of_nil.
  - intros u. rewrite Hn. constructor.
  - intros u v. rewrite Hn. by intros ?%elem_of_nil.
  - intros u v. rewrite Hn. by intros ?%elem_of_nil.
  - intros n Hn'. apply lookup_add_nodes_from. right. by apply elem_of_nodes.
  - intros _ n [Hn'|Hn']%lookup_add_nodes_from.
    + rewrite lookup_empty in Hn'. by destruct Hn'.
    + by apply elem_of_nodes.
Qed.

Lemma closed_nbrs G u v : closed G → v ∈ nbrs G u → is_Some (G !! v).
Proof.
  intros Hcl Hv. unfold nbrs in Hv. destruct (G !! u) as [ns|] eqn:E;
    [|by apply elem_of_nil in Hv].
  specialize (Hcl u ns E). simpl in Hcl. rewrite Forall_forall in Hcl.
  by apply Hcl.
Qed.

Lemma percolated_add_edge G H u v :
  v ∈ nbrs G u → percolated G H → percolated G (add_edge u v H).
Proof.
  intros Huv (Hsym & Hnd & Hsub & Hcl & Hnodes & Hback).
  unfold percolated. split; [|split; [|split; [|split; [|split]]]].
  - intros a b. rewrite !elem_of_nbrs_add_edge.
    intros [Hab|[[-> ->]|[-> ->]]]; [left; by apply Hsym|tauto..].
  - intros w. unfold add_edge. by do 2 apply NoDup_nbrs_add_neighbor.
  - intros a b. rewrite elem_of_nbrs_add_edge.
    intros [Hab|[[-> ->]|[-> ->]]]; [by apply Hsub|by left|by right].
  - intros a b. rewrite elem_of_nbrs_add_edge, !lookup_add_edge.
    intros [Hab|[[-> ->]|[-> ->]]]; [|tauto..].
    destruct (Hcl a b Hab). tauto.
  - intros n Hn. apply lookup_add_edge. left. by apply Hnodes.
  - intros HclG n [Hn|[->| ->]]%lookup_add_edge.
    + by apply Hback.
    + by eapply nbrs_is_Some.
    + by eapply closed_nbrs.
Qed.

Lemma keep_edge_loop G p es : ∀ H g H' g',
  (∀ e, e ∈ es → e.2 ∈ nbrs G e.1) → percolated G H →
  py_for es (keep_edge p) (H, g) = Ok (H', g') →
  percolated G H'
  ∧ (∀ u v, v ∈ nbrs H u → v ∈ nbrs H' u)
  ∧ ((p <= 0)%Q → H' = H)
  ∧ ((1 <= p)%Q → ∀ e, e ∈ es → e.2 ∈ nbrs H' e.1).
Proof.
  induction es as [|e es IH]; intros H g H' g' Hes Hinv Hrun; simpl in Hrun.
  - injection Hrun as <- <-. split; [done|]. split; [done|]. split; [done|].
    by intros _ e ?%elem_of_nil.
  - bind_ok Hrun as [H1 g1] E1. unfold keep_edge in E1. simpl in E1.
    destruct g as [|x g]; [discriminate|]. bind_ok E1 as x' Ex.
    apply random_random_Ok in Ex as (-> & Hx0 & Hx1). injection E1 as <- <-.
    assert (e.2 ∈ nbrs G e.1) as He by (apply Hes; left).
    assert (∀ e', e' ∈ es → e'.2 ∈ nbrs G e'.1) as Hes'
      by (intros e' He'; apply Hes; by right).
    destruct (QMicromega.Qlt_bool x p) eqn:Elt.
    + apply Qlt_bool_true in Elt.
      apply IH in Hrun as (A1 & A2 & A3 & A4);
        [|done|by apply percolated_add_edge].
      split; [done|]. split.
      { intros u v Huv. apply A2, elem_of_nbrs_add_edge. by left. }
      split; [intros Hp; lra|].
      intros Hp e' [->|He']%elem_of_cons; [|by apply A4].
      apply A2, elem_of_nbrs_add_edge. right. by left.
    + apply Qlt_bool_false in Elt.
      apply IH in Hrun as (A1 & A2 & A3 & A4); [|done|done].
      split; [done|]. split; [done|]. split; [done|].
      intros Hp. lra.
Qed.

Lemma elem_of_edges_of adj : ∀ seen n nbr,
  (n, nbr) ∈ edges_of adj seen
  ↔ ∃ i ns, adj !! i = Some (n, ns) ∧ nbr ∈ ns ∧ nbr ∉ seen
            ∧ nbr ∉ (take i adj).*1.
Proof.
  induction adj as [|[a ns] adj IH]; intros seen n nbr; simpl.
  - split; [by intros ?%elem_of_nil|]. by intros (i & ? & ? & _).
  - rewrite elem_of_app, IH. unfold edges_from.
    rewrite list_elem_of_fmap. split.
    + intros [(y & [= -> ->] & [Hy1 Hy2]%list_elem_of_filter)
             |(i & ns' & Hi & H1 & H2 & H3)].
      * exists 0, ns. simpl. repeat split; try done. apply not_elem_of_nil.
      * exists (S i), ns'. simpl. repeat split; try done; [set_solver|].
        rewrite not_elem_of_cons. split; [set_solver|done].
    + intros (i & ns' & Hi & H1 & H2 & H3). destruct i as [|i]; simpl in *.
      * injection Hi as -> ->. left. exists nbr. split; [done|].
        by apply list_elem_of_filter.
      * right. apply not_elem_of_cons in H3 as [H3 H4].
        exists i, ns'. repeat split; try done. set_solver.
Qed.

Lemma elem_of_edges G e : e ∈ edges G → e.2 ∈ nbrs G e.1.
Proof.
  destruct e as [n nbr]. unfold edges. rewrite elem_of_edges_of.
  intros (i & ns & Hi & Hn & _). simpl.
  apply list_elem_of_lookup_2, elem_of_map_to_list in Hi.
  unfold nbrs. by rewrite Hi.
Qed.

Lemma edges_cover G u v :
  (∀ a b, b ∈ nbrs G a → a ∈ nbrs G b) → v ∈ nbrs G u →
  (u, v) ∈ edges G ∨ (v, u) ∈ edges G.
Proof.
  intros Hsym Huv. pose proof (Hsym _ _ Huv) as Hvu.
  assert (∀ a b, b ∈ nbrs G a →
            ∃ i ns, map_to_list G !! i = Some (a, ns) ∧ b ∈ ns) as Hidx.
  { intros a b Hab. unfold nbrs in Hab.
    destruct (G !! a) as [ns|] eqn:E; [|by apply elem_of_nil in Hab].
    apply elem_of_map_to_list, list_elem_of_lookup_1 in E as [i Hi].
    by exists i, ns. }
  destruct (Hidx _ _ Huv) as (i & nsu & Hi & Hv).
  destruct (Hidx _ _ Hvu) as (j & nsv & Hj & Hu).
  pose proof (NoDup_fst_map_to_list G) as Hnd.
  assert (∀ a k m ns, map_to_list G !! k = Some (a, ns) → k ≤ m →
            a ∉ (take k (map_to_list G)).*1
            ∧ ∀ b ns', map_to_list G !! m = Some (b, ns') →
                       b ∉ (take k (map_to_list G)).*1) as Hout.
  { intros a k m ns Hk Hkm.
    assert (∀ b m' ns', map_to_list G !! m' = Some (b, ns') → k ≤ m' →
              b ∉ (take k (map_to_list G)).*1) as Hgen.
    { intros b m' ns' Hm' Hle Hin. rewrite fmap_take in Hin.
      apply list_elem_of_lookup_1 in Hin as [x Hx].
      rewrite lookup_take_Some in Hx. destruct Hx as [Hx Hlt].
      assert ((map_to_list G).*1 !! m' = Some b) as Hb
        by (by rewrite list_lookup_fmap, Hm').
      pose proof (NoDup_lookup _ _ _ _ Hnd Hx Hb). lia. }
    split; [by eapply (Hgen a k)|]. intros b ns' Hm. by eapply Hgen. }
  unfold edges. rewrite !elem_of_edges_of.
  destruct (decide (i ≤ j)) as [Hle|Hgt].
  - left. exists i, nsu. repeat split; try done.
    destruct (Hout u i j nsu Hi Hle) as [_ Hb]. by eapply Hb.
  - right. exists j, nsv. repeat split; try done.
    destruct (Hout v j i nsv Hj ltac:(lia)) as [_ Hb]. by eapply Hb.
Qed.

Lemma percolate_network_spec G p g H :
  percolate_network G p g = Ok H →
  percolated G H
  ∧ ((p <= 0)%Q → ∀ u, nbrs H u = [])
  ∧ ((1 <= p)%Q → (∀ a b, b ∈ nbrs G a → a ∈ nbrs G b) →
     ∀ u v, v ∈ nbrs G u → v ∈ nbrs H u).
Proof.
  intros Hrun. unfold percolate_network in Hrun.
  bind_ok Hrun as [H1 g1] E1. injection Hrun as <-.
  apply (keep_edge_loop G) in E1 as (A1 & A2 & A3 & A4);
    [|apply elem_of_edges|apply percolated_start].
  split; [done|]. split.
  - intros Hp u. rewrite (A3 Hp), nbrs_add_nodes_from. unfold nbrs.
    by rewrite lookup_empty.
  - intros Hp Hsym u v Huv.
    destruct (edges_cover G u v Hsym Huv) as [He|He].
    + by apply (A4 Hp (u, v)).
    + destruct A1 as (Hs & _). apply Hs. by apply (A4 Hp (v, u)).
Qed.

Lemma percolated_undirected G H : percolated G H → undirected H ∧ closed H.
Proof.
  intros (Hsym & Hnd & _ & Hcl & _). split.
  - intros u ns Hu. simpl.
    assert (nbrs H u = ns) as Hn by (unfold nbrs; by rewrite Hu).
    split; [rewrite <- Hn; apply Hnd|]. apply Forall_forall. intros v Hv.
    apply Hsym. by rewrite Hn.
  - intros u ns Hu. simpl.
    assert (nbrs H u = ns) as Hn by (unfold nbrs; by rewrite Hu).
    apply Forall_forall. intros v Hv. apply (Hcl u v). by rewrite Hn.
Qed.

Lemma edge_test_certain H : certain H (edge_test H).
Proof.
  intros u v g Hv. unfold edge_test, has_edge. by rewrite bool_decide_true.
Qed.

Lemma keep_edge_loop_returns p es : ∀ H g,
  length es ≤ length g → Forall unit_draw g →
  ∃ H' g', py_for es (keep_edge p) (H, g) = Ok (H', g').
Proof.
  induction es as [|e es IH]; intros H g Hlen Hg; simpl; [by eexists _, _|].
  destruct g as [|x g]; [simpl in Hlen; lia|].
  apply Forall_cons in Hg as [[Hx0 Hx1] Hg].
  unfold keep_edge at 2. simpl. rewrite (random_random_valid _ Hx0 Hx1). simpl.
  apply IH; [simpl in Hlen; lia|done].
Qed.

End PercolationProofs.

Module FullDataProofs.
Import Auxiliary FullData GillespieProofs.

(** On times the function is [_transform_to_node_history_SIR]. *)
Lemma log_at_times tmin x node t (nh : gmap Node history) :
  log tmin x node (a_time t)
    ((λ h : history, (a_time <$> h.1, h.2)) <$> nh)
  = (λ h : history, (a_time <$> h.1, h.2)) <$> log_change tmin x node t nh.
Proof.
  unfold log, log_change, log_append, entry_of, history_of. simpl.
  destruct (teq t tmin).
  - rewrite !fmap_insert. rewrite !lookup_insert_eq. simpl.
    by rewrite !insert_insert_eq.
  - rewrite fmap_insert, lookup_fmap. f_equal.
    destruct (nh !! node) as [[ts xs]|]; simpl; by rewrite ?fmap_app.
Qed.

Lemma transform_at_times infection_times recovery_times tmin :
  _transform_to_node_history_
    (prod_map id a_time <$> infection_times)
    (prod_map id a_time <$> recovery_times) tmin
  = (λ h : history, (a_time <$> h.1, h.2))
      <$> _transform_to_node_history_SIR infection_times recovery_times tmin.
Proof.
  unfold _transform_to_node_history_, _transform_to_node_history_SIR.
  assert (∀ x l (nh : gmap Node history),
    foldl (λ nh nt, log tmin x nt.1 nt.2 nh)
      ((λ h : history, (a_time <$> h.1, h.2)) <$> nh)
      (prod_map id a_time <$> l)
    = (λ h : history, (a_time <$> h.1, h.2))
        <$> foldl (λ nh nt, log_change tmin x nt.1 nt.2 nh) nh l) as Hfold.
  { intros x l. induction l as [|[n t] l IH]; intros nh; [done|].
    simpl. by rewrite log_at_times, IH. }
  rewrite <- !Hfold. by rewrite fmap_empty.
Qed.

(** A value that is not [tmin] resets no entry. *)
Lemma log_lookup tmin x node e nh n :
  eq_tmin e tmin = false →
  log tmin x node e nh !! n
  = if decide (n = node)
    then Some ((entry_of tmin nh node).1 ++ [e],
               (entry_of tmin nh node).2 ++ [x])
    else nh !! n.
Proof.
  intros He. unfold log. rewrite He. destruct (decide (n = node)) as [->|Hne].
  - by rewrite lookup_insert_eq.
  - by rewrite lookup_insert_ne.
Qed.

Lemma log_fold_lookup tmin x (l : list (Node * time_entry)) : ∀ nh n,
  NoDup l.*1 → Forall (λ nt, eq_tmin nt.2 tmin = false) l →
  foldl (λ nh nt, log tmin x nt.1 nt.2 nh) nh l !! n
  = match (list_to_map l : gmap Node time_entry) !! n with
    | Some e => Some ((entry_of tmin nh n).1 ++ [e],
                      (entry_of tmin nh n).2 ++ [x])
    | None => nh !! n
    end.
Proof.
  induction l as [|[a e] l IH]; intros nh n Hnd Hall; [done|].
  simpl in Hnd. apply NoDup_cons in Hnd as [Ha Hnd].
  apply Forall_cons in Hall as [He Hall]. simpl in He.
  simpl. rewrite IH by done. destruct (decide (n = a)) as [->|Hne].
  - rewrite lookup_insert_eq.
    rewrite (not_elem_of_list_to_map_1 _ _ Ha).
    rewrite log_lookup by done. by rewrite decide_True.
  - rewrite lookup_insert_ne by done.
    assert (entry_of tmin (log tmin x a e nh) n = entry_of tmin nh n) as ->.
    { unfold entry_of. rewrite log_lookup by done. by rewrite decide_False. }
    destruct (list_to_map l !! n); [done|].
    rewrite log_lookup by done. by rewrite decide_False.
Qed.

Lemma items_lookup (m : gmap Node (list number)) n :
  (list_to_map (items m) : gmap Node time_entry) !! n = a_list <$> m !! n.
Proof.
  unfold items.
  assert ((λ nL : Node * list number, (nL.1, a_list nL.2))
          = prod_map id a_list) as -> by done.
  by rewrite list_to_map_fmap, list_to_map_to_list, lookup_fmap.
Qed.

Lemma items_NoDup (m : gmap Node (list number)) : NoDup (items m).*1.
Proof.
  unfold items. rewrite <- list_fmap_compose.
  apply (NoDup_fst_map_to_list m).
Qed.

Lemma items_lists tmin (m : gmap Node (list number)) :
  Forall (λ nt, eq_tmin nt.2 tmin = false) (items m).
Proof. unfold items. apply Forall_fmap, Forall_forall. by intros [a L] _. Qed.

(** The entries of the node history that [Gillespie_SIR] returns. *)
Lemma transform_lists_lookup (mi mr : gmap Node (list number)) tmin n :
  _transform_to_node_history_ (items mi) (items mr) tmin !! n
  = match mi !! n, mr !! n with
    | None, None => None
    | Some Li, None =>
        Some ([a_time tmin; a_list Li], [Susceptible; Infected])
    | Some Li, Some Lr =>
        Some ([a_time tmin; a_list Li; a_list Lr],
              [Susceptible; Infected; Recovered])
    | None, Some Lr =>
        Some ([a_time tmin; a_list Lr], [Susceptible; Recovered])
    end.
Proof.
  unfold _transform_to_node_history_.
  rewrite (log_fold_lookup tmin Recovered (items mr))
    by (apply items_NoDup || apply items_lists).
  unfold entry_of.
  rewrite (log_fold_lookup tmin Infected (items mi))
    by (apply items_NoDup || apply items_lists).
  rewrite !items_lookup. unfold entry_of. rewrite lookup_empty.
  destruct (mi !! n), (mr !! n); done.
Qed.

Lemma set_all_is_Some {A} (l : list Node) (x : A) : ∀ m u,
  u ∈ l ∨ is_Some (m !! u) → is_Some (Gillespie.set_all l x m !! u).
Proof.
  unfold Gillespie.set_all.
  induction l as [|a l IH]; intros m u Hu; simpl.
  - destruct Hu as [Hu|Hu]; [by apply elem_of_nil in Hu|done].
  - apply IH. destruct (decide (u = a)) as [->|Hne].
    + right. rewrite lookup_insert_eq. by eexists.
    + rewrite lookup_insert_ne by done.
      destruct Hu as [[?|?]%elem_of_cons|?]; [done|by left|by right].
Qed.

Lemma SIR_iteration_infection_times G tau gamma rfd d l l' u :
  Gillespie.SIR_iteration G tau gamma rfd d l = Ok l' →
  is_Some (Gillespie.infection_times (Gillespie.st l) !! u) →
  is_Some (Gillespie.infection_times (Gillespie.st l') !! u).
Proof.
  intros Hit Hu. unfold Gillespie.SIR_iteration in Hit. bind_ok Hit as v Ev.
  bind_ok Hit as [s rate] Es. bind_ok Hit as nt Ent. injection Hit as <-.
  cbn [Gillespie.st]. destruct (QMicromega.Qlt_bool _ _).
  - bind_ok Es as s1 E1. bind_ok Es as il Eil. injection Es as <- _.
    unfold Gillespie._Gillespie_recover_SIR_ in E1.
    bind_ok E1 as [l1 x] E. bind_ok E1 as a1 F1. bind_ok E1 as a2 F2.
    bind_ok E1 as a3 F3. bind_ok E1 as ns En. bind_ok E1 as s2 Eloop.
    injection E1 as <-. apply recover_loop_SIR_same in Eloop.
    rewrite Eloop. done.
  - bind_ok Es as s1 E1. injection Es as <- _.
    unfold Gillespie._Gillespie_infect_ in E1.
    bind_ok E1 as [n x] E. bind_ok E1 as u0 Eas. bind_ok E1 as rg Erg.
    bind_ok E1 as sl Es. bind_ok E1 as il Ei. bind_ok E1 as R' ER.
    bind_ok E1 as ns En. apply infect_loop_same in E1. rewrite E1. simpl.
    destruct (decide (u = x)) as [->|Hne].
    + rewrite lookup_insert_eq. by eexists.
    + by rewrite lookup_insert_ne.
Qed.

Lemma SIR_run_infection_times G tau gamma ii ir rho tmin tmax smp x ds lii l :
  resolve_initial G ii rho smp = Ok lii →
  Gillespie.SIR_run G tau gamma ii ir rho tmin tmax true smp x ds = Ok l →
  ∀ u, u ∈ lii →
       is_Some (Gillespie.infection_times (Gillespie.st l) !! u).
Proof.
  intros Hres Hrun u Hu. unfold Gillespie.SIR_run in Hrun.
  bind_ok Hrun as l0 E0. apply run_loop_reachable in Hrun as [Hrun _].
  induction Hrun as [|l1 d l2 _ IH _ Hit].
  - unfold Gillespie.SIR_start in E0. bind_ok E0 as u0 Eu.
    rewrite Hres in E0. cbn [mbind result_bind] in E0.
    bind_ok E0 as s Es. apply enter_loop_st in E0 as ->.
    unfold Gillespie._Gillespie_initialize_SIR_ in Es. bind_ok Es as s1 E1.
    injection Es as <-. simpl. apply set_all_is_Some. by left.
  - by eapply SIR_iteration_infection_times.
Qed.

End FullDataProofs.

(** ** The horizon in the event-driven engines *)

Module HorizonProofs.
Import EntryPoints.
Import EventDriven.










End HorizonProofs.

(** * The properties of the specification *)

Import GillespieSpec EventSpec GillespieProofs EventProofs.

(** ** Facts about all the engines *)

Lemma Gillespie_handlers_append G :
  (∀ SIR t u k s s',
     Gillespie._Gillespie_infect_ G SIR t u k s = Ok s' →
     appended t (-1) 1 (if SIR then Some 0%Z else None) s s')
  ∧ (∀ rfd t k s s',
       Gillespie._Gillespie_recover_SIR_ G rfd t k s = Ok s' →
       appended t 0 (-1) (Some 1%Z) s s')
  ∧ (∀ rfd t k s s',
       Gillespie._Gillespie_recover_SIS_ G rfd t k s = Ok s' →
       appended t 1 (-1) None s s').
Proof.
  split; [|split].
  - intros SIR t u k s s' H.
    apply infect_appends in H as (sl & il & E1 & E2 & E3 & E4 & E5 & E6).
    split; [done|]. split; [by exists sl|]. split; [by exists il|].
    destruct SIR; [|done]. destruct E6 as (rl & ? & ?). exists rl.
    by rewrite Z.add_0_r.
  - intros rfd t k s s' H.
    apply recover_SIR_appends in H
      as (sl & il & rl & E1 & E2 & E3 & E4 & E5 & E6 & E7).
    split; [done|]. split; [exists sl; by rewrite Z.add_0_r|].
    split; [by exists il|]. by exists rl.
  - intros rfd t k s s' H.
    apply recover_SIS_appends in H as (sl & il & E1 & E2 & E3 & E4 & E5 & E6).
    split; [done|]. split; [by exists sl|]. split; [by exists il|]. done.
Qed.

Lemma call_of_some_engine c : ∃ e, call_ok False e c.
Proof.
  destruct c as [G n f|n|G src n trf rrf|G n fut f|n];
    [exists E_SIR|exists E_SIR|exists E_SIS_Markov
    |exists E_SIS_nonMarkov|exists E_SIS_Markov]; by simpl.
Qed.

Lemma run_call_matches d t c s s' :
  EventDriven.run_call d t c s = Ok s' → call_effect t c s s'.
Proof.
  intros H. destruct (call_of_some_engine c) as [e He].
  by destruct (run_call_effect False e d t c s s' He) as (_ & ? & _).
Qed.

Lemma both_given_raise G tau gamma ii ir rho tmin tmax rfd smp x ds rates dsE :
  Gillespie.Gillespie_SIR G tau gamma (Some ii) ir (Some rho) tmin tmax rfd
    smp x ds = Raise EoNError
  ∧ Gillespie.Gillespie_SIS G tau gamma (Some ii) (Some rho) tmin tmax rfd
      smp x ds = Raise EoNError
  ∧ EventDriven.fast_SIS G rates (Some ii) (Some rho) tmin tmax smp dsE
    = Raise EoNError.
Proof. done. Qed.

Lemma SIS_zero_rate_stops G tau gamma rfd d l l' tmax ds :
  Gillespie.SIS_iteration G tau gamma rfd d l = Ok l' →
  Qeq_bool (Gillespie.total_rate l') 0 = true →
  Gillespie.next_time l' = Inf
  ∧ Gillespie.run_loop (Gillespie.SIS_iteration G tau gamma rfd) tmax ds l'
    = Ok l'.
Proof.
  intros H H0. unfold Gillespie.SIS_iteration in H.
  bind_ok H as u Eu. bind_ok H as [s rate] Es. bind_ok H as nt Ent.
  injection H as <-. simpl in *.
  destruct (QMicromega.Qlt_bool 0 _) eqn:E.
  - apply Qlt_bool_true in E. apply Qeq_bool_eq in H0. rewrite H0 in E.
    by apply Qlt_irrefl in E.
  - injection Ent as <-. split; [done|].
    destruct ds; simpl; unfold Gillespie.loop_test; simpl;
      by destruct tmax.
Qed.

(** ** The properties, one by one *)

(** C1. The specification has both Gillespie engines stop when
    [total_rate] is 0 while infected nodes remain. [Gillespie_SIS] does:
    its branch [else: next_time = float('Inf')] ends the loop (last part of
    the statement). [Gillespie_SIR] has no [else] branch after
    [if total_rate > 0], so [next_time] stays below [tmax] and the loop
    goes on. On the path 0 - 1 with [tau = 1], [gamma = 0] and node 0
    infected, the first iteration infects node 1 and leaves
    [total_rate = 0] with two infected nodes; the loop test still holds,
    and the next iteration raises [IndexError] from [choose_random] on an
    empty risk group: [Gillespie_SIR] does not return, where
    [Gillespie_SIS] returns the series on the same input. *)
Theorem Gillespie_SIR_zero_rate_goes_on :
  (∃ l0 l1,
     Gillespie.SIR_start G01 1 0 (Some (Nodes [0])) None None (Fin 0) false []
       1 = Ok l0
     ∧ Gillespie.SIR_iteration G01 1 0 false draw_infect l0 = Ok l1
     ∧ Qeq_bool (Gillespie.total_rate l1) 0 = true
     ∧ Gillespie.infected (Gillespie.st l1) = [0; 1]
     ∧ Gillespie.loop_test Inf l1 = true
     ∧ Gillespie.SIR_iteration G01 1 0 false draw_infect l1
       = Raise IndexError)
  ∧ Gillespie.Gillespie_SIR G01 1 0 (Some (Nodes [0])) None None (Fin 0) Inf
      false [] 1 [draw_infect; draw_infect] = Raise IndexError
  ∧ Gillespie.Gillespie_SIS G01 1 0 (Some (Nodes [0])) None (Fin 0) Inf
      false [] 1 [draw_infect; draw_infect]
    = Ok ([Fin 0; Fin 1], [1; 0]%Z, [1; 2]%Z)
  ∧ ∀ G tau gamma rfd d l l' tmax ds,
      Gillespie.SIS_iteration G tau gamma rfd d l = Ok l' →
      Qeq_bool (Gillespie.total_rate l') 0 = true →
      Gillespie.next_time l' = Inf
      ∧ Gillespie.run_loop (Gillespie.SIS_iteration G tau gamma rfd) tmax ds l'
        = Ok l'.
Proof.
  split.
  { eexists _, _. split; [vm_compute; reflexivity|].
    split; [vm_compute; reflexivity|]. repeat split; by vm_compute. }
  split; [by vm_compute|]. split; [by vm_compute|].
  intros * H H0. by eapply SIS_zero_rate_stops.
Qed.

(** C2. The specification has every entry point raise a configuration
    error when both [initial_infecteds] and [rho] are given, also for
    [rho = 0].
    [Gillespie_SIR], [Gillespie_SIS] and [fast_SIS] test
    [rho is not None and initial_infecteds is not None] and raise
    [EoNError] for every such call; [fast_nonMarkov_SIR] and
    [fast_nonMarkov_SIS] test [rho and initial_infecteds], which is false
    for [rho = 0]: the call goes through and returns a series, and so does
    the call of [fast_SIR], which leaves the test to
    [fast_nonMarkov_SIR]. *)
Theorem fast_nonMarkov_zero_rho_accepted :
  EventDriven.fast_nonMarkov_SIR G01 None None (Some unit_delays_SIR)
    (Some (Nodes [0])) None (Some 0%Q) (Fin 0) (Fin 10) None []
    (replicate 4 unit_draws)
  = Ok ([Fin 0; Fin 1; Fin 2; Fin 3], [1; 0; 0; 0]%Z, [1; 2; 1; 0]%Z,
        [0; 0; 1; 2]%Z)
  ∧ EventDriven.fast_nonMarkov_SIS G01 None None (Some unit_delays_SIS)
      (Some (Nodes [0])) (Some 0%Q) (Fin 0) (Fin 3) []
      (replicate 12 unit_draws)
    = Ok ([Fin 0; Fin 1; Fin 2], [1; 0; 1]%Z, [1; 2; 1]%Z)
  ∧ EventDriven.fast_SIR G01 false (λ _ _ _, Fin 1, λ _ _, Fin 2)
      unit_delays_SIR (Some (Nodes [0])) None (Some 0%Q) (Fin 0) (Fin 10) []
      (replicate 4 unit_draws)
    = Ok ([Fin 0; Fin 1; Fin 2; Fin 3], [1; 0; 0; 0]%Z, [1; 2; 1; 0]%Z,
          [0; 0; 1; 2]%Z)
  ∧ EventDriven.fast_nonMarkov_SIR G01 None None (Some unit_delays_SIR)
      (Some (Nodes [0])) None (Some (1 # 2)) (Fin 0) (Fin 10) None []
      (replicate 4 unit_draws)
    = Raise EoNError
  ∧ ∀ G tau gamma ii ir rho tmin tmax rfd smp x ds rates dsE,
      Gillespie.Gillespie_SIR G tau gamma (Some ii) ir (Some rho) tmin tmax
        rfd smp x ds = Raise EoNError
      ∧ Gillespie.Gillespie_SIS G tau gamma (Some ii) (Some rho) tmin tmax rfd
          smp x ds = Raise EoNError
      ∧ EventDriven.fast_SIS G rates (Some ii) (Some rho) tmin tmax smp dsE
        = Raise EoNError.
Proof.
  split; [by vm_compute|]. split; [by vm_compute|]. split; [by vm_compute|].
  split; [by vm_compute|]. intros. apply both_given_raise.
Qed.

(** C3, corrected. [myQueue.add] tests [time < self.tmax]: in the queue
    reached by any history of calls, the event is dropped exactly when
    [time < tmax] fails, so also when [time] equals [tmax]; when
    [time < tmax] the queue gains the event, with a counter that is larger
    than the counter of every event enqueued before. *)
Theorem myQueue_add_exact {F} (ops : list (myQueue.op (F:=F)))
    (tmax0 time : number) (c : F) :
  let q := (myQueue.replay ops (myQueue.init tmax0) []).1 in
  let log := (myQueue.replay ops (myQueue.init tmax0) []).2 in
  myQueue.tmax q = tmax0
  ∧ (myQueue.add time c q = q ↔ tlt time tmax0 = false)
  ∧ (time <ₜ tmax0 →
     enqueued q (myQueue.add time c q) time c
     ∧ myQueue.counter (myQueue.add time c q) = myQueue.counter q + 1
     ∧ ∀ e, e ∈ log → myQueue.ev_counter e < myQueue.counter q).
Proof.
  intros q log.
  assert (myQueue.tmax q = tmax0) as Ht by apply replay_tmax.
  split; [done|]. unfold myQueue.add. rewrite Ht. split.
  - destruct (tlt time tmax0); [|done]. split; [|done].
    intros H. apply (f_equal myQueue.counter) in H. simpl in H. lia.
  - intros ->. split; [apply heappush_perm|]. split; [done|].
    apply replay_log_counter. by intros e ?%elem_of_nil.
Qed.

(** C3: an event whose time equals [tmax] is not enqueued. *)
Lemma myQueue_add_at_tmax_dropped :
  tle (Fin 5) (Fin 5) = true
  ∧ myQueue.add (Fin 5) () (myQueue.init (Fin 5)) = myQueue.init (Fin 5)
  ∧ myQueue._Q_ (myQueue.add (Fin 5) () (myQueue.init (Fin 5))) = [].
Proof. by vm_compute. Qed.

Lemma myQueue_add_exact_witness :
  Fin 3 <ₜ Fin 5
  ∧ enqueued
      (myQueue.replay [myQueue.OpAdd (Fin 1) (); myQueue.OpPop;
                       myQueue.OpAdd (Fin 2) ()] (myQueue.init (Fin 5)) []).1
      (myQueue.add (Fin 3) ()
         (myQueue.replay [myQueue.OpAdd (Fin 1) (); myQueue.OpPop;
                          myQueue.OpAdd (Fin 2) ()] (myQueue.init (Fin 5)) []).1)
      (Fin 3) ().
Proof.
  split; [reflexivity|].
  apply (myQueue_add_exact
           [myQueue.OpAdd (Fin 1) (); myQueue.OpPop; myQueue.OpAdd (Fin 2) ()]
           (Fin 5) (Fin 3) ()).
  reflexivity.
Defined.

(** C4. In the series returned by a run of any engine the counts of every
    index sum to the number of nodes of the graph, and two consecutive
    entries differ by one move: S loses one and I gains one, or I loses
    one and R gains one (SIR), or I loses one and S gains one (SIS). The
    move is the one of the event: every handler appends the entry of its
    action. *)
Theorem counts_sum_and_unit_moves (G : Graph) :
  (∀ tau gamma ii ir rho tmin tmax rfd smp x ds ts S I R,
     Gillespie.Gillespie_SIR G tau gamma ii ir rho tmin tmax rfd smp x ds
       = Ok (ts, S, I, R) →
     counts_SIR (order G) S I R)
  ∧ (∀ tau gamma ii rho tmin tmax rfd smp x ds ts S I,
       Gillespie.Gillespie_SIS G tau gamma ii rho tmin tmax rfd smp x ds
         = Ok (ts, S, I) →
       counts_SIS (order G) S I)
  ∧ (∀ ttf rtf jf ii ir rho tmin tmax Q smp ds ts S I R,
       EventDriven.fast_nonMarkov_SIR G ttf rtf jf ii ir rho tmin tmax Q smp ds
         = Ok (ts, S, I, R) →
       counts_SIR (order G) S I R)
  ∧ (∀ weighted split_fxns joint_fxn ii ir rho tmin tmax smp ds ts S I R,
       EventDriven.fast_SIR G weighted split_fxns joint_fxn ii ir rho tmin
         tmax smp ds = Ok (ts, S, I, R) →
       counts_SIR (order G) S I R)
  ∧ (∀ rates ii rho tmin tmax smp ds ts S I,
       EventDriven.fast_SIS G rates ii rho tmin tmax smp ds = Ok (ts, S, I) →
       counts_SIS (order G) S I)
  ∧ (∀ ttf rtf jf ii rho tmin tmax smp ds ts S I,
       EventDriven.fast_nonMarkov_SIS G ttf rtf jf ii rho tmin tmax smp ds
         = Ok (ts, S, I) →
       counts_SIS (order G) S I)
  ∧ (∀ d t c s s', EventDriven.run_call d t c s = Ok s' → call_effect t c s s')
  ∧ (∀ SIR t u k s s',
       Gillespie._Gillespie_infect_ G SIR t u k s = Ok s' →
       appended t (-1) 1 (if SIR then Some 0%Z else None) s s')
  ∧ (∀ rfd t k s s',
       Gillespie._Gillespie_recover_SIR_ G rfd t k s = Ok s' →
       appended t 0 (-1) (Some 1%Z) s s')
  ∧ (∀ rfd t k s s',
       Gillespie._Gillespie_recover_SIS_ G rfd t k s = Ok s' →
       appended t 1 (-1) None s s').
Proof.
  split; [|split; [|split; [|split; [|split; [|split; [|split]]]]]].
  - intros * H. by apply Gillespie_SIR_series in H as [? _].
  - intros * H. by apply Gillespie_SIS_series in H as [? _].
  - intros * H. by apply fast_nonMarkov_SIR_series in H as [? _].
  - intros * H. unfold EventDriven.fast_SIR in H.
    destruct weighted; by apply fast_nonMarkov_SIR_series in H as [? _].
  - intros * H. by apply fast_SIS_series in H as [? _].
  - intros * H. by apply fast_nonMarkov_SIS_series in H as [? _].
  - apply run_call_matches.
  - apply Gillespie_handlers_append.
Qed.

Lemma counts_sum_and_unit_moves_witness :
  counts_SIR (order G012) [2; 1; 1; 1]%Z [1; 2; 1; 0]%Z [0; 0; 1; 2]%Z
  ∧ counts_SIS (order G01) [1; 0; 1]%Z [1; 2; 1]%Z.
Proof.
  split.
  - apply (proj1 (counts_sum_and_unit_moves G012) 1%Q 1%Q (Some (Nodes [0]))
             (Some [2]) None (Fin 0) Inf false [] 1%Q
             [draw_infect; draw_recover; draw_recover]
             [Fin 0; Fin 1; Fin 2; Fin 3]).
    vm_compute. reflexivity.
  - apply (proj1 (proj2 (proj2 (proj2 (proj2 (proj2
                    (counts_sum_and_unit_moves G01))))))
             None None (Some unit_delays_SIS) (Some (Nodes [0])) None
             (Fin 0) (Fin 3) [] (replicate 12 unit_draws)
             [Fin 0; Fin 1; Fin 2]).
    vm_compute. reflexivity.
Defined.

(** C5. In every state that a run of [Gillespie_SIR] or [Gillespie_SIS]
    reaches (after the initialisation and after every iteration of the
    loop) a susceptible node with at least one infected neighbour is in
    the risk group of its number of infected neighbours and in no other,
    and a susceptible node without infected neighbour is in none. The
    graph is undirected and the initial infecteds are distinct nodes, none
    of them initially recovered. *)
Theorem risk_buckets_exact (SIR : bool) G tau gamma ii ir rho tmin tmax rfd
    smp x lii l0 l :
  undirected G →
  resolve_initial G ii rho smp = Ok lii → distinct_seeds SIR lii ir →
  Gillespie_start SIR G tau gamma ii ir rho tmin rfd smp x = Ok l0 →
  reachable (Gillespie_iteration SIR G tau gamma rfd) tmax l0 l →
  buckets_exact G (Gillespie.st l).
Proof.
  intros. apply ginv_buckets_exact. by eapply Gillespie_reachable_ginv.
Qed.

Lemma G012_undirected : undirected G012.
Proof. apply (bool_decide_unpack _). vm_compute. exact I. Defined.

Lemma seeds_0_distinct SIR : distinct_seeds SIR [0] (Some [2]).
Proof.
  split; [apply NoDup_singleton|].
  intros _ lr [= <-] v Hv Hv2. apply list_elem_of_singleton in Hv, Hv2.
  congruence.
Defined.

Lemma risk_buckets_exact_witness :
  ∃ l0 l1,
    Gillespie_start true G012 1 1 (Some (Nodes [0])) (Some [2]) None (Fin 0)
      false [] 1 = Ok l0
    ∧ Gillespie_iteration true G012 1 1 false draw_infect l0 = Ok l1
    ∧ buckets_exact G012 (Gillespie.st l1).
Proof.
  eexists _, _. split; [vm_compute; reflexivity|].
  split; [vm_compute; reflexivity|].
  eapply (risk_buckets_exact true G012 1 1 (Some (Nodes [0])) (Some [2]) None
            (Fin 0) Inf false [] 1 [0]).
  - exact G012_undirected.
  - reflexivity.
  - apply seeds_0_distinct.
  - vm_compute. reflexivity.
  - eapply (reach_step _ _ _ _ draw_infect); [apply reach_start| |];
      vm_compute; reflexivity.
Defined.

(** C6, corrected. In the loop of [_process_trans_SIR_] over the delays,
    the attempt towards [v] at [inf_time = time + delay] is enqueued exactly
    when [inf_time <= rec_time[node]], [inf_time < pred_inf_time[v]] and
    [inf_time < Q.tmax]: [Q.add] keeps an event only when its time is
    strictly before [Q.tmax]. When the attempt is enqueued,
    [pred_inf_time[v]] is set to [inf_time]. Over a run of the engine the
    predicted infection time of a node never increases. *)
Theorem schedule_trans_SIR_exact :
  (∀ G fxn t node v d s,
     let inf_time := t +ₜ d in
     let s' := EventDriven.schedule_trans_SIR G fxn t node (v, d) s in
     (enqueued (EventDriven.Q_ s) (EventDriven.Q_ s') inf_time
        (EventDriven.trans_SIR G v fxn)
      ↔ may_transmit s node v inf_time
        ∧ inf_time <ₜ myQueue.tmax (EventDriven.Q_ s))
     ∧ (¬ enqueued (EventDriven.Q_ s) (EventDriven.Q_ s') inf_time
            (EventDriven.trans_SIR G v fxn) →
        EventDriven.Q_ s' = EventDriven.Q_ s)
     ∧ (enqueued (EventDriven.Q_ s) (EventDriven.Q_ s') inf_time
          (EventDriven.trans_SIR G v fxn) →
        EventDriven.pred_inf_time s'
        = <[v := inf_time]> (EventDriven.pred_inf_time s))
     ∧ ∀ w, EventDriven.pred_inf_time_of s' w
            ≤ₜ EventDriven.pred_inf_time_of s w)
  ∧ (∀ G ttf rtf jf ii ir rho tmin tmax Q smp s0 l s s',
       EventDriven.SIR_start G ttf rtf jf ii ir rho tmin tmax Q smp
         = Ok (s0, l) →
       drains s0 s → drains s s' →
       ∀ v, EventDriven.pred_inf_time_of s' v
            ≤ₜ EventDriven.pred_inf_time_of s v).
Proof.
  split.
  - intros G fxn t node v d s inf_time s'.
    destruct (schedule_trans_SIR_spec G fxn t node v d s)
      as (A1 & A2 & A3 & _ & A5).
    split; [exact A1|]. split; [exact A2|]. split; [|exact A5].
    intros [Hm Hlt]%A1. apply A3. split; [done|]. by apply tlt_tle.
  - intros *. apply SIR_run_pred.
Qed.

(** C6: at [inf_time = Q.tmax] the three conditions hold for
    the susceptible neighbour 1 of the node 0 infected at time 0, and no
    event is enqueued. *)
Lemma transmission_at_tmax_not_enqueued :
  ∃ s',
    EventDriven._process_trans_SIR_ 0 (Fin 0) G01 0 unit_delays_SIR
      (EventDriven.initial_store 2 (Fin 0) (Fin 1) [0%Z]) = Ok s'
    ∧ status_of (EventDriven.status s') 1 = Susceptible
    ∧ Fin 0 +ₜ Fin 1 ≤ₜ EventDriven.rec_time_of s' 0
    ∧ Fin 0 +ₜ Fin 1
      <ₜ EventDriven.pred_inf_time_of
           (EventDriven.initial_store 2 (Fin 0) (Fin 1) [0%Z]) 1
    ∧ Fin 0 +ₜ Fin 1 ≤ₜ myQueue.tmax (EventDriven.Q_ s')
    ∧ myQueue._Q_ (EventDriven.Q_ s') = [].
Proof. eexists. split; [vm_compute; reflexivity|]. by vm_compute. Qed.

Lemma schedule_trans_SIR_exact_witness :
  enqueued
    (EventDriven.Q_ (EventDriven.initial_store 2 (Fin 0) (Fin 5) [0%Z]))
    (EventDriven.Q_
       (EventDriven.schedule_trans_SIR G01 unit_delays_SIR (Fin 0) 0
          (1, Fin 1)
          (EventDriven.set_rec_time {[0 := Fin 2]}
             (EventDriven.initial_store 2 (Fin 0) (Fin 5) [0%Z]))))
    (Fin 0 +ₜ Fin 1) (EventDriven.trans_SIR G01 1 unit_delays_SIR).
Proof.
  apply (proj1 schedule_trans_SIR_exact G01 unit_delays_SIR (Fin 0) 0 1
           (Fin 1)
           (EventDriven.set_rec_time {[0 := Fin 2]}
              (EventDriven.initial_store 2 (Fin 0) (Fin 5) [0%Z]))).
  by vm_compute.
Defined.

(** C7. The specification has the entries of the returned S, I and R be the
    numbers of susceptible, infected and recovered nodes. With a non-empty
    [initial_recovereds] they are not: [_Gillespie_initialize_SIR_] starts
    from [S = [G.order() - len(initial_infecteds)]] and [R = [0]], and
    [fast_nonMarkov_SIR] from [S = [G.order()]], [R = [0]], so the initially
    recovered nodes are counted as susceptible throughout. On the graph
    with the edge 0 - 1 and the isolated node 2, node 0 infected and node
    2 recovered, both engines end with S = 1 and R = 2 where no node is
    susceptible and three are recovered. *)
Theorem initial_recovereds_not_counted :
  (∃ l,
     Gillespie.SIR_run G012 1 1 (Some (Nodes [0])) (Some [2]) None (Fin 0) Inf
       false [] 1 [draw_infect; draw_recover; draw_recover] = Ok l
     ∧ Gillespie.Gillespie_SIR G012 1 1 (Some (Nodes [0])) (Some [2]) None
         (Fin 0) Inf false [] 1 [draw_infect; draw_recover; draw_recover]
       = Ok ([Fin 0; Fin 1; Fin 2; Fin 3], [2; 1; 1; 1]%Z, [1; 2; 1; 0]%Z,
             [0; 0; 1; 2]%Z)
     ∧ count_status G012 (Gillespie.status (Gillespie.st l)) Susceptible = 0%Z
     ∧ count_status G012 (Gillespie.status (Gillespie.st l)) Recovered = 3%Z)
  ∧ (∃ s0 l s,
       EventDriven.SIR_start G012 None None (Some unit_delays_SIR)
         (Some (Nodes [0])) (Some [2]) None (Fin 0) (Fin 10) None []
       = Ok (s0, l)
       ∧ EventDriven.drain (replicate 4 unit_draws) s0 = Ok s
       ∧ EventDriven.fast_nonMarkov_SIR G012 None None (Some unit_delays_SIR)
           (Some (Nodes [0])) (Some [2]) None (Fin 0) (Fin 10) None []
           (replicate 4 unit_draws)
         = Ok ([Fin 0; Fin 1; Fin 2; Fin 3], [2; 1; 1; 1]%Z, [1; 2; 1; 0]%Z,
               [0; 0; 1; 2]%Z)
       ∧ count_status G012 (EventDriven.status s) Susceptible = 0%Z
       ∧ count_status G012 (EventDriven.status s) Recovered = 3%Z).
Proof.
  split.
  - eexists. split; [vm_compute; reflexivity|]. by vm_compute.
  - eexists _, _, _. split; [vm_compute; reflexivity|].
    split; [vm_compute; reflexivity|]. by vm_compute.
Qed.

(** C8, corrected. With [tmin <= tmax] and non-negative rates and delays,
    the times returned by a run are non-decreasing and none is later than
    [tmax]. The series of a Gillespie engine starts at [tmin]. The series of
    an event-driven engine starts at [tmin] when [tmin < tmax] and the
    initial infecteds are distinct nodes, none of them initially
    recovered. *)
Theorem times_nondecreasing_within_horizon (G : Graph) (tmin tmax : number) :
  tmin ≤ₜ tmax →
  (∀ tau gamma ii ir rho rfd smp x ds ts S I R,
     (0 <= tau)%Q → (0 <= gamma)%Q →
     Gillespie.Gillespie_SIR G tau gamma ii ir rho tmin tmax rfd smp x ds
       = Ok (ts, S, I, R) →
     times_ok tmin tmax ts)
  ∧ (∀ tau gamma ii rho rfd smp x ds ts S I,
       (0 <= tau)%Q → (0 <= gamma)%Q →
       Gillespie.Gillespie_SIS G tau gamma ii rho tmin tmax rfd smp x ds
         = Ok (ts, S, I) →
       times_ok tmin tmax ts)
  ∧ (∀ ttf rtf jf ii ir rho Q smp ds ts S I R,
       nonneg_delays_SIR ttf rtf jf →
       EventDriven.fast_nonMarkov_SIR G ttf rtf jf ii ir rho tmin tmax Q smp ds
         = Ok (ts, S, I, R) →
       ∃ l, resolve_initial G ii rho smp = Ok l
            ∧ event_times_ok tmin tmax l ir ts)
  ∧ (∀ weighted split_fxns joint_fxn ii ir rho smp ds ts S I R,
       (if weighted : bool
        then nonneg_delays_SIR (Some split_fxns.1) (Some split_fxns.2) None
        else nonneg_joint_SIR joint_fxn) →
       EventDriven.fast_SIR G weighted split_fxns joint_fxn ii ir rho tmin
         tmax smp ds = Ok (ts, S, I, R) →
       ∃ l, resolve_initial G ii rho smp = Ok l
            ∧ event_times_ok tmin tmax l ir ts)
  ∧ (∀ rates ii rho smp ds ts S I,
       nonneg_rates rates.1 rates.2 →
       EventDriven.fast_SIS G rates ii rho tmin tmax smp ds = Ok (ts, S, I) →
       ∃ l, resolve_initial G ii rho smp = Ok l
            ∧ event_times_ok tmin tmax l None ts)
  ∧ (∀ ttf rtf jf ii rho smp ds ts S I,
       nonneg_delays_SIS ttf rtf jf →
       EventDriven.fast_nonMarkov_SIS G ttf rtf jf ii rho tmin tmax smp ds
         = Ok (ts, S, I) →
       ∃ l, resolve_initial G ii rho smp = Ok l
            ∧ event_times_ok tmin tmax l None ts).
Proof.
  intros Hmm. split; [|split; [|split; [|split; [|split]]]].
  - intros * Htau Hgamma H. apply Gillespie_SIR_series in H as [_ H]. by apply H.
  - intros * Htau Hgamma H. apply Gillespie_SIS_series in H as [_ H]. by apply H.
  - intros * Hnn H. apply fast_nonMarkov_SIR_series in H as [_ H]. by apply H.
  - intros * Hnn H. unfold EventDriven.fast_SIR in H.
    destruct weighted; apply fast_nonMarkov_SIR_series in H as [_ H];
      by apply H.
  - intros * Hnn H. apply fast_SIS_series in H as [_ H]. by apply H.
  - intros * Hnn H. apply fast_nonMarkov_SIS_series in H as [_ H]. by apply H.
Qed.

(** C8: with [tmin > tmax] the series of [Gillespie_SIR] holds [tmin],
    which is later than [tmax]; with a delay function that returns the
    transmission delay [-1], the series of [fast_nonMarkov_SIR] goes back
    from 0 to [-1]. *)
Lemma times_outside_horizon_or_decreasing :
  Gillespie.Gillespie_SIR G01 1 1 (Some (Nodes [0])) None None (Fin 5)
    (Fin 3) false [] 1 []
  = Ok ([Fin 5], [1%Z], [1%Z], [0%Z])
  ∧ tle (Fin 5) (Fin 3) = false
  ∧ EventDriven.fast_nonMarkov_SIR G01 None None
      (Some (λ _ _ ns, ((λ v, (v, Fin (-1))) <$> ns, Fin 2)))
      (Some (Nodes [0])) None None (Fin 0) (Fin 10) None []
      (replicate 4 unit_draws)
    = Ok ([Fin 0; Fin (-1); Fin 1; Fin 2], [1; 0; 0; 0]%Z, [1; 2; 1; 0]%Z,
          [0; 0; 1; 2]%Z)
  ∧ tle (Fin 0) (Fin (-1)) = false.
Proof. by vm_compute. Qed.

Lemma unit_delays_SIR_nonneg : nonneg_joint_SIR unit_delays_SIR.
Proof.
  intros seed n ns. split; [done|]. simpl. apply Forall_fmap, Forall_forall.
  by intros v _.
Defined.

Lemma times_nondecreasing_within_horizon_witness :
  times_ok (Fin 0) Inf [Fin 0; Fin 1; Fin 2; Fin 3]
  ∧ event_times_ok (Fin 0) (Fin 10) [0] (Some [2])
      [Fin 0; Fin 1; Fin 2; Fin 3].
Proof.
  split.
  - apply (proj1 (times_nondecreasing_within_horizon G012 (Fin 0) Inf eq_refl)
             1%Q 1%Q (Some (Nodes [0])) (Some [2]) None false [] 1%Q
             [draw_infect; draw_recover; draw_recover]
             [Fin 0; Fin 1; Fin 2; Fin 3] [2; 1; 1; 1]%Z [1; 2; 1; 0]%Z
             [0; 0; 1; 2]%Z); [discriminate|discriminate|].
    vm_compute. reflexivity.
  - destruct (proj1 (proj2 (proj2
               (times_nondecreasing_within_horizon G012 (Fin 0) (Fin 10) eq_refl)))
             None None (Some unit_delays_SIR) (Some (Nodes [0])) (Some [2])
             None None [] (replicate 4 unit_draws)
             [Fin 0; Fin 1; Fin 2; Fin 3] [2; 1; 1; 1]%Z [1; 2; 1; 0]%Z
             [0; 0; 1; 2]%Z unit_delays_SIR_nonneg) as (l & Hl & H).
    + vm_compute. reflexivity.
    + injection Hl as <-. exact H.
Defined.

(** C9. Each of the three faults raises: [pop_and_run] on an empty queue
    ([heappop] raises [IndexError]), [remove] of an item that the set does
    not hold ([dict.pop] raises [KeyError]), [choose_random] on an empty
    set ([random.choice] raises [IndexError]). *)
Theorem structural_faults_raise :
  (∀ (F B : Type) (run : number → F → myQueue.t F → result B)
     (q : myQueue.t F),
     myQueue._Q_ q = [] → myQueue.pop_and_run run q = Raise IndexError)
  ∧ (∀ d s, myQueue._Q_ (EventDriven.Q_ s) = [] →
            EventDriven.pop_and_run d s = Raise IndexError)
  ∧ (∀ (item : Node) (d : ListDict.t Node),
       ListDict.item_to_position d !! item = None →
       ListDict.remove item d = Raise KeyError)
  ∧ (∀ (d : ListDict.t Node) k,
       ListDict.items d = [] → ListDict.choose_random d k = Raise IndexError).
Proof.
  split; [|split; [|split]].
  - intros F B run q Hq. unfold myQueue.pop_and_run. by rewrite Hq.
  - intros d s Hq. unfold EventDriven.pop_and_run, myQueue.pop_and_run.
    by rewrite Hq.
  - intros item d Hd. unfold ListDict.remove. by rewrite Hd.
  - intros d k Hd. unfold ListDict.choose_random. by rewrite Hd.
Qed.

Lemma structural_faults_raise_witness :
  ListDict.remove 3 (ListDict.add 1 ListDict.init) = Raise KeyError
  ∧ ListDict.choose_random (ListDict.init (K:=Node)) 0 = Raise IndexError
  ∧ EventDriven.pop_and_run unit_draws
      (EventDriven.initial_store 2 (Fin 0) (Fin 1) [0%Z]) = Raise IndexError.
Proof.
  split; [|split].
  - apply (proj1 (proj2 (proj2 structural_faults_raise))). reflexivity.
  - apply (proj2 (proj2 (proj2 structural_faults_raise))). reflexivity.
  - apply (proj1 (proj2 structural_faults_raise)). reflexivity.
Defined.

(** C10. In every state that a run of [Gillespie_SIR] or [Gillespie_SIS]
    reaches, when the total transmission rate is positive the weighted scan
    of [_Gillespie_infect_] ends on a risk group that is not empty, the
    node that [choose_random] draws from it is susceptible, so the
    assertion holds, and [_Gillespie_infect_] returns. Self-loops do no
    harm. *)
Theorem infect_recipient_susceptible (SIR : bool) G tau gamma ii ir rho tmin
    tmax rfd smp x lii l0 l t u k :
  undirected G →
  resolve_initial G ii rho smp = Ok lii → distinct_seeds SIR lii ir →
  Gillespie_start SIR G tau gamma ii ir rho tmin rfd smp x = Ok l0 →
  reachable (Gillespie_iteration SIR G tau gamma rfd) tmax l0 l →
  (0 <= tau)%Q → (0 < Gillespie.total_trans_rate tau (Gillespie.st l))%Q →
  (0 <= u)%Q → (u < 1)%Q →
  ∃ n recipient s',
    Gillespie.choose_recipient (Gillespie.risk_group (Gillespie.st l)) u k
      = Ok (n, recipient)
    ∧ ListDict.items
        (Gillespie.rg_get (Gillespie.risk_group (Gillespie.st l)) n) ≠ []
    ∧ recipient ∈ ListDict.items
        (Gillespie.rg_get (Gillespie.risk_group (Gillespie.st l)) n)
    ∧ status_of (Gillespie.status (Gillespie.st l)) recipient = Susceptible
    ∧ py_assert
        (bool_decide
           (status_of (Gillespie.status (Gillespie.st l)) recipient
            = Susceptible)) = Ok ()
    ∧ Gillespie._Gillespie_infect_ G SIR t u k (Gillespie.st l) = Ok s'.
Proof.
  intros HG Hres Hseeds Hstart Hreach Htau Hrate Hu0 Hu1.
  apply infect_succeeds; try done.
  - by eapply Gillespie_reachable_ginv.
  - by eapply Gillespie_reachable_nonempty.
  - unfold Gillespie.total_trans_rate in Hrate.
    destruct (decide (0 < Gillespie.weighted_size
                            (Gillespie.risk_group (Gillespie.st l)))%Z)
      as [|Hn]; [done|].
    exfalso. apply Z.nlt_ge in Hn. rewrite Zle_Qle in Hn.
    change (inject_Z 0) with 0%Q in Hn. nra.
Qed.

Lemma infect_recipient_susceptible_witness :
  ∃ l0,
    Gillespie_start true G012 1 1 (Some (Nodes [0])) (Some [2]) None (Fin 0)
      false [] 1 = Ok l0
    ∧ ∃ n recipient s',
        Gillespie.choose_recipient (Gillespie.risk_group (Gillespie.st l0))
          (1 # 2) 0 = Ok (n, recipient)
        ∧ ListDict.items
            (Gillespie.rg_get (Gillespie.risk_group (Gillespie.st l0)) n) ≠ []
        ∧ recipient ∈ ListDict.items
            (Gillespie.rg_get (Gillespie.risk_group (Gillespie.st l0)) n)
        ∧ status_of (Gillespie.status (Gillespie.st l0)) recipient
          = Susceptible
        ∧ py_assert
            (bool_decide
               (status_of (Gillespie.status (Gillespie.st l0)) recipient
                = Susceptible)) = Ok ()
        ∧ Gillespie._Gillespie_infect_ G012 true (Fin 1) (1 # 2) 0
            (Gillespie.st l0) = Ok s'.
Proof.
  eexists. split; [vm_compute; reflexivity|].
  eapply (infect_recipient_susceptible true G012 1 1 (Some (Nodes [0]))
            (Some [2]) None (Fin 0) Inf false [] 1 [0]).
  - exact G012_undirected.
  - reflexivity.
  - apply seeds_0_distinct.
  - vm_compute. reflexivity.
  - apply reach_start.
  - discriminate.
  - reflexivity.
  - discriminate.
  - reflexivity.
Defined.

(** ** Further properties of the code *)

(** X1. In a run of [Gillespie_SIR] or [Gillespie_SIS] on an undirected
    graph, with distinct initial infecteds and no initially recovered node,
    the last entries of [S], [I] and (for SIR) [R] are, in every state of
    the loop, the numbers of nodes whose status is ['S'], ['I'] and ['R']. *)
Theorem Gillespie_entries_are_status_counts (SIR : bool) G tau gamma ii ir
    rho tmin tmax rfd smp x lii l0 l :
  undirected G →
  resolve_initial G ii rho smp = Ok lii → NoDup lii →
  (SIR = true → default [] ir = []) →
  Gillespie_start SIR G tau gamma ii ir rho tmin rfd smp x = Ok l0 →
  reachable (Gillespie_iteration SIR G tau gamma rfd) tmax l0 l →
  counted SIR G (Gillespie.st l).
Proof.
  intros HG Hres Hnd Hir Hstart Hreach.
  assert (distinct_seeds SIR lii ir) as Hseeds.
  { split; [done|]. intros HS lr -> v _. specialize (Hir HS). simpl in Hir.
    subst lr. apply not_elem_of_nil. }
  induction Hreach as [|l d l' Hr IH _ Hit].
  - destruct SIR; simpl in Hstart.
    + unfold Gillespie.SIR_start in Hstart. bind_ok Hstart as u Eu.
      rewrite Hres in Hstart. simpl in Hstart. bind_ok Hstart as s Es.
      apply enter_loop_st in Hstart as ->.
      eapply initialize_SIR_counted; [done| |done]. by apply Hir.
    + unfold Gillespie.SIS_start in Hstart. bind_ok Hstart as u Eu.
      rewrite Hres in Hstart. simpl in Hstart. bind_ok Hstart as s Es.
      apply enter_loop_st in Hstart as ->.
      by eapply initialize_SIS_counted.
  - pose proof (Gillespie_reachable_ginv SIR G tau gamma ii ir rho tmin tmax
                  rfd smp x lii l0 l HG Hres Hseeds Hstart Hr) as Hg.
    destruct SIR; simpl in Hit.
    + unfold Gillespie.SIR_iteration in Hit. bind_ok Hit as u Eu.
      bind_ok Hit as [s rate] Es. bind_ok Hit as nt Ent. injection Hit as <-.
      cbn [Gillespie.st]. destruct (QMicromega.Qlt_bool _ _).
      * bind_ok Es as s1 E1. bind_ok Es as il Eil. injection Es as <- <-.
        by eapply recover_SIR_counted.
      * bind_ok Es as s1 E1. injection Es as <- <-. by eapply infect_counted.
    + unfold Gillespie.SIS_iteration in Hit. bind_ok Hit as u Eu.
      bind_ok Hit as [s rate] Es. bind_ok Hit as nt Ent. injection Hit as <-.
      cbn [Gillespie.st]. destruct (QMicromega.Qlt_bool _ _).
      * bind_ok Es as s1 E1. bind_ok Es as il Eil. injection Es as <- <-.
        by eapply recover_SIS_counted.
      * bind_ok Es as s1 E1. injection Es as <- <-. by eapply infect_counted.
Qed.

Lemma Gillespie_entries_are_status_counts_witness :
  ∃ l0 l1,
    Gillespie_start true G012 1 1 (Some (Nodes [0])) None None (Fin 0)
      false [] 1 = Ok l0
    ∧ Gillespie_iteration true G012 1 1 false draw_infect l0 = Ok l1
    ∧ counted true G012 (Gillespie.st l1).
Proof.
  eexists _, _. split; [vm_compute; reflexivity|].
  split; [vm_compute; reflexivity|].
  eapply (Gillespie_entries_are_status_counts true G012 1 1
            (Some (Nodes [0])) None None (Fin 0) Inf false [] 1 [0]).
  - exact G012_undirected.
  - reflexivity.
  - apply NoDup_singleton.
  - reflexivity.
  - vm_compute. reflexivity.
  - eapply (reach_step _ _ _ _ draw_infect); [apply reach_start| |];
      vm_compute; reflexivity.
Defined.

(** X2. In a run of an event-driven engine without initially recovered
    nodes, whenever the loop has popped and run some events the last
    entries of [S], [I] and (for SIR) [R] are the numbers of nodes whose
    status is ['S'], ['I'] and ['R'], the queue holds at most one recovery
    event for a node, and the node of a recovery event of the queue is an
    infected node of the graph; the initial infecteds need not be
    distinct. *)
Theorem event_entries_are_status_counts (G : Graph) (tmin tmax : number) :
  (∀ ttf rtf jf ii ir rho Q smp s l s',
     default [] ir = [] →
     EventDriven.SIR_start G ttf rtf jf ii ir rho tmin tmax Q smp = Ok (s, l) →
     drains s s' →
     counted_store E_SIR G s'
     ∧ NoDup (rec_nodes (EventDriven.Q_ s'))
     ∧ ∀ n, n ∈ rec_nodes (EventDriven.Q_ s') →
            status_of (EventDriven.status s') n = Infected ∧ n ∈ nodes G)
  ∧ (∀ rates ii rho smp s l s',
       EventDriven.SIS_Markov_start G rates ii rho tmin tmax smp = Ok (s, l) →
       drains s s' →
       counted_store E_SIS_Markov G s'
       ∧ NoDup (rec_nodes (EventDriven.Q_ s'))
       ∧ ∀ n, n ∈ rec_nodes (EventDriven.Q_ s') →
              status_of (EventDriven.status s') n = Infected ∧ n ∈ nodes G)
  ∧ (∀ ttf rtf jf ii rho smp s l s',
       EventDriven.SIS_nonMarkov_start G ttf rtf jf ii rho tmin tmax smp
         = Ok (s, l) →
       drains s s' →
       counted_store E_SIS_nonMarkov G s'
       ∧ NoDup (rec_nodes (EventDriven.Q_ s'))
       ∧ ∀ n, n ∈ rec_nodes (EventDriven.Q_ s') →
              status_of (EventDriven.status s') n = Infected ∧ n ∈ nodes G).
Proof.
  split; [|split].
  - intros ttf rtf jf ii ir rho Q smp s l s' Hir Hs Hd.
    destruct (drains_cinv E_SIR G s s' Hd) as (_ & A2 & A3 & A4);
      [by eapply SIR_start_cinv|done].
  - intros rates ii rho smp s l s' Hs Hd.
    destruct (drains_cinv E_SIS_Markov G s s' Hd) as (_ & A2 & A3 & A4);
      [by eapply SIS_Markov_start_cinv|done].
  - intros ttf rtf jf ii rho smp s l s' Hs Hd.
    destruct (drains_cinv E_SIS_nonMarkov G s s' Hd) as (_ & A2 & A3 & A4);
      [by eapply SIS_nonMarkov_start_cinv|done].
Qed.

Lemma event_entries_are_status_counts_witness :
  ∃ s l s1 s2,
    EventDriven.SIR_start G012 None None (Some unit_delays_SIR)
      (Some (Nodes [0; 0])) None None (Fin 0) (Fin 10) None [] = Ok (s, l)
    ∧ EventDriven.pop_and_run unit_draws s = Ok s1
    ∧ EventDriven.pop_and_run unit_draws s1 = Ok s2
    ∧ counted_store E_SIR G012 s2
    ∧ NoDup (rec_nodes (EventDriven.Q_ s2))
    ∧ ∀ n, n ∈ rec_nodes (EventDriven.Q_ s2) →
           status_of (EventDriven.status s2) n = Infected ∧ n ∈ nodes G012.
Proof.
  eexists _, _, _, _. split; [vm_compute; reflexivity|].
  split; [vm_compute; reflexivity|]. split; [vm_compute; reflexivity|].
  eapply (proj1 (event_entries_are_status_counts G012 (Fin 0) (Fin 10))
            None None (Some unit_delays_SIR) (Some (Nodes [0; 0])) None None
            None []).
  - reflexivity.
  - vm_compute. reflexivity.
  - eapply (drains_step _ unit_draws);
      [eapply (drains_step _ unit_draws); [apply drains_refl|]|];
      vm_compute; reflexivity.
Defined.

(** X3. [_ListDict_] is a set of items. The empty one satisfies the
    representation invariant ([item_to_position] maps each item to its
    index in [items]); [add] keeps it and adds the item, leaving the
    others; [remove] of an item that is present returns, keeps the
    invariant and removes that item and no other; [choose_random] on a
    non-empty one returns one of its items. *)
Theorem ListDict_is_a_set {K : Type} `{Countable K} :
  ListDict.wf (ListDict.init (K:=K))
  ∧ (∀ (d : ListDict.t K) x,
       ListDict.wf d →
       ListDict.wf (ListDict.add x d)
       ∧ ∀ y, y ∈ ListDict.items (ListDict.add x d)
              ↔ y = x ∨ y ∈ ListDict.items d)
  ∧ (∀ (d : ListDict.t K) x,
       ListDict.wf d → x ∈ ListDict.items d →
       ∃ d', ListDict.remove x d = Ok d' ∧ ListDict.wf d'
             ∧ ∀ y, y ∈ ListDict.items d' ↔ y ∈ ListDict.items d ∧ y ≠ x)
  ∧ (∀ (d : ListDict.t K) k,
       ListDict.items d ≠ [] →
       ∃ x, ListDict.choose_random d k = Ok x ∧ x ∈ ListDict.items d).
Proof.
  split; [apply ListDict_wf_init|].
  split; [intros d x; apply ListDict_add_spec|].
  split; [intros d x; apply ListDict_remove_spec|].
  intros d k Hne. unfold ListDict.choose_random, random_choice.
  destruct (ListDict.items d) as [|a l] eqn:E; [done|].
  assert (k mod length (a :: l) < length (a :: l)) as Hlt.
  { apply Nat.mod_upper_bound. simpl. lia. }
  apply lookup_lt_is_Some_2 in Hlt as [x Hx].
  exists x. unfold py_get. rewrite Hx. split; [done|].
  by eapply list_elem_of_lookup_2.
Qed.

Import AuxiliaryProofs.

(** X6. The SIR case of [_transform_to_node_history_]: the entry of a node
    depends on its own infection and recovery times only. A node in neither
    dict has no entry. An infection at [ti] gives [([tmin, ti], ['S', 'I'])],
    or [([ti], ['I'])] when [ti == tmin]; a recovery at [tr] appends [tr]
    and ['R'], except that a recovery with [tr == tmin] replaces the entry
    by [([tr], ['R'])]; a node with a recovery time and no infection time
    gets [([tmin, tr], ['S', 'R'])]. *)
Theorem node_history_SIR_entries
    (infection_times recovery_times : list (Node * number)) (tmin : number)
    (n : Node) :
  NoDup infection_times.*1 → NoDup recovery_times.*1 →
  Auxiliary._transform_to_node_history_SIR infection_times recovery_times tmin
    !! n
  = match (list_to_map infection_times : gmap Node number) !! n,
          (list_to_map recovery_times : gmap Node number) !! n with
    | None, None => None
    | Some ti, None =>
        Some (if teq ti tmin then ([ti], [Infected])
              else ([tmin; ti], [Susceptible; Infected]))
    | Some ti, Some tr =>
        Some (if teq tr tmin then ([tr], [Recovered])
              else if teq ti tmin then ([ti; tr], [Infected; Recovered])
              else ([tmin; ti; tr], [Susceptible; Infected; Recovered]))
    | None, Some tr =>
        Some (if teq tr tmin then ([tr], [Recovered])
              else ([tmin; tr], [Susceptible; Recovered]))
    end.
Proof.
  intros Hi Hr. unfold Auxiliary._transform_to_node_history_SIR.
  rewrite log_changes_lookup by done.
  unfold Auxiliary.history_of. rewrite !log_changes_lookup by done.
  rewrite lookup_empty.
  destruct (list_to_map infection_times !! n) as [ti|];
    destruct (list_to_map recovery_times !! n) as [tr|]; try done;
    repeat (destruct (teq _ _)); done.
Qed.

Lemma node_history_SIR_entries_witness :
  Auxiliary._transform_to_node_history_SIR
    [(0, Fin 0); (1, Fin (3 # 2)); (2, Fin 2)]
    [(0, Fin 1); (1, Fin 3); (5, Fin (-1)); (2, Fin 0)] (Fin 0) !! 1
  = Some ([Fin 0; Fin (3 # 2); Fin 3], [Susceptible; Infected; Recovered]).
Proof.
  rewrite (node_history_SIR_entries
             [(0, Fin 0); (1, Fin (3 # 2)); (2, Fin 2)]
             [(0, Fin 1); (1, Fin 3); (5, Fin (-1)); (2, Fin 0)] (Fin 0) 1).
  - reflexivity.
  - apply (bool_decide_unpack _). vm_compute. exact I.
  - apply (bool_decide_unpack _). vm_compute. exact I.
Defined.

(** X7. The SIS case of [_transform_to_node_history_]: the entry of a node
    depends on its own lists of infection and recovery times only. A node
    without infection time has no entry. Otherwise, when no infection time
    after the first one equals [tmin], the entry lists the infections and
    the recoveries in turn, ['I'] at the infection times and ['S'] at the
    recovery times as long as there are some, after the initial
    [(tmin, 'S')], which is left out when the first infection time equals
    [tmin]. *)
Theorem node_history_SIS_entries
    (infection_times : list (Node * list number))
    (recovery_times : gmap Node (list number)) (tmin : number) (n : Node) :
  NoDup infection_times.*1 →
  let node_history :=
    Auxiliary._transform_to_node_history_SIS infection_times recovery_times
      tmin in
  let Rtimes := default [] (recovery_times !! n) in
  match (list_to_map infection_times : gmap Node (list number)) !! n with
  | None | Some [] => node_history !! n = None
  | Some (ti :: Itimes) =>
      Forall (λ t, teq t tmin = false) Itimes →
      node_history !! n
      = Some (unzip_history
                (if teq ti tmin then cycles (ti :: Itimes) Rtimes
                 else (tmin, Susceptible) :: cycles (ti :: Itimes) Rtimes))
  end.
Proof.
  intros Hnd node_history Rtimes. unfold node_history,
    Auxiliary._transform_to_node_history_SIS.
  rewrite transform_SIS_lookup by done.
  destruct (list_to_map infection_times !! n) as [[|ti Itimes]|]; [done| |done].
  intros HF. fold Rtimes. destruct (teq ti tmin) eqn:Hti.
  - by rewrite log_cycles_reset.
  - rewrite log_cycles_same; [|by constructor|done].
    unfold Auxiliary.history_of. by rewrite lookup_empty.
Qed.

Lemma node_history_SIS_entries_witness :
  Auxiliary._transform_to_node_history_SIS
    [(0, [Fin 0; Fin 2; Fin 4]); (1, [Fin 1])]
    (<[0 := [Fin 1; Fin 3]]> (<[1 := [Fin 2; Fin 7]]> ∅)) (Fin 0) !! 1
  = Some ([Fin 0; Fin 1; Fin 2], [Susceptible; Infected; Susceptible]).
Proof.
  assert (NoDup [(0, [Fin 0; Fin 2; Fin 4]); (1, [Fin 1])].*1) as Hnd.
  { apply (bool_decide_unpack _). vm_compute. exact I. }
  generalize (node_history_SIS_entries
                [(0, [Fin 0; Fin 2; Fin 4]); (1, [Fin 1])]
                (<[0 := [Fin 1; Fin 3]]> (<[1 := [Fin 2; Fin 7]]> ∅)) (Fin 0) 1
                Hnd).
  vm_compute. intros H. apply H. constructor.
Defined.

Import DiscreteProofs.

(** X8. The series returned by [discrete_SIR] (hence by
    [basic_discrete_SIR]) have the same length, the times start at [tmin]
    and go up by one, every entry of [S], [I], [R] sums to the number of
    nodes, [I] starts at the number of initial infecteds and [R] at 0, and
    from one entry to the next the infected nodes recover
    ([R[k+1] = R[k] + I[k]]) and [I[k+1] >= 0] nodes leave [S]. The loop
    stops when nobody is infected or when the last time is not before
    [tmax]: every time but the last is before [tmax], and the last may be
    past it. *)
Theorem discrete_SIR_series (G : Graph) (test : Discrete.test_fxn)
    ii ir rho (tmin tmax : number) rfd smp ds ts S I R nh :
  Discrete.discrete_SIR G test ii ir rho tmin tmax rfd smp ds
    = Ok (ts, S, I, R, nh) →
  ∃ l, resolve_initial G ii rho smp = Ok l
       ∧ length ts = length I ∧ head ts = Some tmin ∧ unit_steps ts
       ∧ before_horizon tmax ts
       ∧ generations (order G) S I R
       ∧ head I = Some (Z.of_nat (length l)) ∧ head R = Some 0%Z
       ∧ (last I = Some 0%Z ∨ ∃ a, last ts = Some a ∧ tlt a tmax = false).
Proof.
  intros H. unfold Discrete.discrete_SIR in H.
  bind_ok H as s0 Es0. bind_ok H as s Es. injection H as <- <- <- <- <-.
  apply (start_series _ _ _ _ _ tmax) in Es0 as (l & Hl & Hinv).
  apply (loop_series _ _ _ _ _ _ _ _ _ _ Hinv) in Es
    as [(A1 & A2 & A3 & A4 & A5 & A6 & A7 & A8) Hstop].
  exists l. do 8 (split; [done|]).
  unfold Discrete.loop_test in Hstop.
  destruct (Discrete.infecteds s) as [|u us] eqn:E; [left; by rewrite A8|].
  right. bind_ok Hstop as a Ea. injection Hstop as Hlt.
  apply py_last_Some in Ea. by exists a.
Qed.

Lemma discrete_SIR_series_witness :
  ∃ ts S I R,
    Discrete.basic_discrete_SIR P4 (1 # 2) (Some (Nodes [0])) None None
      (Fin 0) (Fin (3 # 2)) false [] (replicate 3 [1 # 10; 1 # 10])
    = Ok (ts, S, I, R, None)
    ∧ ts = [Fin 0; Fin 1; Fin 2]
    ∧ I = [1; 1; 1]%Z
    ∧ ∃ l, resolve_initial P4 (Some (Nodes [0])) None [] = Ok l
         ∧ length ts = length I ∧ head ts = Some (Fin 0) ∧ unit_steps ts
         ∧ before_horizon (Fin (3 # 2)) ts
         ∧ generations (order P4) S I R
         ∧ head I = Some (Z.of_nat (length l)) ∧ head R = Some 0%Z
         ∧ (last I = Some 0%Z
            ∨ ∃ a, last ts = Some a ∧ tlt a (Fin (3 # 2)) = false).
Proof.
  eexists _, _, _, _. split; [vm_compute; reflexivity|].
  split; [reflexivity|]. split; [reflexivity|].
  eapply (discrete_SIR_series P4 (Discrete._simple_test_transmission_ (1 # 2))
            (Some (Nodes [0])) None None (Fin 0) (Fin (3 # 2)) false []
            (replicate 3 [1 # 10; 1 # 10])).
  vm_compute. reflexivity.
Defined.

(** X9. In a run of [discrete_SIR] on a graph whose neighbours are nodes,
    from distinct initial infecteds that are nodes of the graph, no node is
    infected twice: no entry of [S] is negative, and the run has at most
    as many steps as the graph has nodes. *)
Theorem discrete_SIR_population (G : Graph) (test : Discrete.test_fxn)
    ii ir rho (tmin tmax : number) rfd smp ds l ts S I R nh :
  closed G →
  resolve_initial G ii rho smp = Ok l → NoDup l → l ⊆ nodes G →
  Discrete.discrete_SIR G test ii ir rho tmin tmax rfd smp ds
    = Ok (ts, S, I, R, nh) →
  Forall (λ x, 0 ≤ x)%Z S
  ∧ (Z.of_nat (length ts) ≤ order G + 1)%Z.
Proof.
  intros HG Hl Hnd Hsub H. unfold Discrete.discrete_SIR in H.
  bind_ok H as s0 Es0. bind_ok H as s Es. injection H as <- <- <- <- <-.
  pose proof (start_population _ _ _ _ _ _ _ _ _ Es0 Hl Hnd Hsub) as Hpop0.
  apply (start_series _ _ _ _ _ tmax) in Es0 as (l' & Hl' & Hinv0).
  pose proof (loop_population _ _ _ _ _ _ _ _ _ _ HG Hinv0 Hpop0 Es)
    as (HS & r & Hr & Hlen).
  apply (loop_series _ _ _ _ _ _ _ _ _ _ Hinv0) in Es
    as [(A1 & A2 & A3 & A4 & A5 & A6 & A7 & A8) _].
  split.
  - eapply Forall_impl; [exact HS|]. intros x Hx. simpl in Hx.
    pose proof (sus_count_nonneg G (Discrete.susceptible s)). lia.
  - destruct A5 as (L1 & L2 & Hsum & _).
    destruct (last (Discrete.S_ s)) as [sl|] eqn:Hsl.
    2:{ apply last_None in Hsl. rewrite Hsl in L1.
        rewrite <- L1 in A1. simpl in A1. rewrite L2 in L1.
        destruct (Discrete.R_ s); [done|]. simpl in L1. lia. }
    assert (length (Discrete.S_ s) ≠ 0) as HS0.
    { intros E. apply length_zero_iff_nil in E. by rewrite E in Hsl. }
    destruct (length (Discrete.S_ s)) as [|k] eqn:E; [done|].
    assert (sl + Z.of_nat (length (Discrete.infecteds s)) + r = order G)%Z
      as Hs.
    { apply (Hsum k (sl, Z.of_nat (length (Discrete.infecteds s)), r)).
      repeat split; simpl; apply last_lookup_length; try done; lia. }
    assert (0 ≤ sl)%Z.
    { assert (sus_count G (Discrete.susceptible s) ≤ sl)%Z.
      { apply (proj1 (Forall_forall _ _) HS). rewrite last_lookup in Hsl.
        by eapply list_elem_of_lookup_2. }
      pose proof (sus_count_nonneg G (Discrete.susceptible s)). lia. }
    lia.
Qed.

Lemma discrete_SIR_population_witness :
  ∃ ts S I R,
    Discrete.basic_discrete_SIR P4 (1 # 2) (Some (Nodes [0])) None None
      (Fin 0) Inf false [] (replicate 4 [1 # 10; 1 # 10])
    = Ok (ts, S, I, R, None)
    ∧ S = [3; 2; 1; 0; 0]%Z
    ∧ Forall (λ x, 0 ≤ x)%Z S
    ∧ (Z.of_nat (length ts) ≤ order P4 + 1)%Z.
Proof.
  eexists _, _, _, _. split; [vm_compute; reflexivity|].
  split; [reflexivity|].
  eapply (discrete_SIR_population P4
            (Discrete._simple_test_transmission_ (1 # 2))
            (Some (Nodes [0])) None None (Fin 0) Inf false []
            (replicate 4 [1 # 10; 1 # 10]) [0]).
  - apply (bool_decide_unpack _). vm_compute. exact I.
  - reflexivity.
  - apply NoDup_singleton.
  - apply (bool_decide_unpack _). vm_compute. exact I.
  - vm_compute. reflexivity.
Defined.

(** X10. [basic_discrete_SIS] never passes the infection on: the loop
    drops the set that [next_infecteds.union(...)] returns, so
    [next_infecteds] stays empty. With at least one initial infected and
    [tmin < tmax] the result is [t = [tmin, tmin+1]], [S = [N-k, N]],
    [I = [k, 0]], with [k = len(initial_infecteds)], for every [p] and every
    graph; otherwise the loop is not entered and the series have one
    entry. *)
Theorem basic_discrete_SIS_dies_out (G : Graph) (p : Q) ii rho
    (tmin tmax : number) rfd smp ds ts S I nh :
  Discrete.basic_discrete_SIS G p ii rho tmin tmax rfd smp ds
    = Ok (ts, S, I, nh) →
  ∃ l, resolve_initial G ii rho smp = Ok l
       ∧ let k := Z.of_nat (length l) in
         if bool_decide (l ≠ []) && tlt tmin tmax
         then ts = [tmin; tmin +ₜ Fin 1]
              ∧ S = [order G - k; order G]%Z ∧ I = [k; 0]%Z
         else ts = [tmin] ∧ S = [order G - k]%Z ∧ I = [k].
Proof.
  intros H. unfold Discrete.basic_discrete_SIS in H.
  bind_ok H as u Eu. bind_ok H as l El. bind_ok H as s Es.
  injection H as <- <- <- <-. exists l. split; [done|].
  apply loop_SIS_spec in Es; [|done]. cbn [Discrete.infecteds' Discrete.S'
    Discrete.I' Discrete.t'] in Es.
  assert ((list_to_set l : gset Node) = ∅ ↔ l = []) as Hempty.
  { split; [|by intros ->]. destruct l as [|a l']; [done|]. simpl.
    intros Hl. exfalso. assert (a ∈ (∅ : gset Node)) as Ha; [|set_solver].
    rewrite <- Hl. set_solver. }
  destruct Es as [(E1 & E2 & E3 & E4 & E5)|([E1|E1] & E3 & E4 & E5)].
  - rewrite bool_decide_true by (intros Hl; apply E1; by apply Hempty).
    rewrite E2. simpl. by rewrite E3, E4, E5.
  - apply Hempty in E1. rewrite bool_decide_false by (intros ?; done).
    simpl. by rewrite E3, E4, E5.
  - rewrite E1, andb_false_r. by rewrite E3, E4, E5.
Qed.

Lemma basic_discrete_SIS_dies_out_witness :
  ∃ ts S I,
    Discrete.basic_discrete_SIS P4 1 (Some (Nodes [1; 2])) None (Fin 0)
      (Fin 100) false [] [[0%Q; 0%Q; 0%Q; 0%Q]] = Ok (ts, S, I, None)
    ∧ ∃ l, resolve_initial P4 (Some (Nodes [1; 2])) None [] = Ok l
         ∧ let k := Z.of_nat (length l) in
           if bool_decide (l ≠ []) && tlt (Fin 0) (Fin 100)
           then ts = [Fin 0; Fin 0 +ₜ Fin 1]
                ∧ S = [order P4 - k; order P4]%Z ∧ I = [k; 0]%Z
           else ts = [Fin 0] ∧ S = [order P4 - k]%Z ∧ I = [k].
Proof.
  eexists _, _, _. split; [vm_compute; reflexivity|].
  eapply (basic_discrete_SIS_dies_out P4 1 (Some (Nodes [1; 2])) None (Fin 0)
            (Fin 100) false [] [[0%Q; 0%Q; 0%Q; 0%Q]]).
  vm_compute. reflexivity.
Defined.

(** X11. The errors of the discrete-time entry points. [discrete_SIR] and
    [basic_discrete_SIS] raise [EoNError] whenever [rho] and
    [initial_infecteds] are both given, also for [rho = 0]. With
    [return_full_data] and [initial_recovereds], [discrete_SIR] reads the
    variable [node] of the loop over [initial_infecteds], so an empty
    [initial_infecteds] raises [NameError]. An initial infected that is
    not a node of the graph raises the error of [G.neighbors] as soon as
    the loop is entered. *)
Theorem discrete_entry_errors (G : Graph) (test : Discrete.test_fxn) (p : Q)
    (rho : Q) ii ir lr (tmin tmax : number) rfd smp ds :
  Discrete.discrete_SIR G test (Some ii) ir (Some rho) tmin tmax rfd smp ds
    = Raise EoNError
  ∧ Discrete.basic_discrete_SIS G p (Some ii) (Some rho) tmin tmax rfd smp ds
    = Raise EoNError
  ∧ Discrete.discrete_SIR G test (Some (Nodes [])) (Some lr) None tmin tmax
      true smp ds = Raise NameError
  ∧ ∀ u l g,
      G !! u = None → tlt tmin tmax = true →
      Discrete.discrete_SIR G test (Some (Nodes (u :: l))) ir None tmin tmax
        rfd smp (g :: ds) = Raise NetworkXError.
Proof.
  split; [done|]. split; [done|]. split; [done|].
  intros u l g Hu Hlt. unfold Discrete.discrete_SIR, Discrete.start.
  cbn [resolve_initial mbind result_bind bool_decide andb].
  assert (∃ nh,
    (if rfd then
       let node_history :=
         foldl (λ nh node, <[node := ([tmin], [Infected])]> nh)
           (∅ : gmap Node Auxiliary.history) (u :: l) in
       match ir with
       | Some _ =>
           match last (u :: l) with
           | Some node => Ok (<[node := ([tmin], [Recovered])]> node_history)
           | None => Raise NameError
           end
       | None => Ok node_history
       end
     else Ok ∅) = Ok nh) as [nh Hnh].
  { destruct rfd; [|by eexists]. destruct ir; [|by eexists].
    destruct (last (u :: l)) eqn:E; [by eexists|].
    by apply last_None in E. }
  simpl. simpl in Hnh. rewrite Hnh. simpl. rewrite Hlt. simpl.
  unfold Discrete.iteration, Discrete.spread. simpl.
  unfold neighbors. by rewrite Hu.
Qed.

Import GillespieSafety EventSafety EntryPoints.

(** X12. Once the loop of [Gillespie_SIR] or [Gillespie_SIS] is entered
    on an undirected graph, with distinct initial infecteds (none of them
    initially recovered), [tau >= 0] and [gamma > 0], no iteration raises
    an exception: in every state that the run reaches and whose loop test
    holds, the iteration returns, whatever outcomes the random functions
    give. So a run returns when it is given enough draws. *)
Theorem Gillespie_loop_never_raises (SIR : bool) G tau gamma ii ir rho tmin
    tmax rfd smp x lii l0 :
  undirected G →
  resolve_initial G ii rho smp = Ok lii → distinct_seeds SIR lii ir →
  (0 <= tau)%Q → (0 < gamma)%Q →
  Gillespie_start SIR G tau gamma ii ir rho tmin rfd smp x = Ok l0 →
  (∀ l d,
     reachable (Gillespie_iteration SIR G tau gamma rfd) tmax l0 l →
     Gillespie.loop_test tmax l = true → valid_draw d →
     ∃ l', Gillespie_iteration SIR G tau gamma rfd d l = Ok l')
  ∧ ∀ ds,
      Forall valid_draw ds →
      Gillespie.run_loop (Gillespie_iteration SIR G tau gamma rfd) tmax ds l0
        = BadDraw
      ∨ ∃ l', Gillespie.run_loop (Gillespie_iteration SIR G tau gamma rfd)
                tmax ds l0 = Ok l'.
Proof.
  intros HG Hres Hseeds Htau Hgam Hstart. split.
  - intros l d Hreach Htest Hd.
    destruct (reachable_safe _ _ _ _ _ _ _ _ _ _ _ _ _ _ _ HG Hres Hseeds
                Hgam Hstart Hreach) as (Hg & Hgs & Hser & Hlive).
    by eapply iteration_succeeds.
  - intros ds Hds. eapply run_loop_safe; try done. apply reach_start.
Qed.

Lemma Gillespie_loop_never_raises_witness :
  ∃ l0,
    Gillespie_start true G012 1 1 (Some (Nodes [0])) None None (Fin 0) false
      [] 1 = Ok l0
    ∧ (∀ l d,
         reachable (Gillespie_iteration true G012 1 1 false) Inf l0 l →
         Gillespie.loop_test Inf l = true → valid_draw d →
         ∃ l', Gillespie_iteration true G012 1 1 false d l = Ok l')
    ∧ ∀ ds,
        Forall valid_draw ds →
        Gillespie.run_loop (Gillespie_iteration true G012 1 1 false) Inf ds l0
          = BadDraw
        ∨ ∃ l', Gillespie.run_loop (Gillespie_iteration true G012 1 1 false)
                  Inf ds l0 = Ok l'.
Proof.
  eexists. split; [vm_compute; reflexivity|].
  eapply (Gillespie_loop_never_raises true G012 1 1 (Some (Nodes [0])) None
            None (Fin 0) Inf false [] 1 [0]).
  - exact G012_undirected.
  - reflexivity.
  - split; [apply NoDup_singleton|]. intros _ lr Hlr. discriminate Hlr.
  - discriminate.
  - reflexivity.
  - vm_compute. reflexivity.
Defined.

(** X13. The loops of [Gillespie_SIR] and [Gillespie_SIS] recompute
    [total_rec_rate] after a recovery only. When the loop is entered and
    after a recovery it is [gamma*len(infected)]; a transmission appends a
    node to [infected] and leaves [total_rec_rate] as it was, so the rate
    that the next choice of event uses is then too small by [gamma] for
    every transmission since the last recovery. *)
Theorem Gillespie_recovery_rate_lags (SIR : bool) G tau gamma ii ir rho tmin
    tmax rfd smp x l0 l d l' :
  Gillespie_start SIR G tau gamma ii ir rho tmin rfd smp x = Ok l0 →
  reachable (Gillespie_iteration SIR G tau gamma rfd) tmax l0 l →
  Gillespie_iteration SIR G tau gamma rfd d l = Ok l' →
  Gillespie.total_rec_rate l0
  = (gamma
     * inject_Z (Z.of_nat (length (Gillespie.infected (Gillespie.st l0)))))%Q
  ∧ if QMicromega.Qlt_bool (Gillespie.d_event d * Gillespie.total_rate l)
         (Gillespie.total_rec_rate l)
    then length (Gillespie.infected (Gillespie.st l))
         = S (length (Gillespie.infected (Gillespie.st l')))
         ∧ Gillespie.total_rec_rate l'
           = (gamma
              * inject_Z
                  (Z.of_nat
                     (length (Gillespie.infected (Gillespie.st l')))))%Q
    else length (Gillespie.infected (Gillespie.st l'))
         = S (length (Gillespie.infected (Gillespie.st l)))
         ∧ Gillespie.total_rec_rate l' = Gillespie.total_rec_rate l.
Proof.
  intros Hstart Hreach Hit. split; [by eapply start_rec_rate|].
  eapply iteration_rec_rate; [|done]. by eapply reachable_ilen.
Qed.

Lemma Gillespie_recovery_rate_lags_witness :
  ∃ l0 l1,
    Gillespie_start true G012 1 1 (Some (Nodes [0])) None None (Fin 0) false
      [] 1 = Ok l0
    ∧ Gillespie_iteration true G012 1 1 false draw_infect l0 = Ok l1
    ∧ Gillespie.infected (Gillespie.st l1) = [0; 1]
    ∧ Gillespie.total_rec_rate l1 = (1 * inject_Z 1)%Q
    ∧ Gillespie.total_rec_rate l0
      = (1 * inject_Z
               (Z.of_nat (length (Gillespie.infected (Gillespie.st l0)))))%Q
    ∧ if QMicromega.Qlt_bool
           (Gillespie.d_event draw_infect * Gillespie.total_rate l0)
           (Gillespie.total_rec_rate l0)
      then length (Gillespie.infected (Gillespie.st l0))
           = S (length (Gillespie.infected (Gillespie.st l1)))
           ∧ Gillespie.total_rec_rate l1
             = (1 * inject_Z
                      (Z.of_nat
                         (length (Gillespie.infected (Gillespie.st l1)))))%Q
      else length (Gillespie.infected (Gillespie.st l1))
           = S (length (Gillespie.infected (Gillespie.st l0)))
           ∧ Gillespie.total_rec_rate l1 = Gillespie.total_rec_rate l0.
Proof.
  eexists _, _. split; [vm_compute; reflexivity|].
  split; [vm_compute; reflexivity|]. split; [vm_compute; reflexivity|].
  split; [vm_compute; reflexivity|].
  eapply (Gillespie_recovery_rate_lags true G012 1 1 (Some (Nodes [0])) None
            None (Fin 0) Inf false [] 1).
  - vm_compute. reflexivity.
  - apply reach_start.
  - vm_compute. reflexivity.
Defined.

(** X14. In an SIR run no node goes back to an earlier status: an
    iteration of [Gillespie_SIR] and every event of [fast_nonMarkov_SIR]
    (which [fast_SIR] calls) leave each node where it was or move it from
    ['S'] to ['I'] or to ['R']. A recovered node stays recovered, also
    when it is recovered from the start. *)
Theorem SIR_status_never_goes_back (G : Graph) :
  (∀ tau gamma rfd d l l',
     Gillespie.SIR_iteration G tau gamma rfd d l = Ok l' →
     status_forward (Gillespie.status (Gillespie.st l))
       (Gillespie.status (Gillespie.st l')))
  ∧ (∀ ttf rtf jf ii ir rho tmin tmax Q smp s0 l s s',
       EventDriven.SIR_start G ttf rtf jf ii ir rho tmin tmax Q smp
         = Ok (s0, l) →
       drains s0 s → drains s s' →
       status_forward (EventDriven.status s) (EventDriven.status s')).
Proof.
  split.
  - intros tau gamma rfd d l l'. apply SIR_iteration_forward.
  - intros ttf rtf jf ii ir rho tmin tmax Q smp s0 l s s' Hstart H0 H.
    apply (drains_status_forward (order G)); [|done].
    eapply (drains_ind_inv (kinv E_SIR (order G))); [|done|].
    + intros. by eapply kinv_step.
    + by eapply SIR_start_kinv.
Qed.

Lemma SIR_status_never_goes_back_witness :
  ∃ s l s1 s2,
    EventDriven.SIR_start G012 None None (Some unit_delays_SIR)
      (Some (Nodes [0])) (Some [1]) None (Fin 0) (Fin 10) None [] = Ok (s, l)
    ∧ EventDriven.pop_and_run unit_draws s = Ok s1
    ∧ EventDriven.pop_and_run unit_draws s1 = Ok s2
    ∧ status_of (EventDriven.status s2) 1 = Recovered
    ∧ status_forward (EventDriven.status s) (EventDriven.status s2).
Proof.
  eexists _, _, _, _. split; [vm_compute; reflexivity|].
  split; [vm_compute; reflexivity|]. split; [vm_compute; reflexivity|].
  split; [vm_compute; reflexivity|].
  eapply (proj2 (SIR_status_never_goes_back G012)
            None None (Some unit_delays_SIR) (Some (Nodes [0])) (Some [1])
            None (Fin 0) (Fin 10) None []).
  - vm_compute. reflexivity.
  - apply drains_refl.
  - eapply (drains_step _ unit_draws);
      [eapply (drains_step _ unit_draws); [apply drains_refl|]|];
      vm_compute; reflexivity.
Defined.

(** X15. The SIS engines never give a node the status ['R']: in every
    state of the loop of [Gillespie_SIS] and after every event of
    [fast_SIS] and [fast_nonMarkov_SIS] each node is ['S'] or ['I']. *)
Theorem SIS_never_recovered (G : Graph) :
  (∀ tau gamma ii rho tmin tmax rfd smp x l0 l,
     Gillespie.SIS_start G tau gamma ii rho tmin rfd smp x = Ok l0 →
     reachable (Gillespie.SIS_iteration G tau gamma rfd) tmax l0 l →
     ∀ v, status_of (Gillespie.status (Gillespie.st l)) v ≠ Recovered)
  ∧ (∀ rates ii rho tmin tmax smp s0 l s,
       EventDriven.SIS_Markov_start G rates ii rho tmin tmax smp
         = Ok (s0, l) →
       drains s0 s →
       ∀ v, status_of (EventDriven.status s) v ≠ Recovered)
  ∧ (∀ ttf rtf jf ii rho tmin tmax smp s0 l s,
       EventDriven.SIS_nonMarkov_start G ttf rtf jf ii rho tmin tmax smp
         = Ok (s0, l) →
       drains s0 s →
       ∀ v, status_of (EventDriven.status s) v ≠ Recovered).
Proof.
  split; [|split].
  - intros tau gamma ii rho tmin tmax rfd smp x l0 l.
    apply SIS_reachable_not_recovered.
  - intros rates ii rho tmin tmax smp s0 l s Hstart H.
    eapply (drains_not_recovered E_SIS_Markov G s0 s); [done| |done|].
    + by eapply SIS_Markov_start_cinv.
    + by eapply SIS_Markov_start_status.
  - intros ttf rtf jf ii rho tmin tmax smp s0 l s Hstart H.
    eapply (drains_not_recovered E_SIS_nonMarkov G s0 s); [done| |done|].
    + by eapply SIS_nonMarkov_start_cinv.
    + by eapply SIS_nonMarkov_start_status.
Qed.

Lemma SIS_never_recovered_witness :
  ∃ s l s1 s2,
    EventDriven.SIS_Markov_start G012 (λ _ _, 1%Q, λ _, 1%Q)
      (Some (Nodes [0])) None (Fin 0) (Fin 10) [] = Ok (s, l)
    ∧ EventDriven.pop_and_run unit_draws s = Ok s1
    ∧ EventDriven.pop_and_run unit_draws s1 = Ok s2
    ∧ ∀ v, status_of (EventDriven.status s2) v ≠ Recovered.
Proof.
  eexists _, _, _, _. split; [vm_compute; reflexivity|].
  split; [vm_compute; reflexivity|]. split; [vm_compute; reflexivity|].
  eapply (proj1 (proj2 (SIS_never_recovered G012))
            (λ _ _, 1%Q, λ _, 1%Q) (Some (Nodes [0])) None (Fin 0) (Fin 10)
            []).
  - vm_compute. reflexivity.
  - eapply (drains_step _ unit_draws);
      [eapply (drains_step _ unit_draws); [apply drains_refl|]|];
      vm_compute; reflexivity.
Defined.

(** X16. A call without an infected node to start from, that is
    [initial_infecteds = []] or a [rho] for which [G.order()*rho] rounds
    to 0: [Gillespie_SIR] and [Gillespie_SIS] raise [ZeroDivisionError],
    from [random.expovariate(0)] before the loop; the event-driven
    engines return the series of the initial state, [[tmin]],
    [[G.order()]], [[0]] (and [[0]] for [R]). *)
Theorem no_initial_infecteds (G : Graph) tau gamma ii ir rho tmin tmax rfd
    smp x ds rates split_fxns joint_SIR_fxn joint_SIS_fxn eds :
  ii = None ∨ rho = None →
  resolve_initial G ii rho smp = Ok [] →
  Gillespie.Gillespie_SIR G tau gamma ii ir rho tmin tmax rfd smp x ds
    = Raise ZeroDivisionError
  ∧ Gillespie.Gillespie_SIS G tau gamma ii rho tmin tmax rfd smp x ds
    = Raise ZeroDivisionError
  ∧ EventDriven.fast_SIS G rates ii rho tmin tmax smp eds
    = Ok ([tmin], [order G], [0%Z])
  ∧ EventDriven.fast_nonMarkov_SIS G None None (Some joint_SIS_fxn) ii rho
      tmin tmax smp eds
    = Ok ([tmin], [order G], [0%Z])
  ∧ (rho = None ∨ ir = None →
     EventDriven.fast_nonMarkov_SIR G None None (Some joint_SIR_fxn) ii ir
       rho tmin tmax None smp eds
     = Ok ([tmin], [order G], [0%Z], [0%Z])
     ∧ EventDriven.fast_SIR G false split_fxns joint_SIR_fxn ii ir rho tmin
         tmax smp eds
       = Ok ([tmin], [order G], [0%Z], [0%Z])).
Proof.
  intros Hone Hres.
  pose proof (Gillespie_no_seed true G tau gamma ii ir rho tmin rfd smp x
                Hone Hres) as H1.
  pose proof (Gillespie_no_seed false G tau gamma ii ir rho tmin rfd smp x
                Hone Hres) as H2.
  simpl in H1, H2.
  split; [unfold Gillespie.Gillespie_SIR, Gillespie.SIR_run; by rewrite H1|].
  split; [unfold Gillespie.Gillespie_SIS, Gillespie.SIS_run; by rewrite H2|].
  split; [by apply fast_SIS_no_seed|].
  split; [by apply fast_nonMarkov_SIS_no_seed|].
  intros Hir. unfold EventDriven.fast_SIR.
  split; by apply fast_nonMarkov_SIR_no_seed.
Qed.

Lemma no_initial_infecteds_witness :
  Gillespie.Gillespie_SIR G012 1 1 None None (Some (1 # 10)) (Fin 0) Inf
    false [] 1 [] = Raise ZeroDivisionError
  ∧ Gillespie.Gillespie_SIS G012 1 1 None (Some (1 # 10)) (Fin 0) Inf false
      [] 1 [] = Raise ZeroDivisionError
  ∧ EventDriven.fast_SIS G012 (λ _ _, 1%Q, λ _, 1%Q) None (Some (1 # 10))
      (Fin 0) Inf [] [] = Ok ([Fin 0], [order G012], [0%Z])
  ∧ EventDriven.fast_nonMarkov_SIS G012 None None (Some unit_delays_SIS)
      None (Some (1 # 10)) (Fin 0) Inf [] []
    = Ok ([Fin 0], [order G012], [0%Z])
  ∧ (Some (1 # 10) = None ∨ @None (list Node) = None →
     EventDriven.fast_nonMarkov_SIR G012 None None (Some unit_delays_SIR)
       None None (Some (1 # 10)) (Fin 0) Inf None [] []
     = Ok ([Fin 0], [order G012], [0%Z], [0%Z])
     ∧ EventDriven.fast_SIR G012 false (λ _ _ _, Fin 1, λ _ _, Fin 2)
         unit_delays_SIR None None (Some (1 # 10)) (Fin 0) Inf [] []
       = Ok ([Fin 0], [order G012], [0%Z], [0%Z])).
Proof.
  apply (no_initial_infecteds G012 1 1 None None (Some (1 # 10)) (Fin 0) Inf
           false [] 1 [] (λ _ _, 1%Q, λ _, 1%Q) (λ _ _ _, Fin 1, λ _ _, Fin 2)
           unit_delays_SIR unit_delays_SIS []).
  - by left.
  - vm_compute. reflexivity.
Defined.

(** X17. An initial infected that is not a node of the graph makes the
    call fail with the error of [G.neighbors]: [Gillespie_SIR] and
    [Gillespie_SIS] raise it in the initialisation, for the first node of
    [initial_infecteds]; [fast_nonMarkov_SIR] and [fast_SIS] raise it at
    the first event, when [tmin < tmax] (for the SIR engine when the node
    is not initially recovered, for [fast_SIS] when the recovery rate of
    the node is positive, else [random.expovariate] fails before). *)
Theorem seed_not_in_graph (G : Graph) (u : Node) (l : list Node) :
  G !! u = None →
  (∀ tau gamma ir tmin tmax rfd smp x ds,
     Gillespie.Gillespie_SIR G tau gamma (Some (Nodes (u :: l))) ir None tmin
       tmax rfd smp x ds = Raise NetworkXError
     ∧ Gillespie.Gillespie_SIS G tau gamma (Some (Nodes (u :: l))) None tmin
         tmax rfd smp x ds = Raise NetworkXError)
  ∧ (∀ ttf rtf jf ir rho tmin tmax Q smp s l' d ds,
       EventDriven.SIR_start G ttf rtf jf (Some (Nodes (u :: l))) ir rho tmin
         tmax Q smp = Ok (s, l') →
       tmin <ₜ tmax → u ∉ default [] ir →
       EventDriven.fast_nonMarkov_SIR G ttf rtf jf (Some (Nodes (u :: l))) ir
         rho tmin tmax Q smp (d :: ds) = Raise NetworkXError)
  ∧ (∀ trf rrf tmin tmax smp d ds,
       tmin <ₜ tmax → (0 < rrf u)%Q → (0 <= EventDriven.d_rec d)%Q →
       EventDriven.fast_SIS G (trf, rrf) (Some (Nodes (u :: l))) None tmin
         tmax smp (d :: ds) = Raise NetworkXError).
Proof.
  intros Hu. split; [|split].
  - intros tau gamma ir tmin tmax rfd smp x ds.
    pose proof (Gillespie_seed_not_in_graph true G tau gamma u l ir tmin rfd
                  smp x Hu) as H1.
    pose proof (Gillespie_seed_not_in_graph false G tau gamma u l ir tmin rfd
                  smp x Hu) as H2.
    simpl in H1, H2.
    unfold Gillespie.Gillespie_SIR, Gillespie.SIR_run,
      Gillespie.Gillespie_SIS, Gillespie.SIS_run. by rewrite H1, H2.
  - intros ttf rtf jf ir rho tmin tmax Q smp s l' d ds Hstart Hlt Hir.
    unfold EventDriven.fast_nonMarkov_SIR. rewrite Hstart.
    cbn [mbind result_bind].
    by rewrite (SIR_drain_seed_not_in_graph _ _ _ _ _ _ _ _ _ _ _ _ _ _ d ds
                  Hstart Hu Hlt Hir).
  - intros trf rrf tmin tmax smp d ds Hlt Hr Hd.
    unfold EventDriven.fast_SIS.
    destruct (EventDriven.SIS_Markov_start G (trf, rrf)
                (Some (Nodes (u :: l))) None tmin tmax smp)
      as [[s l']| |] eqn:E; [|done..].
    cbn [mbind result_bind].
    by rewrite (SIS_drain_seed_not_in_graph _ _ _ _ _ _ _ _ _ _ _ d ds
                  E Hu Hlt Hr Hd).
Qed.

Lemma seed_not_in_graph_witness :
  (∀ tau gamma ir tmin tmax rfd smp x ds,
     Gillespie.Gillespie_SIR G012 tau gamma (Some (Nodes [7; 0])) ir None
       tmin tmax rfd smp x ds = Raise NetworkXError
     ∧ Gillespie.Gillespie_SIS G012 tau gamma (Some (Nodes [7; 0])) None tmin
         tmax rfd smp x ds = Raise NetworkXError)
  ∧ EventDriven.fast_nonMarkov_SIR G012 None None (Some unit_delays_SIR)
      (Some (Nodes [7; 0])) None None (Fin 0) (Fin 10) None [] [unit_draws]
    = Raise NetworkXError
  ∧ EventDriven.fast_SIS G012 (λ _ _, 1%Q, λ _, 1%Q) (Some (Nodes [7; 0]))
      None (Fin 0) (Fin 10) [] [unit_draws] = Raise NetworkXError.
Proof.
  destruct (seed_not_in_graph G012 7 [0] eq_refl) as (H1 & H2 & H3).
  split; [exact H1|]. split.
  - eapply (H2 None None (Some unit_delays_SIR) None None (Fin 0) (Fin 10)
              None []).
    + vm_compute. reflexivity.
    + reflexivity.
    + apply not_elem_of_nil.
  - apply (H3 (λ _ _, 1%Q) (λ _, 1%Q) (Fin 0) (Fin 10) [] unit_draws []).
    + reflexivity.
    + reflexivity.
    + discriminate.
Defined.

Import PercolationProofs.

(** X18. [percolate_network(G, p)] returns a graph [H] on the nodes of
    [G] whose edges are edges of [G]: [H] is undirected without parallel
    edges, every neighbour in [H] is a node of [H], and two nodes that are
    neighbours in [H] are neighbours in [G]. With [p <= 0] no edge is kept,
    and with [p >= 1] every edge of an undirected [G] is kept. *)
Theorem percolate_network_subgraph (G : Graph) (p : Q) (g : Discrete.rng) :
  length (Percolation.edges G) ≤ length g → Forall unit_draw g →
  ∃ H, Percolation.percolate_network G p g = Ok H
       ∧ undirected H ∧ closed H
       ∧ (∀ n, n ∈ nodes G → n ∈ nodes H)
       ∧ (closed G → ∀ n, n ∈ nodes H → n ∈ nodes G)
       ∧ (∀ u v, v ∈ nbrs H u → v ∈ nbrs G u ∨ u ∈ nbrs G v)
       ∧ ((p <= 0)%Q → ∀ u, nbrs H u = [])
       ∧ ((1 <= p)%Q → undirected G →
          ∀ u v, v ∈ nbrs G u → v ∈ nbrs H u).
Proof.
  intros Hlen Hg.
  destruct (keep_edge_loop_returns p (Percolation.edges G)
              (Percolation.add_nodes_from (nodes G) ∅) g Hlen Hg)
    as (H & g' & Hrun).
  assert (Percolation.percolate_network G p g = Ok H) as HH.
  { unfold Percolation.percolate_network. by rewrite Hrun. }
  exists H. split; [done|].
  destruct (percolate_network_spec G p g H HH) as (Hinv & Hp0 & Hp1).
  destruct (percolated_undirected G H Hinv) as [Hu Hc].
  destruct Hinv as (_ & _ & Hsub & _ & Hn1 & Hn2).
  split; [done|]. split; [done|]. split.
  { intros n. rewrite !elem_of_nodes. apply Hn1. }
  split.
  { intros HcG n. rewrite !elem_of_nodes. by apply Hn2. }
  split; [done|]. split; [done|].
  intros Hp HG. apply (Hp1 Hp). intros a b. by apply nbrs_sym.
Qed.

Lemma percolate_network_subgraph_witness :
  ∃ H, Percolation.percolate_network G012 (1 # 2) [1 # 10] = Ok H
       ∧ undirected H ∧ closed H
       ∧ (∀ n, n ∈ nodes G012 → n ∈ nodes H)
       ∧ (closed G012 → ∀ n, n ∈ nodes H → n ∈ nodes G012)
       ∧ (∀ u v, v ∈ nbrs H u → v ∈ nbrs G012 u ∨ u ∈ nbrs G012 v)
       ∧ (((1 # 2) <= 0)%Q → ∀ u, nbrs H u = [])
       ∧ ((1 <= 1 # 2)%Q → undirected G012 →
          ∀ u v, v ∈ nbrs G012 u → v ∈ nbrs H u).
Proof.
  apply (percolate_network_subgraph G012 (1 # 2) [1 # 10]).
  - vm_compute. lia.
  - repeat constructor; done.
Defined.

(** X19. [percolation_based_discrete_SIR] infects the nodes that the
    percolated network [H] connects to the initial infecteds, and no
    other: when the run has died out ([I[-1] == 0]), from distinct initial
    infecteds that are nodes and without initially recovered nodes,
    [R[-1]] is the number of nodes that a path of [H] links to an initial
    infected, and [S[-1]] is the number of the other nodes. *)
Theorem percolation_SIR_final_size (G H : Graph) (p : Q) ii ir rho
    (tmin tmax : number) rfd smp g ds l ts S I R nh :
  Percolation.percolate_network G p g = Ok H →
  resolve_initial H ii rho smp = Ok l → NoDup l → l ⊆ nodes H →
  default [] ir = [] →
  Percolation.percolation_based_discrete_SIR G p ii ir rho tmin tmax rfd smp
    g ds = Ok (ts, S, I, R, nh) →
  last I = Some 0%Z →
  ∃ comp, NoDup comp ∧ (∀ v, v ∈ comp ↔ connected_to H l v)
          ∧ last R = Some (Z.of_nat (length comp))
          ∧ last S = Some (order H - Z.of_nat (length comp))%Z.
Proof.
  intros HH Hres Hnd Hsub Hir Hrun HI.
  unfold Percolation.percolation_based_discrete_SIR in Hrun.
  rewrite HH in Hrun. cbn [mbind result_bind] in Hrun.
  destruct (percolate_network_spec G p g H HH) as (Hinv & _).
  destruct (percolated_undirected G H Hinv) as [_ Hcl].
  destruct (discrete_SIR_bfs True H (Percolation.edge_test H) _ _ _ _ _ _ _ _
              _ _ _ _ _ _ Hcl (λ _, edge_test_certain H) Hres Hnd Hsub Hir
              Hrun) as (s & Hinv' & -> & -> & -> & Hnone).
  specialize (Hnone HI).
  destruct (bfs_counts True H l s Hinv')
    as (Hnd' & Hsound & il & rl & EI & ER & Hsum & ES).
  exists (reached H s). split; [done|]. split.
  { intros v. split; [by apply Hsound|]. intros Hv. apply elem_of_reached.
    split; [by eapply connected_to_nodes|by eapply bfs_complete]. }
  rewrite EI in HI. injection HI as ->. rewrite ER, ES.
  split; [f_equal; lia|done].
Qed.

Lemma percolation_SIR_final_size_witness :
  ∃ H ts S I R,
    Percolation.percolate_network G012 (1 # 2) [1 # 10] = Ok H
    ∧ Percolation.percolation_based_discrete_SIR G012 (1 # 2)
        (Some (Nodes [0])) None None (Fin 0) Inf false [] [1 # 10] [[]; []]
      = Ok (ts, S, I, R, None)
    ∧ R = [0; 1; 2]%Z
    ∧ ∃ comp, NoDup comp ∧ (∀ v, v ∈ comp ↔ connected_to H [0] v)
              ∧ last R = Some (Z.of_nat (length comp))
              ∧ last S = Some (order H - Z.of_nat (length comp))%Z.
Proof.
  eexists _, _, _, _, _. split; [vm_compute; reflexivity|].
  split; [vm_compute; reflexivity|]. split; [reflexivity|].
  eapply (percolation_SIR_final_size G012 _ (1 # 2) (Some (Nodes [0])) None
            None (Fin 0) Inf false [] [1 # 10] [[]; []] [0]).
  - vm_compute. reflexivity.
  - reflexivity.
  - apply NoDup_singleton.
  - apply (bool_decide_unpack _). vm_compute. exact I.
  - reflexivity.
  - vm_compute. reflexivity.
  - reflexivity.
Defined.

(** X20. In a run of [discrete_SIR] (hence of [basic_discrete_SIR]) the
    infection travels along edges only, whatever the transmission test:
    on a graph whose neighbours are nodes, from distinct initial infecteds
    that are nodes and without initially recovered nodes, the nodes that
    are no longer susceptible at the end include the initial infecteds,
    are all connected to one of them by a path, [I[-1] + R[-1]] is their
    number [k], and [S[-1] = N - k]. *)
Theorem discrete_SIR_within_components (G : Graph)
    (test : Discrete.test_fxn) ii ir rho (tmin tmax : number) rfd smp ds l
    ts S I R nh :
  closed G →
  resolve_initial G ii rho smp = Ok l → NoDup l → l ⊆ nodes G →
  default [] ir = [] →
  Discrete.discrete_SIR G test ii ir rho tmin tmax rfd smp ds
    = Ok (ts, S, I, R, nh) →
  ∃ hit, NoDup hit ∧ l ⊆ hit
         ∧ (∀ v, v ∈ hit → v ∈ nodes G ∧ connected_to G l v)
         ∧ (∃ il rl, last I = Some il ∧ last R = Some rl
                     ∧ (il + rl = Z.of_nat (length hit))%Z)
         ∧ last S = Some (order G - Z.of_nat (length hit))%Z.
Proof.
  intros Hcl Hres Hnd Hsub Hir Hrun.
  destruct (discrete_SIR_bfs False G test _ _ _ _ _ _ _ _ _ _ _ _ _ _ Hcl
              (λ H : False, match H with end) Hres Hnd Hsub Hir Hrun)
    as (s & Hinv & -> & -> & -> & _).
  destruct (bfs_counts False G l s Hinv)
    as (Hnd' & Hsound & il & rl & EI & ER & Hsum & ES).
  exists (reached G s). split; [done|]. split.
  { intros v Hv. apply elem_of_reached. split; [by apply Hsub|].
    destruct Hinv as (_ & _ & _ & Hseeds & _). by apply Hseeds. }
  split.
  { intros v Hv. split; [|by apply Hsound].
    by apply elem_of_reached in Hv as [? _]. }
  split; [by exists il, rl|done].
Qed.

Lemma discrete_SIR_within_components_witness :
  ∃ ts S I R,
    Discrete.basic_discrete_SIR P4 (1 # 2) (Some (Nodes [0])) None None
      (Fin 0) (Fin 2) false [] (replicate 4 [1 # 10; 1 # 10])
    = Ok (ts, S, I, R, None)
    ∧ S = [3; 2; 1]%Z
    ∧ ∃ hit, NoDup hit ∧ [0] ⊆ hit
         ∧ (∀ v, v ∈ hit → v ∈ nodes P4 ∧ connected_to P4 [0] v)
         ∧ (∃ il rl, last I = Some il ∧ last R = Some rl
                     ∧ (il + rl = Z.of_nat (length hit))%Z)
         ∧ last S = Some (order P4 - Z.of_nat (length hit))%Z.
Proof.
  eexists _, _, _, _. split; [vm_compute; reflexivity|].
  split; [reflexivity|].
  eapply (discrete_SIR_within_components P4
            (Discrete._simple_test_transmission_ (1 # 2))
            (Some (Nodes [0])) None None (Fin 0) (Fin 2) false []
            (replicate 4 [1 # 10; 1 # 10]) [0]).
  - apply (bool_decide_unpack _). vm_compute. exact I.
  - reflexivity.
  - apply NoDup_singleton.
  - apply (bool_decide_unpack _). vm_compute. exact I.
  - reflexivity.
  - vm_compute. reflexivity.
Defined.

Import FullDataProofs.

(** X21. [Gillespie_SIR] with [return_full_data] passes the dicts of
    lists [infection_times] and [recovery_times] to
    [_transform_to_node_history_] in place of [infection_time] and
    [recovery_time]. The four series are those of [Gillespie.Gillespie_SIR],
    the embedding that leaves [node_history] out. No entry of
    [node_history] is a list of times with the list of the statuses at
    those times: every entry starts with [tmin] and ['S'], the initial
    infecteds included, and goes on with the list of the infection times of
    the node and the list of its recovery times, each as one element. On
    dicts of times the same code is [_transform_to_node_history_SIR]. *)
Theorem Gillespie_SIR_full_data_lists (G : Graph) tau gamma ii ir rho
    (tmin tmax : number) smp x ds lii ts S I R nh :
  resolve_initial G ii rho smp = Ok lii →
  FullData.Gillespie_SIR_full_data G tau gamma ii ir rho tmin tmax smp x ds
    = Ok (ts, S, I, R, nh) →
  Gillespie.Gillespie_SIR G tau gamma ii ir rho tmin tmax true smp x ds
    = Ok (ts, S, I, R)
  ∧ (∀ u, u ∈ lii → is_Some (nh !! u))
  ∧ (∀ n h, nh !! n = Some h →
       ¬ flat_entry h
       ∧ ∃ L rest, h.1 = FullData.a_time tmin :: FullData.a_list L :: rest
                   ∧ head h.2 = Some Susceptible)
  ∧ ∀ infection_time recovery_time,
      FullData._transform_to_node_history_
        (prod_map id FullData.a_time <$> infection_time)
        (prod_map id FullData.a_time <$> recovery_time) tmin
      = (λ h : Auxiliary.history, (FullData.a_time <$> h.1, h.2))
          <$> Auxiliary._transform_to_node_history_SIR infection_time
                recovery_time tmin.
Proof.
  intros Hres Hrun. unfold FullData.Gillespie_SIR_full_data in Hrun.
  bind_ok Hrun as l El. bind_ok Hrun as it Eit. bind_ok Hrun as rt Ert.
  injection Hrun as <- <- <- <- <-.
  split; [unfold Gillespie.Gillespie_SIR; by rewrite El|].
  assert (∀ n h,
    FullData._transform_to_node_history_
      (FullData.items (Gillespie.infection_times (Gillespie.st l)))
      (FullData.items (Gillespie.recovery_times (Gillespie.st l))) tmin !! n
    = Some h →
    ∃ L rest, h.1 = FullData.a_time tmin :: FullData.a_list L :: rest
              ∧ head h.2 = Some Susceptible) as Hshape.
  { intros n h. rewrite transform_lists_lookup.
    destruct (Gillespie.infection_times (Gillespie.st l) !! n) as [Li|],
      (Gillespie.recovery_times (Gillespie.st l) !! n) as [Lr|];
      intros [= <-]; by eexists _, _. }
  split; [|split; [|intros; apply transform_at_times]].
  - intros u Hu. rewrite transform_lists_lookup.
    destruct (SIR_run_infection_times _ _ _ _ _ _ _ _ _ _ _ _ _ Hres El u Hu)
      as [Li ->].
    by destruct (Gillespie.recovery_times (Gillespie.st l) !! u).
  - intros n h Hn. split; [|exact (Hshape n h Hn)].
    destruct (Hshape n h Hn) as (L & rest & Hh & _).
    intros [_ Hflat]. destruct (Hflat (FullData.a_list L)) as [t Ht]; [|done].
    rewrite Hh. right. left.
Qed.

Lemma Gillespie_SIR_full_data_lists_witness :
  ∃ ts S I R nh,
    FullData.Gillespie_SIR_full_data G01 1 1 (Some (Nodes [0])) None None
      (Fin 0) Inf [] 1 [draw_recover] = Ok (ts, S, I, R, nh)
    ∧ nh !! 0
      = Some ([FullData.a_time (Fin 0); FullData.a_list [Fin 0];
               FullData.a_list [Fin 1]],
              [Susceptible; Infected; Recovered])
    ∧ Gillespie.Gillespie_SIR G01 1 1 (Some (Nodes [0])) None None (Fin 0)
        Inf true [] 1 [draw_recover] = Ok (ts, S, I, R)
    ∧ (∀ u, u ∈ [0] → is_Some (nh !! u))
    ∧ (∀ n h, nh !! n = Some h →
         ¬ flat_entry h
         ∧ ∃ L rest,
             h.1 = FullData.a_time (Fin 0) :: FullData.a_list L :: rest
             ∧ head h.2 = Some Susceptible)
    ∧ ∀ infection_time recovery_time,
        FullData._transform_to_node_history_
          (prod_map id FullData.a_time <$> infection_time)
          (prod_map id FullData.a_time <$> recovery_time) (Fin 0)
        = (λ h : Auxiliary.history, (FullData.a_time <$> h.1, h.2))
            <$> Auxiliary._transform_to_node_history_SIR infection_time
                  recovery_time (Fin 0).
Proof.
  eexists _, _, _, _, _. split; [vm_compute; reflexivity|].
  split; [vm_compute; reflexivity|].
  eapply (Gillespie_SIR_full_data_lists G01 1 1 (Some (Nodes [0])) None None
            (Fin 0) Inf [] 1 [draw_recover] [0]).
  - reflexivity.
  - vm_compute. reflexivity.
Defined.

Import HorizonProofs.




